(** * The TypeRunner type compiler ([src/checker/compiler.h]) in Rocq

    A shallow embedding of the compiler core: the per-subroutine opcode
    buffer with its section tree and tail analysis, the symbol and frame
    table, the storage table, the lowering of the syntax tree and the
    final image serializer, followed by the properties proved about them.

    Conventions of the embedding.
    - An [unsigned int] is a [Z] kept in [0, 2^32) by [u32] wherever the
      source computes or converts; an [int] is a [Z] normalised by [i32].
    - A [vector<unsigned char>] is a [list Z] of bytes.
    - A C++ [throw runtime_error(msg)] is the outcome [Throw msg]; an
      access the C++ standard leaves undefined (a vector indexed out of
      range, a null pointer dereferenced, [back()] of an empty vector, a
      recursion that never returns) is the outcome [Undef].
    - Shared pointers to subroutines are positions in the vector
      [subroutines], which holds every subroutine ever created; the frame
      a symbol belongs to is named by the frame's [id], which is unique
      along a chain of frames. *)

From Stdlib Require Import ZArith Ascii String List Lia Bool.
From stdpp Require Import base tactics option list strings numbers.

Open Scope Z_scope.
Set Warnings "-register-all".

(** ** Outcomes and the state monad of the compiler *)

Inductive result (A : Type) : Type :=
| Ok (a : A)
| Throw (msg : string)
| Undef.
Arguments Ok {A} a.
Arguments Throw {A} msg.
Arguments Undef {A}.

Definition M (S A : Type) : Type := S -> result (A * S).

Definition ret {S A : Type} (a : A) : M S A := fun s => Ok (a, s).

Definition bind {S A B : Type} (m : M S A) (f : A -> M S B) : M S B :=
  fun s =>
    match m s with
    | Ok (a, s') => f a s'
    | Throw msg => Throw msg
    | Undef => Undef
    end.

Definition gets {S A : Type} (f : S -> A) : M S A := fun s => Ok (f s, s).
Definition modify {S : Type} (f : S -> S) : M S unit := fun s => Ok (tt, f s).
Definition throw {S A : Type} (msg : string) : M S A := fun _ => Throw msg.
Definition undef {S A : Type} : M S A := fun _ => Undef.

(** A value that may be missing because the access is undefined. *)
Definition defined {S A : Type} (o : option A) : M S A :=
  match o with
  | Some a => ret a
  | None => undef
  end.

Declare Scope compiler_scope.
Delimit Scope compiler_scope with compiler.
Notation "x <- c1 ;; c2" := (bind c1 (fun x => c2))
  (at level 100, c1 at next level, right associativity) : compiler_scope.
Notation "c1 ;; c2" := (bind c1 (fun _ => c2))
  (at level 100, right associativity) : compiler_scope.
Open Scope compiler_scope.

(** [for (auto &&x : l) f(x);] *)
Definition forM_ {S A : Type} (f : A -> M S unit) : list A -> M S unit :=
  fix go (l : list A) : M S unit :=
    match l with
    | [] => ret tt
    | x :: rest => f x ;; go rest
    end.

Definition when {S : Type} (b : bool) (m : M S unit) : M S unit :=
  if b then m else ret tt.

(** ** Machine integers *)

Definition u32 (x : Z) : Z := x mod 2 ^ 32.
Definition u16 (x : Z) : Z := x mod 2 ^ 16.
(** Conversion to [int] / [int32_t] (two's complement). *)
Definition i32 (x : Z) : Z := (x + 2 ^ 31) mod 2 ^ 32 - 2 ^ 31.

(** [v.size()] read as an [unsigned int]. *)
Definition size {A : Type} (l : list A) : Z := u32 (Z.of_nat (length l)).

(** [v[i]] for a vector [v]; [None] when [i] is out of range. *)
Definition at_ {A : Type} (l : list A) (i : Z) : option A :=
  if (0 <=? i) && (i <? Z.of_nat (length l)) then l !! Z.to_nat i else None.

(** [v[i] = x]; [None] when [i] is out of range. *)
Definition store {A : Type} (l : list A) (i : Z) (x : A) : option (list A) :=
  if (0 <=? i) && (i <? Z.of_nat (length l)) then Some (<[Z.to_nat i := x]> l) else None.

(** ** Opcodes, symbol kinds and error codes *)

Module OP.
Inductive t : Set :=
| Noop | Jump | Halt | SourceMap | Main | Subroutine
| Frame | FrameEnd | FrameReturnJump | Return | Call | TailCall
| Rest | RestReuse
| Any | Null | Undefined | Never | Unknown | Boolean | String | Number
| True_ | False_ | BigIntLiteral | NumberLiteral | StringLiteral
| Length | IndexAccess | TemplateLiteral | Union | Intersection | Class
| Tuple | TupleMember | Array | ObjectLiteral | PropertySignature
| Optional | Readonly | Parameter_ | Initializer | Function | FunctionRef
| TypeArgument | TypeArgumentDefault | Instantiate | CallExpression
| Extends | JumpCondition | Distribute | Loads | Error | Set_ | Assign | Widen.

Definition eq_dec (a b : t) : {a = b} + {a <> b}.
Proof. decide equality. Defined.

Definition eqb (a b : t) : bool := if eq_dec a b then true else false.
End OP.

Module SymbolType.
Inductive t : Set :=
| Variable_ | Function | Class | Inline | Type_ | TypeArgument | TypeVariable.

Definition eq_dec (a b : t) : {a = b} + {a <> b}.
Proof. decide equality. Defined.

Definition eqb (a b : t) : bool := if eq_dec a b then true else false.
End SymbolType.

Module ErrorCode.
Inductive t : Set := CannotFind.
End ErrorCode.

(** Modelled from the spec: [instructions.h] (the numbering of [OP] and of
    [ErrorCode]) and the content hash [hash::runtime_hash] of [utils.h] are
    not among the sources.  The compiler only needs the identity of each
    opcode, so the numbering is a parameter: any assignment of distinct
    bytes to the opcodes; the hash is an opaque function to a [u64]. *)
Class Encoding : Type := {
  op_code : OP.t -> Z;
  op_code_byte : forall o, 0 <= op_code o < 256;
  op_code_inj : forall a b, op_code a = op_code b -> a = b;
  error_code : ErrorCode.t -> Z;
  runtime_hash : string -> Z;
}.

(** ** The encoder ([vm::writeUint16] and friends) *)

(** The [n] little-endian bytes of [v] (of its two's complement when [v]
    is negative). *)
Fixpoint le_bytes (n : nat) (v : Z) : list Z :=
  match n with
  | O => []
  | S n' => v mod 256 :: le_bytes n' (v / 256)
  end.

(** The unsigned number a little-endian byte string stands for. *)
Fixpoint le_value (bs : list Z) : Z :=
  match bs with
  | [] => 0
  | b :: rest => b + 256 * le_value rest
  end.

(** The bytes of [bin] from [offset], [n] of them. *)
Definition slice (bin : list Z) (offset : Z) (n : nat) : list Z :=
  take n (drop (Z.to_nat offset) bin).

Definition readUint16 (bin : list Z) (offset : Z) : Z := le_value (slice bin offset 2).
Definition readUint32 (bin : list Z) (offset : Z) : Z := le_value (slice bin offset 4).
Definition readInt32 (bin : list Z) (offset : Z) : Z := i32 (readUint32 bin offset).

(** Modelled from the spec: [vm::writeUint16/32/64] and [vm::writeInt32]
    of [utils.h] are not among the sources.  The spec (4.A) has them write
    little-endian either at the current end of the buffer, which grows by
    the width written, or at a previously recorded position inside it,
    which is overwritten in place.  Any other offset is left undefined. *)
Definition write_at (bin : list Z) (offset : Z) (bs : list Z) : option (list Z) :=
  if offset =? Z.of_nat (length bin) then Some (bin ++ bs)
  else if (0 <=? offset) && (offset + Z.of_nat (length bs) <=? Z.of_nat (length bin))
       then Some (take (Z.to_nat offset) bin ++ bs
                    ++ drop (Z.to_nat offset + length bs) bin)
       else None.

Definition writeUint16 (bin : list Z) (offset v : Z) : option (list Z) :=
  write_at bin offset (le_bytes 2 v).
Definition writeUint32 (bin : list Z) (offset v : Z) : option (list Z) :=
  write_at bin offset (le_bytes 4 v).
Definition writeInt32 (bin : list Z) (offset v : Z) : option (list Z) :=
  write_at bin offset (le_bytes 4 v).
Definition writeUint64 (bin : list Z) (offset v : Z) : option (list Z) :=
  write_at bin offset (le_bytes 8 v).

(** ** Source maps, symbols and sections *)

Module SourceMapEntry.
Record t : Set := mk { bytecodePos : Z; sourcePos : Z; sourceEnd : Z }.
End SourceMapEntry.

(** [struct SourceMap]: the vector [map]; [push] appends an entry. *)
Module SourceMap.
Definition t : Set := list SourceMapEntry.t.
Definition push (bytecodePos sourcePos sourceEnd : Z) (m : t) : t :=
  m ++ [SourceMapEntry.mk (u32 bytecodePos) (u32 sourcePos) (u32 sourceEnd)].
End SourceMap.

Module TypeArgumentUsage.
Record t : Set := mk { symbolIndex : Z; ip : Z }.
End TypeArgumentUsage.

Module Symbol.
Record t : Set := mk {
  name : string;
  type : SymbolType.t;
  index : Z;            (* symbol index of the current frame *)
  pos : Z;
  end_ : Z;
  declarations : Z;
  routine : option nat; (* position in [subroutines], [None] for nullptr *)
  frame : Z;            (* the [id] of the frame the symbol lives in *)
}.

Definition with_declarations (v : Z) (s : t) : t :=
  mk (name s) (type s) (index s) (pos s) (end_ s) v (routine s) (frame s).
Definition with_routine (v : option nat) (s : t) : t :=
  mk (name s) (type s) (index s) (pos s) (end_ s) (declarations s) v (frame s).
End Symbol.

Module Section.
Record t : Set := mk {
  start : Z;
  end_ : Z;
  lastOp : OP.t;
  ops : Z;
  isBlockTailCall : bool;
  hasChild : bool;
  typeArgumentUsages : list TypeArgumentUsage.t;
  next : Z;
  up : Z;
}.

Definition with_end (v : Z) (s : t) : t :=
  mk (start s) v (lastOp s) (ops s) (isBlockTailCall s) (hasChild s)
     (typeArgumentUsages s) (next s) (up s).
Definition with_lastOp (v : OP.t) (s : t) : t :=
  mk (start s) (end_ s) v (ops s) (isBlockTailCall s) (hasChild s)
     (typeArgumentUsages s) (next s) (up s).
Definition with_ops (v : Z) (s : t) : t :=
  mk (start s) (end_ s) (lastOp s) v (isBlockTailCall s) (hasChild s)
     (typeArgumentUsages s) (next s) (up s).
Definition with_isBlockTailCall (v : bool) (s : t) : t :=
  mk (start s) (end_ s) (lastOp s) (ops s) v (hasChild s)
     (typeArgumentUsages s) (next s) (up s).
Definition with_hasChild (v : bool) (s : t) : t :=
  mk (start s) (end_ s) (lastOp s) (ops s) (isBlockTailCall s) v
     (typeArgumentUsages s) (next s) (up s).
Definition with_typeArgumentUsages (v : list TypeArgumentUsage.t) (s : t) : t :=
  mk (start s) (end_ s) (lastOp s) (ops s) (isBlockTailCall s) (hasChild s)
     v (next s) (up s).
Definition with_next (v : Z) (s : t) : t :=
  mk (start s) (end_ s) (lastOp s) (ops s) (isBlockTailCall s) (hasChild s)
     (typeArgumentUsages s) v (up s).
Definition with_up (v : Z) (s : t) : t :=
  mk (start s) (end_ s) (lastOp s) (ops s) (isBlockTailCall s) (hasChild s)
     (typeArgumentUsages s) (next s) v.

(** [explicit Section(unsigned int start, unsigned int up = -1)].  The
    member [isBlockTailCall] has no initialiser in the source; the model
    starts it at [false]. *)
Definition new (start : Z) (up : Z) : t :=
  mk start 0 OP.Noop 0 false false [] (-1) (i32 up).

(** The loop of [registerTypeArgumentUsage] over [typeArgumentUsages],
    ended by the [emplace_back] when no entry matched. *)
Fixpoint registerUsage (symbolIndex ip : Z) (usages : list TypeArgumentUsage.t)
  : list TypeArgumentUsage.t :=
  match usages with
  | [] => [TypeArgumentUsage.mk symbolIndex ip]
  | usage :: rest =>
      if TypeArgumentUsage.symbolIndex usage =? symbolIndex
      then TypeArgumentUsage.mk ip (TypeArgumentUsage.ip usage) :: rest
      else usage :: registerUsage symbolIndex ip rest
  end.

Definition registerTypeArgumentUsage (symbol : Symbol.t) (ip : Z) (s : t) : t :=
  with_typeArgumentUsages (registerUsage (Symbol.index symbol) ip (typeArgumentUsages s)) s.
End Section.

(** ** Subroutines: opcode buffer, section tree, tail analysis *)

Module Subroutine.
Record t : Set := mk {
  ops : list Z;                 (* OPs, and their parameters *)
  sourceMap : SourceMap.t;
  identifier : string;
  index : Z;
  nameAddress : Z;
  type : SymbolType.t;
  sections : list Section.t;
  activeSection : Z;
  isIgnoreNextSectionOP : bool;
}.

Definition with_ops (v : list Z) (s : t) : t :=
  mk v (sourceMap s) (identifier s) (index s) (nameAddress s) (type s)
     (sections s) (activeSection s) (isIgnoreNextSectionOP s).
Definition with_sourceMap (v : SourceMap.t) (s : t) : t :=
  mk (ops s) v (identifier s) (index s) (nameAddress s) (type s)
     (sections s) (activeSection s) (isIgnoreNextSectionOP s).
Definition with_index (v : Z) (s : t) : t :=
  mk (ops s) (sourceMap s) (identifier s) v (nameAddress s) (type s)
     (sections s) (activeSection s) (isIgnoreNextSectionOP s).
Definition with_nameAddress (v : Z) (s : t) : t :=
  mk (ops s) (sourceMap s) (identifier s) (index s) v (type s)
     (sections s) (activeSection s) (isIgnoreNextSectionOP s).
Definition with_type (v : SymbolType.t) (s : t) : t :=
  mk (ops s) (sourceMap s) (identifier s) (index s) (nameAddress s) v
     (sections s) (activeSection s) (isIgnoreNextSectionOP s).
Definition with_sections (v : list Section.t) (s : t) : t :=
  mk (ops s) (sourceMap s) (identifier s) (index s) (nameAddress s) (type s)
     v (activeSection s) (isIgnoreNextSectionOP s).
Definition with_activeSection (v : Z) (s : t) : t :=
  mk (ops s) (sourceMap s) (identifier s) (index s) (nameAddress s) (type s)
     (sections s) v (isIgnoreNextSectionOP s).
Definition with_isIgnoreNextSectionOP (v : bool) (s : t) : t :=
  mk (ops s) (sourceMap s) (identifier s) (index s) (nameAddress s) (type s)
     (sections s) (activeSection s) v.

Definition ip (s : t) : Z := size (ops s).

(** [explicit Subroutine()] and [explicit Subroutine(string_view &identifier)]:
    both open the root section at [ip()], which is 0. *)
Definition new (identifier : string) : t :=
  mk [] [] identifier 0 0 SymbolType.Type_ [Section.new 0 (u32 (-1))] 0 false.

(** [sections[i]] updated in place by [f]. *)
Definition alterSection (i : Z) (f : Section.t -> Section.t) : M t unit :=
  fun s =>
    match at_ (sections s) i with
    | Some sec => Ok (tt, with_sections (<[Z.to_nat i := f sec]> (sections s)) s)
    | None => Undef
    end.

Definition registerTypeArgumentUsage (symbol : Symbol.t) : M t unit :=
  fun s => alterSection (activeSection s) (Section.registerTypeArgumentUsage symbol (ip s)) s.

Definition ignoreNextSectionOP : M t unit :=
  modify (with_isIgnoreNextSectionOP true).

Definition blockTailCall : M t unit :=
  fun s => alterSection (activeSection s) (Section.with_isBlockTailCall true) s.

Definition pushOp {enc : Encoding} (op : OP.t) : M t unit :=
  modify (fun s => with_ops (ops s ++ [op_code op]) s) ;;
  ignore <- gets isIgnoreNextSectionOP ;;
  when (negb ignore)
    (fun s => alterSection (activeSection s)
                (fun sec => Section.with_ops (u32 (Section.ops sec + 1))
                              (Section.with_lastOp op sec)) s) ;;
  modify (with_isIgnoreNextSectionOP false).

Definition pushSection : M t unit :=
  (fun s => alterSection (activeSection s) (Section.with_hasChild true) s) ;;
  modify (fun s => with_sections (sections s ++ [Section.new (ip s) (activeSection s)]) s) ;;
  modify (fun s => with_activeSection (u32 (Z.of_nat (length (sections s)) - 1)) s).

Definition end_ : M t unit :=
  fun s => alterSection (activeSection s) (Section.with_end (ip s)) s.

Definition popSection : M t unit :=
  back <- (fun s => defined (at_ (sections s) (Z.of_nat (length (sections s)) - 1)) s) ;;
  (fun s => alterSection (Z.of_nat (length (sections s)) - 1) (Section.with_end (ip s)) s) ;;
  modify (with_activeSection (u32 (Section.up back))) ;;
  parent <- (fun s => defined (at_ (sections s) (activeSection s)) s) ;;
  when (Section.next parent =? -1)
    (modify (fun s => with_sections (sections s ++ [Section.new (ip s) (u32 (-1))]) s) ;;
     (fun s => alterSection (activeSection s)
                 (Section.with_next (i32 (Z.of_nat (length (sections s)) - 1))) s) ;;
     parent' <- (fun s => defined (at_ (sections s) (activeSection s)) s) ;;
     (fun s => alterSection (Z.of_nat (length (sections s)) - 1)
                 (Section.with_up (Section.up parent')) s) ;;
     modify (fun s => with_activeSection (u32 (Z.of_nat (length (sections s)) - 1)) s)).

(** [ended(section)]: the recursion follows [next]; [fuel] bounds it, and
    running out of it stands for a recursion that does not return. *)
Fixpoint ended_fuel (fuel : nat) (secs : list Section.t) (section : Section.t) : option bool :=
  match fuel with
  | O => None
  | S fuel' =>
      if Section.next section >=? 0
      then s' ← at_ secs (Section.next section); ended_fuel fuel' secs s'
      else Some (Section.ops section =? 0)
  end.

Definition ended (secs : list Section.t) (section : Section.t) : option bool :=
  ended_fuel (S (length secs)) secs section.

(** The [while (current)] loop of [optimise]: [Some true] when the walk
    upwards leaves [tail] set. *)
Fixpoint walkUp_fuel (fuel : nat) (secs : list Section.t) (current : Section.t) : option bool :=
  match fuel with
  | O => None
  | S fuel' =>
      if Section.isBlockTailCall current then Some false
      else
        e ← ended secs current;
        if negb e then Some false
        else if Section.up current >=? 0
             then c ← at_ secs (Section.up current); walkUp_fuel fuel' secs c
             else Some true
  end.

Definition walkUp (secs : list Section.t) (current : Section.t) : option bool :=
  walkUp_fuel (S (length secs)) secs current.

(** Whether the loop body of [optimise] reaches [if (tail)] with [tail]
    set for [section]. *)
Definition isTail (secs : list Section.t) (section : Section.t) : option bool :=
  if Section.hasChild section then Some false
  else if Section.isBlockTailCall section then Some false
  else
    e ← (if Section.next section >=? 0 then ended secs section else Some true);
    if negb e then Some false
    else if Section.up section >=? 0
         then current ← at_ secs (Section.up section); walkUp secs current
         else Some true.

(** [if (ops[usage.ip] == OP::Rest) ops[usage.ip] = OP::RestReuse;] *)
Definition reuseRest {enc : Encoding} (ops : list Z) (usage : TypeArgumentUsage.t)
  : option (list Z) :=
  op ← at_ ops (TypeArgumentUsage.ip usage);
  if op =? op_code OP.Rest
  then store ops (TypeArgumentUsage.ip usage) (op_code OP.RestReuse)
  else Some ops.

Fixpoint reuseRests {enc : Encoding} (ops : list Z) (usages : list TypeArgumentUsage.t)
  : option (list Z) :=
  match usages with
  | [] => Some ops
  | usage :: rest => ops' ← reuseRest ops usage; reuseRests ops' rest
  end.

(** One iteration of the loop of [optimise]. *)
Definition optimiseSection {enc : Encoding} (secs : list Section.t) (ops : list Z)
    (section : Section.t) : option (list Z) :=
  tail ← isTail secs section;
  if tail : bool then
    ops' ← (if OP.eqb (Section.lastOp section) OP.Call
            then store ops (u32 (Section.end_ section - 1 - 4 - 2)) (op_code OP.TailCall)
            else Some ops);
    reuseRests ops' (Section.typeArgumentUsages section)
  else Some ops.

Fixpoint optimiseSections {enc : Encoding} (secs : list Section.t) (ops : list Z)
    (todo : list Section.t) : option (list Z) :=
  match todo with
  | [] => Some ops
  | section :: rest => ops' ← optimiseSection secs ops section; optimiseSections secs ops' rest
  end.

Definition optimise {enc : Encoding} : M t unit :=
  ops' <- (fun s => defined (optimiseSections (sections s) (ops s) (sections s)) s) ;;
  modify (with_ops ops').

Definition pushSourceMap (sourcePos sourceEnd : Z) : M t unit :=
  modify (fun s => with_sourceMap
                     (SourceMap.push (Z.of_nat (length (ops s))) sourcePos sourceEnd (sourceMap s)) s).

Definition getFlags (s : t) : Z := 0.
End Subroutine.

(** ** Frames *)

Module Frame.
(** [previous] is the enclosing frame ([None] for the root); the frames
    reachable from the current one form the chain of open scopes. *)
Inductive t : Set := mk {
  conditional : bool;
  previous : option t;
  id : Z;
  symbols : list Symbol.t;
}.

Definition with_conditional (v : bool) (f : t) : t :=
  mk v (previous f) (id f) (symbols f).
Definition with_id (v : Z) (f : t) : t :=
  mk (conditional f) (previous f) v (symbols f).
Definition with_symbols (v : list Symbol.t) (f : t) : t :=
  mk (conditional f) (previous f) (id f) v.

(** [Frame() = default] and [Frame(shared<Frame> previous)]. *)
Definition root : t := mk false None 0 [].
Definition new (previous : t) : t := mk false (Some previous) 0 [].
End Frame.

(** ** The program under construction *)

Module Program.
Record t : Set := mk {
  ops : list Z;                    (* OPs of "main" *)
  sourceMap : SourceMap.t;         (* SourceMap of "main" *)
  storage : list string;
  storageIndex : Z;
  frame : Frame.t;
  activeSubroutines : list nat;    (* [back()] is the head of the list *)
  subroutines : list Subroutine.t;
}.

Definition with_ops (v : list Z) (p : t) : t :=
  mk v (sourceMap p) (storage p) (storageIndex p) (frame p)
     (activeSubroutines p) (subroutines p).
Definition with_sourceMap (v : SourceMap.t) (p : t) : t :=
  mk (ops p) v (storage p) (storageIndex p) (frame p)
     (activeSubroutines p) (subroutines p).
Definition with_storage (v : list string) (p : t) : t :=
  mk (ops p) (sourceMap p) v (storageIndex p) (frame p)
     (activeSubroutines p) (subroutines p).
Definition with_storageIndex (v : Z) (p : t) : t :=
  mk (ops p) (sourceMap p) (storage p) v (frame p)
     (activeSubroutines p) (subroutines p).
Definition with_frame (v : Frame.t) (p : t) : t :=
  mk (ops p) (sourceMap p) (storage p) (storageIndex p) v
     (activeSubroutines p) (subroutines p).
Definition with_activeSubroutines (v : list nat) (p : t) : t :=
  mk (ops p) (sourceMap p) (storage p) (storageIndex p) (frame p)
     v (subroutines p).
Definition with_subroutines (v : list Subroutine.t) (p : t) : t :=
  mk (ops p) (sourceMap p) (storage p) (storageIndex p) (frame p)
     (activeSubroutines p) v.

(** [Program program;]: empty buffers, [storageIndex{}], a root frame. *)
Definition new : t := mk [] [] [] 0 Frame.root [] [].

(** [activeSubroutines.back()->m(...)]: a method of the subroutine on top
    of the active stack, run on the shared object in [subroutines]. *)
Definition onActive {A : Type} (m : M Subroutine.t A) : M t A :=
  fun p =>
    match activeSubroutines p with
    | [] => Undef
    | r :: _ =>
        match subroutines p !! r with
        | None => Undef
        | Some sub =>
            match m sub with
            | Ok (a, sub') => Ok (a, with_subroutines (<[r := sub']> (subroutines p)) p)
            | Throw msg => Throw msg
            | Undef => Undef
            end
        end
    end.

(** [if (activeSubroutines.size()) activeSubroutines.back()->m();] *)
Definition ifActive (m : M Subroutine.t unit) : M t unit :=
  fun p =>
    match activeSubroutines p with
    | [] => Ok (tt, p)
    | _ :: _ => onActive m p
    end.

(** The buffer [getOPs()] refers to, read. *)
Definition getOPs : M t (list Z) :=
  fun p =>
    match activeSubroutines p with
    | [] => Ok (ops p, p)
    | _ :: _ => onActive (gets Subroutine.ops) p
    end.

(** The buffer [getOPs()] refers to, replaced. *)
Definition setOPs (v : list Z) : M t unit :=
  fun p =>
    match activeSubroutines p with
    | [] => Ok (tt, with_ops v p)
    | _ :: _ => onActive (modify (Subroutine.with_ops v)) p
    end.

Definition pushOp {enc : Encoding} (op : OP.t) : M t unit :=
  fun p =>
    match activeSubroutines p with
    | [] => Ok (tt, with_ops (ops p ++ [op_code op]) p)
    | _ :: _ => onActive (Subroutine.pushOp op) p
    end.

Definition ip : M t Z :=
  ops <- getOPs ;; ret (size ops).

Definition popFrameImplicit : M t unit :=
  modify (fun p =>
            match Frame.previous (frame p) with
            | Some previous => with_frame previous p
            | None => p
            end).

Definition popFrame {enc : Encoding} : M t unit :=
  pushOp OP.FrameEnd ;;
  popFrameImplicit.

Definition pushFrame {enc : Encoding} (implicit : bool) : M t unit :=
  when (negb implicit) (pushOp OP.Frame) ;;
  modify (fun p =>
            let id := Frame.id (frame p) in
            with_frame (Frame.with_id (u32 (id + 1)) (Frame.new (frame p))) p).

Definition pushSubroutineNameLess {enc : Encoding} : M t Z :=
  index <- gets (fun p => size (subroutines p)) ;;
  let routine := Subroutine.with_index index
                   (Subroutine.with_type SymbolType.Inline (Subroutine.new "")) in
  pushFrame true ;;
  modify (fun p => with_subroutines (subroutines p ++ [routine]) p) ;;
  modify (fun p => with_activeSubroutines
                     ((length (subroutines p) - 1)%nat :: activeSubroutines p) p) ;;
  ret index.

Definition registerTypeArgumentUsage (symbol : Symbol.t) : M t unit :=
  ifActive (Subroutine.registerTypeArgumentUsage symbol).

(** The loop of [pushSubroutine] over [frame->symbols]. *)
Definition findOwn (name : string) (symbols : list Symbol.t) : option Symbol.t :=
  List.find (fun s => String.eqb (Symbol.name s) name) symbols.

Definition pushSubroutine {enc : Encoding} (name : string) : M t Z :=
  found <- gets (fun p => findOwn name (Frame.symbols (frame p))) ;;
  match found with
  | Some s =>
      pushFrame true ;;
      routine <- defined (Symbol.routine s) ;;
      modify (fun p => with_activeSubroutines (routine :: activeSubroutines p) p) ;;
      sub <- (fun p => defined (subroutines p !! routine) p) ;;
      ret (Subroutine.index sub)
  | None => throw ("no symbol found for " ++ name)
  end.

(** [popSubroutine]; the subroutine returned is named by its position. *)
Definition popSubroutine {enc : Encoding} : M t nat :=
  active <- gets activeSubroutines ;;
  match active with
  | [] => throw "No active subroutine found"
  | subroutine :: rest =>
      popFrameImplicit ;;
      ops <- onActive (gets Subroutine.ops) ;;
      match ops with
      | [] => throw "Routine is empty"
      | _ :: _ =>
          onActive Subroutine.end_ ;;
          onActive Subroutine.optimise ;;
          onActive (modify (fun s => Subroutine.with_ops (Subroutine.ops s ++ [op_code OP.Return]) s)) ;;
          modify (with_activeSubroutines rest) ;;
          ret subroutine
      end
  end.

(** [findSymbol]: each frame from the current one to the root, its
    symbols in reverse order. *)
Fixpoint findSymbolFrom (current : Frame.t) (identifier : string) : option Symbol.t :=
  match current with
  | Frame.mk _ previous _ symbols =>
      match List.find (fun s => String.eqb (Symbol.name s) identifier) (rev symbols) with
      | Some s => Some s
      | None =>
          match previous with
          | Some p => findSymbolFrom p identifier
          | None => None
          end
      end
  end.

Definition findSymbol (identifier : string) (p : t) : option Symbol.t :=
  findSymbolFrom (frame p) identifier.

Definition pushAddress (address : Z) (offset : Z) : M t unit :=
  ops <- getOPs ;;
  ops' <- defined (writeUint32 ops (if offset =? 0 then Z.of_nat (length ops) else offset)
                     (u32 address)) ;;
  setOPs ops'.

Definition pushInt32Address (address : Z) (offset : Z) : M t unit :=
  ops <- getOPs ;;
  ops' <- defined (writeInt32 ops (if offset =? 0 then Z.of_nat (length ops) else offset)
                     (i32 address)) ;;
  setOPs ops'.

Definition pushUint32 (v : Z) : M t unit :=
  ops <- getOPs ;;
  ops' <- defined (writeUint32 ops (Z.of_nat (length ops)) (u32 v)) ;;
  setOPs ops'.

Definition pushUint16 (v : Z) (offset : Z) : M t unit :=
  ops <- getOPs ;;
  ops' <- defined (writeUint16 ops (if offset =? 0 then Z.of_nat (length ops) else offset)
                     (u32 v)) ;;
  setOPs ops'.

(** [pushError]: "errors need to be part of main". *)
Definition pushError {enc : Encoding} (code : ErrorCode.t) (pos end_ : Z) : M t unit :=
  modify (fun p => with_sourceMap (SourceMap.push 0 pos end_ (sourceMap p)) p) ;;
  modify (fun p => with_ops (ops p ++ [op_code OP.Error]) p) ;;
  ops' <- (fun p => defined (writeUint16 (ops p) (Z.of_nat (length (ops p))) (u32 (error_code code))) p) ;;
  modify (with_ops ops').

(** The [while (current)] loop of [pushSymbolAddress]: the frames passed
    before the one the symbol lives in. *)
Fixpoint frameOffsetFrom (current : Frame.t) (target : Z) : Z :=
  match current with
  | Frame.mk _ previous id _ =>
      if id =? target then 0
      else match previous with
           | Some p => 1 + frameOffsetFrom p target
           | None => 1
           end
  end.

Definition pushSymbolAddress (symbol : Symbol.t) : M t unit :=
  frameOffset <- gets (fun p => u32 (frameOffsetFrom (frame p) (Symbol.frame symbol))) ;;
  ops <- getOPs ;;
  ops1 <- defined (writeUint16 ops (Z.of_nat (length ops)) frameOffset) ;;
  ops2 <- defined (writeUint16 ops1 (Z.of_nat (length ops1)) (Symbol.index symbol)) ;;
  setOPs ops2.

Definition pushSourceMap (pos end_ : Z) : M t unit :=
  fun p =>
    match activeSubroutines p with
    | [] => Ok (tt, with_sourceMap
                      (SourceMap.push (Z.of_nat (length (ops p))) pos end_ (sourceMap p)) p)
    | _ :: _ => onActive (Subroutine.pushSourceMap pos end_) p
    end.

Definition ignoreNextSectionOP : M t unit := ifActive Subroutine.ignoreNextSectionOP.
Definition pushSection : M t unit := ifActive Subroutine.pushSection.
Definition blockTailCall : M t unit := ifActive Subroutine.blockTailCall.
Definition popSection : M t unit := ifActive Subroutine.popSection.

(** [pushOp(OP op, const sharedOpt<Node> &node)]: the node is given by its
    span, [None] for a null node. *)
Definition pushOpAt {enc : Encoding} (op : OP.t) (node : option (Z * Z)) : M t unit :=
  match node with
  | Some (pos, end_) => pushSourceMap pos end_
  | None => ret tt
  end ;;
  pushOp op.

(** The position of the first element of [l] that satisfies [f]. *)
Fixpoint findPos {A : Type} (f : A -> bool) (l : list A) : option nat :=
  match l with
  | [] => None
  | x :: rest => if f x then Some O else S <$> findPos f rest
  end.

Definition alterFrame (f : Frame.t -> Frame.t) : M t unit :=
  modify (fun p => with_frame (f (frame p)) p).

(** [pushSymbol]; every call in the source leaves [frameToUse] at its
    default, the current frame.  The reference returned is the position of
    the symbol in [frame->symbols]. *)
Definition pushSymbol (name : string) (type : SymbolType.t) (pos end_ : Z) : M t nat :=
  symbols <- gets (fun p => Frame.symbols (frame p)) ;;
  match (if SymbolType.eqb type SymbolType.TypeVariable then None
         else findPos (fun v => String.eqb (Symbol.name v) name) symbols) with
  | Some i =>
      alterFrame (Frame.with_symbols
        (alter (fun v => Symbol.with_declarations (u32 (Symbol.declarations v + 1)) v) i symbols)) ;;
      ret i
  | None =>
      frameId <- gets (fun p => Frame.id (frame p)) ;;
      let symbol := Symbol.mk name type (size symbols) (u32 pos) (u32 end_) 1 None frameId in
      alterFrame (Frame.with_symbols (symbols ++ [symbol])) ;;
      ret (length symbols)
  end.

(** The symbol a reference returned by [pushSymbol] points at. *)
Definition symbolAt (i : nat) : M t Symbol.t :=
  fun p => defined (Frame.symbols (frame p) !! i) p.

(** "note: make sure the same name is not added twice. needs hashmap" *)
Definition registerStorage (s : string) : M t Z :=
  modify (fun p => if storageIndex p =? 0 then with_storageIndex (1 + 4) p else p) ;;
  address <- gets storageIndex ;;
  modify (fun p => with_storage (storage p ++ [s]) p) ;;
  modify (fun p => with_storageIndex
                     (u32 (storageIndex p + (8 + 2 + Z.of_nat (String.length s)))) p) ;;
  ret address.

Definition pushSymbolForRoutine (name : string) (type : SymbolType.t) (pos end_ : Z)
  : M t nat :=
  i <- pushSymbol name type pos end_ ;;
  symbol <- symbolAt i ;;
  match Symbol.routine symbol with
  | Some _ => ret i
  | None =>
      nameAddress <- registerStorage name ;;
      index <- gets (fun p => size (subroutines p)) ;;
      let routine := Subroutine.with_index index
                       (Subroutine.with_nameAddress nameAddress
                          (Subroutine.with_type type (Subroutine.new name))) in
      modify (fun p => with_subroutines (subroutines p ++ [routine]) p) ;;
      position <- gets (fun p => (length (subroutines p) - 1)%nat) ;;
      alterFrame (fun f => Frame.with_symbols
                    (alter (Symbol.with_routine (Some position)) i (Frame.symbols f)) f) ;;
      ret i
  end.

(** Pushes a Uint32 and stores the text into the storage. *)
Definition pushStorage (s : string) : M t unit :=
  address <- registerStorage s ;;
  pushAddress address 0.

Definition pushStringLiteral {enc : Encoding} (s : string) (node : option (Z * Z)) : M t unit :=
  pushOpAt OP.StringLiteral node ;;
  pushStorage s.

(** *** The image serializer *)

(** The bytes of a text. *)
Definition bytesOf (s : string) : list Z :=
  map (fun c => Z.of_nat (nat_of_ascii c)) (list_ascii_of_string s).

Fixpoint foldM {A B : Type} (f : B -> A -> option B) (b : B) (l : list A) : option B :=
  match l with
  | [] => Some b
  | x :: rest => b' ← f b x; foldM f b' rest
  end.

(** [vm::writeUintN(bin, bin.size(), v)] *)
Definition appendUint16 (bin : list Z) (v : Z) : option (list Z) :=
  writeUint16 bin (Z.of_nat (length bin)) v.
Definition appendUint32 (bin : list Z) (v : Z) : option (list Z) :=
  writeUint32 bin (Z.of_nat (length bin)) v.
Definition appendUint64 (bin : list Z) (v : Z) : option (list Z) :=
  writeUint64 bin (Z.of_nat (length bin)) v.

(** [address] after the loop [address += 8 + 2 + item.size()] from 5. *)
Definition storageEnd (storage : list string) : Z :=
  fold_left (fun address item => u32 (address + (8 + 2 + Z.of_nat (String.length item))))
            storage 5.

Definition writeStorageItem {enc : Encoding} (bin : list Z) (item : string) : option (list Z) :=
  bin1 ← appendUint64 bin (runtime_hash item);
  bin2 ← appendUint16 bin1 (Z.of_nat (String.length item));
  Some (bin2 ++ bytesOf item).

Definition writeSourceMapEntry (bytecodePosOffset : Z) (bin : list Z) (map : SourceMapEntry.t)
  : option (list Z) :=
  bin1 ← appendUint32 bin (u32 (bytecodePosOffset + SourceMapEntry.bytecodePos map));
  bin2 ← appendUint32 bin1 (SourceMapEntry.sourcePos map);
  appendUint32 bin2 (SourceMapEntry.sourceEnd map).

(** The loop over the subroutines' source maps; the state is [bin] and
    [bytecodePosOffset]. *)
Definition writeRoutineSourceMap (st : list Z * Z) (routine : Subroutine.t)
  : option (list Z * Z) :=
  bin ← foldM (writeSourceMapEntry (snd st)) (fst st) (Subroutine.sourceMap routine);
  Some (bin, u32 (snd st + Z.of_nat (length (Subroutine.ops routine)))).

(** The loop over the subroutines' meta-data; the state is [bin] and
    [address]. *)
Definition writeRoutineHeader {enc : Encoding} (st : list Z * Z) (routine : Subroutine.t)
  : option (list Z * Z) :=
  let bin0 := fst st ++ [op_code OP.Subroutine] in
  bin1 ← appendUint32 bin0 (Subroutine.nameAddress routine);
  bin2 ← appendUint32 bin1 (snd st);
  Some (bin2 ++ [Subroutine.getFlags routine],
        u32 (snd st + Z.of_nat (length (Subroutine.ops routine)))).

Definition sourceMapSize (p : t) : Z :=
  u32 (fold_left (fun n routine =>
                    u32 (n + Z.of_nat (length (Subroutine.sourceMap routine)) * (4 * 3)))
                 (subroutines p) 0
       + Z.of_nat (length (sourceMap p)) * (4 * 3)).

Definition build {enc : Encoding} (p : t) : option (list Z) :=
  let bin := [op_code OP.Jump] in
  bin ← appendUint32 bin 0;
  let address := storageEnd (storage p) in
  bin ← writeUint32 bin 1 address;
  bin ← foldM writeStorageItem bin (storage p);
  let bin := bin ++ [op_code OP.SourceMap] in
  bin ← appendUint32 bin (sourceMapSize p);
  let address := u32 (address + (1 + 4 + sourceMapSize p)) in
  let bytecodePosOffset := u32 (address + Z.of_nat (length (subroutines p)) * (1 + 4 + 4 + 1)) in
  let bytecodePosOffset := u32 (bytecodePosOffset + (1 + 4)) in
  st ← foldM writeRoutineSourceMap (bin, bytecodePosOffset) (subroutines p);
  bin ← foldM (writeSourceMapEntry (snd st)) (fst st) (sourceMap p);
  let address := u32 (address + (1 + 4)) in
  let address := u32 (address + Z.of_nat (length (subroutines p)) * (1 + 4 + 4 + 1)) in
  st ← foldM writeRoutineHeader (bin, address) (subroutines p);
  let bin := fst st ++ [op_code OP.Main] in
  bin ← appendUint32 bin (snd st);
  let bin := fold_left (fun bin routine => bin ++ Subroutine.ops routine) (subroutines p) bin in
  let bin := bin ++ ops p in
  Some (bin ++ [op_code OP.Halt]).
End Program.

(** ** The syntax tree *)

(** Modelled from the spec: the node declarations ([node_test.h] and the
    parser's types) are not among the sources.  The constructors below are
    the node kinds of the AST input contract (6.1), each with the fields
    [Compiler::handle] reads; every node carries its source span [pos],
    [end_].  A field the source reads as an [Identifier] without a cast is
    an [Ident]; a field it casts with [to<...>] is a [Node]. *)
Record Ident : Set := { ident_pos : Z; ident_end : Z; escapedText : string }.

(** A token such as [questionToken] or [dotDotDotToken]: only its span and
    its presence matter. *)
Record Token : Set := { token_pos : Z; token_end : Z }.

Record TemplateHead : Set := { head_pos : Z; head_end : Z; head_rawText : option string }.

Inductive TemplateLiteralLike : Set :=
| TemplateMiddle (pos end_ : Z) (rawText : option string)
| TemplateTail (pos end_ : Z) (rawText : option string).

Inductive Keyword : Set :=
| AnyKeyword | NullKeyword | UndefinedKeyword | NeverKeyword | BooleanKeyword
| StringKeyword | NumberKeyword | TrueKeyword | FalseKeyword.

Inductive LiteralKind : Set := BigIntLiteral | NumericLiteral | StringLiteral.

Inductive OperatorKind : Set := EqualsToken | OtherOperator (kind : Z).

Inductive HeritageToken : Set := ExtendsKeyword | ImplementsKeyword.

Inductive Node : Set :=
| SourceFile (pos end_ : Z) (statements : list Node)
| KeywordNode (pos end_ : Z) (kind : Keyword)
| Literal (pos end_ : Z) (kind : LiteralKind) (text : string)
| IndexedAccessType (pos end_ : Z) (objectType indexType : Node)
| LiteralType (pos end_ : Z) (literal : Node)
| TemplateLiteralType (pos end_ : Z) (head : TemplateHead) (templateSpans : list Node)
| TemplateLiteralTypeSpan (pos end_ : Z) (type : Node) (literal : TemplateLiteralLike)
| UnionType (pos end_ : Z) (types : list Node)
| TypeReference (pos end_ : Z) (typeName : Node) (typeArguments : option (list Node))
| TypeAliasDeclaration (pos end_ : Z) (name : Ident) (typeParameters : option (list Node))
    (type : Node)
| ParameterDeclaration (pos end_ : Z) (name : Node) (questionToken : option Token)
    (type : option Node) (initializer : option Node)
| TypeParameterDeclaration (pos end_ : Z) (name : Ident) (defaultType : option Node)
| FunctionDeclaration (pos end_ : Z) (name : option Node) (typeParameters : option (list Node))
    (parameters : list Node) (type : option Node)
| Identifier (pos end_ : Z) (text : string) (typeArguments : option (list Node))
| PropertyAssignment (pos end_ : Z) (name : Node) (questionToken : option Token)
    (readonly : bool) (initializer : option Node)
| PropertySignature (pos end_ : Z) (name : Node) (questionToken : option Token)
    (readonly : bool) (type : option Node)
| InterfaceDeclaration (pos end_ : Z) (name : Ident) (heritageClauses : option (list Node))
    (members : list Node)
| HeritageClause (pos end_ : Z) (token : HeritageToken) (types : list Node)
| TypeLiteral (pos end_ : Z) (members : list Node)
| ParenthesizedExpression (pos end_ : Z) (expression : Node)
| ExpressionWithTypeArguments (pos end_ : Z) (expression : Node)
    (typeArguments : option (list Node))
| ObjectLiteralExpression (pos end_ : Z) (properties : list Node)
| CallExpression (pos end_ : Z) (expression : Node) (typeArguments : option (list Node))
    (arguments : list Node)
| ExpressionStatement (pos end_ : Z) (expression : Node)
| ConditionalExpression (pos end_ : Z) (condition whenTrue whenFalse : Node)
| ConditionalType (pos end_ : Z) (checkType extendsType trueType falseType : Node)
| ParenthesizedType (pos end_ : Z) (type : Node)
| RestType (pos end_ : Z) (type : Node)
| ArrayLiteralExpression (pos end_ : Z) (elements : list Node)
| ArrayType (pos end_ : Z) (elementType : Node)
| TupleType (pos end_ : Z) (elements : list Node)
| NamedTupleMember (pos end_ : Z) (dotDotDotToken questionToken : option Token) (type : Node)
| OptionalType (pos end_ : Z) (type : Node)
| BinaryExpression (pos end_ : Z) (left : Node) (operatorPos operatorEnd : Z)
    (operatorKind : OperatorKind) (right : Node)
| VariableStatement (pos end_ : Z) (declarations : list Node)
| VariableDeclaration (pos end_ : Z) (name : Node) (type : option Node)
    (initializer : option Node) (isConst : bool)
| OtherNode (pos end_ : Z).

(** [node->pos], [node->end] *)
Definition span (n : Node) : Z * Z :=
  match n with
  | SourceFile p e _ | KeywordNode p e _ | Literal p e _ _ | IndexedAccessType p e _ _
  | LiteralType p e _ | TemplateLiteralType p e _ _ | TemplateLiteralTypeSpan p e _ _
  | UnionType p e _ | TypeReference p e _ _ | TypeAliasDeclaration p e _ _ _
  | ParameterDeclaration p e _ _ _ _ | TypeParameterDeclaration p e _ _
  | FunctionDeclaration p e _ _ _ _ | Identifier p e _ _ | PropertyAssignment p e _ _ _ _
  | PropertySignature p e _ _ _ _ | InterfaceDeclaration p e _ _ _ | HeritageClause p e _ _
  | TypeLiteral p e _ | ParenthesizedExpression p e _ | ExpressionWithTypeArguments p e _ _
  | ObjectLiteralExpression p e _ | CallExpression p e _ _ _ | ExpressionStatement p e _
  | ConditionalExpression p e _ _ _ | ConditionalType p e _ _ _ _ | ParenthesizedType p e _
  | RestType p e _ | ArrayLiteralExpression p e _ | ArrayType p e _ | TupleType p e _
  | NamedTupleMember p e _ _ _ | OptionalType p e _ | BinaryExpression p e _ _ _ _ _
  | VariableStatement p e _ | VariableDeclaration p e _ _ _ _ | OtherNode p e => (p, e)
  end.

Definition identSpan (i : Ident) : Z * Z := (ident_pos i, ident_end i).
Definition tokenSpan (t : Token) : Z * Z := (token_pos t, token_end t).

(** [to<Identifier>(node)]: the name and span when the node is one. *)
Definition toIdentifier (n : Node) : option Ident :=
  match n with
  | Identifier p e text _ => Some {| ident_pos := p; ident_end := e; escapedText := text |}
  | _ => None
  end.

Definition keywordOp (k : Keyword) : OP.t :=
  match k with
  | AnyKeyword => OP.Any
  | NullKeyword => OP.Null
  | UndefinedKeyword => OP.Undefined
  | NeverKeyword => OP.Never
  | BooleanKeyword => OP.Boolean
  | StringKeyword => OP.String
  | NumberKeyword => OP.Number
  | TrueKeyword => OP.True_
  | FalseKeyword => OP.False_
  end.

Definition literalOp (k : LiteralKind) : OP.t :=
  match k with
  | BigIntLiteral => OP.BigIntLiteral
  | NumericLiteral => OP.NumberLiteral
  | StringLiteral => OP.StringLiteral
  end.

(** [typeArguments ? typeArguments->length() : 0] *)
Definition lengthOpt {A : Type} (l : option (list A)) : Z :=
  match l with
  | Some l => Z.of_nat (length l)
  | None => 0
  end.

Definition listOpt {A : Type} (l : option (list A)) : list A :=
  match l with
  | Some l => l
  | None => []
  end.

(** [rawText && !rawText->empty()] *)
Definition nonEmpty (rawText : option string) : option string :=
  match rawText with
  | Some EmptyString => None
  | Some s => Some s
  | None => None
  end.

(** ** The lowering of the syntax tree ([Compiler::handle]) *)

Module Compiler.

(** [symbol->routine->index] *)
Definition routineIndex (routine : nat) : M Program.t Z :=
  sub <- (fun p => defined (Program.subroutines p !! routine) p) ;;
  ret (Subroutine.index sub).

Definition isTypeArgumentOrVariable (symbol : Symbol.t) : bool :=
  SymbolType.eqb (Symbol.type symbol) SymbolType.TypeArgument
  || SymbolType.eqb (Symbol.type symbol) SymbolType.TypeVariable.

(** The tail shared by the [TypeReference] and [Identifier] cases once the
    symbol is known to own a routine: [Call], its address, the number of
    type arguments. *)
Definition pushCall {enc : Encoding} (symbol : Symbol.t) (node : Z * Z) (typeArguments : Z)
  : M Program.t unit :=
  Program.pushOpAt OP.Call (Some node) ;;
  match Symbol.routine symbol with
  | None => throw "Reference is not a reference to a existing routine."
  | Some routine =>
      index <- routineIndex routine ;;
      Program.pushAddress index 0 ;;
      Program.pushUint16 typeArguments 0
  end.

(** The part of the [ConditionalType] case before the type is checked,
    taken when the check type is a reference to a bare identifier.  It
    returns [distributeJumpIp]. *)
Definition distributePrelude {enc : Encoding} (check : M Program.t unit) (probe : Ident)
  : M Program.t Z :=
  check ;;
  Program.blockTailCall ;;
  Program.pushFrame true ;;
  Program.pushSymbol (escapedText probe) SymbolType.TypeVariable
    (ident_pos probe) (ident_end probe) ;;
  Program.pushOp OP.Distribute ;;
  distributeJumpIp <- Program.ip ;;
  Program.pushAddress 0 0 ;;
  ret distributeJumpIp.

(** From [pushFrame()] to the [JumpCondition] opcode; returns [relativeTo],
    which is also [falseJumpAddressIp]. *)
Definition conditionTest {enc : Encoding} (check extends : M Program.t unit) (node : Z * Z)
  : M Program.t Z :=
  Program.pushFrame false ;;
  Program.alterFrame (Frame.with_conditional true) ;;
  check ;;
  extends ;;
  Program.pushOpAt OP.Extends (Some node) ;;
  Program.pushOp OP.JumpCondition ;;
  Program.ip.

(** The reserved false jump, the true branch in its section and the [Jump]
    opcode after it; returns [trueJumpAddressIp]. *)
Definition trueBranch {enc : Encoding} (whenTrue : M Program.t unit) : M Program.t Z :=
  Program.pushAddress 0 0 ;;
  Program.pushSection ;;
  whenTrue ;;
  Program.popSection ;;
  Program.ignoreNextSectionOP ;;
  Program.pushOp OP.Jump ;;
  Program.ip.

(** The reserved true jump and the false branch in its section; returns
    [falseProgram] and [falseEndIp]. *)
Definition falseBranch (whenFalse : M Program.t unit) : M Program.t (Z * Z) :=
  Program.pushAddress 0 0 ;;
  ip <- Program.ip ;;
  let falseProgram := u32 (ip + 1) in
  Program.pushSection ;;
  whenFalse ;;
  Program.popSection ;;
  falseEndIp <- Program.ip ;;
  ret (falseProgram, falseEndIp).

(** The two back-patches every conditional type gets. *)
Definition patchJumps (relativeTo falseJumpAddressIp trueJumpAddressIp falseProgram falseEndIp : Z)
  : M Program.t unit :=
  Program.pushInt32Address (u32 (falseProgram - relativeTo)) falseJumpAddressIp ;;
  Program.pushInt32Address (u32 (u32 (falseEndIp - trueJumpAddressIp) + 1)) trueJumpAddressIp.

(** The end of the distributive case. *)
Definition distributeEnd {enc : Encoding} (distributeJumpIp falseEndIp : Z) : M Program.t unit :=
  Program.pushAddress (u32 (u32 (falseEndIp - distributeJumpIp) + 6)) distributeJumpIp ;;
  Program.ignoreNextSectionOP ;;
  Program.pushOp OP.FrameReturnJump ;;
  ip <- Program.ip ;;
  Program.pushInt32Address (u32 (- u32 (ip - distributeJumpIp))) 0 ;;
  Program.popFrameImplicit.

(** The [ConditionalType] case, given the lowerings of its four children
    and the identifier to distribute over, if any. *)
Definition conditionalType {enc : Encoding} (distributiveOverIdentifier : option Ident)
    (check extends whenTrue whenFalse : M Program.t unit) (node : Z * Z) : M Program.t unit :=
  Program.pushSection ;;
  distributeJumpIp <- match distributiveOverIdentifier with
                      | Some probe => distributePrelude check probe
                      | None => ret 0
                      end ;;
  relativeTo <- conditionTest check extends node ;;
  let falseJumpAddressIp := relativeTo in
  trueJumpAddressIp <- trueBranch whenTrue ;;
  branch <- falseBranch whenFalse ;;
  patchJumps relativeTo falseJumpAddressIp trueJumpAddressIp (fst branch) (snd branch) ;;
  match distributiveOverIdentifier with
  | Some _ => distributeEnd distributeJumpIp (snd branch)
  | None => Program.ignoreNextSectionOP ;; Program.popFrame
  end ;;
  Program.popSection.

(** [isTypeReferenceNode(checkType) && isIdentifier(typeName) ? ... : nullptr] *)
Definition distributiveOver (checkType : Node) : option Ident :=
  match checkType with
  | TypeReference _ _ typeName _ => toIdentifier typeName
  | _ => None
  end.

(** [T["length"]]: the index type is a literal type of the string "length". *)
Definition isLengthIndex (indexType : Node) : bool :=
  match indexType with
  | LiteralType _ _ (Literal _ _ StringLiteral text) => String.eqb text "length"
  | _ => false
  end.

Definition optionalAndReadonly {enc : Encoding} (questionToken : option Token) (readonly : bool)
  : M Program.t unit :=
  when (bool_decide (is_Some questionToken)) (Program.pushOp OP.Optional) ;;
  when readonly (Program.pushOp OP.Readonly).

Fixpoint handle {enc : Encoding} (node : Node) {struct node} : M Program.t unit :=
  match node with
  | SourceFile _ _ statements => forM_ handle statements
  | KeywordNode _ _ kind => Program.pushOpAt (keywordOp kind) (Some (span node))
  | Literal _ _ kind text =>
      Program.pushOpAt (literalOp kind) (Some (span node)) ;;
      Program.pushStorage text
  | IndexedAccessType _ _ objectType indexType =>
      if isLengthIndex indexType
      then handle objectType ;;
           Program.pushOpAt OP.Length (Some (span node))
      else handle objectType ;;
           handle indexType ;;
           Program.pushOpAt OP.IndexAccess (Some (span node))
  | LiteralType _ _ literal => handle literal
  | TemplateLiteralType _ _ head templateSpans =>
      Program.pushFrame false ;;
      match nonEmpty (head_rawText head) with
      | Some rawText =>
          Program.pushOpAt OP.StringLiteral (Some (head_pos head, head_end head)) ;;
          Program.pushStorage rawText
      | None => ret tt
      end ;;
      forM_ (fun sub =>
               match sub with
               | TemplateLiteralTypeSpan _ _ type literal =>
                   handle type ;;
                   match literal with
                   | TemplateMiddle _ _ rawText =>
                       match nonEmpty rawText with
                       | Some rawText =>
                           Program.pushOpAt OP.StringLiteral (Some (span sub)) ;;
                           Program.pushStorage rawText
                       | None => ret tt
                       end
                   | TemplateTail pos end_ rawText =>
                       match nonEmpty rawText with
                       | Some rawText =>
                           Program.pushOpAt OP.StringLiteral (Some (pos, end_)) ;;
                           Program.pushStorage rawText
                       | None => ret tt
                       end
                   end
               | _ => undef
               end) templateSpans ;;
      Program.pushOpAt OP.TemplateLiteral (Some (span node)) ;;
      Program.popFrameImplicit
  | UnionType _ _ types =>
      Program.pushFrame false ;;
      forM_ handle types ;;
      Program.pushOpAt OP.Union (Some (span node)) ;;
      Program.popFrameImplicit
  | TypeReference _ _ typeName typeArguments =>
      name <- defined (toIdentifier typeName) ;;
      symbol <- gets (Program.findSymbol (escapedText name)) ;;
      match symbol with
      | None =>
          Program.pushOpAt OP.Never (Some (span typeName)) ;;
          Program.pushError ErrorCode.CannotFind (fst (span typeName)) (snd (span typeName))
      | Some symbol =>
          if isTypeArgumentOrVariable symbol
          then Program.pushOpAt OP.Loads (Some (span typeName)) ;;
               Program.pushSymbolAddress symbol ;;
               when (SymbolType.eqb (Symbol.type symbol) SymbolType.TypeArgument)
                 (Program.registerTypeArgumentUsage symbol)
          else match typeArguments with Some l => forM_ handle l | None => ret tt end ;;
               pushCall symbol (span typeName) (lengthOpt typeArguments)
      end
  | TypeAliasDeclaration pos end_ name typeParameters type =>
      i <- Program.pushSymbolForRoutine (escapedText name) SymbolType.Type_ pos end_ ;;
      symbol <- Program.symbolAt i ;;
      if Symbol.declarations symbol >? 1 then ret tt
      else
        Program.pushSubroutine (escapedText name) ;;
        when (lengthOpt typeParameters =? 0) Program.blockTailCall ;;
        match typeParameters with Some l => forM_ handle l | None => ret tt end ;;
        handle type ;;
        Program.popSubroutine ;;
        ret tt
  | ParameterDeclaration _ _ name questionToken type initializer =>
      match type with
      | Some type => handle type
      | None => Program.pushOpAt OP.Unknown (Some (span node))
      end ;;
      Program.pushOpAt OP.Parameter_ (Some (span node)) ;;
      match toIdentifier name with
      | Some id => Program.pushStorage (escapedText id)
      | None => Program.pushStorage ""
      end ;;
      match questionToken with
      | Some token => Program.pushOpAt OP.Optional (Some (tokenSpan token))
      | None => ret tt
      end ;;
      match initializer with
      | Some initializer =>
          handle initializer ;;
          Program.pushOpAt OP.Initializer (Some (span initializer))
      | None => ret tt
      end
  | TypeParameterDeclaration pos end_ name defaultType =>
      Program.pushSymbol (escapedText name) SymbolType.TypeArgument pos end_ ;;
      match defaultType with
      | Some defaultType =>
          Program.pushSubroutineNameLess ;;
          handle defaultType ;;
          routine <- Program.popSubroutine ;;
          Program.pushOpAt OP.TypeArgumentDefault (Some (identSpan name)) ;;
          index <- routineIndex routine ;;
          Program.pushAddress index 0
      | None => Program.pushOpAt OP.TypeArgument (Some (identSpan name))
      end
  | FunctionDeclaration _ _ name typeParameters parameters type =>
      match name ≫= toIdentifier with
      | Some id =>
          i <- Program.pushSymbolForRoutine (escapedText id) SymbolType.Function
                 (ident_pos id) (ident_end id) ;;
          symbol <- Program.symbolAt i ;;
          if Symbol.declarations symbol >? 1 then ret tt
          else
            match typeParameters with
            | Some typeParameters =>
                Program.pushSubroutine (escapedText id) ;;
                subroutineIndex <- Program.pushSubroutineNameLess ;;
                forM_ handle typeParameters ;;
                forM_ handle parameters ;;
                match type with
                | Some type => handle type
                | None => Program.pushOp OP.Unknown
                end ;;
                Program.pushOpAt OP.Function (Some (span node)) ;;
                Program.popSubroutine ;;
                Program.pushOpAt OP.FunctionRef (Some (span node)) ;;
                Program.pushAddress subroutineIndex 0 ;;
                Program.popSubroutine ;;
                ret tt
            | None =>
                Program.pushSubroutine (escapedText id) ;;
                forM_ handle parameters ;;
                match type with
                | Some type => handle type
                | None => Program.pushOp OP.Unknown
                end ;;
                Program.pushOpAt OP.Function (Some (span node)) ;;
                Program.popSubroutine ;;
                ret tt
            end
      | None => ret tt
      end
  | Identifier _ _ text typeArguments =>
      symbol <- gets (Program.findSymbol text) ;;
      match symbol with
      | None =>
          Program.pushOpAt OP.Never (Some (span node)) ;;
          Program.pushError ErrorCode.CannotFind (fst (span node)) (snd (span node))
      | Some symbol =>
          if isTypeArgumentOrVariable symbol
          then Program.pushOpAt OP.Loads (Some (span node)) ;;
               Program.pushSymbolAddress symbol
          else match typeArguments with Some l => forM_ handle l | None => ret tt end ;;
               pushCall symbol (span node) (lengthOpt typeArguments)
      end
  | PropertyAssignment _ _ name questionToken readonly initializer =>
      match initializer with
      | Some initializer => handle initializer
      | None => Program.pushOpAt OP.Any (Some (span node))
      end ;;
      match toIdentifier name with
      | Some id => Program.pushStringLiteral (escapedText id) (Some (span name))
      | None => handle name
      end ;;
      Program.pushOpAt OP.PropertySignature (Some (span name)) ;;
      optionalAndReadonly questionToken readonly
  | PropertySignature _ _ name questionToken readonly type =>
      match type with
      | Some type => handle type
      | None => Program.pushOp OP.Any
      end ;;
      match toIdentifier name with
      | Some id => Program.pushStringLiteral (escapedText id) (Some (span name))
      | None => handle name
      end ;;
      Program.pushOpAt OP.PropertySignature (Some (span node)) ;;
      optionalAndReadonly questionToken readonly
  | InterfaceDeclaration _ _ name heritageClauses members =>
      Program.pushFrame false ;;
      match heritageClauses with
      | Some clauses =>
          forM_ (fun clause =>
                   match clause with
                   | HeritageClause _ _ ExtendsKeyword types => forM_ handle types
                   | HeritageClause _ _ _ _ => ret tt
                   | _ => undef
                   end) clauses
      | None => ret tt
      end ;;
      forM_ handle members ;;
      Program.pushOpAt OP.ObjectLiteral (Some (identSpan name)) ;;
      Program.popFrameImplicit
  | TypeLiteral _ _ members =>
      Program.pushFrame false ;;
      forM_ handle members ;;
      Program.pushOpAt OP.ObjectLiteral (Some (span node)) ;;
      Program.popFrameImplicit
  | ParenthesizedExpression _ _ expression => handle expression
  | ExpressionWithTypeArguments _ _ expression typeArguments =>
      match typeArguments with Some l => forM_ handle l | None => ret tt end ;;
      handle expression ;;
      match typeArguments with
      | Some l =>
          Program.pushOpAt OP.Instantiate (Some (span node)) ;;
          Program.pushUint16 (Z.of_nat (length l)) 0
      | None => ret tt
      end
  | ObjectLiteralExpression _ _ properties =>
      Program.pushFrame false ;;
      forM_ handle properties ;;
      Program.pushOpAt OP.ObjectLiteral (Some (span node)) ;;
      Program.popFrameImplicit
  | CallExpression _ _ expression typeArguments arguments =>
      match typeArguments with Some l => forM_ handle l | None => ret tt end ;;
      handle expression ;;
      match typeArguments with
      | Some l =>
          Program.pushOpAt OP.Instantiate (Some (span node)) ;;
          Program.pushUint16 (Z.of_nat (length l)) 0
      | None => ret tt
      end ;;
      forM_ handle arguments ;;
      Program.pushOpAt OP.CallExpression (Some (span node)) ;;
      Program.pushUint16 (Z.of_nat (length arguments)) 0
  | ExpressionStatement _ _ expression => handle expression
  | ConditionalExpression _ _ _ whenTrue whenFalse =>
      Program.pushFrame false ;;
      handle whenFalse ;;
      handle whenTrue ;;
      Program.pushOpAt OP.Union (Some (span node)) ;;
      Program.popFrameImplicit
  | ConditionalType _ _ checkType extendsType trueType falseType =>
      conditionalType (distributiveOver checkType)
        (handle checkType) (handle extendsType) (handle trueType) (handle falseType)
        (span node)
  | ParenthesizedType _ _ type => handle type
  | RestType _ _ type =>
      handle type ;;
      Program.pushOpAt OP.Rest (Some (span node))
  | ArrayLiteralExpression _ _ elements =>
      Program.pushFrame false ;;
      forM_ (fun v => handle v ;; Program.pushOpAt OP.TupleMember (Some (span v))) elements ;;
      Program.pushOpAt OP.Tuple (Some (span node)) ;;
      Program.popFrameImplicit
  | ArrayType _ _ elementType =>
      handle elementType ;;
      Program.pushOpAt OP.Array (Some (span node))
  | TupleType _ _ elements =>
      Program.pushFrame false ;;
      forM_ (fun e =>
               match e with
               | NamedTupleMember _ _ dotDotDotToken questionToken type =>
                   handle type ;;
                   when (bool_decide (is_Some dotDotDotToken)) (Program.pushOp OP.Rest) ;;
                   Program.pushOpAt OP.TupleMember (Some (span e)) ;;
                   when (bool_decide (is_Some questionToken)) (Program.pushOp OP.Optional)
               | OptionalType _ _ type =>
                   handle type ;;
                   Program.pushOpAt OP.TupleMember (Some (span e)) ;;
                   Program.pushOp OP.Optional
               | _ =>
                   handle e ;;
                   Program.pushOpAt OP.TupleMember (Some (span e))
               end) elements ;;
      Program.pushOpAt OP.Tuple (Some (span node)) ;;
      Program.popFrameImplicit
  | BinaryExpression _ _ lhs operatorPos operatorEnd operatorKind rhs =>
      match operatorKind with
      | EqualsToken =>
          match toIdentifier lhs with
          | Some name =>
              symbol <- gets (Program.findSymbol (escapedText name)) ;;
              match symbol with
              | None =>
                  Program.pushOpAt OP.Never (Some (span lhs)) ;;
                  Program.pushError ErrorCode.CannotFind (fst (span lhs)) (snd (span lhs))
              | Some symbol =>
                  match Symbol.routine symbol with
                  | None => throw "Symbol has no routine"
                  | Some routine =>
                      handle rhs ;;
                      Program.pushOpAt OP.Set_ (Some (operatorPos, operatorEnd)) ;;
                      index <- routineIndex routine ;;
                      Program.pushAddress index 0
                  end
              end
          | None => throw "BinaryExpression left only Identifier implemented"
          end
      | OtherOperator _ => throw "BinaryExpression Operator token not handled"
      end
  | VariableStatement _ _ declarations => forM_ handle declarations
  | VariableDeclaration _ _ name type initializer isConst =>
      match toIdentifier name with
      | Some id =>
          i <- Program.pushSymbolForRoutine (escapedText id) SymbolType.Variable_
                 (ident_pos id) (ident_end id) ;;
          symbol <- Program.symbolAt i ;;
          if Symbol.declarations symbol >? 1 then ret tt
          else
            match type with
            | Some type =>
                subroutineIndex <- Program.pushSubroutine (escapedText id) ;;
                Program.blockTailCall ;;
                handle type ;;
                Program.popSubroutine ;;
                match initializer with
                | Some initializer =>
                    handle initializer ;;
                    Program.pushOp OP.Call ;;
                    Program.pushAddress subroutineIndex 0 ;;
                    Program.pushUint16 0 0 ;;
                    Program.pushOpAt OP.Assign (Some (span name))
                | None => ret tt
                end
            | None =>
                subroutineIndex <- Program.pushSubroutine (escapedText id) ;;
                match initializer with
                | Some initializer =>
                    handle initializer ;;
                    when (negb isConst) (Program.pushOp OP.Widen) ;;
                    Program.popSubroutine ;;
                    when (negb isConst)
                      (handle initializer ;;
                       Program.pushOp OP.Set_ ;;
                       Program.pushAddress subroutineIndex 0)
                | None =>
                    Program.pushOp OP.Any ;;
                    Program.popSubroutine ;;
                    ret tt
                end
            end
      | None => ret tt
      end
  | TemplateLiteralTypeSpan _ _ _ _ | HeritageClause _ _ _ _ | NamedTupleMember _ _ _ _ _
  | OptionalType _ _ _ | OtherNode _ _ => ret tt
  end.

Definition compileSourceFile {enc : Encoding} (file : Node) : result Program.t :=
  match handle file Program.new with
  | Ok (_, program) => Ok program
  | Throw msg => Throw msg
  | Undef => Undef
  end.
End Compiler.

(** ** Observations on a program state *)

(** The buffer [getOPs()] refers to: the opcodes of the subroutine on top
    of the active stack, or those of "main". *)
Definition currentOps (p : Program.t) : list Z :=
  match Program.activeSubroutines p with
  | [] => Program.ops p
  | r :: _ =>
      match Program.subroutines p !! r with
      | Some sub => Subroutine.ops sub
      | None => []
      end
  end.

(** The subroutine on top of the active stack. *)
Definition currentSubroutine (p : Program.t) : option Subroutine.t :=
  match Program.activeSubroutines p with
  | [] => None
  | r :: _ => Program.subroutines p !! r
  end.

(** The active section of a subroutine. *)
Definition activeSectionOf (sub : Subroutine.t) : option Section.t :=
  at_ (Subroutine.sections sub) (Subroutine.activeSection sub).


(** The emission target can take an opcode: no subroutine is active, or
    the active one exists and its active section does. *)
Definition targetReady (p : Program.t) : Prop :=
  match Program.activeSubroutines p with
  | [] => True
  | r :: _ =>
      exists sub, Program.subroutines p !! r = Some sub
                  /\ is_Some (activeSectionOf sub)
  end.

(** ** Tail sections, as the specification words them *)

(** A section is ended iff it has no [next] sibling and emitted no
    instruction, or its [next] sibling chain is ended. *)
Inductive Ended (secs : list Section.t) : Section.t -> Prop :=
| Ended_last section :
    Section.next section < 0 -> Section.ops section = 0 -> Ended secs section
| Ended_next section sibling :
    0 <= Section.next section ->
    at_ secs (Section.next section) = Some sibling ->
    Ended secs sibling ->
    Ended secs section.

(** Walking upward from [section]: it and every ancestor is ended and none
    has [is_block_tail_call]. *)
Inductive AncestorsEnded (secs : list Section.t) : Section.t -> Prop :=
| Ancestors_root section :
    Section.isBlockTailCall section = false ->
    Ended secs section ->
    Section.up section < 0 ->
    AncestorsEnded secs section
| Ancestors_up section parent :
    Section.isBlockTailCall section = false ->
    Ended secs section ->
    0 <= Section.up section ->
    at_ secs (Section.up section) = Some parent ->
    AncestorsEnded secs parent ->
    AncestorsEnded secs section.

(** The four tail criteria of the specification (4.D). *)
Definition TailSection (secs : list Section.t) (section : Section.t) : Prop :=
  Section.hasChild section = false
  /\ Section.isBlockTailCall section = false
  /\ (Section.next section < 0
      \/ exists sibling, at_ secs (Section.next section) = Some sibling /\ Ended secs sibling)
  /\ (Section.up section < 0
      \/ exists parent, at_ secs (Section.up section) = Some parent
                        /\ AncestorsEnded secs parent).

(** The section table is a forest laid out as [pushSection] and
    [popSection] build it: a sibling link points to a later section, a
    parent link to an earlier one. *)
Definition wellLinked (secs : list Section.t) : Prop :=
  forall (i : nat) (section : Section.t),
    secs !! i = Some section ->
    (Section.next section < 0
     \/ Z.of_nat i < Section.next section < Z.of_nat (length secs))
    /\ (Section.up section < 0 \/ 0 <= Section.up section < Z.of_nat i).

(** The accesses [optimise] makes for a tail section stay inside [ops]. *)
Definition rewritesInBounds (sub : Subroutine.t) : Prop :=
  forall section,
    In section (Subroutine.sections sub) ->
    TailSection (Subroutine.sections sub) section ->
    (Section.lastOp section = OP.Call ->
     7 <= Section.end_ section <= Z.of_nat (length (Subroutine.ops sub))
     /\ Section.end_ section < 2 ^ 32)
    /\ (forall usage, In usage (Section.typeArgumentUsages section) ->
          0 <= TypeArgumentUsage.ip usage < Z.of_nat (length (Subroutine.ops sub))).

(** ** A sample numbering and sample inputs *)

(** One numbering of the opcodes among the many the model admits, used to
    run the compiler on concrete inputs. *)
Definition sampleCode (o : OP.t) : Z :=
  match o with
  | OP.Noop => 0 | OP.Jump => 1 | OP.Halt => 2 | OP.SourceMap => 3 | OP.Main => 4
  | OP.Subroutine => 5 | OP.Frame => 6 | OP.FrameEnd => 7 | OP.FrameReturnJump => 8
  | OP.Return => 9 | OP.Call => 10 | OP.TailCall => 11 | OP.Rest => 12
  | OP.RestReuse => 13 | OP.Any => 14 | OP.Null => 15 | OP.Undefined => 16
  | OP.Never => 17 | OP.Unknown => 18 | OP.Boolean => 19 | OP.String => 20
  | OP.Number => 21 | OP.True_ => 22 | OP.False_ => 23 | OP.BigIntLiteral => 24
  | OP.NumberLiteral => 25 | OP.StringLiteral => 26 | OP.Length => 27
  | OP.IndexAccess => 28 | OP.TemplateLiteral => 29 | OP.Union => 30
  | OP.Intersection => 31 | OP.Class => 32 | OP.Tuple => 33 | OP.TupleMember => 34
  | OP.Array => 35 | OP.ObjectLiteral => 36 | OP.PropertySignature => 37
  | OP.Optional => 38 | OP.Readonly => 39 | OP.Parameter_ => 40 | OP.Initializer => 41
  | OP.Function => 42 | OP.FunctionRef => 43 | OP.TypeArgument => 44
  | OP.TypeArgumentDefault => 45 | OP.Instantiate => 46 | OP.CallExpression => 47
  | OP.Extends => 48 | OP.JumpCondition => 49 | OP.Distribute => 50 | OP.Loads => 51
  | OP.Error => 52 | OP.Set_ => 53 | OP.Assign => 54 | OP.Widen => 55
  end.

Lemma sampleCode_byte (o : OP.t) : 0 <= sampleCode o < 256.
Proof. destruct o; simpl; lia. Qed.

Lemma sampleCode_inj (a b : OP.t) : sampleCode a = sampleCode b -> a = b.
Proof. destruct a; destruct b; simpl; intros H; first [reflexivity | discriminate H]. Qed.

Definition sampleEncoding : Encoding :=
  {| op_code := sampleCode;
     op_code_byte := sampleCode_byte;
     op_code_inj := sampleCode_inj;
     error_code := fun _ => 0;
     runtime_hash := fun s => Z.of_nat (String.length s) |}.

Definition ident (pos end_ : Z) (text : string) : Ident :=
  {| ident_pos := pos; ident_end := end_; escapedText := text |}.

(** A reference to the type named [text]. *)
Definition typeRef (pos end_ : Z) (text : string) : Node :=
  TypeReference pos end_ (Identifier pos end_ text None) None.

(** [type A<T> = [T, T];] *)
Definition pairOfT : Node :=
  SourceFile 0 19
    [TypeAliasDeclaration 0 19 (ident 5 6 "A")
       (Some [TypeParameterDeclaration 7 8 (ident 7 8 "T") None])
       (TupleType 12 18 [typeRef 13 14 "T"; typeRef 16 17 "T"])].

(** A state in which the symbol [A], which owns a routine, lives in the
    root frame while the current frame is a child of the root. *)
Definition nestedFrameState : result (unit * Program.t) :=
  (Program.pushSymbolForRoutine "A" SymbolType.Type_ 0 10 ;;
   @Program.pushFrame sampleEncoding true) Program.new.

(** [type T = string | number;] *)
Definition unionAlias : Node :=
  SourceFile 0 25
    [TypeAliasDeclaration 0 25 (ident 4 6 "T") None
       (UnionType 8 24 [KeywordNode 8 15 StringKeyword; KeywordNode 17 24 NumberKeyword])].

(** [type A = U;], where no [U] is declared. *)
Definition unknownAlias : Node :=
  SourceFile 0 11
    [TypeAliasDeclaration 0 11 (ident 5 6 "A") None (typeRef 9 10 "U")].

(** [x = 1], where no [x] is declared. *)
Definition assignUnknown : Node :=
  BinaryExpression 0 5 (Identifier 0 1 "x" None) 2 3 EqualsToken
    (Literal 4 5 NumericLiteral "1").

(** ** The layout of the image, as the specification words it *)

(** The offset of the first byte after the storage block: the five bytes
    of the leading [Jump] and one entry of 8 + 2 + len bytes per text. *)
Definition storageBlockEnd (storage : list string) : Z :=
  5 + Z.of_nat (list_sum (map (fun item => 8 + 2 + String.length item)%nat storage)).

(** The storage block: hash, length and bytes of each text, in order. *)
Definition storageBlock {enc : Encoding} (storage : list string) : list Z :=
  concat (map (fun item => le_bytes 8 (runtime_hash item)
                           ++ le_bytes 2 (Z.of_nat (String.length item))
                           ++ Program.bytesOf item) storage).

(** [ops'] is [ops] with some bytes equal to [Rest] replaced by
    [RestReuse]. *)
Definition restsReused {enc : Encoding} (ops ops' : list Z) : Prop :=
  length ops' = length ops
  /\ forall (i : nat) (x : Z),
       ops !! i = Some x ->
       ops' !! i = Some x
       \/ (x = op_code OP.Rest /\ ops' !! i = Some (op_code OP.RestReuse)).

(** The subroutine on top of the active stack is [sub], stored at [r]. *)
Definition activeIs (p : Program.t) (r : nat) (rest : list nat) (sub : Subroutine.t) : Prop :=
  Program.activeSubroutines p = r :: rest /\ Program.subroutines p !! r = Some sub.

(** [type Foo = string;] *)
Definition fooAlias : Node :=
  TypeAliasDeclaration 0 18 (ident 4 8 "Foo") None (KeywordNode 10 17 StringKeyword).

(** The type [[T] extends string ? Foo : [...T]]. *)
Definition conditionalBody : Node :=
  ConditionalType 31 70
    (TupleType 31 35 [typeRef 33 34 "T"])
    (KeywordNode 43 50 StringKeyword)
    (typeRef 52 56 "Foo")
    (TupleType 58 65 [RestType 60 64 (typeRef 63 64 "T")]).

(** [type Foo = string; type D<T> = [T] extends string ? Foo : [...T];] *)
Definition conditionalAlias : Node :=
  SourceFile 0 71
    [fooAlias;
     TypeAliasDeclaration 18 71 (ident 23 25 "D")
       (Some [TypeParameterDeclaration 26 27 (ident 26 27 "T") None])
       conditionalBody].

(** The subroutine of [D] in [conditionalAlias] at the moment
    [popSubroutine] calls [optimise] on it. *)
Definition conditionalBeforeOptimise : option Subroutine.t :=
  match (@Compiler.handle sampleEncoding fooAlias ;;
         Program.pushSymbolForRoutine "D" SymbolType.Type_ 18 71 ;;
         @Program.pushSubroutine sampleEncoding "D" ;;
         @Compiler.handle sampleEncoding (TypeParameterDeclaration 26 27 (ident 26 27 "T") None) ;;
         @Compiler.handle sampleEncoding conditionalBody ;;
         Program.popFrameImplicit ;;
         Program.onActive Subroutine.end_) Program.new with
  | Ok (_, p) => currentSubroutine p
  | _ => None
  end.

(** Decision procedures for [wellLinked] and (a sufficient condition of)
    [rewritesInBounds], to check concrete subroutines by computation. *)
Fixpoint wellLinkedFrom (n : Z) (i : nat) (secs : list Section.t) : bool :=
  match secs with
  | [] => true
  | section :: rest =>
      ((Section.next section <? 0)
       || ((Z.of_nat i <? Section.next section) && (Section.next section <? n)))
      && ((Section.up section <? 0)
          || ((0 <=? Section.up section) && (Section.up section <? Z.of_nat i)))
      && wellLinkedFrom n (S i) rest
  end.

Definition inBoundsb (sub : Subroutine.t) : bool :=
  let n := Z.of_nat (length (Subroutine.ops sub)) in
  forallb (fun section =>
             (if OP.eqb (Section.lastOp section) OP.Call
              then (7 <=? Section.end_ section) && (Section.end_ section <=? n)
                   && (Section.end_ section <? 2 ^ 32)
              else true)
             && forallb (fun usage => (0 <=? TypeArgumentUsage.ip usage)
                                      && (TypeArgumentUsage.ip usage <? n))
                        (Section.typeArgumentUsages section))
          (Subroutine.sections sub).

(** The name a reference node looks up: the text of an [Identifier] node,
    or of the identifier a [TypeReference] names. *)
Definition referenceName (node : Node) : option Ident :=
  match node with
  | Identifier _ _ _ _ => toIdentifier node
  | TypeReference _ _ typeName _ => toIdentifier typeName
  | _ => None
  end.


(** The name [handle] looks up with [findSymbol] at the three places where
    it reports an unknown name: an [Identifier] node, the identifier a
    [TypeReference] names, and the identifier on the left of the [=] of a
    [BinaryExpression]. *)
Definition lookedUpName (node : Node) : option Ident :=
  match node with
  | BinaryExpression _ _ lhs _ _ EqualsToken _ => toIdentifier lhs
  | _ => referenceName node
  end.

(** [before] followed by the bytes [first; second] followed by [after]. *)
Definition adjacent (first second : Z) (buffer : list Z) : Prop :=
  exists before after, buffer = before ++ [first; second] ++ after.

(** The buffers of a program: that of "main" and those of the subroutines. *)
Definition buffers (p : Program.t) : list (list Z) :=
  Program.ops p :: map Subroutine.ops (Program.subroutines p).

(** Two states agree on everything but the subroutines. *)
Definition sameMain (p p' : Program.t) : Prop :=
  Program.ops p' = Program.ops p
  /\ Program.sourceMap p' = Program.sourceMap p
  /\ Program.storage p' = Program.storage p
  /\ Program.storageIndex p' = Program.storageIndex p
  /\ Program.frame p' = Program.frame p.

(** A state in which the type parameter [T] of [type A<T> = ...] is in
    scope and the subroutine of [A] is the emission target. *)
Definition insideGenericAlias : result (unit * Program.t) :=
  (Program.pushSymbolForRoutine "A" SymbolType.Type_ 0 20 ;;
   @Program.pushSubroutine sampleEncoding "A" ;;
   @Compiler.handle sampleEncoding (TypeParameterDeclaration 7 8 (ident 7 8 "T") None))
    Program.new.

(** ** Buffers only grow *)

(** From [p] to [p'] no buffer got shorter and no subroutine was lost. *)
Definition grows (p p' : Program.t) : Prop :=
  (length (Program.ops p) <= length (Program.ops p'))%nat
  /\ forall (i : nat) (sub : Subroutine.t),
       Program.subroutines p !! i = Some sub ->
       exists sub', Program.subroutines p' !! i = Some sub'
                    /\ (length (Subroutine.ops sub) <= length (Subroutine.ops sub'))%nat.

(** A computation that, when it succeeds, lets the buffers grow and leaves
    the active stack [n] subroutines shorter. *)
Definition Down {A : Type} (n : nat) (m : M Program.t A) : Prop :=
  forall (p : Program.t) (a : A) (p' : Program.t),
    m p = Ok (a, p') ->
    grows p p'
    /\ exists popped, length popped = n
                      /\ Program.activeSubroutines p = popped ++ Program.activeSubroutines p'.

(** A computation that makes one more subroutine active. *)
Definition Pushes {A : Type} (m : M Program.t A) : Prop :=
  forall (p : Program.t) (a : A) (p' : Program.t),
    m p = Ok (a, p') ->
    grows p p'
    /\ exists r, Program.activeSubroutines p' = r :: Program.activeSubroutines p.

(** A method of a subroutine that does not shorten its buffer. *)
Definition SubGrows {A : Type} (m : M Subroutine.t A) : Prop :=
  forall (s : Subroutine.t) (a : A) (s' : Subroutine.t),
    m s = Ok (a, s') -> (length (Subroutine.ops s) <= length (Subroutine.ops s'))%nat.

(** A method of a subroutine that leaves its buffer alone. *)
Definition SubKeeps {A : Type} (m : M Subroutine.t A) : Prop :=
  forall (s : Subroutine.t) (a : A) (s' : Subroutine.t),
    m s = Ok (a, s') -> Subroutine.ops s' = Subroutine.ops s.

(** The number of nodes of a tree. *)
Fixpoint nodeSize (n : Node) : nat :=
  let all := fun l : list Node => list_sum (map nodeSize l) in
  let opt := fun o : option Node => match o with Some x => nodeSize x | None => O end in
  let allOpt := fun o : option (list Node) =>
                  match o with Some l => list_sum (map nodeSize l) | None => O end in
  S (match n with
     | SourceFile _ _ statements => all statements
     | KeywordNode _ _ _ | Literal _ _ _ _ | OtherNode _ _ => O
     | IndexedAccessType _ _ objectType indexType => nodeSize objectType + nodeSize indexType
     | LiteralType _ _ literal => nodeSize literal
     | TemplateLiteralType _ _ _ templateSpans => all templateSpans
     | TemplateLiteralTypeSpan _ _ type _ => nodeSize type
     | UnionType _ _ types => all types
     | TypeReference _ _ typeName typeArguments => nodeSize typeName + allOpt typeArguments
     | TypeAliasDeclaration _ _ _ typeParameters type => allOpt typeParameters + nodeSize type
     | ParameterDeclaration _ _ name _ type initializer =>
         nodeSize name + opt type + opt initializer
     | TypeParameterDeclaration _ _ _ defaultType => opt defaultType
     | FunctionDeclaration _ _ name typeParameters parameters type =>
         opt name + allOpt typeParameters + all parameters + opt type
     | Identifier _ _ _ typeArguments => allOpt typeArguments
     | PropertyAssignment _ _ name _ _ initializer => nodeSize name + opt initializer
     | PropertySignature _ _ name _ _ type => nodeSize name + opt type
     | InterfaceDeclaration _ _ _ heritageClauses members => allOpt heritageClauses + all members
     | HeritageClause _ _ _ types => all types
     | TypeLiteral _ _ members => all members
     | ParenthesizedExpression _ _ expression => nodeSize expression
     | ExpressionWithTypeArguments _ _ expression typeArguments =>
         nodeSize expression + allOpt typeArguments
     | ObjectLiteralExpression _ _ properties => all properties
     | CallExpression _ _ expression typeArguments arguments =>
         nodeSize expression + allOpt typeArguments + all arguments
     | ExpressionStatement _ _ expression => nodeSize expression
     | ConditionalExpression _ _ condition whenTrue whenFalse =>
         nodeSize condition + nodeSize whenTrue + nodeSize whenFalse
     | ConditionalType _ _ checkType extendsType trueType falseType =>
         nodeSize checkType + nodeSize extendsType + nodeSize trueType + nodeSize falseType
     | ParenthesizedType _ _ type => nodeSize type
     | RestType _ _ type => nodeSize type
     | ArrayLiteralExpression _ _ elements => all elements
     | ArrayType _ _ elementType => nodeSize elementType
     | TupleType _ _ elements => all elements
     | NamedTupleMember _ _ _ _ type => nodeSize type
     | OptionalType _ _ type => nodeSize type
     | BinaryExpression _ _ lhs _ _ _ rhs => nodeSize lhs + nodeSize rhs
     | VariableStatement _ _ declarations => all declarations
     | VariableDeclaration _ _ name type initializer _ =>
         nodeSize name + opt type + opt initializer
     end).

(** A computation that, when it succeeds, leaves the active stack and the
    current buffer as they were. *)
Definition Keeps {A : Type} (m : M Program.t A) : Prop :=
  forall p a p', m p = Ok (a, p') ->
    Program.activeSubroutines p' = Program.activeSubroutines p
    /\ currentOps p' = currentOps p.

(** A computation that, when it succeeds, appends [bytes] to the current
    buffer and leaves the active stack as it was. *)
Definition Appends {A : Type} (bytes : list Z) (m : M Program.t A) : Prop :=
  forall p a p', m p = Ok (a, p') ->
    Program.activeSubroutines p' = Program.activeSubroutines p
    /\ currentOps p' = currentOps p ++ bytes.

(** [bs] written over the bytes of [bin] from position [o] on. *)
Definition patched (bin : list Z) (o : nat) (bs : list Z) : list Z :=
  take o bin ++ bs ++ drop (o + length bs) bin.

(** The type [T extends string ? number : boolean], at the place it has in
    [type A<T> = T extends string ? number : boolean;]. *)
Definition distributiveExample : Node :=
  ConditionalType 11 50 (typeRef 11 12 "T") (KeywordNode 21 27 StringKeyword)
    (KeywordNode 30 36 NumberKeyword) (KeywordNode 39 46 BooleanKeyword).

(** ** What a computation leaves alone *)

(** From [p] to [p'] only code changed: the buffers, source maps and
    subroutines may differ; storage, frames and the active stack do not. *)
Definition codeOnly (p p' : Program.t) : Prop :=
  Program.storage p' = Program.storage p
  /\ Program.storageIndex p' = Program.storageIndex p
  /\ Program.frame p' = Program.frame p
  /\ Program.activeSubroutines p' = Program.activeSubroutines p.

Definition CodeOnly {A : Type} (m : M Program.t A) : Prop :=
  forall (p : Program.t) (a : A) (p' : Program.t), m p = Ok (a, p') -> codeOnly p p'.

(** From [p] to [p'] only the current frame changed. *)
Definition frameOnly (p p' : Program.t) : Prop :=
  p' = Program.with_frame (Program.frame p') p.

(** A symbol declaration as [pushSymbol] takes it: name, kind, span. *)
Definition declare (d : string * SymbolType.t * (Z * Z)) : M Program.t unit :=
  Program.pushSymbol (fst (fst d)) (snd (fst d)) (fst (snd d)) (snd (snd d)) ;; ret tt.

(** From [p] to [p'] only the symbol list of the current frame changed. *)
Definition symbolsOnly (p p' : Program.t) : Prop :=
  p' = Program.with_frame
         (Frame.with_symbols (Frame.symbols (Program.frame p')) (Program.frame p)) p.

(** ** The image, block by block *)

(** The twelve bytes of a source-map entry whose position is relative to
    [offset]. *)
Definition entryBytes (offset : Z) (entry : SourceMapEntry.t) : list Z :=
  le_bytes 4 (u32 (offset + SourceMapEntry.bytecodePos entry))
  ++ le_bytes 4 (SourceMapEntry.sourcePos entry)
  ++ le_bytes 4 (SourceMapEntry.sourceEnd entry).

(** [address] after the loop [address += routine->ops.size()] over
    [routines]. *)
Definition addressAfter (address : Z) (routines : list Subroutine.t) : Z :=
  fold_left (fun a routine => u32 (a + Z.of_nat (length (Subroutine.ops routine))))
            routines address.

(** The source-map entries of the subroutines, the first one's positions
    relative to [offset]. *)
Fixpoint routineMapBytes (offset : Z) (routines : list Subroutine.t) : list Z :=
  match routines with
  | [] => []
  | routine :: rest =>
      concat (map (entryBytes offset) (Subroutine.sourceMap routine))
      ++ routineMapBytes (u32 (offset + Z.of_nat (length (Subroutine.ops routine)))) rest
  end.

(** The ten bytes of a subroutine's meta-data. *)
Definition headerOf {enc : Encoding} (address : Z) (routine : Subroutine.t) : list Z :=
  [op_code OP.Subroutine] ++ le_bytes 4 (Subroutine.nameAddress routine)
  ++ le_bytes 4 address ++ [Subroutine.getFlags routine].

(** The meta-data of the subroutines, the first one's code at [address]. *)
Fixpoint headerBytes {enc : Encoding} (address : Z) (routines : list Subroutine.t) : list Z :=
  match routines with
  | [] => []
  | routine :: rest =>
      headerOf address routine
      ++ headerBytes (u32 (address + Z.of_nat (length (Subroutine.ops routine)))) rest
  end.

(** The number of source-map entries of a program. *)
Definition sourceMapEntryCount (p : Program.t) : nat :=
  (list_sum (map (fun routine => length (Subroutine.sourceMap routine)) (Program.subroutines p))
   + length (Program.sourceMap p))%nat.

(** The offset of the first subroutine's meta-data: after the storage
    block, the [SourceMap] opcode, its size and the entries. *)
Definition headersStart (p : Program.t) : Z :=
  storageBlockEnd (Program.storage p) + (1 + 4) + 12 * Z.of_nat (sourceMapEntryCount p).

(** The offset of the first byte of code: after the meta-data, the [Main]
    opcode and its address. *)
Definition codeStart (p : Program.t) : Z :=
  headersStart p + 10 * Z.of_nat (length (Program.subroutines p)) + (1 + 4).

(** The offset of the code of the [i]-th subroutine. *)
Definition routineStart (p : Program.t) (i : nat) : Z :=
  codeStart p
  + Z.of_nat (length (concat (map Subroutine.ops (take i (Program.subroutines p))))).

(** The offset of the code of "main", and the size of the whole image. *)
Definition mainStart (p : Program.t) : Z :=
  routineStart p (length (Program.subroutines p)).

Definition imageSize (p : Program.t) : Z :=
  mainStart p + Z.of_nat (length (Program.ops p)) + 1.

(** ** Storage *)

(** The running [storageIndex] agrees with the storage table: it is still
    unset while the table is empty, and afterwards it is the offset of the
    first byte after the storage block. *)
Definition storageConsistent (p : Program.t) : Prop :=
  (Program.storage p = [] /\ Program.storageIndex p = 0)
  \/ (Program.storage p <> [] /\ Program.storageIndex p = storageBlockEnd (Program.storage p)).

(** From [p] to [p'] the storage table and its index are untouched. *)
Definition sameStorage (p p' : Program.t) : Prop :=
  Program.storage p' = Program.storage p
  /\ Program.storageIndex p' = Program.storageIndex p.

(** From [p] to [p'] texts were only added to the storage table, and the
    index stays in step with the table as long as it fits 32 bits. *)
Definition storageGrows (p p' : Program.t) : Prop :=
  (exists more, Program.storage p' = Program.storage p ++ more)
  /\ (storageConsistent p -> storageBlockEnd (Program.storage p') < 2 ^ 32 ->
      storageConsistent p').

(** The bytes of one storage entry: hash, length, text. *)
Definition storageEntry {enc : Encoding} (text : string) : list Z :=
  le_bytes 8 (runtime_hash text) ++ le_bytes 2 (Z.of_nat (String.length text))
  ++ Program.bytesOf text.

(** [type A<T> = { a: T; b: "x" };] *)
Definition objectAlias : Node :=
  SourceFile 0 32
    [TypeAliasDeclaration 0 32 (ident 5 6 "A")
       (Some [TypeParameterDeclaration 7 8 (ident 7 8 "T") None])
       (TypeLiteral 12 31
          [PropertySignature 14 19 (Identifier 14 15 "a" None) None false
             (Some (typeRef 17 18 "T"));
           PropertySignature 21 29 (Identifier 21 22 "b" None) None false
             (Some (LiteralType 24 27 (Literal 24 27 StringLiteral "x")))])].

(** The offset in the image of the [k]-th source-map entry of the [i]-th
    subroutine; with [i] the number of subroutines, of the [k]-th entry of
    "main". *)
Definition entryOffset (p : Program.t) (i k : nat) : Z :=
  storageBlockEnd (Program.storage p) + (1 + 4)
  + 12 * Z.of_nat (list_sum (map (fun routine => length (Subroutine.sourceMap routine))
                               (take i (Program.subroutines p))) + k).

(** ** Relations every step of a lowering respects *)

(** Every successful run of [m] takes a program to one related to it by
    [R]. *)
Definition Steps (R : Program.t -> Program.t -> Prop) {A : Type} (m : M Program.t A) : Prop :=
  forall (p : Program.t) (a : A) (p' : Program.t), m p = Ok (a, p') -> R p p'.

(** ** Frames and the symbols in them *)

(** The open scopes: the current frame, then the enclosing ones up to the
    root. *)
Fixpoint frameChain (f : Frame.t) : list Frame.t :=
  match f with
  | Frame.mk _ previous _ _ =>
      f :: match previous with
           | Some parent => frameChain parent
           | None => []
           end
  end.

(** Every symbol of [symbols] records [id] as its frame and its own
    position as its index. *)
Definition symbolsTagged (id : Z) (symbols : list Symbol.t) : Prop :=
  forall (i : nat) (s : Symbol.t),
    symbols !! i = Some s -> Symbol.frame s = id /\ Symbol.index s = u32 (Z.of_nat i).

(** A chain of frames as [pushFrame] and [pushSymbol] build it: the id of
    a frame is its parent's plus one, and the symbols of each frame are
    tagged with it. *)
Fixpoint frameWf (f : Frame.t) : Prop :=
  match f with
  | Frame.mk _ previous id symbols =>
      symbolsTagged id symbols
      /\ match previous with
         | Some parent => id = u32 (Frame.id parent + 1) /\ frameWf parent
         | None => 0 <= id < 2 ^ 32
         end
  end.

(** From [p] to [p'] the frames stay well formed. *)
Definition framesKept (p p' : Program.t) : Prop :=
  frameWf (Program.frame p) -> frameWf (Program.frame p').

(** ** What the methods of a subroutine keep *)

(** Every run of a method of a subroutine takes it to one related to it
    by [Q]. *)
Definition SubSteps (Q : Subroutine.t -> Subroutine.t -> Prop) {A : Type}
    (m : M Subroutine.t A) : Prop :=
  forall (s : Subroutine.t) (a : A) (s' : Subroutine.t), m s = Ok (a, s') -> Q s s'.

(** The entries of a source map point into the buffer they describe. *)
Definition mapInRange (ops : list Z) (map : SourceMap.t) : Prop :=
  Forall (fun entry => 0 <= SourceMapEntry.bytecodePos entry <= Z.of_nat (length ops)) map.

(** From [s] to [s'] a subroutine keeps its name, index, name address and
    kind; its buffer and its section table are not shorter; a section
    table that was well linked still is, as long as it has no more than
    2^32 sections; a source map that pointed into the buffer still does. *)
Record subKept (s s' : Subroutine.t) : Prop := {
  kept_identifier : Subroutine.identifier s' = Subroutine.identifier s;
  kept_index : Subroutine.index s' = Subroutine.index s;
  kept_nameAddress : Subroutine.nameAddress s' = Subroutine.nameAddress s;
  kept_type : Subroutine.type s' = Subroutine.type s;
  kept_ops : (length (Subroutine.ops s) <= length (Subroutine.ops s'))%nat;
  kept_sections : (length (Subroutine.sections s) <= length (Subroutine.sections s'))%nat;
  kept_links : Z.of_nat (length (Subroutine.sections s')) <= 2 ^ 32 ->
               wellLinked (Subroutine.sections s) -> wellLinked (Subroutine.sections s');
  kept_map : mapInRange (Subroutine.ops s) (Subroutine.sourceMap s) ->
             mapInRange (Subroutine.ops s') (Subroutine.sourceMap s');
}.

(** From [p] to [p'] no subroutine was added, and each one is related by
    [Q] to what it was. *)
Definition subsAltered (Q : Subroutine.t -> Subroutine.t -> Prop) (p p' : Program.t) : Prop :=
  length (Program.subroutines p') = length (Program.subroutines p)
  /\ forall (i : nat) (sub : Subroutine.t),
       Program.subroutines p !! i = Some sub ->
       exists sub', Program.subroutines p' !! i = Some sub' /\ Q sub sub'.

(** From [p] to [p'] the buffer of "main" is not shorter and its source
    map, if it pointed into the buffer, still does. *)
Definition mainKept (p p' : Program.t) : Prop :=
  (length (Program.ops p) <= length (Program.ops p'))%nat
  /\ (mapInRange (Program.ops p) (Program.sourceMap p) ->
      mapInRange (Program.ops p') (Program.sourceMap p')).

(** A step that emits code: storage, frames and the active stack are
    untouched, and the code is kept in the sense above. *)
Definition codeStep (p p' : Program.t) : Prop :=
  codeOnly p p' /\ mainKept p p' /\ subsAltered subKept p p'.

(** ** The subroutine table during the lowering *)

(** From [p] to [p'] subroutines were only added, and each one that
    existed is kept in the sense of [subKept]. *)
Definition subsExtended (p p' : Program.t) : Prop :=
  (length (Program.subroutines p) <= length (Program.subroutines p'))%nat
  /\ forall (i : nat) (sub : Subroutine.t),
       Program.subroutines p !! i = Some sub ->
       exists sub', Program.subroutines p' !! i = Some sub' /\ subKept sub sub'.

(** The subroutine at position [i] is as the compiler builds it: its
    index is its position, its section table (when it has no more than
    2^32 sections) is well linked, and its source map points into its
    buffer. *)
Definition routineWf (i : nat) (sub : Subroutine.t) : Prop :=
  Subroutine.index sub = u32 (Z.of_nat i)
  /\ (Z.of_nat (length (Subroutine.sections sub)) <= 2 ^ 32 ->
      wellLinked (Subroutine.sections sub))
  /\ mapInRange (Subroutine.ops sub) (Subroutine.sourceMap sub).

Definition subsWf (p : Program.t) : Prop :=
  forall (i : nat) (sub : Subroutine.t), Program.subroutines p !! i = Some sub -> routineWf i sub.

(** The name address of a subroutine is the address [registerStorage]
    gave its name; a subroutine without a name has no name address. *)
Definition nameStored (storage : list string) (sub : Subroutine.t) : Prop :=
  (Subroutine.identifier sub = EmptyString /\ Subroutine.nameAddress sub = 0)
  \/ exists before after,
       storage = before ++ Subroutine.identifier sub :: after
       /\ Subroutine.nameAddress sub = storageBlockEnd before.

Definition namesStored (p : Program.t) : Prop :=
  forall (i : nat) (sub : Subroutine.t),
    Program.subroutines p !! i = Some sub -> nameStored (Program.storage p) sub.

(** Every symbol of an open frame that owns a routine owns a subroutine
    of the table, and that subroutine carries the symbol's name. *)
Definition linked (p : Program.t) : Prop :=
  forall (g : Frame.t) (s : Symbol.t) (r : nat),
    In g (frameChain (Program.frame p)) ->
    In s (Frame.symbols g) ->
    Symbol.routine s = Some r ->
    exists sub, Program.subroutines p !! r = Some sub
                /\ Subroutine.identifier sub = Symbol.name s.

(** What every step of the lowering does to the tables of a program. *)
Definition lowered (p p' : Program.t) : Prop :=
  storageGrows p p'
  /\ mainKept p p'
  /\ subsExtended p p'
  /\ (subsWf p -> subsWf p')
  /\ (linked p -> linked p')
  /\ (storageConsistent p -> storageBlockEnd (Program.storage p') < 2 ^ 32 ->
      namesStored p -> namesStored p').

(** The type arguments a reference node carries. *)
Definition referenceArguments (node : Node) : option (list Node) :=
  match node with
  | Identifier _ _ _ typeArguments => typeArguments
  | TypeReference _ _ _ typeArguments => typeArguments
  | _ => None
  end.

(** [type Id<T> = T;] *)
Definition identityAlias : Node :=
  SourceFile 0 17
    [TypeAliasDeclaration 0 17 (ident 5 7 "Id")
       (Some [TypeParameterDeclaration 8 9 (ident 8 9 "T") None])
       (typeRef 13 14 "T")].

(** The subroutine of [Id] in [identityAlias] at the moment
    [popSubroutine] calls [optimise] on it. *)
Definition identityBeforeOptimise : option Subroutine.t :=
  match (Program.pushSymbolForRoutine "Id" SymbolType.Type_ 0 17 ;;
         @Program.pushSubroutine sampleEncoding "Id" ;;
         @Compiler.handle sampleEncoding (TypeParameterDeclaration 8 9 (ident 8 9 "T") None) ;;
         @Compiler.handle sampleEncoding (typeRef 13 14 "T") ;;
         Program.popFrameImplicit ;;
         Program.onActive Subroutine.end_) Program.new with
  | Ok (_, p) => currentSubroutine p
  | _ => None
  end.

(** The name a declaration declares: a type alias, a named function or a
    variable whose name is an identifier. *)
Definition declaredName (node : Node) : option string :=
  match node with
  | TypeAliasDeclaration _ _ name _ _ => Some (escapedText name)
  | FunctionDeclaration _ _ name _ _ _ => escapedText <$> (name ≫= toIdentifier)
  | VariableDeclaration _ _ name _ _ _ => escapedText <$> toIdentifier name
  | _ => None
  end.

(** ** Finished subroutines *)

(** From [p] to [p'] the active stack is the same and only the subroutine
    on top of it, if any, may differ. *)
Definition headOnly (p p' : Program.t) : Prop :=
  Program.activeSubroutines p' = Program.activeSubroutines p
  /\ forall i : nat,
       head (Program.activeSubroutines p) <> Some i ->
       Program.subroutines p' !! i = Program.subroutines p !! i.

(** Every subroutine is empty, or active, or ends with [Return]. *)
Definition finished {enc : Encoding} (p : Program.t) : Prop :=
  forall (i : nat) (sub : Subroutine.t),
    Program.subroutines p !! i = Some sub ->
    Subroutine.ops sub = []
    \/ In i (Program.activeSubroutines p)
    \/ exists before, Subroutine.ops sub = before ++ [op_code OP.Return].

Definition finishedKept {enc : Encoding} (p p' : Program.t) : Prop :=
  finished p -> finished p'.

(** * Properties *)

(** ** Reasoning about the monad *)

Lemma bind_Ok {S A B : Type} (m : M S A) (f : A -> M S B) (s : S) (r : B * S) :
  bind m f s = Ok r <-> exists a s1, m s = Ok (a, s1) /\ f a s1 = Ok r.
Proof.
  unfold bind. split.
  - destruct (m s) as [[a s1]| |]; intros H; try discriminate. eauto.
  - intros (a & s1 & -> & H). exact H.
Qed.

Lemma u32_small (x : Z) : 0 <= x < 2 ^ 32 -> u32 x = x.
Proof. intros H. unfold u32. apply Z.mod_small. exact H. Qed.

Lemma u32_range (x : Z) : 0 <= u32 x < 2 ^ 32.
Proof. unfold u32. apply Z.mod_pos_bound. lia. Qed.

(** ** The storage table *)

Lemma registerStorage_run (text : string) (p : Program.t) :
  let address := if Program.storageIndex p =? 0 then 1 + 4 else Program.storageIndex p in
  Program.registerStorage text p
  = Ok (address,
        Program.mk (Program.ops p) (Program.sourceMap p) (Program.storage p ++ [text])
          (u32 (address + (8 + 2 + Z.of_nat (String.length text))))
          (Program.frame p) (Program.activeSubroutines p) (Program.subroutines p)).
Proof.
  unfold Program.registerStorage, bind, modify, gets, ret; simpl.
  destruct (Program.storageIndex p =? 0); reflexivity.
Qed.

(** C7: [registerStorage] returns 5 for the first registration, returns
    the value of [storageIndex] before advancing it by 8 + 2 + len(text)
    and does not deduplicate: the same text registered twice is stored
    twice, at two distinct addresses (as long as the addresses fit the 32
    bits of [storageIndex]). *)
Theorem registerStorage_addresses (p : Program.t) (text : string) :
  0 <= Program.storageIndex p ->
  (if Program.storageIndex p =? 0 then 5 else Program.storageIndex p)
    + (8 + 2 + Z.of_nat (String.length text)) < 2 ^ 32 ->
  (exists q, Program.registerStorage text Program.new = Ok (5, q))
  /\ exists a1 p1 a2 p2,
       Program.registerStorage text p = Ok (a1, p1)
       /\ Program.registerStorage text p1 = Ok (a2, p2)
       /\ (Program.storageIndex p = 0 -> a1 = 5)
       /\ (Program.storageIndex p <> 0 -> a1 = Program.storageIndex p)
       /\ Program.storageIndex p1 = a1 + (8 + 2 + Z.of_nat (String.length text))
       /\ a2 = Program.storageIndex p1
       /\ Program.storage p1 = Program.storage p ++ [text]
       /\ Program.storage p2 = Program.storage p ++ [text; text]
       /\ a1 <> a2.
Proof.
  intros Hnonneg Hfits. split.
  - eexists. rewrite registerStorage_run. reflexivity.
  - pose proof (registerStorage_run text p) as H1. cbv zeta in H1.
    set (a1 := if Program.storageIndex p =? 0 then 1 + 4 else Program.storageIndex p) in *.
    assert (Ha1 : 5 <= a1 \/ (a1 = Program.storageIndex p /\ 0 < a1)).
    { subst a1. destruct (Z.eqb_spec (Program.storageIndex p) 0); lia. }
    assert (Hsmall : a1 + (8 + 2 + Z.of_nat (String.length text)) < 2 ^ 32).
    { subst a1. destruct (Program.storageIndex p =? 0); exact Hfits. }
    assert (Hu : u32 (a1 + (8 + 2 + Z.of_nat (String.length text)))
                 = a1 + (8 + 2 + Z.of_nat (String.length text))).
    { apply u32_small. lia. }
    eexists a1, _, _, _. split; [exact H1|].
    split; [rewrite registerStorage_run; simpl; reflexivity|].
    simpl. rewrite Hu.
    destruct (Z.eqb_spec (a1 + (8 + 2 + Z.of_nat (String.length text))) 0) as [E|E]; [lia|].
    repeat split.
    + intros E0. subst a1. rewrite E0. reflexivity.
    + intros E0. subst a1. destruct (Z.eqb_spec (Program.storageIndex p) 0); [contradiction|reflexivity].
    + rewrite <- app_assoc. reflexivity.
    + lia.
Qed.

Lemma registerStorage_addresses_witness :
  exists a1 p1 a2 p2,
    Program.registerStorage "T" Program.new = Ok (a1, p1)
    /\ Program.registerStorage "T" p1 = Ok (a2, p2)
    /\ a1 = 5 /\ a2 = 16 /\ Program.storage p2 = ["T"; "T"].
Proof.
  destruct (registerStorage_addresses Program.new "T") as [_ (a1 & p1 & a2 & p2 & H1 & H2 & Hfirst & _ & Hadv & Ha2 & _ & Hst & _)].
  - simpl. lia.
  - simpl. lia.
  - exists a1, p1, a2, p2. 
    assert (a1 = 5) by (apply Hfirst; reflexivity). subst a1.
    repeat split; try assumption.
    rewrite Ha2, Hadv. reflexivity.
Defined.

(** ** Vectors indexed by machine integers *)

Lemma at_Some {A : Type} (l : list A) (i : Z) (x : A) :
  at_ l i = Some x <-> 0 <= i < Z.of_nat (length l) /\ l !! Z.to_nat i = Some x.
Proof.
  unfold at_. destruct ((0 <=? i) && (i <? Z.of_nat (length l))) eqn:E.
  - apply andb_true_iff in E as [E1 E2]. apply Z.leb_le in E1. apply Z.ltb_lt in E2.
    split; [intros Hl; split; [lia|exact Hl] | intros [_ Hl]; exact Hl].
  - apply andb_false_iff in E as [E|E];
      [apply Z.leb_gt in E | apply Z.ltb_ge in E];
      (split; [discriminate | intros [Hr _]; lia]).
Qed.

Lemma at_is_Some {A : Type} (l : list A) (i : Z) :
  is_Some (at_ l i) <-> 0 <= i < Z.of_nat (length l).
Proof.
  split.
  - intros [x H]. apply at_Some in H. tauto.
  - intros H. destruct (lookup_lt_is_Some_2 l (Z.to_nat i)) as [x Hx]; [lia|].
    exists x. apply at_Some. tauto.
Qed.

Lemma at_nat {A : Type} (l : list A) (i : nat) : at_ l (Z.of_nat i) = l !! i.
Proof.
  destruct (l !! i) as [x|] eqn:E.
  - apply at_Some. rewrite Nat2Z.id. split; [|exact E].
    apply lookup_lt_Some in E. lia.
  - destruct (at_ l (Z.of_nat i)) as [y|] eqn:E'; [|reflexivity].
    apply at_Some in E' as [_ E']. rewrite Nat2Z.id in E'. congruence.
Qed.

Lemma store_Some {A : Type} (l : list A) (i : Z) (x : A) (l' : list A) :
  store l i x = Some l' <-> 0 <= i < Z.of_nat (length l) /\ l' = <[Z.to_nat i := x]> l.
Proof.
  unfold store. destruct ((0 <=? i) && (i <? Z.of_nat (length l))) eqn:E.
  - apply andb_true_iff in E as [E1 E2]. apply Z.leb_le in E1. apply Z.ltb_lt in E2.
    split; [intros Hl; inversion Hl; split; [lia|reflexivity] | intros [_ ->]; reflexivity].
  - apply andb_false_iff in E as [E|E];
      [apply Z.leb_gt in E | apply Z.ltb_ge in E];
      (split; [discriminate | intros [Hr _]; lia]).
Qed.

(** ** Emission into the current target *)

Lemma onActive_run {A : Type} (m : M Subroutine.t A) (p : Program.t) (r : nat)
    (rest : list nat) (sub sub' : Subroutine.t) (a : A) :
  Program.activeSubroutines p = r :: rest ->
  Program.subroutines p !! r = Some sub ->
  m sub = Ok (a, sub') ->
  Program.onActive m p
  = Ok (a, Program.with_subroutines (<[r := sub']> (Program.subroutines p)) p).
Proof. intros Hs Hr Hm. unfold Program.onActive. rewrite Hs, Hr, Hm. reflexivity. Qed.

Lemma onActive_Ok {A : Type} (m : M Subroutine.t A) (p p' : Program.t) (a : A) :
  Program.onActive m p = Ok (a, p') ->
  exists r rest sub sub',
    Program.activeSubroutines p = r :: rest
    /\ Program.subroutines p !! r = Some sub
    /\ m sub = Ok (a, sub')
    /\ p' = Program.with_subroutines (<[r := sub']> (Program.subroutines p)) p.
Proof.
  unfold Program.onActive. destruct (Program.activeSubroutines p) as [|r rest]; [discriminate|].
  destruct (Program.subroutines p !! r) as [sub|] eqn:Hr; [|discriminate].
  destruct (m sub) as [[a' sub']| |] eqn:Hm; try discriminate.
  intros H. inversion H; subst. eauto 10.
Qed.

Lemma currentOps_onActive (p : Program.t) (r : nat) (rest : list nat) (sub sub' : Subroutine.t) :
  Program.activeSubroutines p = r :: rest ->
  Program.subroutines p !! r = Some sub ->
  currentOps (Program.with_subroutines (<[r := sub']> (Program.subroutines p)) p)
  = Subroutine.ops sub'.
Proof.
  intros Hs Hr. unfold currentOps. simpl. rewrite Hs.
  rewrite list_lookup_insert_eq; [reflexivity|]. eapply lookup_lt_Some; eauto.
Qed.

Lemma alterSection_run (i : Z) (f : Section.t -> Section.t) (sub : Subroutine.t)
    (sec : Section.t) :
  at_ (Subroutine.sections sub) i = Some sec ->
  Subroutine.alterSection i f sub
  = Ok (tt, Subroutine.with_sections (<[Z.to_nat i := f sec]> (Subroutine.sections sub)) sub).
Proof. intros H. unfold Subroutine.alterSection. rewrite H. reflexivity. Qed.

(** [pushOp] on a subroutine whose active section exists. *)
Lemma Subroutine_pushOp_run {enc : Encoding} (op : OP.t) (sub : Subroutine.t) :
  is_Some (activeSectionOf sub) ->
  exists sub',
    Subroutine.pushOp op sub = Ok (tt, sub')
    /\ Subroutine.ops sub' = Subroutine.ops sub ++ [op_code op]
    /\ Subroutine.sourceMap sub' = Subroutine.sourceMap sub
    /\ Subroutine.activeSection sub' = Subroutine.activeSection sub
    /\ length (Subroutine.sections sub') = length (Subroutine.sections sub)
    /\ (forall section, activeSectionOf sub = Some section ->
        option_map Section.typeArgumentUsages (activeSectionOf sub')
        = Some (Section.typeArgumentUsages section)).
Proof.
  intros [sec Hsec]. unfold activeSectionOf in *.
  unfold Subroutine.pushOp, bind, modify, gets, when. simpl.
  destruct (Subroutine.isIgnoreNextSectionOP sub); simpl.
  - eexists. split; [reflexivity|]. simpl. repeat split; try reflexivity.
    intros section Hs. rewrite Hs. reflexivity.
  - erewrite alterSection_run by (simpl; exact Hsec). simpl.
    eexists. split; [reflexivity|]. simpl. repeat split; try reflexivity.
    + apply length_insert.
    + intros section Hs. rewrite Hs in Hsec. inversion Hsec; subst sec.
      apply at_Some in Hs as [Hrange Hl].
      match goal with |- option_map _ ?o = _ => assert (E : o = Some (Section.with_ops (u32 (Section.ops section + 1)) (Section.with_lastOp op section))) end.
      { apply at_Some. rewrite length_insert. split; [lia|].
        apply list_lookup_insert_eq. lia. }
      rewrite E. reflexivity.
Qed.

(** A method of the active subroutine changes that subroutine only. *)
Lemma onActive_step {A : Type} (m : M Subroutine.t A) (p : Program.t) (r : nat)
    (rest : list nat) (sub sub' : Subroutine.t) (a : A) :
  activeIs p r rest sub ->
  m sub = Ok (a, sub') ->
  exists p',
    Program.onActive m p = Ok (a, p')
    /\ activeIs p' r rest sub'
    /\ Program.ops p' = Program.ops p
    /\ Program.sourceMap p' = Program.sourceMap p
    /\ Program.storage p' = Program.storage p
    /\ Program.storageIndex p' = Program.storageIndex p
    /\ Program.frame p' = Program.frame p.
Proof.
  intros [Hs Hr] Hm. eexists. split; [eapply onActive_run; eauto|].
  repeat split; simpl; try assumption; try reflexivity.
  apply list_lookup_insert_eq. eapply lookup_lt_Some; eauto.
Qed.

Lemma activeIs_currentOps (p : Program.t) (r : nat) (rest : list nat) (sub : Subroutine.t) :
  activeIs p r rest sub -> currentOps p = Subroutine.ops sub.
Proof. intros [Hs Hr]. unfold currentOps. rewrite Hs, Hr. reflexivity. Qed.


Lemma targetReady_cases (p : Program.t) :
  targetReady p ->
  Program.activeSubroutines p = []
  \/ exists r rest sub, activeIs p r rest sub /\ is_Some (activeSectionOf sub).
Proof.
  unfold targetReady, activeIs. destruct (Program.activeSubroutines p) as [|r rest].
  - left. reflexivity.
  - intros (sub & Hr & Hsec). right. exists r, rest, sub. auto.
Qed.

(** [pushOp] appends the opcode to the current target and touches nothing
    else an observer of the frame or of "main" could see. *)
Lemma Program_pushOp_run {enc : Encoding} (op : OP.t) (p : Program.t) :
  targetReady p ->
  exists p',
    Program.pushOp op p = Ok (tt, p')
    /\ currentOps p' = currentOps p ++ [op_code op]
    /\ Program.frame p' = Program.frame p
    /\ Program.activeSubroutines p' = Program.activeSubroutines p
    /\ targetReady p'.
Proof.
  intros Hready. destruct (targetReady_cases p Hready) as [Hs|(r & rest & sub & Hact & Hsec)].
  - unfold Program.pushOp. rewrite Hs. eexists. split; [reflexivity|].
    unfold currentOps, targetReady. simpl. rewrite Hs. auto.
  - destruct (Subroutine_pushOp_run op sub Hsec) as (sub' & Hrun & Hops & _ & Hact' & Hlen & _).
    destruct (onActive_step _ p r rest sub sub' tt Hact Hrun)
      as (p' & Hp' & Hact2 & _ & _ & _ & _ & Hframe).
    exists p'. unfold Program.pushOp. destruct Hact as [Hs Hr]. rewrite Hs.
    split; [exact Hp'|].
    rewrite (activeIs_currentOps p' r rest sub' Hact2).
    rewrite (activeIs_currentOps p r rest sub (conj Hs Hr)).
    destruct Hact2 as [Hs2 Hr2].
    repeat split; try assumption; try congruence.
    unfold targetReady. rewrite Hs2. exists sub'. split; [exact Hr2|].
    unfold activeSectionOf in *. apply at_is_Some. apply at_is_Some in Hsec. lia.
Qed.

(** C10: at the root frame [popFrame] still emits [FrameEnd] but leaves the
    current frame as it is, and [popFrameImplicit] changes nothing at all. *)
Theorem popFrame_at_root {enc : Encoding} (p : Program.t) :
  Frame.previous (Program.frame p) = None ->
  targetReady p ->
  (exists p',
     Program.popFrame p = Ok (tt, p')
     /\ currentOps p' = currentOps p ++ [op_code OP.FrameEnd]
     /\ Program.frame p' = Program.frame p)
  /\ Program.popFrameImplicit p = Ok (tt, p).
Proof.
  intros Hroot Hready.
  assert (Himplicit : forall q, Frame.previous (Program.frame q) = None ->
                                Program.popFrameImplicit q = Ok (tt, q)).
  { intros q Hq. unfold Program.popFrameImplicit, modify. rewrite Hq. reflexivity. }
  split; [|apply Himplicit; exact Hroot].
  destruct (Program_pushOp_run OP.FrameEnd p Hready) as (p' & Hrun & Hops & Hframe & _).
  exists p'. split; [|split; assumption].
  unfold Program.popFrame. apply bind_Ok. exists tt, p'. split; [exact Hrun|].
  apply Himplicit. rewrite Hframe. exact Hroot.
Qed.

Lemma popFrame_at_root_witness :
  (exists p',
     @Program.popFrame sampleEncoding Program.new = Ok (tt, p')
     /\ currentOps p' = [7]
     /\ Program.frame p' = Frame.root)
  /\ Program.popFrameImplicit Program.new = Ok (tt, Program.new).
Proof.
  apply (@popFrame_at_root sampleEncoding Program.new).
  - reflexivity.
  - exact I.
Defined.

(** ** Type-argument usages *)


Lemma registerUsage_known (symbolIndex ip : Z) (before after : list TypeArgumentUsage.t)
    (usage : TypeArgumentUsage.t) :
  (forall u, In u before -> TypeArgumentUsage.symbolIndex u <> symbolIndex) ->
  TypeArgumentUsage.symbolIndex usage = symbolIndex ->
  Section.registerUsage symbolIndex ip (before ++ usage :: after)
  = before ++ TypeArgumentUsage.mk ip (TypeArgumentUsage.ip usage) :: after.
Proof.
  induction before as [|u rest IH]; intros Hfresh Husage; simpl.
  - rewrite Husage, Z.eqb_refl. reflexivity.
  - destruct (Z.eqb_spec (TypeArgumentUsage.symbolIndex u) symbolIndex) as [E|E].
    + exfalso. apply (Hfresh u); [left; reflexivity | exact E].
    + rewrite IH; [reflexivity| |exact Husage]. intros v Hv. apply Hfresh. right. exact Hv.
Qed.

(** C9 (the code departs from the claim): a second registration of a
    symbol already recorded in the section overwrites the entry's
    [symbolIndex] with the instruction pointer.  The symbol of index 0,
    first used at ip 5 and registered again at ip 9, leaves the single
    entry (9, 5), which no longer names the symbol; so does the second [T]
    of [type A<T> = [T, T];] in the compiled subroutine. *)
Theorem registerTypeArgumentUsage_repeated :
  let symbol := Symbol.mk "T" SymbolType.TypeArgument 0 7 8 1 None 1 in
  let once := Section.registerTypeArgumentUsage symbol 5 (Section.new 0 (u32 (-1))) in
  let twice := Section.registerTypeArgumentUsage symbol 9 once in
  Section.typeArgumentUsages once = [TypeArgumentUsage.mk 0 5]
  /\ Section.typeArgumentUsages twice = [TypeArgumentUsage.mk 9 5]
  /\ (forall usage, In usage (Section.typeArgumentUsages twice) ->
        TypeArgumentUsage.symbolIndex usage <> Symbol.index symbol)
  /\ exists p sub section,
       @Compiler.compileSourceFile sampleEncoding pairOfT = Ok p
       /\ Program.subroutines p !! 0%nat = Some sub
       /\ Subroutine.sections sub !! 0%nat = Some section
       /\ Section.typeArgumentUsages section = [TypeArgumentUsage.mk 13 7].
Proof.
  cbv zeta. split; [reflexivity|]. split; [reflexivity|]. split.
  - intros usage [<-|[]]. simpl. lia.
  - eexists _, _, _. split; [vm_compute; reflexivity|].
    split; [reflexivity|]. split; reflexivity.
Qed.

(** ** Finding the subroutine of a symbol *)

Lemma findOwn_None (name : string) (symbols : list Symbol.t) :
  Program.findOwn name symbols = None
  <-> forall s, In s symbols -> Symbol.name s <> name.
Proof.
  unfold Program.findOwn. split.
  - intros H s Hin E. eapply find_none in H; [|exact Hin].
    simpl in H. apply String.eqb_neq in H. contradiction.
  - intros H. destruct (find _ symbols) as [s|] eqn:E; [|reflexivity].
    apply find_some in E as [Hin E]. apply String.eqb_eq in E.
    exfalso. exact (H s Hin E).
Qed.

Lemma pushFrame_implicit_run {enc : Encoding} (p : Program.t) :
  Program.pushFrame true p
  = Ok (tt, Program.with_frame
              (Frame.with_id (u32 (Frame.id (Program.frame p) + 1))
                 (Frame.new (Program.frame p))) p).
Proof. reflexivity. Qed.

(** C8 (amended): [pushSubroutine] looks the name up among the symbols of
    the current frame only, first match in insertion order; it raises the
    fatal error exactly when no symbol of the current frame has the name,
    whatever the enclosing frames hold.  On a match that owns a routine it
    opens an implicit frame and makes that routine the active one. *)
Theorem pushSubroutine_current_frame_only {enc : Encoding} (p : Program.t) (name : string) :
  ((exists msg, Program.pushSubroutine name p = Throw msg)
   <-> forall s, In s (Frame.symbols (Program.frame p)) -> Symbol.name s <> name)
  /\ (forall s r sub,
        Program.findOwn name (Frame.symbols (Program.frame p)) = Some s ->
        Symbol.routine s = Some r ->
        Program.subroutines p !! r = Some sub ->
        exists p',
          Program.pushSubroutine name p = Ok (Subroutine.index sub, p')
          /\ Program.activeSubroutines p' = r :: Program.activeSubroutines p
          /\ Frame.previous (Program.frame p') = Some (Program.frame p)
          /\ Program.subroutines p' = Program.subroutines p).
Proof.
  split.
  - rewrite <- findOwn_None. unfold Program.pushSubroutine, bind, gets. simpl.
    destruct (Program.findOwn name (Frame.symbols (Program.frame p))) as [s|] eqn:E.
    + split; [|discriminate]. intros [msg H]. exfalso. simpl in H.
      unfold defined, bind, modify, ret, undef in H.
      destruct (Symbol.routine s) as [r|]; simpl in H; [|discriminate].
      destruct (Program.subroutines p !! r); discriminate.
    + split; [reflexivity|]. intros _. eexists. reflexivity.
  - intros s r sub Hfound Hroutine Hsub.
    unfold Program.pushSubroutine, bind, gets. simpl. rewrite Hfound. simpl.
    unfold defined. rewrite Hroutine. simpl. unfold bind, modify, ret. simpl.
    rewrite Hsub. simpl. eexists. split; [reflexivity|]. simpl. auto.
Qed.

(** C8 as stated fails: with [A] declared in the root frame and the
    current frame a child of the root, the name is found along the chain
    of frames, and [pushSubroutine] still raises. *)
Lemma pushSubroutine_ignores_enclosing_frames :
  exists p,
    nestedFrameState = Ok (tt, p)
    /\ (exists symbol, Program.findSymbol "A" p = Some symbol)
    /\ @Program.pushSubroutine sampleEncoding "A" p = Throw "no symbol found for A".
Proof.
  eexists. split; [vm_compute; reflexivity|].
  split; [eexists; vm_compute; reflexivity|].
  vm_compute. reflexivity.
Qed.

(** ** Scenario: a type alias of a union *)

(** C3 (amended): compiling [type T = string | number;] produces exactly
    one subroutine, named T, whose opcodes after [popSubroutine] are
    Frame, String, Number, Union, Return: the union case closes its frame
    with [popFrameImplicit], which emits no FrameEnd. *)
Theorem unionAlias_subroutine {enc : Encoding} :
  exists p sub,
    Compiler.compileSourceFile unionAlias = Ok p
    /\ Program.subroutines p = [sub]
    /\ Program.activeSubroutines p = []
    /\ Subroutine.identifier sub = "T"
    /\ Subroutine.ops sub
       = map op_code [OP.Frame; OP.String; OP.Number; OP.Union; OP.Return].
Proof.
  eexists _, _. split; [vm_compute; reflexivity|]. simpl. auto.
Qed.

(** C3 as stated fails: no FrameEnd precedes the Return. *)
Lemma unionAlias_has_no_FrameEnd :
  ~ exists p sub,
      @Compiler.compileSourceFile sampleEncoding unionAlias = Ok p
      /\ Program.subroutines p = [sub]
      /\ Subroutine.ops sub
         = map (@op_code sampleEncoding)
             [OP.Frame; OP.String; OP.Number; OP.Union; OP.FrameEnd; OP.Return].
Proof.
  intros (p & sub & Hp & Hsubs & Hops).
  vm_compute in Hp. inversion Hp; subst p; clear Hp.
  simpl in Hsubs. inversion Hsubs; subst sub; clear Hsubs.
  simpl in Hops. discriminate Hops.
Qed.

(** ** The encoder *)

Lemma le_bytes_length (n : nat) (v : Z) : length (le_bytes n v) = n.
Proof. revert v. induction n as [|n IH]; intros v; simpl; [reflexivity|]. rewrite IH. reflexivity. Qed.

Lemma le_value_le_bytes (n : nat) (v : Z) :
  le_value (le_bytes n v) = v mod 2 ^ (8 * Z.of_nat n).
Proof.
  revert v. induction n as [|n IH]; intros v.
  - simpl. rewrite Z.mod_1_r. reflexivity.
  - cbn [le_bytes le_value]. rewrite IH.
    replace (8 * Z.of_nat (S n)) with (8 + 8 * Z.of_nat n) by lia.
    rewrite Z.pow_add_r by lia. change (2 ^ 8) with 256.
    assert (0 < 2 ^ (8 * Z.of_nat n)) by (apply Z.pow_pos_nonneg; lia).
    rewrite Z.rem_mul_r by lia. reflexivity.
Qed.

Lemma write_at_end (bin bs : list Z) :
  write_at bin (Z.of_nat (length bin)) bs = Some (bin ++ bs).
Proof. unfold write_at. rewrite Z.eqb_refl. reflexivity. Qed.

(** A write strictly inside the buffer replaces the bytes it covers. *)
Lemma write_at_inside (bin bs : list Z) (offset : Z) :
  0 <= offset ->
  offset + Z.of_nat (length bs) <= Z.of_nat (length bin) ->
  bs <> [] ->
  write_at bin offset bs
  = Some (take (Z.to_nat offset) bin ++ bs ++ drop (Z.to_nat offset + length bs) bin).
Proof.
  intros H0 Hfit Hbs. unfold write_at.
  destruct (Z.eqb_spec offset (Z.of_nat (length bin))) as [E|E].
  - destruct bs; [contradiction|]. simpl in Hfit. lia.
  - destruct (Z.leb_spec 0 offset); [|lia].
    destruct (Z.leb_spec (offset + Z.of_nat (length bs)) (Z.of_nat (length bin))); [|lia].
    reflexivity.
Qed.

Lemma write_at_length (bin bs bin' : list Z) (offset : Z) :
  write_at bin offset bs = Some bin' -> (length bin <= length bin')%nat.
Proof.
  unfold write_at. destruct (offset =? Z.of_nat (length bin)).
  - intros H. inversion H. rewrite length_app. lia.
  - destruct ((0 <=? offset) && (offset + Z.of_nat (length bs) <=? Z.of_nat (length bin))) eqn:E;
      [|discriminate].
    apply andb_true_iff in E as [E1 E2]. apply Z.leb_le in E1. apply Z.leb_le in E2.
    intros H. inversion H. rewrite !length_app, length_take, length_drop. lia.
Qed.

Lemma appendUint16_run (bin : list Z) (v : Z) :
  Program.appendUint16 bin v = Some (bin ++ le_bytes 2 v).
Proof. apply write_at_end. Qed.

Lemma appendUint32_run (bin : list Z) (v : Z) :
  Program.appendUint32 bin v = Some (bin ++ le_bytes 4 v).
Proof. apply write_at_end. Qed.

Lemma appendUint64_run (bin : list Z) (v : Z) :
  Program.appendUint64 bin v = Some (bin ++ le_bytes 8 v).
Proof. apply write_at_end. Qed.

(** ** The image serializer *)

Lemma storageEnd_from (storage : list string) (address : Z) :
  0 <= address ->
  address + Z.of_nat (list_sum (map (fun item => 8 + 2 + String.length item)%nat storage)) < 2 ^ 32 ->
  fold_left (fun address item => u32 (address + (8 + 2 + Z.of_nat (String.length item))))
            storage address
  = address + Z.of_nat (list_sum (map (fun item => 8 + 2 + String.length item)%nat storage)).
Proof.
  revert address. induction storage as [|item rest IH]; intros address H0 Hfit.
  - simpl. lia.
  - cbn [fold_left map] in *. unfold list_sum in *. cbn [fold_right] in *.
    rewrite u32_small by lia. rewrite IH by lia. lia.
Qed.

Lemma storageEnd_exact (storage : list string) :
  storageBlockEnd storage < 2 ^ 32 -> Program.storageEnd storage = storageBlockEnd storage.
Proof.
  unfold storageBlockEnd, Program.storageEnd. intros H. apply storageEnd_from; lia.
Qed.

Lemma bytesOf_length (s : string) : length (Program.bytesOf s) = String.length s.
Proof.
  unfold Program.bytesOf. rewrite length_map. induction s as [|c s IH]; simpl; [reflexivity|].
  rewrite IH. reflexivity.
Qed.

Lemma storageBlock_length {enc : Encoding} (storage : list string) :
  Z.of_nat (length (storageBlock storage)) = storageBlockEnd storage - 5.
Proof.
  unfold storageBlock, storageBlockEnd.
  induction storage as [|item rest IH]; [reflexivity|].
  cbn [map concat]. unfold list_sum in *. cbn [fold_right].
  rewrite !length_app, !le_bytes_length, bytesOf_length. lia.
Qed.

Lemma writeStorageItem_run {enc : Encoding} (item : string) (bin : list Z) :
  Program.writeStorageItem bin item
  = Some (bin ++ le_bytes 8 (runtime_hash item)
              ++ le_bytes 2 (Z.of_nat (String.length item)) ++ Program.bytesOf item).
Proof.
  unfold Program.writeStorageItem. rewrite appendUint64_run. cbn [mbind option_bind].
  rewrite appendUint16_run. cbn [mbind option_bind]. rewrite <- !app_assoc. reflexivity.
Qed.

Lemma writeStorage_run {enc : Encoding} (storage : list string) (bin : list Z) :
  Program.foldM Program.writeStorageItem bin storage = Some (bin ++ storageBlock storage).
Proof.
  revert bin. induction storage as [|item rest IH]; intros bin.
  - simpl. rewrite app_nil_r. reflexivity.
  - cbn [Program.foldM]. rewrite writeStorageItem_run. cbn [mbind option_bind].
    rewrite IH. unfold storageBlock. cbn [map concat].
    rewrite <- !app_assoc. reflexivity.
Qed.

Lemma writeSourceMapEntry_run (offset : Z) (entry : SourceMapEntry.t) (bin : list Z) :
  exists tail, Program.writeSourceMapEntry offset bin entry = Some (bin ++ tail).
Proof.
  unfold Program.writeSourceMapEntry. rewrite appendUint32_run. cbn [mbind option_bind].
  rewrite appendUint32_run. cbn [mbind option_bind]. rewrite appendUint32_run.
  eexists. rewrite <- !app_assoc. reflexivity.
Qed.

Lemma writeSourceMapEntries_run (offset : Z) (entries : list SourceMapEntry.t) (bin : list Z) :
  exists tail, Program.foldM (Program.writeSourceMapEntry offset) bin entries = Some (bin ++ tail).
Proof.
  revert bin. induction entries as [|entry rest IH]; intros bin.
  - exists []. simpl. rewrite app_nil_r. reflexivity.
  - cbn [Program.foldM].
    destruct (writeSourceMapEntry_run offset entry bin) as [t1 ->]. cbn [mbind option_bind].
    destruct (IH (bin ++ t1)) as [tail ->].
    eexists. rewrite <- !app_assoc. reflexivity.
Qed.

Lemma writeRoutineSourceMaps_run (routines : list Subroutine.t) (bin : list Z) (offset : Z) :
  exists tail offset',
    Program.foldM Program.writeRoutineSourceMap (bin, offset) routines
    = Some (bin ++ tail, offset').
Proof.
  revert bin offset. induction routines as [|routine rest IH]; intros bin offset.
  - exists [], offset. simpl. rewrite app_nil_r. reflexivity.
  - cbn [Program.foldM].
    assert (E : Program.writeRoutineSourceMap (bin, offset) routine
                = Program.foldM (Program.writeSourceMapEntry offset) bin (Subroutine.sourceMap routine)
                  ≫= fun b => Some (b, u32 (offset + Z.of_nat (length (Subroutine.ops routine)))))
      by reflexivity.
    rewrite E; clear E.
    destruct (writeSourceMapEntries_run offset (Subroutine.sourceMap routine) bin) as [t1 ->].
    cbn [mbind option_bind].
    destruct (IH (bin ++ t1) (u32 (offset + Z.of_nat (length (Subroutine.ops routine)))))
      as (t2 & offset' & ->).
    eexists _, _. rewrite <- app_assoc. reflexivity.
Qed.

Lemma writeRoutineHeaders_run {enc : Encoding} (routines : list Subroutine.t) (bin : list Z)
    (address : Z) :
  exists tail address',
    Program.foldM Program.writeRoutineHeader (bin, address) routines
    = Some (bin ++ tail, address').
Proof.
  revert bin address. induction routines as [|routine rest IH]; intros bin address.
  - exists [], address. simpl. rewrite app_nil_r. reflexivity.
  - cbn [Program.foldM].
    assert (E : exists t1 a1, Program.writeRoutineHeader (bin, address) routine = Some (bin ++ t1, a1)).
    { unfold Program.writeRoutineHeader. cbn [fst snd]. rewrite appendUint32_run.
      cbn [mbind option_bind]. rewrite appendUint32_run. cbn [mbind option_bind].
      eexists _, _. rewrite <- !app_assoc. reflexivity. }
    destruct E as (t1 & a1 & ->). cbn [mbind option_bind].
    destruct (IH (bin ++ t1) a1) as (t2 & address' & ->).
    eexists _, _. rewrite <- !app_assoc. reflexivity.
Qed.

Lemma appendRoutines_run (routines : list Subroutine.t) (bin : list Z) :
  fold_left (fun bin routine => bin ++ Subroutine.ops routine) routines bin
  = bin ++ concat (map Subroutine.ops routines).
Proof.
  revert bin. induction routines as [|routine rest IH]; intros bin; simpl.
  - rewrite app_nil_r. reflexivity.
  - rewrite IH, <- app_assoc. reflexivity.
Qed.

Lemma patch_leading_jump (jump v : Z) :
  writeUint32 ([jump] ++ le_bytes 4 0) 1 v = Some ([jump] ++ le_bytes 4 v).
Proof.
  unfold writeUint32. rewrite write_at_inside.
  - rewrite le_bytes_length. reflexivity.
  - lia.
  - rewrite length_app, !le_bytes_length. simpl. lia.
  - discriminate.
Qed.

(** The image is the leading jump, the storage block, the [SourceMap]
    opcode, everything else, and [Halt]. *)
Lemma build_layout {enc : Encoding} (p : Program.t) :
  exists rest,
    Program.build p
    = Some ([op_code OP.Jump] ++ le_bytes 4 (Program.storageEnd (Program.storage p))
              ++ storageBlock (Program.storage p)
              ++ [op_code OP.SourceMap] ++ rest ++ [op_code OP.Halt]).
Proof.
  unfold Program.build. rewrite appendUint32_run. cbn [mbind option_bind].
  rewrite patch_leading_jump.
  cbn [mbind option_bind]. rewrite writeStorage_run. cbn [mbind option_bind].
  rewrite appendUint32_run. cbn [mbind option_bind].
  match goal with |- context [Program.foldM Program.writeRoutineSourceMap (?b, ?a) ?l] =>
    destruct (writeRoutineSourceMaps_run l b a) as (t1 & o1 & ->) end.
  cbn [mbind option_bind fst snd].
  match goal with |- context [Program.foldM (Program.writeSourceMapEntry ?o) ?b ?l] =>
    destruct (writeSourceMapEntries_run o l b) as (t2 & ->) end.
  cbn [mbind option_bind].
  match goal with |- context [Program.foldM Program.writeRoutineHeader (?b, ?a) ?l] =>
    destruct (writeRoutineHeaders_run l b a) as (t3 & a3 & ->) end.
  cbn [mbind option_bind fst snd]. rewrite appendUint32_run. cbn [mbind option_bind].
  rewrite appendRoutines_run.
  exists (le_bytes 4 (Program.sourceMapSize p) ++ t1 ++ t2 ++ t3 ++ [op_code OP.Main]
            ++ le_bytes 4 a3 ++ concat (map Subroutine.ops (Program.subroutines p))
            ++ Program.ops p).
  f_equal. rewrite <- !app_assoc. reflexivity.
Qed.

(** C6: the image starts with the [Jump] opcode and a u32 equal to the
    offset of the first byte after the storage block; the byte at that
    offset is the [SourceMap] opcode; the last byte is [Halt].  (The
    offset has to fit the 32 bits of the jump target.) *)
Theorem build_jumps_over_storage {enc : Encoding} (p : Program.t) :
  storageBlockEnd (Program.storage p) < 2 ^ 32 ->
  exists image,
    Program.build p = Some image
    /\ image !! 0%nat = Some (op_code OP.Jump)
    /\ readUint32 image 1 = storageBlockEnd (Program.storage p)
    /\ slice image 5 (Z.to_nat (storageBlockEnd (Program.storage p) - 5))
       = storageBlock (Program.storage p)
    /\ image !! Z.to_nat (storageBlockEnd (Program.storage p)) = Some (op_code OP.SourceMap)
    /\ image !! (length image - 1)%nat = Some (op_code OP.Halt).
Proof.
  intros Hfits. destruct (build_layout p) as [rest Hbuild].
  rewrite storageEnd_exact in Hbuild by exact Hfits.
  pose proof (storageBlock_length (Program.storage p)) as Hlen.
  set (target := storageBlockEnd (Program.storage p)) in *.
  set (block := storageBlock (Program.storage p)) in *.
  assert (Htarget : 5 <= target) by lia.
  eexists. split; [exact Hbuild|].
  split; [reflexivity|]. split; [|split; [|split]].
  - unfold readUint32, slice. change (Z.to_nat 1) with 1%nat.
    change ([op_code OP.Jump] ++ ?l) with (op_code OP.Jump :: l).
    rewrite skipn_cons, drop_0.
    rewrite take_app_length' by (rewrite le_bytes_length; reflexivity).
    rewrite le_value_le_bytes. change (2 ^ (8 * Z.of_nat 4)) with (2 ^ 32).
    apply Z.mod_small. lia.
  - unfold slice. change (Z.to_nat 5) with 5%nat.
    rewrite app_assoc. rewrite drop_app_length' by (rewrite length_app, le_bytes_length; reflexivity).
    apply take_app_length'. lia.
  - rewrite !app_assoc. rewrite <- (app_assoc _ rest).
    rewrite lookup_app_l.
    + rewrite lookup_app_r; rewrite !length_app, le_bytes_length; cbn [length]; [|lia].
      replace (Z.to_nat target - (1 + 4 + length block))%nat with 0%nat by lia.
      reflexivity.
    + rewrite !length_app, le_bytes_length. cbn [length]. lia.
  - rewrite !app_assoc. rewrite lookup_app_r; rewrite !length_app; cbn [length]; [|lia].
    match goal with |- [_] !! ?n = _ => replace n with 0%nat by lia end.
    reflexivity.
Qed.

Lemma build_jumps_over_storage_witness :
  exists p image,
    @Compiler.compileSourceFile sampleEncoding unionAlias = Ok p
    /\ @Program.build sampleEncoding p = Some image
    /\ image !! 0%nat = Some 1
    /\ readUint32 image 1 = 16
    /\ image !! 16%nat = Some 3
    /\ image !! (length image - 1)%nat = Some 2.
Proof.
  destruct (@Compiler.compileSourceFile sampleEncoding unionAlias) as [p| |] eqn:Hp;
    try (vm_compute in Hp; discriminate Hp).
  assert (Hstorage : Program.storage p = ["T"]).
  { vm_compute in Hp. inversion Hp. reflexivity. }
  destruct (@build_jumps_over_storage sampleEncoding p)
    as (image & Hbuild & H0 & Hjump & _ & Hmap & Hhalt).
  - rewrite Hstorage. vm_compute. reflexivity.
  - exists p, image. rewrite Hstorage in Hjump, Hmap. auto 10.
Defined.

(** ** The tail analysis: [ended], the walk upwards, [isTail] *)

Lemma ended_fuel_sound (secs : list Section.t) :
  wellLinked secs ->
  forall (fuel i : nat) (section : Section.t),
    secs !! i = Some section ->
    (length secs - i <= fuel)%nat ->
    exists b, Subroutine.ended_fuel fuel secs section = Some b
              /\ (b = true <-> Ended secs section).
Proof.
  intros Hwl. induction fuel as [|fuel IH]; intros i section Hi Hfuel.
  - apply lookup_lt_Some in Hi. lia.
  - cbn [Subroutine.ended_fuel].
    destruct (Hwl i section Hi) as [Hnext _].
    destruct (Z.geb_spec (Section.next section) 0) as [Hge|Hlt].
    + destruct Hnext as [Hnext|Hnext]; [lia|].
      destruct (at_ secs (Section.next section)) as [sibling|] eqn:Hsib.
      2:{ exfalso. assert (Hs : is_Some (at_ secs (Section.next section)))
            by (apply at_is_Some; lia).
          rewrite Hsib in Hs. destruct Hs as [? Hs]. discriminate Hs. }
      cbn [mbind option_bind].
      pose proof Hsib as Hsib'. apply at_Some in Hsib' as [_ Hlook].
      destruct (IH (Z.to_nat (Section.next section)) sibling Hlook) as (b & Hb & Hiff); [lia|].
      exists b. split; [exact Hb|]. rewrite Hiff. split.
      * intros He. eapply Ended_next; eauto; lia.
      * intros He. inversion He as [? Hneg|? sibling' ? Hsib2 He2]; subst; [lia|].
        rewrite Hsib in Hsib2. inversion Hsib2; subst. exact He2.
    + eexists. split; [reflexivity|]. rewrite Z.eqb_eq. split.
      * intros Hops. apply Ended_last; [lia|exact Hops].
      * intros He. inversion He as [? ? Hops|? ? Hnn]; subst; [exact Hops|lia].
Qed.

Lemma ended_sound (secs : list Section.t) (i : nat) (section : Section.t) :
  wellLinked secs ->
  secs !! i = Some section ->
  exists b, Subroutine.ended secs section = Some b /\ (b = true <-> Ended secs section).
Proof.
  intros Hwl Hi. unfold Subroutine.ended. eapply ended_fuel_sound; eauto; lia.
Qed.

Lemma walkUp_fuel_sound (secs : list Section.t) :
  wellLinked secs ->
  forall (fuel i : nat) (section : Section.t),
    secs !! i = Some section ->
    (i < fuel)%nat ->
    exists b, Subroutine.walkUp_fuel fuel secs section = Some b
              /\ (b = true <-> AncestorsEnded secs section).
Proof.
  intros Hwl. induction fuel as [|fuel IH]; intros i section Hi Hfuel; [lia|].
  cbn [Subroutine.walkUp_fuel].
  destruct (Section.isBlockTailCall section) eqn:Hblock.
  { exists false. split; [reflexivity|]. split; [discriminate|].
    intros Ha. inversion Ha; congruence. }
  destruct (ended_sound secs i section Hwl Hi) as (e & -> & He).
  cbn [mbind option_bind].
  destruct e; cbn [negb].
  2:{ exists false. split; [reflexivity|]. split; [discriminate|].
      intros Ha. assert (Ended secs section) by (inversion Ha; assumption).
      apply He in H. discriminate H. }
  assert (Hended : Ended secs section) by (apply He; reflexivity).
  destruct (Hwl i section Hi) as [_ Hup].
  destruct (Z.geb_spec (Section.up section) 0) as [Hge|Hlt].
  - destruct Hup as [Hup|Hup]; [lia|].
    destruct (at_ secs (Section.up section)) as [parent|] eqn:Hpar.
    2:{ exfalso. assert (Hs : is_Some (at_ secs (Section.up section))).
        { apply at_is_Some. apply lookup_lt_Some in Hi. lia. }
        rewrite Hpar in Hs. destruct Hs as [? Hs]. discriminate Hs. }
    cbn [mbind option_bind].
    pose proof Hpar as Hpar'. apply at_Some in Hpar' as [_ Hlook].
    destruct (IH (Z.to_nat (Section.up section)) parent Hlook) as (b & Hb & Hiff); [lia|].
    exists b. split; [exact Hb|]. rewrite Hiff. split.
    + intros Ha. eapply Ancestors_up; eauto; lia.
    + intros Ha. inversion Ha as [? ? ? Hneg|? parent' ? ? ? Hpar2 Ha2]; subst; [lia|].
      rewrite Hpar in Hpar2. inversion Hpar2; subst. exact Ha2.
  - exists true. split; [reflexivity|]. split; [|reflexivity].
    intros _. apply Ancestors_root; [exact Hblock|exact Hended|lia].
Qed.

Lemma walkUp_sound (secs : list Section.t) (i : nat) (section : Section.t) :
  wellLinked secs ->
  secs !! i = Some section ->
  exists b, Subroutine.walkUp secs section = Some b
            /\ (b = true <-> AncestorsEnded secs section).
Proof.
  intros Hwl Hi. unfold Subroutine.walkUp. eapply walkUp_fuel_sound; eauto.
  apply lookup_lt_Some in Hi. lia.
Qed.

(** On a well-linked section table the loop of [optimise] decides exactly
    the tail criteria of the specification. *)
Lemma isTail_sound (secs : list Section.t) (i : nat) (section : Section.t) :
  wellLinked secs ->
  secs !! i = Some section ->
  exists b, Subroutine.isTail secs section = Some b
            /\ (b = true <-> TailSection secs section).
Proof.
  intros Hwl Hi. unfold Subroutine.isTail, TailSection.
  destruct (Section.hasChild section) eqn:Hchild.
  { exists false. split; [reflexivity|]. split; [discriminate|]. intros [H _]. discriminate H. }
  destruct (Section.isBlockTailCall section) eqn:Hblock.
  { exists false. split; [reflexivity|]. split; [discriminate|]. intros (_ & H & _). discriminate H. }
  destruct (Hwl i section Hi) as [Hnext Hup].
  assert (Hsib : exists e, (if Section.next section >=? 0 then Subroutine.ended secs section
                            else Some true) = Some e
                           /\ (e = true <->
                               (Section.next section < 0
                                \/ exists sibling, at_ secs (Section.next section) = Some sibling
                                                   /\ Ended secs sibling))).
  { destruct (Z.geb_spec (Section.next section) 0) as [Hge|Hlt].
    - destruct (ended_sound secs i section Hwl Hi) as (e & He & Hiff).
      exists e. split; [exact He|]. rewrite Hiff. split.
      + intros Hend. right.
        inversion Hend as [? Hneg|? sibling ? Hsib Hend2]; subst; [lia|]. eauto.
      + intros [Hneg|(sibling & Hsib & Hend)]; [lia|]. eapply Ended_next; eauto; lia.
    - exists true. split; [reflexivity|]. split; [intros _; left; lia|reflexivity]. }
  destruct Hsib as (e & -> & He). cbn [mbind option_bind].
  destruct e; cbn [negb].
  2:{ exists false. split; [reflexivity|]. split; [discriminate|].
      intros (_ & _ & H & _). apply He in H. discriminate H. }
  assert (Hsiblings := proj1 He eq_refl).
  destruct (Z.geb_spec (Section.up section) 0) as [Hge|Hlt].
  - destruct Hup as [Hup|Hup]; [lia|].
    destruct (at_ secs (Section.up section)) as [parent|] eqn:Hpar.
    2:{ exfalso. assert (Hs : is_Some (at_ secs (Section.up section))).
        { apply at_is_Some. apply lookup_lt_Some in Hi. lia. }
        rewrite Hpar in Hs. destruct Hs as [? Hs]. discriminate Hs. }
    cbn [mbind option_bind].
    pose proof Hpar as Hpar'. apply at_Some in Hpar' as [_ Hlook].
    destruct (walkUp_sound secs _ parent Hwl Hlook) as (b & Hb & Hiff).
    exists b. split; [exact Hb|]. rewrite Hiff. split.
    + intros Ha. repeat split; try reflexivity; try assumption. right. eauto.
    + intros (_ & _ & _ & [Hneg|(parent' & Hpar2 & Ha)]); [lia|].
      inversion Hpar2; subst. exact Ha.
  - exists true. split; [reflexivity|]. split; [|reflexivity].
    intros _. repeat split; try reflexivity; try assumption. left. lia.
Qed.

(** ** The tail analysis: the rewrites *)

Lemma OP_eqb_eq (a b : OP.t) : OP.eqb a b = true <-> a = b.
Proof. unfold OP.eqb. destruct (OP.eq_dec a b); split; congruence. Qed.

Lemma restsReused_refl {enc : Encoding} (ops : list Z) : restsReused ops ops.
Proof. split; [reflexivity|]. intros i x H. left. exact H. Qed.

Lemma restsReused_trans {enc : Encoding} (ops1 ops2 ops3 : list Z) :
  restsReused ops1 ops2 -> restsReused ops2 ops3 -> restsReused ops1 ops3.
Proof.
  intros [Hl1 H1] [Hl2 H2]. split; [congruence|].
  intros i x Hx. destruct (H1 i x Hx) as [Hsame|[Hrest Hreuse]].
  - exact (H2 i x Hsame).
  - right. split; [exact Hrest|].
    destruct (H2 i _ Hreuse) as [Hsame|[Hbad _]]; [exact Hsame|].
    apply op_code_inj in Hbad. discriminate Hbad.
Qed.

Lemma restsReused_keeps {enc : Encoding} (ops ops' : list Z) (i : nat) (op : OP.t) :
  restsReused ops ops' ->
  op <> OP.Rest ->
  ops !! i = Some (op_code op) ->
  ops' !! i = Some (op_code op).
Proof.
  intros [_ H] Hop Hi. destruct (H i _ Hi) as [Hsame|[Hrest _]]; [exact Hsame|].
  apply op_code_inj in Hrest. contradiction.
Qed.

Lemma restsReused_reflects {enc : Encoding} (ops ops' : list Z) (i : nat) (op : OP.t) :
  restsReused ops ops' ->
  op <> OP.RestReuse ->
  ops' !! i = Some (op_code op) ->
  ops !! i = Some (op_code op).
Proof.
  intros [Hlen H] Hop Hi.
  destruct (ops !! i) as [x|] eqn:Hx.
  - destruct (H i x Hx) as [Hsame|[_ Hreuse]]; [congruence|].
    rewrite Hi in Hreuse. inversion Hreuse as [E]. apply op_code_inj in E. contradiction.
  - apply lookup_ge_None in Hx. apply lookup_lt_Some in Hi. lia.
Qed.

Lemma reuseRest_spec {enc : Encoding} (ops : list Z) (usage : TypeArgumentUsage.t) :
  0 <= TypeArgumentUsage.ip usage < Z.of_nat (length ops) ->
  exists ops', Subroutine.reuseRest ops usage = Some ops' /\ restsReused ops ops'.
Proof.
  intros Hin. unfold Subroutine.reuseRest.
  destruct (at_ ops (TypeArgumentUsage.ip usage)) as [op|] eqn:Hop.
  2:{ exfalso. assert (Hs : is_Some (at_ ops (TypeArgumentUsage.ip usage)))
        by (apply at_is_Some; exact Hin).
      rewrite Hop in Hs. destruct Hs as [? Hs]. discriminate Hs. }
  cbn [mbind option_bind]. apply at_Some in Hop as [_ Hop].
  destruct (Z.eqb_spec op (op_code OP.Rest)) as [E|E].
  - eexists. split; [apply store_Some; split; [exact Hin|reflexivity]|].
    split; [apply length_insert|].
    intros i x Hx. destruct (decide (i = Z.to_nat (TypeArgumentUsage.ip usage))) as [->|Hne].
    + right. rewrite Hop in Hx. inversion Hx; subst x. split; [exact E|].
      apply list_lookup_insert_eq. lia.
    + left. rewrite list_lookup_insert_ne by congruence. exact Hx.
  - exists ops. split; [reflexivity|apply restsReused_refl].
Qed.

Lemma reuseRests_spec {enc : Encoding} (usages : list TypeArgumentUsage.t) (ops : list Z) :
  (forall usage, In usage usages ->
     0 <= TypeArgumentUsage.ip usage < Z.of_nat (length ops)) ->
  exists ops', Subroutine.reuseRests ops usages = Some ops' /\ restsReused ops ops'.
Proof.
  revert ops. induction usages as [|usage rest IH]; intros ops Hin.
  - exists ops. split; [reflexivity|apply restsReused_refl].
  - cbn [Subroutine.reuseRests].
    destruct (reuseRest_spec ops usage) as (ops1 & -> & H1); [apply Hin; left; reflexivity|].
    cbn [mbind option_bind].
    destruct (IH ops1) as (ops2 & -> & H2).
    { intros u Hu. destruct H1 as [Hlen _]. rewrite Hlen. apply Hin. right. exact Hu. }
    exists ops2. split; [reflexivity|]. eapply restsReused_trans; eauto.
Qed.

(** One iteration of the loop of [optimise]: what it does to the
    [TailCall] bytes. *)
Lemma optimiseSection_spec {enc : Encoding} (secs : list Section.t) (ops : list Z)
    (i : nat) (section : Section.t) :
  wellLinked secs ->
  secs !! i = Some section ->
  (TailSection secs section ->
   (Section.lastOp section = OP.Call ->
    7 <= Section.end_ section <= Z.of_nat (length ops) /\ Section.end_ section < 2 ^ 32)
   /\ (forall usage, In usage (Section.typeArgumentUsages section) ->
         0 <= TypeArgumentUsage.ip usage < Z.of_nat (length ops))) ->
  exists ops',
    Subroutine.optimiseSection secs ops section = Some ops'
    /\ length ops' = length ops
    /\ (forall j, ops !! j = Some (op_code OP.TailCall) -> ops' !! j = Some (op_code OP.TailCall))
    /\ (TailSection secs section -> Section.lastOp section = OP.Call ->
        ops' !! Z.to_nat (Section.end_ section - 1 - 4 - 2) = Some (op_code OP.TailCall))
    /\ (forall j, ops' !! j = Some (op_code OP.TailCall) ->
          ops !! j = Some (op_code OP.TailCall)
          \/ (TailSection secs section /\ Section.lastOp section = OP.Call
              /\ Z.of_nat j = Section.end_ section - 1 - 4 - 2)).
Proof.
  intros Hwl Hi Hbounds. unfold Subroutine.optimiseSection.
  destruct (isTail_sound secs i section Hwl Hi) as (tail & -> & Htail).
  cbn [mbind option_bind]. destruct tail.
  2:{ exists ops. split; [reflexivity|]. split; [reflexivity|]. split; [auto|].
      split; [|auto]. intros Ht. apply Htail in Ht. discriminate Ht. }
  assert (Ht : TailSection secs section) by (apply Htail; reflexivity).
  destruct (Hbounds Ht) as [Hcall Husages].
  destruct (OP.eqb (Section.lastOp section) OP.Call) eqn:Hlast.
  - apply OP_eqb_eq in Hlast. destruct (Hcall Hlast) as [Hend Hsmall].
    assert (Hu : u32 (Section.end_ section - 1 - 4 - 2) = Section.end_ section - 1 - 4 - 2)
      by (apply u32_small; lia).
    rewrite Hu.
    destruct (store ops (Section.end_ section - 1 - 4 - 2) (op_code OP.TailCall))
      as [ops1|] eqn:Hstore.
    2:{ exfalso. assert (Hs : store ops (Section.end_ section - 1 - 4 - 2) (op_code OP.TailCall)
                              = Some (<[Z.to_nat (Section.end_ section - 1 - 4 - 2)
                                        := op_code OP.TailCall]> ops))
          by (apply store_Some; split; [lia|reflexivity]).
        congruence. }
    apply store_Some in Hstore as [Hrange ->]. cbn [mbind option_bind].
    destruct (reuseRests_spec (Section.typeArgumentUsages section)
                (<[Z.to_nat (Section.end_ section - 1 - 4 - 2) := op_code OP.TailCall]> ops))
      as (ops2 & -> & Hreuse).
    { intros u Hu'. rewrite length_insert. apply Husages. exact Hu'. }
    exists ops2. split; [reflexivity|].
    split; [destruct Hreuse as [Hl _]; rewrite Hl; apply length_insert|].
    split; [|split].
    + intros j Hj. eapply restsReused_keeps; [exact Hreuse|discriminate|].
      destruct (decide (j = Z.to_nat (Section.end_ section - 1 - 4 - 2))) as [->|Hne].
      * apply list_lookup_insert_eq. lia.
      * rewrite list_lookup_insert_ne by congruence. exact Hj.
    + intros _ _. eapply restsReused_keeps; [exact Hreuse|discriminate|].
      apply list_lookup_insert_eq. lia.
    + intros j Hj. eapply restsReused_reflects in Hj; [|exact Hreuse|discriminate].
      destruct (decide (j = Z.to_nat (Section.end_ section - 1 - 4 - 2))) as [->|Hne].
      * right. split; [exact Ht|]. split; [exact Hlast|]. lia.
      * left. rewrite list_lookup_insert_ne in Hj by congruence. exact Hj.
  - cbn [mbind option_bind].
    destruct (reuseRests_spec (Section.typeArgumentUsages section) ops Husages)
      as (ops2 & -> & Hreuse).
    exists ops2. split; [reflexivity|]. split; [apply Hreuse|]. split; [|split].
    + intros j Hj. eapply restsReused_keeps; [exact Hreuse|discriminate|exact Hj].
    + intros _ Hcall'. rewrite Hcall' in Hlast. discriminate Hlast.
    + intros j Hj. left. eapply restsReused_reflects; [exact Hreuse|discriminate|exact Hj].
Qed.

Lemma optimiseSections_spec {enc : Encoding} (secs todo : list Section.t) (ops : list Z) :
  wellLinked secs ->
  (forall section, In section todo -> exists i, secs !! i = Some section) ->
  (forall section, In section todo -> TailSection secs section ->
     (Section.lastOp section = OP.Call ->
      7 <= Section.end_ section <= Z.of_nat (length ops) /\ Section.end_ section < 2 ^ 32)
     /\ (forall usage, In usage (Section.typeArgumentUsages section) ->
           0 <= TypeArgumentUsage.ip usage < Z.of_nat (length ops))) ->
  exists ops',
    Subroutine.optimiseSections secs ops todo = Some ops'
    /\ length ops' = length ops
    /\ (forall j, ops !! j = Some (op_code OP.TailCall) -> ops' !! j = Some (op_code OP.TailCall))
    /\ (forall section, In section todo -> TailSection secs section ->
          Section.lastOp section = OP.Call ->
          ops' !! Z.to_nat (Section.end_ section - 1 - 4 - 2) = Some (op_code OP.TailCall))
    /\ (forall j, ops' !! j = Some (op_code OP.TailCall) ->
          ops !! j = Some (op_code OP.TailCall)
          \/ exists section, In section todo /\ TailSection secs section
                             /\ Section.lastOp section = OP.Call
                             /\ Z.of_nat j = Section.end_ section - 1 - 4 - 2).
Proof.
  intros Hwl. revert ops. induction todo as [|section rest IH]; intros ops Hidx Hbounds.
  - exists ops. split; [reflexivity|]. split; [reflexivity|]. split; [auto|].
    split; [intros ? []|]. intros j Hj. left. exact Hj.
  - cbn [Subroutine.optimiseSections].
    destruct (Hidx section (or_introl eq_refl)) as [i Hi].
    destruct (optimiseSection_spec secs ops i section Hwl Hi (Hbounds section (or_introl eq_refl)))
      as (ops1 & -> & Hlen1 & Hkeep1 & Hset1 & Hnew1).
    cbn [mbind option_bind].
    destruct (IH ops1) as (ops2 & -> & Hlen2 & Hkeep2 & Hset2 & Hnew2).
    { intros s Hs. apply Hidx. right. exact Hs. }
    { intros s Hs. rewrite Hlen1. apply Hbounds. right. exact Hs. }
    exists ops2. split; [reflexivity|]. split; [congruence|]. split; [auto|]. split.
    + intros s [<-|Hs] Ht Hcall; [apply Hkeep2; apply Hset1; assumption|].
      apply Hset2; assumption.
    + intros j Hj. destruct (Hnew2 j Hj) as [Hj1|(s & Hs & Hrest)].
      * destruct (Hnew1 j Hj1) as [Hj0|Hrest]; [left; exact Hj0|].
        right. exists section. split; [left; reflexivity|exact Hrest].
      * right. exists s. split; [right; exact Hs|exact Hrest].
Qed.

(** C2: after [optimise], every section that meets the tail criteria and
    whose last opcode is [Call] has the byte at [end - 1 - 4 - 2] equal to
    [TailCall], and every byte that has become [TailCall] is the byte at
    [end - 1 - 4 - 2] of such a section: no other section has its [Call]
    rewritten.  The section table is well linked and the rewrites are in
    bounds, as [pushSection], [popSection] and [pushOp] leave them. *)
Theorem optimise_rewrites_tail_calls {enc : Encoding} (sub : Subroutine.t) :
  wellLinked (Subroutine.sections sub) ->
  rewritesInBounds sub ->
  exists sub',
    Subroutine.optimise sub = Ok (tt, sub')
    /\ Subroutine.sections sub' = Subroutine.sections sub
    /\ length (Subroutine.ops sub') = length (Subroutine.ops sub)
    /\ (forall section,
          In section (Subroutine.sections sub) ->
          TailSection (Subroutine.sections sub) section ->
          Section.lastOp section = OP.Call ->
          Subroutine.ops sub' !! Z.to_nat (Section.end_ section - 1 - 4 - 2)
          = Some (op_code OP.TailCall))
    /\ (forall j : nat,
          Subroutine.ops sub' !! j = Some (op_code OP.TailCall) ->
          Subroutine.ops sub !! j <> Some (op_code OP.TailCall) ->
          exists section,
            In section (Subroutine.sections sub)
            /\ TailSection (Subroutine.sections sub) section
            /\ Section.lastOp section = OP.Call
            /\ Z.of_nat j = Section.end_ section - 1 - 4 - 2).
Proof.
  intros Hwl Hbounds.
  destruct (optimiseSections_spec (Subroutine.sections sub) (Subroutine.sections sub)
              (Subroutine.ops sub) Hwl) as (ops' & Hrun & Hlen & _ & Hset & Hnew).
  - intros section Hin. apply list_elem_of_In in Hin.
    apply list_elem_of_lookup in Hin. exact Hin.
  - exact Hbounds.
  - exists (Subroutine.with_ops ops' sub). split.
    + unfold Subroutine.optimise, bind, defined, modify. rewrite Hrun. reflexivity.
    + split; [reflexivity|]. split; [exact Hlen|]. split; [exact Hset|].
      intros j Hj Hbefore. destruct (Hnew j Hj) as [Hold|Hsection]; [contradiction|exact Hsection].
Qed.

Lemma wellLinkedFrom_sound (n : Z) (secs : list Section.t) (i : nat) :
  wellLinkedFrom n i secs = true ->
  forall (k : nat) (section : Section.t),
    secs !! k = Some section ->
    (Section.next section < 0 \/ Z.of_nat (i + k) < Section.next section < n)
    /\ (Section.up section < 0 \/ 0 <= Section.up section < Z.of_nat (i + k)).
Proof.
  revert i. induction secs as [|s rest IH]; intros i Hcheck k section Hk; [discriminate Hk|].
  cbn [wellLinkedFrom] in Hcheck.
  apply andb_true_iff in Hcheck as [Hcheck Hrest].
  apply andb_true_iff in Hcheck as [Hnext Hup].
  destruct k as [|k].
  - inversion Hk; subst s. rewrite Nat.add_0_r. split.
    + apply orb_true_iff in Hnext as [H|H]; [left; lia|right].
      apply andb_true_iff in H as [H1 H2]. lia.
    + apply orb_true_iff in Hup as [H|H]; [left; lia|right].
      apply andb_true_iff in H as [H1 H2]. lia.
  - replace (i + S k)%nat with (S i + k)%nat by lia. eapply IH; eauto.
Qed.

Lemma wellLinked_check (secs : list Section.t) :
  wellLinkedFrom (Z.of_nat (length secs)) 0 secs = true -> wellLinked secs.
Proof.
  intros Hcheck i section Hi. exact (wellLinkedFrom_sound _ secs 0 Hcheck i section Hi).
Qed.

Lemma inBounds_check (sub : Subroutine.t) :
  inBoundsb sub = true -> rewritesInBounds sub.
Proof.
  unfold inBoundsb. intros Hcheck section Hin _.
  rewrite forallb_forall in Hcheck. specialize (Hcheck section Hin).
  apply andb_true_iff in Hcheck as [Hcall Husages]. split.
  - intros Hlast. apply OP_eqb_eq in Hlast. rewrite Hlast in Hcall.
    apply andb_true_iff in Hcall as [Hcall H3].
    apply andb_true_iff in Hcall as [H1 H2]. lia.
  - intros usage Hu. rewrite forallb_forall in Husages. specialize (Husages usage Hu).
    apply andb_true_iff in Husages as [H1 H2]. lia.
Qed.

Lemma optimise_rewrites_tail_calls_witness :
  exists sub sub',
    conditionalBeforeOptimise = Some sub
    /\ Subroutine.ops sub !! 17%nat = Some (@op_code sampleEncoding OP.Call)
    /\ @Subroutine.optimise sampleEncoding sub = Ok (tt, sub')
    /\ Subroutine.ops sub' !! 17%nat = Some (@op_code sampleEncoding OP.TailCall).
Proof.
  assert (Hsome : exists sub, conditionalBeforeOptimise = Some sub)
    by (vm_compute; eexists; reflexivity).
  destruct Hsome as [sub Hsome]. pose proof Hsome as Hsub.
  vm_compute in Hsub. inversion Hsub as [Esub]; clear Hsub.
  assert (Hwl : wellLinked (Subroutine.sections sub))
    by (apply wellLinked_check; subst sub; vm_compute; reflexivity).
  destruct (@optimise_rewrites_tail_calls sampleEncoding sub Hwl)
    as (sub' & Hrun & _ & _ & Hset & _).
  - apply inBounds_check. subst sub. vm_compute. reflexivity.
  - exists sub, sub'. split; [exact Hsome|]. split; [subst sub; reflexivity|].
    split; [exact Hrun|].
    pose (section := Section.mk 17 24 OP.Call 1 false false [] (-1) 1).
    apply (Hset section).
    + subst sub. simpl. right. right. left. reflexivity.
    + destruct (isTail_sound _ 2%nat section Hwl) as (b & Hb & Hiff);
        [subst sub; reflexivity|].
      apply Hiff. subst sub. vm_compute in Hb. congruence.
    + reflexivity.
Defined.

(** ** Steps of the active subroutine *)

Lemma sameMain_refl (p : Program.t) : sameMain p p.
Proof. repeat split. Qed.

Lemma sameMain_trans (p1 p2 p3 : Program.t) :
  sameMain p1 p2 -> sameMain p2 p3 -> sameMain p1 p3.
Proof. unfold sameMain. intros (?&?&?&?&?) (?&?&?&?&?). repeat split; congruence. Qed.

Lemma onActive_focus {A : Type} (m : M Subroutine.t A) (p : Program.t) (r : nat)
    (rest : list nat) (sub sub' : Subroutine.t) (a : A) :
  activeIs p r rest sub ->
  m sub = Ok (a, sub') ->
  exists p',
    Program.onActive m p = Ok (a, p') /\ activeIs p' r rest sub' /\ sameMain p p'.
Proof.
  intros Hact Hm. destruct (onActive_step m p r rest sub sub' a Hact Hm)
    as (p' & H & Hact' & H1 & H2 & H3 & H4 & H5).
  exists p'. unfold sameMain. auto 10.
Qed.

Lemma pushOp_active {enc : Encoding} (op : OP.t) (p : Program.t) (r : nat) (rest : list nat) :
  Program.activeSubroutines p = r :: rest ->
  Program.pushOp op p = Program.onActive (Subroutine.pushOp op) p.
Proof. intros H. unfold Program.pushOp. rewrite H. reflexivity. Qed.

Lemma pushSourceMap_active (pos end_ : Z) (p : Program.t) (r : nat) (rest : list nat) :
  Program.activeSubroutines p = r :: rest ->
  Program.pushSourceMap pos end_ p = Program.onActive (Subroutine.pushSourceMap pos end_) p.
Proof. intros H. unfold Program.pushSourceMap. rewrite H. reflexivity. Qed.



Lemma ifActive_active (m : M Subroutine.t unit) (p : Program.t) (r : nat) (rest : list nat) :
  Program.activeSubroutines p = r :: rest ->
  Program.ifActive m p = Program.onActive m p.
Proof. intros H. unfold Program.ifActive. rewrite H. reflexivity. Qed.

(** [pushOp(op, node)] with a subroutine active: the source-map entry and
    the opcode go to that subroutine. *)
Lemma pushOpAt_active {enc : Encoding} (op : OP.t) (pos end_ : Z) (p : Program.t) (r : nat)
    (rest : list nat) (sub : Subroutine.t) :
  activeIs p r rest sub ->
  is_Some (activeSectionOf sub) ->
  exists p' sub',
    Program.pushOpAt op (Some (pos, end_)) p = Ok (tt, p')
    /\ activeIs p' r rest sub'
    /\ sameMain p p'
    /\ Subroutine.ops sub' = Subroutine.ops sub ++ [op_code op]
    /\ Subroutine.sourceMap sub'
       = SourceMap.push (Z.of_nat (length (Subroutine.ops sub))) pos end_ (Subroutine.sourceMap sub)
    /\ Subroutine.activeSection sub' = Subroutine.activeSection sub
    /\ length (Subroutine.sections sub') = length (Subroutine.sections sub)
    /\ (forall section, activeSectionOf sub = Some section ->
        option_map Section.typeArgumentUsages (activeSectionOf sub')
        = Some (Section.typeArgumentUsages section)).
Proof.
  intros Hact Hsec. pose proof Hact as [Hs Hr].
  set (sub1 := Subroutine.with_sourceMap
                 (SourceMap.push (Z.of_nat (length (Subroutine.ops sub))) pos end_
                    (Subroutine.sourceMap sub)) sub).
  destruct (onActive_focus (Subroutine.pushSourceMap pos end_) p r rest sub sub1 tt Hact eq_refl)
    as (p1 & Hp1 & Hact1 & Hmain1).
  destruct (Subroutine_pushOp_run op sub1 Hsec) as (sub2 & Hrun & Hops & Hsm & Has & Hlen & Hus).
  destruct (onActive_focus _ p1 r rest sub1 sub2 tt Hact1 Hrun) as (p2 & Hp2 & Hact2 & Hmain2).
  exists p2, sub2. split.
  - unfold Program.pushOpAt. apply bind_Ok. exists tt, p1. split.
    + rewrite (pushSourceMap_active _ _ _ _ _ Hs). exact Hp1.
    + destruct Hact1 as [Hs1 _]. rewrite (pushOp_active _ _ _ _ Hs1). exact Hp2.
  - split; [exact Hact2|]. split; [eapply sameMain_trans; eauto|].
    repeat split; try assumption.
Qed.

(** [pushOp(op, node)] with no subroutine active: both go to "main". *)
Lemma pushOpAt_main {enc : Encoding} (op : OP.t) (pos end_ : Z) (p : Program.t) :
  Program.activeSubroutines p = [] ->
  Program.pushOpAt op (Some (pos, end_)) p
  = Ok (tt, Program.with_ops (Program.ops p ++ [op_code op])
              (Program.with_sourceMap
                 (SourceMap.push (Z.of_nat (length (Program.ops p))) pos end_
                    (Program.sourceMap p)) p)).
Proof.
  intros Hs. unfold Program.pushOpAt, bind, Program.pushSourceMap, Program.pushOp.
  rewrite Hs. simpl. rewrite Hs. reflexivity.
Qed.

Lemma pushError_run {enc : Encoding} (code : ErrorCode.t) (pos end_ : Z) (p : Program.t) :
  Program.pushError code pos end_ p
  = Ok (tt, Program.with_ops
              (Program.ops p ++ [op_code OP.Error] ++ le_bytes 2 (u32 (error_code code)))
              (Program.with_sourceMap (SourceMap.push 0 pos end_ (Program.sourceMap p)) p)).
Proof.
  unfold Program.pushError, bind, modify, defined. simpl.
  unfold writeUint16. rewrite write_at_end. simpl. rewrite <- app_assoc. reflexivity.
Qed.

Lemma handle_reference_unknown {enc : Encoding} (node : Node) (name : Ident) (p : Program.t) :
  referenceName node = Some name ->
  Program.findSymbol (escapedText name) p = None ->
  Compiler.handle node p
  = (Program.pushOpAt OP.Never (Some (identSpan name)) ;;
     Program.pushError ErrorCode.CannotFind (ident_pos name) (ident_end name)) p.
Proof.
  intros Hname Hfind. destruct node; try discriminate Hname; simpl in Hname.
  - (* TypeReference *)
    match goal with H : toIdentifier ?n = Some _ |- _ => destruct n; try discriminate H end.
    inversion Hname; subst name; clear Hname.
    simpl in *. unfold bind at 1. simpl. unfold bind at 1, gets. rewrite Hfind. reflexivity.
  - (* Identifier *)
    inversion Hname; subst name; clear Hname.
    simpl in *. unfold bind at 1, gets. rewrite Hfind. reflexivity.
Qed.

Lemma toIdentifier_span (n : Node) (name : Ident) :
  toIdentifier n = Some name -> span n = identSpan name.
Proof. destruct n; try discriminate. intros H. inversion H. reflexivity. Qed.

Lemma handle_lookup_unknown {enc : Encoding} (node : Node) (name : Ident) (p : Program.t) :
  lookedUpName node = Some name ->
  Program.findSymbol (escapedText name) p = None ->
  Compiler.handle node p
  = (Program.pushOpAt OP.Never (Some (identSpan name)) ;;
     Program.pushError ErrorCode.CannotFind (ident_pos name) (ident_end name)) p.
Proof.
  intros Hname Hfind.
  destruct node; try exact (handle_reference_unknown _ _ _ Hname Hfind);
    try discriminate Hname.
  (* the left side of an assignment *)
  destruct operatorKind; [|discriminate Hname]. simpl in Hname.
  simpl. rewrite Hname. unfold bind at 1, gets. rewrite Hfind.
  rewrite (toIdentifier_span _ _ Hname). reflexivity.
Qed.

(** C4 (amended): at each of the three places where [handle] looks a name
    up -- a bare identifier, a type reference, the left side of an
    assignment -- a name that is in no frame of the chain makes it append
    [Never] to the current target, together with a source-map entry that
    holds the position of that [Never] and the identifier's span, and
    [Error] with the 16-bit code [CannotFind] to the main program,
    together with a source-map entry that holds position 0 and the same
    span.  Only when "main" is the target does [Error] follow [Never] in
    one buffer.  The lowering goes on ([Ok]). *)
Theorem unknown_reference_embeds_error {enc : Encoding} (node : Node) (name : Ident)
    (p : Program.t) :
  lookedUpName node = Some name ->
  Program.findSymbol (escapedText name) p = None ->
  targetReady p ->
  exists p',
    Compiler.handle node p = Ok (tt, p')
    /\ Program.activeSubroutines p' = Program.activeSubroutines p
    /\ Program.frame p' = Program.frame p
    /\ match currentSubroutine p, currentSubroutine p' with
       | None, None =>
           Program.ops p'
           = Program.ops p ++ [op_code OP.Never; op_code OP.Error]
               ++ le_bytes 2 (u32 (error_code ErrorCode.CannotFind))
           /\ Program.sourceMap p'
              = Program.sourceMap p
                  ++ [SourceMapEntry.mk (u32 (Z.of_nat (length (Program.ops p))))
                        (u32 (ident_pos name)) (u32 (ident_end name));
                      SourceMapEntry.mk 0 (u32 (ident_pos name)) (u32 (ident_end name))]
       | Some sub, Some sub' =>
           Subroutine.ops sub' = Subroutine.ops sub ++ [op_code OP.Never]
           /\ Subroutine.sourceMap sub'
              = Subroutine.sourceMap sub
                  ++ [SourceMapEntry.mk (u32 (Z.of_nat (length (Subroutine.ops sub))))
                        (u32 (ident_pos name)) (u32 (ident_end name))]
           /\ Program.ops p'
              = Program.ops p ++ [op_code OP.Error]
                  ++ le_bytes 2 (u32 (error_code ErrorCode.CannotFind))
           /\ Program.sourceMap p'
              = Program.sourceMap p
                  ++ [SourceMapEntry.mk 0 (u32 (ident_pos name)) (u32 (ident_end name))]
       | _, _ => False
       end.
Proof.
  intros Hname Hfind Hready.
  rewrite (handle_lookup_unknown node name p Hname Hfind).
  destruct (targetReady_cases p Hready) as [Hs|(r & rest & sub & Hact & Hsec)].
  - unfold bind. unfold identSpan. rewrite (pushOpAt_main _ _ _ _ Hs). rewrite pushError_run.
    eexists. split; [reflexivity|]. unfold currentSubroutine. simpl. rewrite Hs.
    split; [reflexivity|]. split; [reflexivity|]. split.
    + rewrite <- app_assoc. reflexivity.
    + unfold SourceMap.push. rewrite <- app_assoc. reflexivity.
  - destruct (pushOpAt_active OP.Never (ident_pos name) (ident_end name) p r rest sub Hact Hsec)
      as (p1 & sub1 & Hp1 & Hact1 & Hmain1 & Hops & Hsm & _).
    unfold bind. unfold identSpan. rewrite Hp1. rewrite pushError_run.
    eexists. split; [reflexivity|].
    destruct Hact as [Hs Hr]. destruct Hact1 as [Hs1 Hr1].
    destruct Hmain1 as (Hm1 & Hm2 & _ & _ & Hm5).
    unfold currentSubroutine. simpl. rewrite Hs, Hs1, Hr, Hr1.
    split; [reflexivity|]. split; [exact Hm5|].
    rewrite Hm1, Hm2. split; [exact Hops|]. split; [exact Hsm|]. split; reflexivity.
Qed.

Lemma unknown_reference_embeds_error_witness :
  (exists p p' sub sub',
      insideGenericAlias = Ok (tt, p)
      /\ @Compiler.handle sampleEncoding (typeRef 11 12 "U") p = Ok (tt, p')
      /\ currentSubroutine p = Some sub
      /\ currentSubroutine p' = Some sub'
      /\ Subroutine.ops sub' = Subroutine.ops sub ++ [17]
      /\ Subroutine.sourceMap sub'
         = Subroutine.sourceMap sub
             ++ [SourceMapEntry.mk (Z.of_nat (length (Subroutine.ops sub))) 11 12]
      /\ Program.ops p' = Program.ops p ++ [52; 0; 0]
      /\ Program.sourceMap p' = Program.sourceMap p ++ [SourceMapEntry.mk 0 11 12])
  /\ exists p',
       @Compiler.handle sampleEncoding assignUnknown Program.new = Ok (tt, p')
       /\ Program.ops p' = [17; 52; 0; 0]
       /\ Program.sourceMap p' = [SourceMapEntry.mk 0 0 1; SourceMapEntry.mk 0 0 1].
Proof.
  split.
  - assert (Hstate : exists p, insideGenericAlias = Ok (tt, p))
      by (vm_compute; eexists; reflexivity).
    destruct Hstate as [p Hstate]. pose proof Hstate as Hp.
    vm_compute in Hp. inversion Hp as [Ep]; clear Hp.
    destruct (@unknown_reference_embeds_error sampleEncoding (typeRef 11 12 "U")
                (ident 11 12 "U") p) as (p' & Hrun & _ & _ & Hshape).
    + reflexivity.
    + subst p. reflexivity.
    + subst p. vm_compute. eexists. split; [reflexivity|]. eexists. reflexivity.
    + destruct (currentSubroutine p) as [sub|] eqn:Hsub;
        destruct (currentSubroutine p') as [sub'|] eqn:Hsub'; try contradiction.
      * destruct Hshape as (Hops & Hmap & Hmain & Herr).
        exists p, p', sub, sub'.
        split; [exact Hstate|]. split; [exact Hrun|]. split; [exact Hsub|].
        split; [exact Hsub'|]. split; [exact Hops|]. split; [|split; [exact Hmain|exact Herr]].
        rewrite Hmap. subst p. vm_compute in Hsub. inversion Hsub. reflexivity.
      * exfalso. subst p. vm_compute in Hsub. discriminate Hsub.
  - destruct (@unknown_reference_embeds_error sampleEncoding assignUnknown (ident 0 1 "x")
                Program.new) as (p' & Hrun & _ & _ & Hshape).
    + reflexivity.
    + reflexivity.
    + exact I.
    + destruct (currentSubroutine p') as [sub'|] eqn:Hsub'; [contradiction|].
      destruct Hshape as [Hops Hmap]. exists p'. auto.
Defined.

(** C4 as stated fails while a subroutine is being filled.  Compiling
    [type A = U;] with no [U] in scope puts [Never] into the subroutine of
    [A], where [Return] follows it, and [Error(CannotFind)] into the main
    program, with a source-map entry whose bytecode position is 0: in no
    buffer of the compiled program is [Never] followed by [Error]. *)
Lemma unknownAlias_error_not_after_Never :
  exists p sub,
    @Compiler.compileSourceFile sampleEncoding unknownAlias = Ok p
    /\ Program.subroutines p = [sub]
    /\ Subroutine.ops sub = map (@op_code sampleEncoding) [OP.Never; OP.Return]
    /\ Program.ops p
       = @op_code sampleEncoding OP.Error
           :: le_bytes 2 (@error_code sampleEncoding ErrorCode.CannotFind)
    /\ Program.sourceMap p = [SourceMapEntry.mk 0 9 10]
    /\ forall buffer,
         In buffer (buffers p) ->
         ~ adjacent (@op_code sampleEncoding OP.Never) (@op_code sampleEncoding OP.Error) buffer.
Proof.
  eexists _, _. split; [vm_compute; reflexivity|].
  split; [reflexivity|]. split; [reflexivity|]. split; [reflexivity|].
  split; [reflexivity|].
  intros buffer Hin (before & after & Hbuffer). subst buffer.
  cbv [buffers Program.ops Program.subroutines map Subroutine.ops] in Hin.
  destruct Hin as [Hmain|[Hsub|[]]].
  - destruct before as [|b0 [|b1 [|b2 before]]]; try discriminate Hmain.
    destruct before; discriminate Hmain.
  - destruct before as [|b0 [|b1 before]]; try discriminate Hsub.
    destruct before; discriminate Hsub.
Qed.

(** ** References to type arguments *)



Lemma pushSymbolAddress_main (symbol : Symbol.t) (p : Program.t) :
  Program.activeSubroutines p = [] ->
  Program.pushSymbolAddress symbol p
  = Ok (tt, Program.with_ops
              (Program.ops p
                 ++ le_bytes 2 (u32 (Program.frameOffsetFrom (Program.frame p) (Symbol.frame symbol)))
                 ++ le_bytes 2 (Symbol.index symbol)) p).
Proof.
  intros Hs. unfold Program.pushSymbolAddress, bind, gets, Program.getOPs, Program.setOPs.
  rewrite Hs. unfold writeUint16. rewrite write_at_end. simpl. rewrite write_at_end. simpl.
  rewrite Hs. rewrite <- app_assoc. reflexivity.
Qed.





(** ** Buffers only grow: the primitives *)

Lemma ret_Ok {S A : Type} (a b : A) (s s' : S) : ret a s = Ok (b, s') -> b = a /\ s' = s.
Proof. unfold ret. intros H. inversion H. auto. Qed.

Lemma gets_Ok {S A : Type} (f : S -> A) (b : A) (s s' : S) :
  gets f s = Ok (b, s') -> b = f s /\ s' = s.
Proof. unfold gets. intros H. inversion H. auto. Qed.

Lemma modify_Ok {S : Type} (f : S -> S) (u : unit) (s s' : S) :
  modify f s = Ok (u, s') -> s' = f s.
Proof. unfold modify. intros H. inversion H. auto. Qed.

Lemma defined_Ok {S A : Type} (o : option A) (b : A) (s s' : S) :
  defined o s = Ok (b, s') -> o = Some b /\ s' = s.
Proof. unfold defined. destruct o; [intros H; apply ret_Ok in H as [-> ->]; auto | discriminate]. Qed.

(** Break a successful run into the runs of its steps. *)
Ltac inv_ok :=
  repeat match goal with
    | H : bind _ _ _ = Ok _ |- _ =>
        apply bind_Ok in H; destruct H as (? & ? & ? & H)
    | H : ret _ _ = Ok (_, _) |- _ => apply ret_Ok in H; destruct H as [? ?]; subst
    | H : gets _ _ = Ok (_, _) |- _ => apply gets_Ok in H; destruct H as [? ?]; subst
    | H : modify _ _ = Ok (_, _) |- _ => apply modify_Ok in H; subst
    | H : defined _ _ = Ok (_, _) |- _ => apply defined_Ok in H; destruct H as [? ?]; subst
    | H : throw _ _ = Ok _ |- _ => discriminate H
    | H : undef _ = Ok _ |- _ => discriminate H
    end.

Lemma grows_refl (p : Program.t) : grows p p.
Proof. split; [lia|]. intros i sub H. exists sub. split; [exact H|lia]. Qed.

Lemma grows_trans (p1 p2 p3 : Program.t) : grows p1 p2 -> grows p2 p3 -> grows p1 p3.
Proof.
  intros [H1 S1] [H2 S2]. split; [lia|].
  intros i sub Hi. destruct (S1 i sub Hi) as (sub2 & Hi2 & Hl2).
  destruct (S2 i sub2 Hi2) as (sub3 & Hi3 & Hl3). exists sub3. split; [exact Hi3|lia].
Qed.

(** A change of "main" fields that keeps the subroutines grows nothing
    smaller, provided the main buffer does not shrink. *)
Lemma grows_main (p p' : Program.t) :
  (length (Program.ops p) <= length (Program.ops p'))%nat ->
  Program.subroutines p' = Program.subroutines p ->
  grows p p'.
Proof.
  intros Hops Hsubs. split; [exact Hops|]. intros i sub Hi. exists sub.
  rewrite Hsubs. split; [exact Hi|lia].
Qed.

Lemma grows_insert (p : Program.t) (r : nat) (sub sub' : Subroutine.t) :
  Program.subroutines p !! r = Some sub ->
  (length (Subroutine.ops sub) <= length (Subroutine.ops sub'))%nat ->
  grows p (Program.with_subroutines (<[r := sub']> (Program.subroutines p)) p).
Proof.
  intros Hr Hlen. split; [simpl; lia|]. intros i s Hi. simpl.
  destruct (decide (i = r)) as [->|Hne].
  - exists sub'. rewrite list_lookup_insert_eq by (eapply lookup_lt_Some; eauto).
    split; [reflexivity|]. congruence.
  - exists s. rewrite list_lookup_insert_ne by congruence. split; [exact Hi|lia].
Qed.

Lemma grows_append (p : Program.t) (routine : Subroutine.t) :
  grows p (Program.with_subroutines (Program.subroutines p ++ [routine]) p).
Proof.
  split; [simpl; lia|]. intros i s Hi. exists s. simpl.
  split; [apply lookup_app_l_Some; exact Hi|lia].
Qed.

Lemma Down_steady {A : Type} (m : M Program.t A) :
  (forall p a p', m p = Ok (a, p') ->
     grows p p' /\ Program.activeSubroutines p' = Program.activeSubroutines p) ->
  Down 0 m.
Proof.
  intros H p a p' Hm. destruct (H p a p' Hm) as [Hg Hs]. split; [exact Hg|].
  exists []. rewrite Hs. auto.
Qed.

Lemma Down_0 {A : Type} (m : M Program.t A) (p : Program.t) (a : A) (p' : Program.t) :
  Down 0 m -> m p = Ok (a, p') ->
  grows p p' /\ Program.activeSubroutines p' = Program.activeSubroutines p.
Proof.
  intros H Hm. destruct (H p a p' Hm) as (Hg & popped & Hlen & Hs).
  destruct popped; [|discriminate Hlen]. split; [exact Hg|]. symmetry. exact Hs.
Qed.

Lemma Down_ret {A : Type} (a : A) : Down 0 (ret a : M Program.t A).
Proof. apply Down_steady. intros p b p' H. inv_ok. split; [apply grows_refl|reflexivity]. Qed.

Lemma Down_gets {A : Type} (f : Program.t -> A) : Down 0 (gets f).
Proof. apply Down_steady. intros p b p' H. inv_ok. split; [apply grows_refl|reflexivity]. Qed.

Lemma Down_throw {A : Type} (n : nat) (msg : string) : Down n (throw msg : M Program.t A).
Proof. intros p a p' H. discriminate H. Qed.

Lemma Down_undef {A : Type} (n : nat) : Down n (undef : M Program.t A).
Proof. intros p a p' H. discriminate H. Qed.

Lemma Down_defined {A : Type} (o : option A) : Down 0 (defined o : M Program.t A).
Proof. apply Down_steady. intros p b p' H. inv_ok. split; [apply grows_refl|reflexivity]. Qed.

Lemma Down_bind {A B : Type} (n1 n2 : nat) (m : M Program.t A) (k : A -> M Program.t B) :
  Down n1 m -> (forall a, Down n2 (k a)) -> Down (n1 + n2) (bind m k).
Proof.
  intros Hm Hk p b p' H. inv_ok.
  match goal with H1 : m p = Ok (?a, ?q), H2 : k ?a ?q = Ok _ |- _ =>
    destruct (Hm _ _ _ H1) as (Hg1 & l1 & Hl1 & Hs1);
    destruct (Hk _ _ _ _ H2) as (Hg2 & l2 & Hl2 & Hs2) end.
  split; [eapply grows_trans; eauto|].
  exists (l1 ++ l2). rewrite length_app, Hs1, Hs2, app_assoc. split; [lia|reflexivity].
Qed.

Lemma Down_push {A B : Type} (n : nat) (m : M Program.t A) (k : A -> M Program.t B) :
  Pushes m -> (forall a, Down (S n) (k a)) -> Down n (bind m k).
Proof.
  intros Hm Hk p b p' H. inv_ok.
  match goal with H1 : m p = Ok (?a, ?q), H2 : k ?a ?q = Ok _ |- _ =>
    destruct (Hm _ _ _ H1) as (Hg1 & r & Hs1);
    destruct (Hk _ _ _ _ H2) as (Hg2 & l2 & Hl2 & Hs2) end.
  split; [eapply grows_trans; eauto|].
  rewrite Hs1 in Hs2. destruct l2 as [|r' l2]; [discriminate Hl2|].
  simpl in Hs2. inversion Hs2; subst. exists l2. split; [simpl in Hl2; lia|assumption].
Qed.

Lemma Down_when (b : bool) (m : M Program.t unit) : Down 0 m -> Down 0 (when b m).
Proof. intros H. destruct b; [exact H|apply Down_ret]. Qed.

Lemma Down_forM {A : Type} (f : A -> M Program.t unit) (l : list A) :
  (forall x, In x l -> Down 0 (f x)) -> Down 0 (forM_ f l).
Proof.
  induction l as [|x rest IH]; intros H; cbn [forM_].
  - apply Down_ret.
  - apply (Down_bind 0 0).
    + apply H. left. reflexivity.
    + intros _. apply IH. intros y Hy. apply H. right. exact Hy.
Qed.

Lemma Down_modify (f : Program.t -> Program.t) :
  (forall p, grows p (f p) /\ Program.activeSubroutines (f p) = Program.activeSubroutines p) ->
  Down 0 (modify f).
Proof. intros H. apply Down_steady. intros p u p' Hm. inv_ok. apply H. Qed.

(** *** Methods of the active subroutine *)

Lemma SubKeeps_grows {A : Type} (m : M Subroutine.t A) : SubKeeps m -> SubGrows m.
Proof. intros H s a s' Hm. rewrite (H s a s' Hm). lia. Qed.

Lemma SubKeeps_bind {A B : Type} (m : M Subroutine.t A) (k : A -> M Subroutine.t B) :
  SubKeeps m -> (forall a, SubKeeps (k a)) -> SubKeeps (bind m k).
Proof.
  intros Hm Hk s b s' H. inv_ok.
  match goal with H1 : m s = Ok (?a, ?q), H2 : k ?a ?q = Ok _ |- _ =>
    rewrite (Hk _ _ _ _ H2), (Hm _ _ _ H1) end.
  reflexivity.
Qed.

Lemma SubGrows_bind {A B : Type} (m : M Subroutine.t A) (k : A -> M Subroutine.t B) :
  SubGrows m -> (forall a, SubGrows (k a)) -> SubGrows (bind m k).
Proof.
  intros Hm Hk s b s' H. inv_ok.
  match goal with H1 : m s = Ok (?a, ?q), H2 : k ?a ?q = Ok _ |- _ =>
    pose proof (Hk _ _ _ _ H2); pose proof (Hm _ _ _ H1) end.
  lia.
Qed.

Lemma SubKeeps_alterSection (f : Subroutine.t -> Z) (g : Subroutine.t -> Section.t -> Section.t) :
  SubKeeps (fun s => Subroutine.alterSection (f s) (g s) s).
Proof.
  intros s a s' H. unfold Subroutine.alterSection in H.
  destruct (at_ (Subroutine.sections s) (f s)); [|discriminate H].
  inversion H; subst. reflexivity.
Qed.

Lemma SubKeeps_modify (f : Subroutine.t -> Subroutine.t) :
  (forall s, Subroutine.ops (f s) = Subroutine.ops s) -> SubKeeps (modify f).
Proof. intros H s a s' Hm. inv_ok. apply H. Qed.

Lemma SubKeeps_gets {A : Type} (f : Subroutine.t -> A) : SubKeeps (gets f).
Proof. intros s a s' Hm. inv_ok. reflexivity. Qed.

Lemma SubKeeps_ret {A : Type} (a : A) : SubKeeps (ret a).
Proof. intros s b s' Hm. inv_ok. reflexivity. Qed.

Lemma SubKeeps_when (b : bool) (m : M Subroutine.t unit) : SubKeeps m -> SubKeeps (when b m).
Proof. intros H. destruct b; [exact H|apply SubKeeps_ret]. Qed.

Lemma SubKeeps_defined {A : Type} (f : Subroutine.t -> option A) :
  SubKeeps (fun s => defined (f s) s).
Proof. intros s a s' Hm. inv_ok. reflexivity. Qed.

Lemma SubKeeps_registerTypeArgumentUsage (symbol : Symbol.t) :
  SubKeeps (Subroutine.registerTypeArgumentUsage symbol).
Proof.
  exact (SubKeeps_alterSection Subroutine.activeSection
           (fun s => Section.registerTypeArgumentUsage symbol (Subroutine.ip s))).
Qed.

Lemma SubKeeps_ignoreNextSectionOP : SubKeeps Subroutine.ignoreNextSectionOP.
Proof. apply SubKeeps_modify. reflexivity. Qed.

Lemma SubKeeps_blockTailCall : SubKeeps Subroutine.blockTailCall.
Proof.
  exact (SubKeeps_alterSection Subroutine.activeSection
           (fun _ => Section.with_isBlockTailCall true)).
Qed.

Lemma SubKeeps_end : SubKeeps Subroutine.end_.
Proof.
  exact (SubKeeps_alterSection Subroutine.activeSection
           (fun s => Section.with_end (Subroutine.ip s))).
Qed.

Lemma SubKeeps_pushSourceMap (pos end_ : Z) : SubKeeps (Subroutine.pushSourceMap pos end_).
Proof. apply SubKeeps_modify. reflexivity. Qed.

Lemma SubKeeps_pushSection : SubKeeps Subroutine.pushSection.
Proof.
  unfold Subroutine.pushSection. apply SubKeeps_bind.
  - exact (SubKeeps_alterSection Subroutine.activeSection (fun _ => Section.with_hasChild true)).
  - intros _. apply SubKeeps_bind; [apply SubKeeps_modify; reflexivity|].
    intros _. apply SubKeeps_modify. reflexivity.
Qed.

Lemma SubKeeps_popSection : SubKeeps Subroutine.popSection.
Proof.
  unfold Subroutine.popSection.
  apply SubKeeps_bind; [exact (SubKeeps_defined (fun s => at_ _ _))|]. intros back.
  apply SubKeeps_bind.
  { exact (SubKeeps_alterSection (fun s => Z.of_nat (length (Subroutine.sections s)) - 1)
             (fun s => Section.with_end (Subroutine.ip s))). }
  intros _. apply SubKeeps_bind; [apply SubKeeps_modify; reflexivity|]. intros _.
  apply SubKeeps_bind; [exact (SubKeeps_defined (fun s => at_ _ _))|]. intros parent.
  apply SubKeeps_when.
  apply SubKeeps_bind; [apply SubKeeps_modify; reflexivity|]. intros _.
  apply SubKeeps_bind.
  { exact (SubKeeps_alterSection Subroutine.activeSection
             (fun s => Section.with_next (i32 (Z.of_nat (length (Subroutine.sections s)) - 1)))). }
  intros _. apply SubKeeps_bind; [exact (SubKeeps_defined (fun s => at_ _ _))|]. intros parent'.
  apply SubKeeps_bind.
  { exact (SubKeeps_alterSection (fun s => Z.of_nat (length (Subroutine.sections s)) - 1)
             (fun _ => Section.with_up (Section.up parent'))). }
  intros _. apply SubKeeps_modify. reflexivity.
Qed.

Lemma Subroutine_pushOp_Ok {enc : Encoding} (op : OP.t) (s s' : Subroutine.t) (u : unit) :
  Subroutine.pushOp op s = Ok (u, s') ->
  Subroutine.ops s' = Subroutine.ops s ++ [op_code op].
Proof.
  unfold Subroutine.pushOp. intros H. inv_ok.
  match goal with H : when _ _ _ = Ok _ |- _ => rename H into Hwhen end.
  cbn [Subroutine.isIgnoreNextSectionOP Subroutine.with_ops] in Hwhen.
  destruct (Subroutine.isIgnoreNextSectionOP s); cbn [when negb] in Hwhen.
  - inv_ok. reflexivity.
  - apply (SubKeeps_alterSection Subroutine.activeSection
             (fun _ sec => Section.with_ops (u32 (Section.ops sec + 1))
                             (Section.with_lastOp op sec))) in Hwhen.
    cbn [Subroutine.ops Subroutine.with_isIgnoreNextSectionOP]. rewrite Hwhen. reflexivity.
Qed.

Lemma SubGrows_pushOp {enc : Encoding} (op : OP.t) : SubGrows (Subroutine.pushOp op).
Proof.
  intros s [] s' H. rewrite (Subroutine_pushOp_Ok op s s' tt H), length_app. lia.
Qed.

Lemma store_length {A : Type} (l l' : list A) (i : Z) (x : A) :
  store l i x = Some l' -> length l' = length l.
Proof. intros H. apply store_Some in H as [_ ->]. apply length_insert. Qed.

Lemma reuseRests_length {enc : Encoding} (usages : list TypeArgumentUsage.t) (ops ops' : list Z) :
  Subroutine.reuseRests ops usages = Some ops' -> length ops' = length ops.
Proof.
  revert ops. induction usages as [|usage rest IH]; intros ops H; cbn [Subroutine.reuseRests] in H.
  - inversion H. reflexivity.
  - destruct (Subroutine.reuseRest ops usage) as [ops1|] eqn:H1; [|discriminate H].
    cbn [mbind option_bind] in H. rewrite (IH _ H).
    unfold Subroutine.reuseRest in H1.
    destruct (at_ ops (TypeArgumentUsage.ip usage)) as [op|]; [|discriminate H1].
    cbn [mbind option_bind] in H1.
    destruct (op =? op_code OP.Rest); [eapply store_length; eauto|congruence].
Qed.

Lemma optimiseSections_length {enc : Encoding} (secs todo : list Section.t) (ops ops' : list Z) :
  Subroutine.optimiseSections secs ops todo = Some ops' -> length ops' = length ops.
Proof.
  revert ops. induction todo as [|section rest IH]; intros ops H;
    cbn [Subroutine.optimiseSections] in H.
  - inversion H. reflexivity.
  - destruct (Subroutine.optimiseSection secs ops section) as [ops1|] eqn:H1; [|discriminate H].
    cbn [mbind option_bind] in H. rewrite (IH _ H).
    unfold Subroutine.optimiseSection in H1.
    destruct (Subroutine.isTail secs section) as [[|]|]; cbn [mbind option_bind] in H1;
      [|congruence|discriminate H1].
    destruct (OP.eqb (Section.lastOp section) OP.Call).
    + destruct (store ops _ _) as [ops2|] eqn:H2; [|discriminate H1].
      cbn [mbind option_bind] in H1. apply reuseRests_length in H1.
      apply store_length in H2. congruence.
    + cbn [mbind option_bind] in H1. apply reuseRests_length in H1. exact H1.
Qed.

Lemma SubGrows_optimise {enc : Encoding} : SubGrows Subroutine.optimise.
Proof.
  intros s [] s' H. unfold Subroutine.optimise in H. inv_ok.
  match goal with H : Subroutine.optimiseSections _ _ _ = Some _ |- _ =>
    apply optimiseSections_length in H; cbn [Subroutine.ops Subroutine.with_ops]; lia end.
Qed.

Lemma onActive_Down {A : Type} (m : M Subroutine.t A) : SubGrows m -> Down 0 (Program.onActive m).
Proof.
  intros Hm. apply Down_steady. intros p a p' H.
  apply onActive_Ok in H as (r & rest & sub & sub' & Hs & Hr & Hrun & ->).
  split; [|reflexivity]. apply grows_insert with (sub := sub); [exact Hr|].
  exact (Hm _ _ _ Hrun).
Qed.

Lemma ifActive_Down (m : M Subroutine.t unit) : SubGrows m -> Down 0 (Program.ifActive m).
Proof.
  intros Hm p a p' H. unfold Program.ifActive in H.
  destruct (Program.activeSubroutines p) eqn:Hs.
  - inversion H; subst. split; [apply grows_refl|]. exists []. rewrite Hs. auto.
  - rewrite <- Hs. exact (onActive_Down m Hm p a p' H).
Qed.

(** *** Methods of the program *)

Lemma with_subroutines_id (p : Program.t) (r : nat) (sub : Subroutine.t) :
  Program.subroutines p !! r = Some sub ->
  Program.with_subroutines (<[r := sub]> (Program.subroutines p)) p = p.
Proof.
  intros Hr. rewrite list_insert_id by exact Hr. destruct p. reflexivity.
Qed.

(** [getOPs] reads the current buffer and changes nothing. *)
Lemma getOPs_Ok (p : Program.t) (ops : list Z) (p' : Program.t) :
  Program.getOPs p = Ok (ops, p') -> p' = p /\ ops = currentOps p.
Proof.
  unfold Program.getOPs, currentOps. destruct (Program.activeSubroutines p) as [|r rest] eqn:Hs.
  - intros H. inversion H. auto.
  - intros H. apply onActive_Ok in H as (r' & rest' & sub & sub' & Hs' & Hr & Hrun & ->).
    rewrite Hs in Hs'. inversion Hs'; subst r' rest'. inv_ok.
    rewrite Hr. split; [apply with_subroutines_id; exact Hr|reflexivity].
Qed.

(** [setOPs] replaces the current buffer. *)
Lemma setOPs_Ok (v : list Z) (p p' : Program.t) (u : unit) :
  Program.setOPs v p = Ok (u, p') ->
  currentOps p' = v
  /\ Program.activeSubroutines p' = Program.activeSubroutines p
  /\ Program.frame p' = Program.frame p
  /\ ((length (currentOps p) <= length v)%nat -> grows p p').
Proof.
  unfold Program.setOPs, currentOps. destruct (Program.activeSubroutines p) as [|r rest] eqn:Hs.
  - intros H. inversion H; subst. cbn. rewrite Hs.
    split; [reflexivity|]. split; [reflexivity|]. split; [reflexivity|].
    intros Hlen. apply grows_main; [exact Hlen|reflexivity].
  - intros H. apply onActive_Ok in H as (r' & rest' & sub & sub' & Hs' & Hr & Hrun & ->).
    rewrite Hs in Hs'. inversion Hs'; subst r' rest'. inv_ok.
    cbn. rewrite Hs. rewrite list_lookup_insert_eq by (eapply lookup_lt_Some; eauto).
    rewrite Hr. split; [reflexivity|]. split; [reflexivity|]. split; [reflexivity|].
    intros Hlen. eapply grows_insert; eauto.
Qed.

Lemma Down_getOPs : Down 0 Program.getOPs.
Proof.
  apply Down_steady. intros p ops p' H. apply getOPs_Ok in H as [-> _].
  split; [apply grows_refl|reflexivity].
Qed.

(** Reading the buffer, rewriting it without shortening it, storing it. *)
Lemma Down_write (f : list Z -> option (list Z)) :
  (forall ops ops', f ops = Some ops' -> (length ops <= length ops')%nat) ->
  Down 0 (ops <- Program.getOPs ;; ops' <- defined (f ops) ;; Program.setOPs ops').
Proof.
  intros Hf. apply Down_steady. intros p [] p' H. inv_ok.
  match goal with H : Program.getOPs _ = Ok _ |- _ => apply getOPs_Ok in H as [-> ->] end.
  match goal with H : Program.setOPs _ _ = Ok _ |- _ =>
    apply setOPs_Ok in H as (_ & Hs & _ & Hg) end.
  split; [|exact Hs]. apply Hg. apply Hf. assumption.
Qed.

Lemma Down_pushAddress (address offset : Z) : Down 0 (Program.pushAddress address offset).
Proof.
  exact (Down_write (fun ops => writeUint32 ops _ _) (fun ops ops' H => write_at_length _ _ _ _ H)).
Qed.

Lemma Down_pushInt32Address (address offset : Z) : Down 0 (Program.pushInt32Address address offset).
Proof.
  exact (Down_write (fun ops => writeInt32 ops _ _) (fun ops ops' H => write_at_length _ _ _ _ H)).
Qed.

Lemma Down_pushUint32 (v : Z) : Down 0 (Program.pushUint32 v).
Proof.
  exact (Down_write (fun ops => writeUint32 ops _ _) (fun ops ops' H => write_at_length _ _ _ _ H)).
Qed.

Lemma Down_pushUint16 (v offset : Z) : Down 0 (Program.pushUint16 v offset).
Proof.
  exact (Down_write (fun ops => writeUint16 ops _ _) (fun ops ops' H => write_at_length _ _ _ _ H)).
Qed.

Lemma Down_pushSymbolAddress (symbol : Symbol.t) : Down 0 (Program.pushSymbolAddress symbol).
Proof.
  apply Down_steady. intros p [] p' H. unfold Program.pushSymbolAddress in H. inv_ok.
  match goal with H : Program.getOPs _ = Ok _ |- _ => apply getOPs_Ok in H as [-> ->] end.
  match goal with H : Program.setOPs _ _ = Ok _ |- _ =>
    apply setOPs_Ok in H as (_ & Hs & _ & Hg) end.
  split; [|exact Hs]. apply Hg.
  repeat match goal with H : writeUint16 _ _ _ = Some _ |- _ => apply write_at_length in H end.
  lia.
Qed.

Lemma Down_pushOp {enc : Encoding} (op : OP.t) : Down 0 (Program.pushOp op).
Proof.
  intros p a p' H. unfold Program.pushOp in H.
  destruct (Program.activeSubroutines p) eqn:Hs.
  - inversion H; subst. split; [|exists []; cbn; rewrite Hs; auto].
    apply grows_main; [cbn; rewrite length_app; lia|reflexivity].
  - rewrite <- Hs. exact (onActive_Down _ (SubGrows_pushOp op) p a p' H).
Qed.

Lemma Down_pushSourceMap (pos end_ : Z) : Down 0 (Program.pushSourceMap pos end_).
Proof.
  intros p a p' H. unfold Program.pushSourceMap in H.
  destruct (Program.activeSubroutines p) eqn:Hs.
  - inversion H; subst. split; [|exists []; cbn; rewrite Hs; auto].
    apply grows_main; [cbn; lia|reflexivity].
  - rewrite <- Hs.
    exact (onActive_Down _ (SubKeeps_grows _ (SubKeeps_pushSourceMap pos end_)) p a p' H).
Qed.

Lemma Down_pushOpAt {enc : Encoding} (op : OP.t) (node : option (Z * Z)) :
  Down 0 (Program.pushOpAt op node).
Proof.
  unfold Program.pushOpAt. apply (Down_bind 0 0); [|intros _; apply Down_pushOp].
  destruct node as [[pos end_]|]; [apply Down_pushSourceMap|apply Down_ret].
Qed.

Lemma Down_main (f : Program.t -> Program.t) :
  (forall p, (length (Program.ops p) <= length (Program.ops (f p)))%nat
             /\ Program.subroutines (f p) = Program.subroutines p
             /\ Program.activeSubroutines (f p) = Program.activeSubroutines p) ->
  Down 0 (modify f).
Proof.
  intros H. apply Down_modify. intros p. destruct (H p) as (H1 & H2 & H3).
  split; [apply grows_main; assumption|exact H3].
Qed.

Lemma Down_popFrameImplicit : Down 0 Program.popFrameImplicit.
Proof.
  apply Down_main. intros p. destruct (Frame.previous (Program.frame p)); cbn; auto.
Qed.

Lemma Down_alterFrame (f : Frame.t -> Frame.t) : Down 0 (Program.alterFrame f).
Proof. apply Down_main. intros p. cbn. auto. Qed.

Lemma Down_popFrame {enc : Encoding} : Down 0 Program.popFrame.
Proof.
  unfold Program.popFrame. apply (Down_bind 0 0); [apply Down_pushOp|].
  intros _. apply Down_popFrameImplicit.
Qed.

Lemma Down_pushFrame {enc : Encoding} (implicit : bool) : Down 0 (Program.pushFrame implicit).
Proof.
  unfold Program.pushFrame. apply (Down_bind 0 0); [apply Down_when, Down_pushOp|].
  intros _. apply Down_main. intros p. cbn. auto.
Qed.

Lemma Down_registerTypeArgumentUsage (symbol : Symbol.t) :
  Down 0 (Program.registerTypeArgumentUsage symbol).
Proof. apply ifActive_Down, SubKeeps_grows, SubKeeps_registerTypeArgumentUsage. Qed.

Lemma Down_ignoreNextSectionOP : Down 0 Program.ignoreNextSectionOP.
Proof. apply ifActive_Down, SubKeeps_grows, SubKeeps_ignoreNextSectionOP. Qed.

Lemma Down_pushSection : Down 0 Program.pushSection.
Proof. apply ifActive_Down, SubKeeps_grows, SubKeeps_pushSection. Qed.

Lemma Down_blockTailCall : Down 0 Program.blockTailCall.
Proof. apply ifActive_Down, SubKeeps_grows, SubKeeps_blockTailCall. Qed.

Lemma Down_popSection : Down 0 Program.popSection.
Proof. apply ifActive_Down, SubKeeps_grows, SubKeeps_popSection. Qed.

Lemma Down_ip : Down 0 Program.ip.
Proof.
  unfold Program.ip. apply (Down_bind 0 0); [apply Down_getOPs|]. intros ops. apply Down_ret.
Qed.

Lemma Down_pushError {enc : Encoding} (code : ErrorCode.t) (pos end_ : Z) :
  Down 0 (Program.pushError code pos end_).
Proof.
  apply Down_steady. intros p [] p' H. rewrite pushError_run in H. inversion H; subst.
  split; [|reflexivity]. apply grows_main; [cbn; rewrite length_app; lia|reflexivity].
Qed.

Lemma Down_pushSymbol (name : string) (type : SymbolType.t) (pos end_ : Z) :
  Down 0 (Program.pushSymbol name type pos end_).
Proof.
  unfold Program.pushSymbol. apply (Down_bind 0 0); [apply Down_gets|]. intros symbols.
  destruct (if SymbolType.eqb type SymbolType.TypeVariable then None else _).
  - apply (Down_bind 0 0); [apply Down_alterFrame|]. intros _. apply Down_ret.
  - apply (Down_bind 0 0); [apply Down_gets|]. intros frameId.
    apply (Down_bind 0 0); [apply Down_alterFrame|]. intros _. apply Down_ret.
Qed.

Lemma Down_symbolAt (i : nat) : Down 0 (Program.symbolAt i).
Proof.
  apply Down_steady. intros p s p' H. unfold Program.symbolAt in H. inv_ok.
  split; [apply grows_refl|reflexivity].
Qed.

Lemma Down_registerStorage (s : string) : Down 0 (Program.registerStorage s).
Proof.
  apply Down_steady. intros p a p' H. rewrite registerStorage_run in H. inversion H; subst.
  split; [|reflexivity]. apply grows_main; [cbn; lia|reflexivity].
Qed.

Lemma Down_pushStorage (s : string) : Down 0 (Program.pushStorage s).
Proof.
  unfold Program.pushStorage. apply (Down_bind 0 0); [apply Down_registerStorage|].
  intros address. apply Down_pushAddress.
Qed.

Lemma Down_pushStringLiteral {enc : Encoding} (s : string) (node : option (Z * Z)) :
  Down 0 (Program.pushStringLiteral s node).
Proof.
  unfold Program.pushStringLiteral. apply (Down_bind 0 0); [apply Down_pushOpAt|].
  intros _. apply Down_pushStorage.
Qed.

Lemma Down_appendSubroutine (routine : Subroutine.t) :
  Down 0 (modify (fun p => Program.with_subroutines (Program.subroutines p ++ [routine]) p)).
Proof. apply Down_modify. intros p. split; [apply grows_append|reflexivity]. Qed.

Lemma Down_pushSymbolForRoutine (name : string) (type : SymbolType.t) (pos end_ : Z) :
  Down 0 (Program.pushSymbolForRoutine name type pos end_).
Proof.
  unfold Program.pushSymbolForRoutine.
  apply (Down_bind 0 0); [apply Down_pushSymbol|]. intros i.
  apply (Down_bind 0 0); [apply Down_symbolAt|]. intros symbol.
  destruct (Symbol.routine symbol); [apply Down_ret|].
  apply (Down_bind 0 0); [apply Down_registerStorage|]. intros nameAddress.
  apply (Down_bind 0 0); [apply Down_gets|]. intros index.
  apply (Down_bind 0 0); [apply Down_appendSubroutine|]. intros _.
  apply (Down_bind 0 0); [apply Down_gets|]. intros position.
  apply (Down_bind 0 0); [apply Down_alterFrame|]. intros _. apply Down_ret.
Qed.

Lemma Down_routineIndex (routine : nat) : Down 0 (Compiler.routineIndex routine).
Proof.
  apply Down_steady. intros p a p' H. unfold Compiler.routineIndex in H. inv_ok.
  split; [apply grows_refl|reflexivity].
Qed.

(** *** Opening and closing a subroutine *)

Lemma Pushes_steady_then {A B : Type} (m : M Program.t A) (k : A -> M Program.t B) :
  Down 0 m -> (forall a, Pushes (k a)) -> Pushes (bind m k).
Proof.
  intros Hm Hk p b p' H. inv_ok.
  match goal with H1 : m p = Ok (?a, ?q), H2 : k ?a ?q = Ok _ |- _ =>
    destruct (Down_0 _ _ _ _ Hm H1) as [Hg1 Hs1];
    destruct (Hk _ _ _ _ H2) as (Hg2 & r & Hs2) end.
  split; [eapply grows_trans; eauto|]. exists r. congruence.
Qed.

Lemma Pushes_then_steady {A B : Type} (m : M Program.t A) (k : A -> M Program.t B) :
  Pushes m -> (forall a, Down 0 (k a)) -> Pushes (bind m k).
Proof.
  intros Hm Hk p b p' H. inv_ok.
  match goal with H1 : m p = Ok (?a, ?q), H2 : k ?a ?q = Ok _ |- _ =>
    destruct (Hm _ _ _ H1) as (Hg1 & r & Hs1);
    destruct (Down_0 _ _ _ _ (Hk _) H2) as [Hg2 Hs2] end.
  split; [eapply grows_trans; eauto|]. exists r. congruence.
Qed.

Lemma Pushes_activate (f : Program.t -> nat) :
  Pushes (modify (fun p => Program.with_activeSubroutines (f p :: Program.activeSubroutines p) p)).
Proof.
  intros p u p' H. inv_ok. split; [apply grows_main; reflexivity|]. eexists. reflexivity.
Qed.

Lemma Pushes_pushSubroutine {enc : Encoding} (name : string) :
  Pushes (Program.pushSubroutine name).
Proof.
  unfold Program.pushSubroutine. apply Pushes_steady_then; [apply Down_gets|].
  intros [s|]; [|intros p a p' H; discriminate H].
  apply Pushes_steady_then; [apply Down_pushFrame|]. intros _.
  apply Pushes_steady_then; [apply Down_defined|]. intros routine.
  apply Pushes_then_steady; [exact (Pushes_activate (fun _ => routine))|]. intros _.
  apply (Down_bind 0 0); [|intros sub; apply Down_ret].
  apply Down_steady. intros p a p' H. inv_ok. split; [apply grows_refl|reflexivity].
Qed.

Lemma Pushes_pushSubroutineNameLess {enc : Encoding} : Pushes Program.pushSubroutineNameLess.
Proof.
  unfold Program.pushSubroutineNameLess. apply Pushes_steady_then; [apply Down_gets|].
  intros index. apply Pushes_steady_then; [apply Down_pushFrame|]. intros _.
  apply Pushes_steady_then; [apply Down_appendSubroutine|]. intros _.
  apply Pushes_then_steady; [|intros _; apply Down_ret].
  exact (Pushes_activate (fun p => (length (Program.subroutines p) - 1)%nat)).
Qed.

Lemma Down_popSubroutine {enc : Encoding} : Down 1 Program.popSubroutine.
Proof.
  intros p a p' H. unfold Program.popSubroutine in H.
  apply bind_Ok in H as (active & p0 & Hactive & H). apply gets_Ok in Hactive as [-> ->].
  destruct (Program.activeSubroutines p) as [|subroutine rest] eqn:Hs; [discriminate H|].
  apply bind_Ok in H as ([] & p1 & H1 & H).
  apply bind_Ok in H as (ops & p2 & H2 & H).
  destruct ops as [|op ops]; [discriminate H|].
  apply bind_Ok in H as ([] & p3 & H3 & H).
  apply bind_Ok in H as ([] & p4 & H4 & H).
  apply bind_Ok in H as ([] & p5 & H5 & H).
  apply bind_Ok in H as ([] & p6 & H6 & H). inv_ok.
  destruct (Down_0 _ _ _ _ Down_popFrameImplicit H1) as [G1 S1].
  destruct (Down_0 _ _ _ _ (onActive_Down _ (SubKeeps_grows _ (SubKeeps_gets _))) H2) as [G2 S2].
  destruct (Down_0 _ _ _ _ (onActive_Down _ (SubKeeps_grows _ SubKeeps_end)) H3) as [G3 S3].
  destruct (Down_0 _ _ _ _ (onActive_Down _ SubGrows_optimise) H4) as [G4 S4].
  assert (SG : SubGrows (modify (fun s => Subroutine.with_ops
                                            (Subroutine.ops s ++ [op_code OP.Return]) s))).
  { intros s u s' Hm. inv_ok. cbn. rewrite length_app. lia. }
  destruct (Down_0 _ _ _ _ (onActive_Down _ SG) H5) as [G5 S5].
  split.
  - repeat (eapply grows_trans; [eassumption|]).
    apply grows_main; reflexivity.
  - exists [subroutine]. split; [reflexivity|]. cbn. congruence.
Qed.

(** ** Buffers only grow: the lowering *)

Create HintDb down.
#[local] Hint Resolve Down_ret Down_gets Down_defined Down_getOPs Down_pushAddress
  Down_pushInt32Address Down_pushUint32 Down_pushUint16 Down_pushSymbolAddress
  Down_pushSourceMap Down_popFrameImplicit Down_alterFrame Down_registerTypeArgumentUsage
  Down_ignoreNextSectionOP Down_pushSection Down_blockTailCall Down_popSection Down_ip
  Down_pushSymbol Down_symbolAt Down_registerStorage Down_pushStorage
  Down_pushSymbolForRoutine Down_routineIndex : down.
#[local] Hint Extern 1 (Down _ (Program.pushOp _)) => apply Down_pushOp : down.
#[local] Hint Extern 1 (Down _ (Program.pushOpAt _ _)) => apply Down_pushOpAt : down.
#[local] Hint Extern 1 (Down _ Program.popFrame) => apply Down_popFrame : down.
#[local] Hint Extern 1 (Down _ (Program.pushFrame _)) => apply Down_pushFrame : down.
#[local] Hint Extern 1 (Down _ (Program.pushError _ _ _)) => apply Down_pushError : down.
#[local] Hint Extern 1 (Down _ (Program.pushStringLiteral _ _)) =>
  apply Down_pushStringLiteral : down.

Lemma In_nodeSize (x : Node) (l : list Node) :
  In x l -> (nodeSize x <= list_sum (map nodeSize l))%nat.
Proof.
  induction l as [|y rest IH]; intros Hin; [destruct Hin|].
  cbn [map list_sum fold_right]. unfold list_sum in *. cbn [fold_right].
  destruct Hin as [->|Hin]; [lia|]. specialize (IH Hin). lia.
Qed.

(** Goal-directed proof that a computation lets buffers grow and closes
    as many subroutines as it opens; [leaf] closes what is not a
    combinator. *)
Ltac down_with leaf :=
  lazymatch goal with
  | |- Down _ (bind (Program.pushSubroutine _) _) =>
      apply Down_push; [apply Pushes_pushSubroutine | intros ?; down_with leaf]
  | |- Down _ (bind Program.pushSubroutineNameLess _) =>
      apply Down_push; [apply Pushes_pushSubroutineNameLess | intros ?; down_with leaf]
  | |- Down (S ?n) (bind Program.popSubroutine _) =>
      apply (Down_bind 1 n); [apply Down_popSubroutine | intros ?; down_with leaf]
  | |- Down ?n (bind _ _) =>
      apply (Down_bind 0 n); [down_with leaf | intros ?; down_with leaf]
  | |- Down _ (throw _) => apply Down_throw
  | |- Down _ undef => apply Down_undef
  | |- Down _ (when _ _) => apply Down_when; down_with leaf
  | |- Down _ (forM_ _ _) => apply Down_forM; intros ? ?; down_with leaf
  | |- Down _ (match ?x with _ => _ end) => destruct x; down_with leaf
  | |- _ => first [solve [eauto with down] | leaf]
  end.

Ltac down := down_with fail.

Lemma Down_pushCall {enc : Encoding} (symbol : Symbol.t) (node : Z * Z) (typeArguments : Z) :
  Down 0 (Compiler.pushCall symbol node typeArguments).
Proof. unfold Compiler.pushCall. down. Qed.

Lemma Down_optionalAndReadonly {enc : Encoding} (questionToken : option Token) (readonly : bool) :
  Down 0 (Compiler.optionalAndReadonly questionToken readonly).
Proof. unfold Compiler.optionalAndReadonly. down. Qed.

Lemma Down_distributePrelude {enc : Encoding} (check : M Program.t unit) (probe : Ident) :
  Down 0 check -> Down 0 (Compiler.distributePrelude check probe).
Proof. intros H. unfold Compiler.distributePrelude. down. Qed.

Lemma Down_conditionTest {enc : Encoding} (check extends : M Program.t unit) (node : Z * Z) :
  Down 0 check -> Down 0 extends -> Down 0 (Compiler.conditionTest check extends node).
Proof. intros H1 H2. unfold Compiler.conditionTest. down. Qed.

Lemma Down_trueBranch {enc : Encoding} (whenTrue : M Program.t unit) :
  Down 0 whenTrue -> Down 0 (Compiler.trueBranch whenTrue).
Proof. intros H. unfold Compiler.trueBranch. down. Qed.

Lemma Down_falseBranch (whenFalse : M Program.t unit) :
  Down 0 whenFalse -> Down 0 (Compiler.falseBranch whenFalse).
Proof. intros H. unfold Compiler.falseBranch. down. Qed.

Lemma Down_patchJumps (relativeTo falseJumpAddressIp trueJumpAddressIp falseProgram falseEndIp : Z) :
  Down 0 (Compiler.patchJumps relativeTo falseJumpAddressIp trueJumpAddressIp
            falseProgram falseEndIp).
Proof. unfold Compiler.patchJumps. down. Qed.

Lemma Down_distributeEnd {enc : Encoding} (distributeJumpIp falseEndIp : Z) :
  Down 0 (Compiler.distributeEnd distributeJumpIp falseEndIp).
Proof. unfold Compiler.distributeEnd. down. Qed.

Lemma Down_conditionalType {enc : Encoding} (distributiveOverIdentifier : option Ident)
    (check extends whenTrue whenFalse : M Program.t unit) (node : Z * Z) :
  Down 0 check -> Down 0 extends -> Down 0 whenTrue -> Down 0 whenFalse ->
  Down 0 (Compiler.conditionalType distributiveOverIdentifier check extends whenTrue whenFalse node).
Proof.
  intros H1 H2 H3 H4. unfold Compiler.conditionalType.
  pose proof (Down_distributePrelude check) as Hprelude.
  pose proof (Down_conditionTest check extends node H1 H2) as Htest.
  pose proof (Down_trueBranch whenTrue H3) as Htrue.
  pose proof (Down_falseBranch whenFalse H4) as Hfalse.
  pose proof Down_patchJumps as Hpatch. pose proof Down_distributeEnd as Hend.
  down.
Qed.

(** The lowering of a strictly smaller tree is covered by the induction
    hypothesis. *)
Ltac smaller_child :=
  lazymatch goal with
  | H : forall child, _ -> Down 0 (Compiler.handle child) |- Down _ (Compiler.handle _) =>
      apply H;
      repeat match goal with Hin : In _ _ |- _ => apply In_nodeSize in Hin end;
      cbn [nodeSize] in *; lia
  end.

Lemma handle_TupleType {enc : Encoding} (pos end_ : Z) (elements : list Node) :
  Compiler.handle (TupleType pos end_ elements)
  = (Program.pushFrame false ;;
     forM_ (fun e =>
              match e with
              | NamedTupleMember _ _ dotDotDotToken questionToken type =>
                  Compiler.handle type ;;
                  when (bool_decide (is_Some dotDotDotToken)) (Program.pushOp OP.Rest) ;;
                  Program.pushOpAt OP.TupleMember (Some (span e)) ;;
                  when (bool_decide (is_Some questionToken)) (Program.pushOp OP.Optional)
              | OptionalType _ _ type =>
                  Compiler.handle type ;;
                  Program.pushOpAt OP.TupleMember (Some (span e)) ;;
                  Program.pushOp OP.Optional
              | _ =>
                  Compiler.handle e ;;
                  Program.pushOpAt OP.TupleMember (Some (span e))
              end) elements ;;
     Program.pushOpAt OP.Tuple (Some (pos, end_)) ;;
     Program.popFrameImplicit).
Proof. reflexivity. Qed.

(** Whatever [handle] lowers, on success no buffer got shorter, no
    subroutine was lost, and the active stack is the one it started with. *)
Lemma handle_steady {enc : Encoding} (k : nat) (node : Node) :
  (nodeSize node <= k)%nat -> Down 0 (Compiler.handle node).
Proof.
  revert node. induction k as [|k IH]; intros node Hsize; [destruct node; cbn in Hsize; lia|].
  assert (Hchild : forall child, (nodeSize child <= k)%nat -> Down 0 (Compiler.handle child))
    by exact IH.
  clear IH.
  pose proof (@Down_pushCall enc) as HpushCall.
  pose proof (@Down_optionalAndReadonly enc) as Hoptional.
  destruct node; cbn [nodeSize] in Hsize;
    try rewrite handle_TupleType; cbn [Compiler.handle].
  all: down_with ltac:(idtac; first [ smaller_child | apply Down_conditionalType; smaller_child ]).
Qed.

(** ** What the emission primitives do to the current buffer *)

Lemma grows_currentOps (p p' : Program.t) :
  grows p p' -> Program.activeSubroutines p' = Program.activeSubroutines p ->
  (length (currentOps p) <= length (currentOps p'))%nat.
Proof.
  intros [Hmain Hsubs] Hstack. unfold currentOps. rewrite Hstack.
  destruct (Program.activeSubroutines p) as [|r rest]; [exact Hmain|].
  destruct (Program.subroutines p !! r) as [sub|] eqn:Hr; [|cbn; lia].
  destruct (Hsubs r sub Hr) as (sub' & -> & Hlen). exact Hlen.
Qed.

(** A steady computation keeps the active stack and does not shorten the
    current buffer. *)
Lemma Down_0_run {A : Type} (m : M Program.t A) (p p' : Program.t) (a : A) :
  Down 0 m -> m p = Ok (a, p') ->
  Program.activeSubroutines p' = Program.activeSubroutines p
  /\ (length (currentOps p) <= length (currentOps p'))%nat.
Proof.
  intros Hm Hrun. destruct (Hm p a p' Hrun) as (Hgrows & popped & Hlen & Hstack).
  destruct popped; [|discriminate]. cbn in Hstack.
  split; [congruence|]. apply grows_currentOps; congruence.
Qed.

Lemma Keeps_ifActive (m : M Subroutine.t unit) : SubKeeps m -> Keeps (Program.ifActive m).
Proof.
  intros Hm p a p' H. unfold Program.ifActive in H.
  destruct (Program.activeSubroutines p) as [|r rest] eqn:Hs.
  - inversion H; subst. auto.
  - rewrite <- Hs. clear Hs. apply onActive_Ok in H as (r' & rest' & sub & sub' & Hs' & Hr & Hrun & ->).
    unfold currentOps. cbn. rewrite Hs'.
    rewrite list_lookup_insert_eq by (eapply lookup_lt_Some; eauto).
    rewrite Hr. split; [reflexivity|]. exact (Hm _ _ _ Hrun).
Qed.

Lemma Keeps_pushSection : Keeps Program.pushSection.
Proof. apply Keeps_ifActive, SubKeeps_pushSection. Qed.

Lemma Keeps_popSection : Keeps Program.popSection.
Proof. apply Keeps_ifActive, SubKeeps_popSection. Qed.

Lemma Keeps_ignoreNextSectionOP : Keeps Program.ignoreNextSectionOP.
Proof. apply Keeps_ifActive, SubKeeps_ignoreNextSectionOP. Qed.

Lemma Keeps_popFrameImplicit : Keeps Program.popFrameImplicit.
Proof.
  intros p a p' H. unfold Program.popFrameImplicit in H. inv_ok.
  destruct (Frame.previous (Program.frame p)); auto.
Qed.

(** [ip()] is the length of the current buffer, as an [unsigned int]. *)
Lemma ip_Ok (p p' : Program.t) (n : Z) :
  Program.ip p = Ok (n, p') -> p' = p /\ n = size (currentOps p).
Proof.
  unfold Program.ip. intros H. inv_ok.
  match goal with H : Program.getOPs _ = Ok _ |- _ => apply getOPs_Ok in H as [-> ->] end.
  auto.
Qed.

Lemma Appends_pushOp {enc : Encoding} (op : OP.t) : Appends [op_code op] (Program.pushOp op).
Proof.
  intros p a p' H. unfold Program.pushOp in H.
  destruct (Program.activeSubroutines p) as [|r rest] eqn:Hs.
  - inversion H; subst. unfold currentOps. cbn. rewrite Hs. auto.
  - rewrite <- Hs. clear Hs. apply onActive_Ok in H as (r' & rest' & sub & sub' & Hs' & Hr & Hrun & ->).
    unfold currentOps. cbn. rewrite Hs'.
    rewrite list_lookup_insert_eq by (eapply lookup_lt_Some; eauto).
    rewrite Hr. split; [reflexivity|]. exact (Subroutine_pushOp_Ok _ _ _ _ Hrun).
Qed.

Lemma Appends_popFrame {enc : Encoding} : Appends [op_code OP.FrameEnd] Program.popFrame.
Proof.
  intros p a p' H. unfold Program.popFrame in H. inv_ok.
  match goal with H : Program.pushOp _ _ = Ok _ |- _ => apply Appends_pushOp in H as [Hs Ho] end.
  match goal with H : Program.popFrameImplicit _ = Ok _ |- _ =>
    apply Keeps_popFrameImplicit in H as [Hs' Ho'] end.
  split; congruence.
Qed.

(** Reading the current buffer, rewriting it, storing it. *)
Lemma write_Ok (f : list Z -> option (list Z)) (p p' : Program.t) (u : unit) :
  (ops <- Program.getOPs ;; ops' <- defined (f ops) ;; Program.setOPs ops') p = Ok (u, p') ->
  Program.activeSubroutines p' = Program.activeSubroutines p
  /\ f (currentOps p) = Some (currentOps p').
Proof.
  intros H. inv_ok.
  match goal with H : Program.getOPs _ = Ok _ |- _ => apply getOPs_Ok in H as [-> ->] end.
  match goal with H : Program.setOPs _ _ = Ok _ |- _ =>
    apply setOPs_Ok in H as (Ho & Hs & _ & _) end.
  split; [exact Hs|]. congruence.
Qed.

(** [pushAddress(address)] without a position appends four bytes. *)
Lemma pushAddress_end (address : Z) (p p' : Program.t) (u : unit) :
  Program.pushAddress address 0 p = Ok (u, p') ->
  Program.activeSubroutines p' = Program.activeSubroutines p
  /\ currentOps p' = currentOps p ++ le_bytes 4 (u32 address).
Proof.
  intros H. apply write_Ok in H as [Hs Hw]. split; [exact Hs|].
  cbn [Z.eqb] in Hw. unfold writeUint32 in Hw. rewrite write_at_end in Hw. congruence.
Qed.

Lemma pushInt32Address_end (address : Z) (p p' : Program.t) (u : unit) :
  Program.pushInt32Address address 0 p = Ok (u, p') ->
  Program.activeSubroutines p' = Program.activeSubroutines p
  /\ currentOps p' = currentOps p ++ le_bytes 4 (i32 address).
Proof.
  intros H. apply write_Ok in H as [Hs Hw]. split; [exact Hs|].
  cbn [Z.eqb] in Hw. unfold writeInt32 in Hw. rewrite write_at_end in Hw. congruence.
Qed.

Lemma write_at_patched (bin bs : list Z) (o : nat) :
  (0 < o)%nat -> (o + length bs <= length bin)%nat -> bs <> [] ->
  write_at bin (Z.of_nat o) bs = Some (patched bin o bs).
Proof.
  intros Ho Hfit Hbs. rewrite write_at_inside by (try assumption; lia).
  rewrite Nat2Z.id. reflexivity.
Qed.

(** [pushAddress(address, offset)] at a recorded position overwrites the
    four bytes there. *)
Lemma pushAddress_at (address : Z) (o : nat) (p p' : Program.t) (u : unit) :
  (0 < o)%nat -> (o + 4 <= length (currentOps p))%nat ->
  Program.pushAddress address (Z.of_nat o) p = Ok (u, p') ->
  Program.activeSubroutines p' = Program.activeSubroutines p
  /\ currentOps p' = patched (currentOps p) o (le_bytes 4 (u32 address)).
Proof.
  intros Ho Hfit H. apply write_Ok in H as [Hs Hw]. split; [exact Hs|].
  destruct (Z.eqb_spec (Z.of_nat o) 0) as [E|_]; [lia|].
  unfold writeUint32 in Hw. rewrite write_at_patched in Hw; try assumption.
  - congruence.
  - discriminate.
Qed.

Lemma pushInt32Address_at (address : Z) (o : nat) (p p' : Program.t) (u : unit) :
  (0 < o)%nat -> (o + 4 <= length (currentOps p))%nat ->
  Program.pushInt32Address address (Z.of_nat o) p = Ok (u, p') ->
  Program.activeSubroutines p' = Program.activeSubroutines p
  /\ currentOps p' = patched (currentOps p) o (le_bytes 4 (i32 address)).
Proof.
  intros Ho Hfit H. apply write_Ok in H as [Hs Hw]. split; [exact Hs|].
  destruct (Z.eqb_spec (Z.of_nat o) 0) as [E|_]; [lia|].
  unfold writeInt32 in Hw. rewrite write_at_patched in Hw; try assumption.
  - congruence.
  - discriminate.
Qed.

(** *** Reading back what was written *)

Lemma patched_length (bin bs : list Z) (o : nat) :
  (o + length bs <= length bin)%nat -> length (patched bin o bs) = length bin.
Proof.
  intros Hfit. unfold patched. rewrite !length_app, length_take, length_drop. lia.
Qed.

Lemma patched_lookup (bin bs : list Z) (o i : nat) :
  (o + length bs <= length bin)%nat ->
  patched bin o bs !! i
  = if decide (o <= i < o + length bs)%nat then bs !! (i - o)%nat else bin !! i.
Proof.
  intros Hfit. unfold patched.
  assert (Htake : length (take o bin) = o) by (rewrite length_take; lia).
  destruct (decide (i < o)%nat) as [Hlt|Hge].
  - rewrite lookup_app_l by lia. rewrite lookup_take_lt by lia.
    case_decide; [lia|reflexivity].
  - rewrite lookup_app_r by lia. rewrite Htake.
    destruct (decide (i < o + length bs)%nat) as [Hin|Hout].
    + rewrite lookup_app_l by lia. case_decide; [reflexivity|lia].
    + rewrite lookup_app_r by lia. rewrite lookup_drop.
      case_decide; [lia|]. f_equal. lia.
Qed.

Lemma slice_lookup (bin : list Z) (o n i : nat) :
  slice bin (Z.of_nat o) n !! i = if decide (i < n)%nat then bin !! (o + i)%nat else None.
Proof. unfold slice. rewrite Nat2Z.id, lookup_take, lookup_drop. reflexivity. Qed.

(** The bytes just written are read back. *)
Lemma slice_patched_same (bin bs : list Z) (o : nat) :
  (o + length bs <= length bin)%nat ->
  slice (patched bin o bs) (Z.of_nat o) (length bs) = bs.
Proof.
  intros Hfit. apply list_eq. intros i. rewrite slice_lookup.
  case_decide as Hi.
  - rewrite patched_lookup by exact Hfit. case_decide; [f_equal; lia|lia].
  - symmetry. apply lookup_ge_None. lia.
Qed.

(** Bytes away from a write are not touched by it. *)
Lemma slice_patched_other (bin bs : list Z) (o o' n : nat) :
  (o + length bs <= length bin)%nat ->
  (o' + n <= o \/ o + length bs <= o')%nat ->
  slice (patched bin o bs) (Z.of_nat o') n = slice bin (Z.of_nat o') n.
Proof.
  intros Hfit Haway. apply list_eq. intros i. rewrite !slice_lookup.
  case_decide as Hi; [|reflexivity].
  rewrite patched_lookup by exact Hfit. case_decide; [lia|reflexivity].
Qed.

(** Nor by an append. *)
Lemma slice_app_inside (bin more : list Z) (o n : nat) :
  (o + n <= length bin)%nat ->
  slice (bin ++ more) (Z.of_nat o) n = slice bin (Z.of_nat o) n.
Proof.
  intros Hfit. apply list_eq. intros i. rewrite !slice_lookup.
  case_decide as Hi; [|reflexivity]. apply lookup_app_l. lia.
Qed.

Lemma slice_app_end (bin more : list Z) :
  slice (bin ++ more) (Z.of_nat (length bin)) (length more) = more.
Proof.
  unfold slice. rewrite Nat2Z.id, drop_app_length. apply firstn_all.
Qed.

(** Two's complement: a value in the range of [int] is read back as it was
    written. *)
Lemma i32_small (x : Z) : - 2 ^ 31 <= x < 2 ^ 31 -> i32 x = x.
Proof. intros H. unfold i32. rewrite Z.mod_small by lia. lia. Qed.

Lemma i32_u32 (x : Z) : i32 (u32 x) = i32 x.
Proof.
  unfold i32, u32. rewrite Zplus_mod_idemp_l. reflexivity.
Qed.

Lemma i32_idem (x : Z) : i32 (i32 x) = i32 x.
Proof.
  unfold i32. replace ((x + 2 ^ 31) mod 2 ^ 32 - 2 ^ 31 + 2 ^ 31) with ((x + 2 ^ 31) mod 2 ^ 32) by lia.
  rewrite Z.mod_mod by lia. reflexivity.
Qed.

(** *** Four-byte reads *)

Lemma readUint32_patched_same (bin : list Z) (o : nat) (v : Z) :
  (o + 4 <= length bin)%nat ->
  readUint32 (patched bin o (le_bytes 4 v)) (Z.of_nat o) = u32 v.
Proof.
  intros Hfit. unfold readUint32.
  pose proof (slice_patched_same bin (le_bytes 4 v) o) as Hsame.
  rewrite le_bytes_length in Hsame. rewrite Hsame by exact Hfit.
  apply (le_value_le_bytes 4).
Qed.

Lemma readUint32_patched_other (bin bs : list Z) (o o' : nat) :
  (o + length bs <= length bin)%nat ->
  (o' + 4 <= o \/ o + length bs <= o')%nat ->
  readUint32 (patched bin o bs) (Z.of_nat o') = readUint32 bin (Z.of_nat o').
Proof. intros Hfit Haway. unfold readUint32. rewrite slice_patched_other; auto. Qed.

Lemma readUint32_app_inside (bin more : list Z) (o : nat) :
  (o + 4 <= length bin)%nat ->
  readUint32 (bin ++ more) (Z.of_nat o) = readUint32 bin (Z.of_nat o).
Proof. intros Hfit. unfold readUint32. rewrite slice_app_inside; auto. Qed.

Lemma readUint32_app_end (bin : list Z) (v : Z) :
  readUint32 (bin ++ le_bytes 4 v) (Z.of_nat (length bin)) = u32 v.
Proof.
  unfold readUint32.
  pose proof (slice_app_end bin (le_bytes 4 v)) as Hend.
  rewrite le_bytes_length in Hend. rewrite Hend. apply (le_value_le_bytes 4).
Qed.

Lemma size_small {A : Type} (l : list A) :
  Z.of_nat (length l) < 2 ^ 32 -> size l = Z.of_nat (length l).
Proof. intros H. unfold size. apply u32_small. lia. Qed.

Lemma at_last {A : Type} (before : list A) (x : A) :
  at_ (before ++ [x]) (Z.of_nat (length (before ++ [x])) - 1) = Some x.
Proof.
  rewrite length_app. cbn [length].
  replace (Z.of_nat (length before + 1) - 1) with (Z.of_nat (length before)) by lia.
  rewrite at_nat. apply list_lookup_middle. reflexivity.
Qed.

Lemma bind_run {S A B : Type} (m : M S A) (k : A -> M S B) (s s1 : S) (a : A)
    (r : result (B * S)) :
  m s = Ok (a, s1) -> k a s1 = r -> bind m k s = r.
Proof. intros Hm Hk. unfold bind. rewrite Hm. exact Hk. Qed.

(** ** The stages of a conditional type *)

(** One step of a successful run, read off the current buffer. *)
Ltac run_step :=
  match goal with
  | H : Program.ip _ = Ok _ |- _ => apply ip_Ok in H; destruct H as [? ?]; subst
  | H : Program.pushOp _ _ = Ok _ |- _ => apply Appends_pushOp in H; destruct H as [? ?]
  | H : Program.popFrame _ = Ok _ |- _ => apply Appends_popFrame in H; destruct H as [? ?]
  | H : Program.pushAddress _ 0 _ = Ok _ |- _ => apply pushAddress_end in H; destruct H as [? ?]
  | H : Program.pushInt32Address _ 0 _ = Ok _ |- _ =>
      apply pushInt32Address_end in H; destruct H as [? ?]
  | H : Program.pushSection _ = Ok _ |- _ => apply Keeps_pushSection in H; destruct H as [? ?]
  | H : Program.popSection _ = Ok _ |- _ => apply Keeps_popSection in H; destruct H as [? ?]
  | H : Program.ignoreNextSectionOP _ = Ok _ |- _ =>
      apply Keeps_ignoreNextSectionOP in H; destruct H as [? ?]
  | H : Program.popFrameImplicit _ = Ok _ |- _ =>
      apply Keeps_popFrameImplicit in H; destruct H as [? ?]
  | D : Down 0 ?m, H : ?m _ = Ok _ |- _ => apply (Down_0_run m _ _ _ D) in H; destruct H as [? ?]
  end.

(** The lengths behind equations between buffers. *)
Ltac buffer_lengths :=
  repeat match goal with
    | H : currentOps ?p = _ ++ _ |- _ =>
        lazymatch goal with
        | _ : length (currentOps p) = _ |- _ => fail
        | _ => let E := fresh "Elen" in
               pose proof (f_equal length H) as E; rewrite !length_app in E;
               rewrite ?le_bytes_length in E; cbn [length] in E
        end
    | H : currentOps ?p = currentOps ?q |- _ =>
        lazymatch goal with
        | _ : length (currentOps p) = _ |- _ => fail
        | _ => pose proof (f_equal length H)
        end
    end.

(** [distributePrelude] ends with the [Distribute] opcode and the four
    bytes reserved after it; the ip it returns is where they start. *)
Lemma distributePrelude_Ok {enc : Encoding} (check : M Program.t unit) (probe : Ident)
    (p pa : Program.t) (d : Z) :
  Down 0 check ->
  Compiler.distributePrelude check probe p = Ok (d, pa) ->
  Program.activeSubroutines pa = Program.activeSubroutines p
  /\ exists before,
       currentOps pa = (before ++ [op_code OP.Distribute]) ++ le_bytes 4 (u32 0)
       /\ d = size (before ++ [op_code OP.Distribute])
       /\ (length (currentOps p) <= length before)%nat.
Proof.
  intros D H. unfold Compiler.distributePrelude in H.
  pose proof Down_blockTailCall. pose proof (Down_pushFrame true).
  pose proof (Down_pushSymbol (escapedText probe) SymbolType.TypeVariable
                (ident_pos probe) (ident_end probe)).
  inv_ok. repeat run_step.
  split; [congruence|].
  match goal with H : currentOps ?q = ?b ++ [op_code OP.Distribute] |- _ => exists b end.
  split; [congruence|]. split; [congruence|]. lia.
Qed.

(** [conditionTest] ends with the [JumpCondition] opcode; the ip it returns
    is the one right after it. *)
Lemma conditionTest_Ok {enc : Encoding} (check extends : M Program.t unit) (node : Z * Z)
    (pa pb : Program.t) (r : Z) :
  Down 0 check -> Down 0 extends ->
  Compiler.conditionTest check extends node pa = Ok (r, pb) ->
  Program.activeSubroutines pb = Program.activeSubroutines pa
  /\ r = size (currentOps pb)
  /\ exists before,
       currentOps pb = before ++ [op_code OP.JumpCondition]
       /\ (length (currentOps pa) <= length before)%nat.
Proof.
  intros D1 D2 H. unfold Compiler.conditionTest in H.
  pose proof (Down_pushFrame false). pose proof (Down_alterFrame (Frame.with_conditional true)).
  pose proof (Down_pushOpAt OP.Extends (Some node)).
  inv_ok. repeat run_step.
  split; [congruence|]. split; [reflexivity|].
  match goal with H : currentOps ?q = ?b ++ [op_code OP.JumpCondition] |- _ => exists b end.
  split; [assumption|]. lia.
Qed.

(** [trueBranch] reserves the four bytes of the false jump and ends with
    the [Jump] opcode; the ip it returns is the one right after it. *)
Lemma trueBranch_Ok {enc : Encoding} (whenTrue : M Program.t unit)
    (pb pc : Program.t) (t : Z) :
  Down 0 whenTrue ->
  Compiler.trueBranch whenTrue pb = Ok (t, pc) ->
  Program.activeSubroutines pc = Program.activeSubroutines pb
  /\ t = size (currentOps pc)
  /\ exists before,
       currentOps pc = before ++ [op_code OP.Jump]
       /\ (length (currentOps pb) + 4 <= length before)%nat.
Proof.
  intros D H. unfold Compiler.trueBranch in H.
  inv_ok. repeat run_step.
  split; [congruence|]. split; [reflexivity|].
  match goal with H : currentOps ?q = ?b ++ [op_code OP.Jump] |- _ => exists b end.
  split; [assumption|]. buffer_lengths. lia.
Qed.

(** [falseBranch] reserves the four bytes of the true jump; [falseProgram]
    is the ip after them plus one, [falseEndIp] the ip the branch ends at. *)
Lemma falseBranch_Ok (whenFalse : M Program.t unit) (pc pd : Program.t) (fp e : Z) :
  Down 0 whenFalse ->
  Compiler.falseBranch whenFalse pc = Ok ((fp, e), pd) ->
  Program.activeSubroutines pd = Program.activeSubroutines pc
  /\ fp = u32 (size (currentOps pc ++ le_bytes 4 (u32 0)) + 1)
  /\ e = size (currentOps pd)
  /\ (length (currentOps pc) + 4 <= length (currentOps pd))%nat.
Proof.
  intros D H. unfold Compiler.falseBranch in H.
  inv_ok. repeat run_step.
  match goal with H : (_, _) = (_, _) |- _ => inversion H; subst; clear H end.
  split; [congruence|]. split; [congruence|]. split; [reflexivity|].
  buffer_lengths. lia.
Qed.

(** ** The jumps of a conditional type, in the finished buffer *)

(** What [conditionalType] leaves in the current buffer, for any way of
    lowering the four member types that keeps the active stack. *)
Lemma conditionalType_patches {enc : Encoding} (distributiveOverIdentifier : option Ident)
    (check extends whenTrue whenFalse : M Program.t unit) (node : Z * Z) (p p' : Program.t) :
  Down 0 check -> Down 0 extends -> Down 0 whenTrue -> Down 0 whenFalse ->
  Compiler.conditionalType distributiveOverIdentifier check extends whenTrue whenFalse node p
  = Ok (tt, p') ->
  Z.of_nat (length (currentOps p')) < 2 ^ 31 ->
  exists (distributeJumpIp relativeTo trueJumpAddressIp falseProgram falseEndIp : Z)
         (pa pb pc pd : Program.t),
    (Program.pushSection ;;
     match distributiveOverIdentifier with
     | Some probe => Compiler.distributePrelude check probe
     | None => ret 0
     end) p = Ok (distributeJumpIp, pa)
    /\ Compiler.conditionTest check extends node pa = Ok (relativeTo, pb)
    /\ Compiler.trueBranch whenTrue pb = Ok (trueJumpAddressIp, pc)
    /\ Compiler.falseBranch whenFalse pc = Ok ((falseProgram, falseEndIp), pd)
    /\ relativeTo = Z.of_nat (length (currentOps pb))
    /\ at_ (currentOps pb) (relativeTo - 1) = Some (op_code OP.JumpCondition)
    /\ trueJumpAddressIp = Z.of_nat (length (currentOps pc))
    /\ at_ (currentOps pc) (trueJumpAddressIp - 1) = Some (op_code OP.Jump)
    /\ falseProgram = trueJumpAddressIp + 4 + 1
    /\ falseEndIp = Z.of_nat (length (currentOps pd))
    /\ readInt32 (currentOps p') relativeTo = falseProgram - relativeTo
    /\ readInt32 (currentOps p') trueJumpAddressIp = falseEndIp - trueJumpAddressIp + 1
    /\ match distributiveOverIdentifier with
       | Some _ =>
           at_ (currentOps pa) (distributeJumpIp - 1) = Some (op_code OP.Distribute)
           /\ distributeJumpIp + 4 = Z.of_nat (length (currentOps pa))
           /\ readUint32 (currentOps p') distributeJumpIp = falseEndIp - distributeJumpIp + 6
           /\ at_ (currentOps p') falseEndIp = Some (op_code OP.FrameReturnJump)
           /\ readInt32 (currentOps p') (falseEndIp + 1) = - (falseEndIp + 1 - distributeJumpIp)
       | None =>
           at_ (currentOps p') falseEndIp = Some (op_code OP.FrameEnd)
       end.
Proof.
  intros D1 D2 D3 D4 H Hbound. unfold Compiler.conditionalType in H.
  apply bind_Ok in H as ([] & p0 & Hsec & H).
  apply bind_Ok in H as (d & pa & Hpre & H).
  apply bind_Ok in H as (r & pb & Htest & H).
  apply bind_Ok in H as (t & pc & Htrue & H).
  apply bind_Ok in H as ([fp e] & pd & Hfalse & H). cbn [fst snd] in H.
  exists d, r, t, fp, e, pa, pb, pc, pd.
  split; [exact (bind_run _ _ _ _ _ _ Hsec Hpre)|].
  do 3 (split; [assumption|]).
  (* nothing after the false branch shortens the buffer *)
  assert (Hrest : Program.activeSubroutines p' = Program.activeSubroutines pd
                  /\ (length (currentOps pd) <= length (currentOps p'))%nat).
  { refine (Down_0_run _ _ _ _ _ H).
    apply (Down_bind 0 0); [apply Down_patchJumps|intros _].
    apply (Down_bind 0 0); [|intros _; apply Down_popSection].
    destruct distributiveOverIdentifier; [apply Down_distributeEnd|down]. }
  destruct Hrest as [_ Hlen_rest].
  apply conditionTest_Ok in Htest as (Hs_b & Hr & before_b & Hops_b & Hlen_b); try assumption.
  apply trueBranch_Ok in Htrue as (Hs_c & Ht & before_c & Hops_c & Hlen_c); try assumption.
  apply falseBranch_Ok in Hfalse as (Hs_d & Hfp & He & Hlen_d); try assumption.
  assert (Hlb : length (currentOps pb) = (length before_b + 1)%nat)
    by (rewrite Hops_b, length_app; reflexivity).
  assert (Hlc : length (currentOps pc) = (length before_c + 1)%nat)
    by (rewrite Hops_c, length_app; reflexivity).
  rewrite size_small in Hr by lia.
  rewrite size_small in Ht by lia.
  rewrite size_small in He by lia.
  rewrite size_small in Hfp by (rewrite length_app, le_bytes_length; lia).
  rewrite length_app, le_bytes_length in Hfp.
  rewrite u32_small in Hfp by lia.
  assert (Hfp' : fp = t + 4 + 1) by lia. clear Hfp.
  subst r t e fp.
  split; [reflexivity|].
  split; [rewrite Hops_b at 1; rewrite Hops_b; apply at_last|].
  split; [reflexivity|].
  split; [rewrite Hops_c at 1; rewrite Hops_c; apply at_last|].
  split; [reflexivity|].
  split; [reflexivity|].
  (* the two patches *)
  apply bind_Ok in H as ([] & p2 & Hpatch & H).
  unfold Compiler.patchJumps in Hpatch.
  apply bind_Ok in Hpatch as ([] & p1 & Hpatch1 & Hpatch2).
  apply pushInt32Address_at in Hpatch1 as [Hs_1 Hops_1]; [|lia|lia].
  assert (Hl1 : length (currentOps p1) = length (currentOps pd))
    by (rewrite Hops_1; apply patched_length; rewrite le_bytes_length; lia).
  apply pushInt32Address_at in Hpatch2 as [Hs_2 Hops_2]; [|lia|lia].
  assert (Hl2 : length (currentOps p2) = length (currentOps pd))
    by (rewrite Hops_2, patched_length; [exact Hl1|rewrite le_bytes_length; lia]).
  rewrite i32_u32 in Hops_1. rewrite i32_u32 in Hops_2.
  rewrite u32_small in Hops_2 by lia.
  assert (Hread1 : readInt32 (currentOps p2) (Z.of_nat (length (currentOps pb)))
                   = Z.of_nat (length (currentOps pc)) + 4 + 1
                     - Z.of_nat (length (currentOps pb))).
  { unfold readInt32. rewrite Hops_2.
    rewrite readUint32_patched_other by (rewrite ?le_bytes_length; lia).
    rewrite Hops_1, readUint32_patched_same by lia.
    rewrite i32_u32, i32_idem. apply i32_small. lia. }
  assert (Hread2 : readInt32 (currentOps p2) (Z.of_nat (length (currentOps pc)))
                   = Z.of_nat (length (currentOps pd)) - Z.of_nat (length (currentOps pc)) + 1).
  { unfold readInt32. rewrite Hops_2.
    rewrite readUint32_patched_same by lia.
    rewrite i32_u32, i32_idem. apply i32_small. lia. }
  apply bind_Ok in H as ([] & p3 & Hend & Hpop).
  apply Keeps_popSection in Hpop as [_ Hops_pop].
  rewrite Hops_pop in *. clear Hops_pop.
  destruct distributiveOverIdentifier as [probe|].
  - (* distributive *)
    apply distributePrelude_Ok in Hpre as (Hs_a & before_a & Hops_a & Hd & Hlen_a);
      [|assumption].
    assert (Hla : length (currentOps pa) = (length before_a + 1 + 4)%nat)
      by (rewrite Hops_a, !length_app, le_bytes_length; reflexivity).
    rewrite size_small in Hd by (rewrite length_app; cbn [length]; lia).
    rewrite length_app in Hd. cbn [length] in Hd. subst d.
    unfold Compiler.distributeEnd in Hend.
    apply bind_Ok in Hend as ([] & q1 & Hdist & Hend).
    apply bind_Ok in Hend as ([] & q2 & Hign & Hend).
    apply bind_Ok in Hend as ([] & q3 & Hfrj & Hend).
    apply bind_Ok in Hend as (ip & q4 & Hip & Hend).
    apply bind_Ok in Hend as ([] & q5 & Hback & Himplicit).
    apply pushAddress_at in Hdist as [_ Hops_q1]; [|lia|lia].
    assert (Hlq1 : length (currentOps q1) = length (currentOps pd))
      by (rewrite Hops_q1, patched_length; [exact Hl2|rewrite le_bytes_length; lia]).
    apply Keeps_ignoreNextSectionOP in Hign as [_ Hops_q2].
    apply Appends_pushOp in Hfrj as [_ Hops_q3].
    apply ip_Ok in Hip as [-> Hip].
    apply pushInt32Address_end in Hback as [_ Hops_q5].
    apply Keeps_popFrameImplicit in Himplicit as [_ Hops_p3].
    assert (Hlq3 : length (currentOps q3) = (length (currentOps pd) + 1)%nat)
      by (rewrite Hops_q3, length_app, Hops_q2, Hlq1; reflexivity).
    assert (Hlp3 : length (currentOps p3) = (length (currentOps pd) + 1 + 4)%nat)
      by (rewrite Hops_p3, Hops_q5, length_app, le_bytes_length, Hlq3; reflexivity).
    rewrite size_small in Hip by lia. rewrite Hlq3 in Hip. subst ip.
    rewrite (u32_small (_ - _)) in Hops_q1 by lia.
    rewrite (u32_small (_ + 6)) in Hops_q1 by lia.
    rewrite (u32_small (_ + 6)) in Hops_q1 by lia.
    rewrite (u32_small (_ - _)) in Hops_q5 by lia.
    rewrite i32_u32, i32_small in Hops_q5 by lia.
    split.
    { rewrite Hops_p3, Hops_q5. unfold readInt32.
      rewrite readUint32_app_inside by lia.
      rewrite Hops_q3, Hops_q2, readUint32_app_inside by lia.
      rewrite Hops_q1.
      rewrite readUint32_patched_other by (rewrite ?le_bytes_length; lia).
      exact Hread1. }
    split.
    { rewrite Hops_p3, Hops_q5. unfold readInt32.
      rewrite readUint32_app_inside by lia.
      rewrite Hops_q3, Hops_q2, readUint32_app_inside by lia.
      rewrite Hops_q1.
      rewrite readUint32_patched_other by (rewrite ?le_bytes_length; lia).
      exact Hread2. }
    split.
    { replace (Z.of_nat (length before_a + 1) - 1) with (Z.of_nat (length before_a)) by lia.
      rewrite at_nat, Hops_a, <- app_assoc. apply list_lookup_middle. reflexivity. }
    split; [lia|].
    split.
    { rewrite Hops_p3, Hops_q5.
      rewrite readUint32_app_inside by lia.
      rewrite Hops_q3, Hops_q2, readUint32_app_inside by lia.
      rewrite Hops_q1.
      rewrite readUint32_patched_same by lia. apply u32_small. lia. }
    split.
    { rewrite Hops_p3, Hops_q5, Hops_q3, at_nat, <- app_assoc.
      apply list_lookup_middle. rewrite Hops_q2. symmetry. exact Hlq1. }
    { rewrite Hops_p3, Hops_q5. unfold readInt32.
      replace (Z.of_nat (length (currentOps pd)) + 1)
        with (Z.of_nat (length (currentOps q3))) by lia.
      rewrite readUint32_app_end. rewrite i32_u32. rewrite i32_small by lia. lia. }
  - (* not distributive *)
    apply bind_Ok in Hend as ([] & q1 & Hign & Hframe).
    apply Keeps_ignoreNextSectionOP in Hign as [_ Hops_q1].
    apply Appends_popFrame in Hframe as [_ Hops_p3].
    split.
    { rewrite Hops_p3. unfold readInt32.
      rewrite readUint32_app_inside by (rewrite Hops_q1; lia).
      rewrite Hops_q1. exact Hread1. }
    split.
    { rewrite Hops_p3. unfold readInt32.
      rewrite readUint32_app_inside by (rewrite Hops_q1; lia).
      rewrite Hops_q1. exact Hread2. }
    rewrite Hops_p3, at_nat. apply list_lookup_middle.
    rewrite Hops_q1. symmetry. exact Hl2.
Qed.

Lemma handle_Down {enc : Encoding} (node : Node) : Down 0 (Compiler.handle node).
Proof. exact (handle_steady (nodeSize node) node (le_n _)). Qed.

(** C1: when a conditional type has been lowered and the buffer it went to
    is shorter than 2^31 bytes, the four bytes reserved after
    [JumpCondition] hold the signed offset [falseProgram - relativeTo],
    where [relativeTo] is the ip right after the [JumpCondition] opcode and
    [falseProgram] the ip after the bytes reserved for the true jump plus
    one; the four bytes reserved after [Jump] hold
    [falseEndIp - trueJumpAddressIp + 1]; and when the check type is a
    reference to a plain identifier, the four bytes reserved after
    [Distribute] hold [falseEndIp - distributeJumpIp + 6] and the buffer
    goes on at [falseEndIp] with [FrameReturnJump] and the signed offset
    [-(ip - distributeJumpIp)], [ip] being the one after that opcode.
    Otherwise the buffer goes on with [FrameEnd]. *)
Theorem conditional_type_back_patches {enc : Encoding} (pos end_ : Z)
    (checkType extendsType trueType falseType : Node) (p p' : Program.t) :
  Compiler.handle (ConditionalType pos end_ checkType extendsType trueType falseType) p
  = Ok (tt, p') ->
  Z.of_nat (length (currentOps p')) < 2 ^ 31 ->
  exists (distributeJumpIp relativeTo trueJumpAddressIp falseProgram falseEndIp : Z)
         (pa pb pc pd : Program.t),
    (Program.pushSection ;;
     match Compiler.distributiveOver checkType with
     | Some probe => Compiler.distributePrelude (Compiler.handle checkType) probe
     | None => ret 0
     end) p = Ok (distributeJumpIp, pa)
    /\ Compiler.conditionTest (Compiler.handle checkType) (Compiler.handle extendsType)
         (pos, end_) pa = Ok (relativeTo, pb)
    /\ Compiler.trueBranch (Compiler.handle trueType) pb = Ok (trueJumpAddressIp, pc)
    /\ Compiler.falseBranch (Compiler.handle falseType) pc
       = Ok ((falseProgram, falseEndIp), pd)
    /\ relativeTo = Z.of_nat (length (currentOps pb))
    /\ at_ (currentOps pb) (relativeTo - 1) = Some (op_code OP.JumpCondition)
    /\ trueJumpAddressIp = Z.of_nat (length (currentOps pc))
    /\ at_ (currentOps pc) (trueJumpAddressIp - 1) = Some (op_code OP.Jump)
    /\ falseProgram = trueJumpAddressIp + 4 + 1
    /\ falseEndIp = Z.of_nat (length (currentOps pd))
    /\ readInt32 (currentOps p') relativeTo = falseProgram - relativeTo
    /\ readInt32 (currentOps p') trueJumpAddressIp = falseEndIp - trueJumpAddressIp + 1
    /\ match Compiler.distributiveOver checkType with
       | Some _ =>
           at_ (currentOps pa) (distributeJumpIp - 1) = Some (op_code OP.Distribute)
           /\ distributeJumpIp + 4 = Z.of_nat (length (currentOps pa))
           /\ readUint32 (currentOps p') distributeJumpIp = falseEndIp - distributeJumpIp + 6
           /\ at_ (currentOps p') falseEndIp = Some (op_code OP.FrameReturnJump)
           /\ readInt32 (currentOps p') (falseEndIp + 1) = - (falseEndIp + 1 - distributeJumpIp)
       | None =>
           at_ (currentOps p') falseEndIp = Some (op_code OP.FrameEnd)
       end.
Proof.
  intros Hrun Hbound.
  change (Compiler.conditionalType (Compiler.distributiveOver checkType)
            (Compiler.handle checkType) (Compiler.handle extendsType)
            (Compiler.handle trueType) (Compiler.handle falseType) (pos, end_) p
          = Ok (tt, p')) in Hrun.
  apply conditionalType_patches; try assumption; apply handle_Down.
Qed.

Lemma conditional_type_back_patches_witness :
  exists p p',
    insideGenericAlias = Ok (tt, p)
    /\ @Compiler.handle sampleEncoding distributiveExample p = Ok (tt, p')
    /\ Z.of_nat (length (currentOps p')) < 2 ^ 31
    /\ at_ (currentOps p') 6 = Some (@op_code sampleEncoding OP.Distribute)
    /\ readUint32 (currentOps p') 7 = 31 - 7 + 6
    /\ at_ (currentOps p') 19 = Some (@op_code sampleEncoding OP.JumpCondition)
    /\ readInt32 (currentOps p') 20 = (26 + 4 + 1) - 20
    /\ at_ (currentOps p') 25 = Some (@op_code sampleEncoding OP.Jump)
    /\ readInt32 (currentOps p') 26 = 31 - 26 + 1
    /\ at_ (currentOps p') 31 = Some (@op_code sampleEncoding OP.FrameReturnJump)
    /\ readInt32 (currentOps p') 32 = - (32 - 7).
Proof.
  assert (Hstate : exists p, insideGenericAlias = Ok (tt, p))
    by (vm_compute; eexists; reflexivity).
  destruct Hstate as [p Hstate]. pose proof Hstate as Hp.
  vm_compute in Hp. inversion Hp as [Ep]; clear Hp.
  assert (Hrun : exists p', @Compiler.handle sampleEncoding distributiveExample p = Ok (tt, p'))
    by (subst p; vm_compute; eexists; reflexivity).
  destruct Hrun as [p' Hrun]. pose proof Hrun as Hp'.
  rewrite <- Ep in Hp'. vm_compute in Hp'. inversion Hp' as [Ep']; clear Hp'.
  assert (Hbound : Z.of_nat (length (currentOps p')) < 2 ^ 31)
    by (rewrite <- Ep'; vm_compute; reflexivity).
  destruct (@conditional_type_back_patches sampleEncoding 11 50 (typeRef 11 12 "T")
              (KeywordNode 21 27 StringKeyword) (KeywordNode 30 36 NumberKeyword)
              (KeywordNode 39 46 BooleanKeyword) p p' Hrun Hbound)
    as (d & r & t & fp & e & pa & pb & pc & pd & Hpre & Htest & Htrue & Hfalse
        & _ & _ & _ & _ & _ & _ & Hfalsejump & Htruejump & Hdist).
  cbn [Compiler.distributiveOver typeRef toIdentifier] in Hpre, Hdist.
  destruct Hdist as (_ & _ & Hdistribute & Hreturn & Hback).
  rewrite <- Ep in Hpre. vm_compute in Hpre. inversion Hpre as [[Ed Epa]]; clear Hpre.
  rewrite <- Epa in Htest. vm_compute in Htest. inversion Htest as [[Er Epb]]; clear Htest.
  rewrite <- Epb in Htrue. vm_compute in Htrue. inversion Htrue as [[Et Epc]]; clear Htrue.
  rewrite <- Epc in Hfalse. vm_compute in Hfalse.
  inversion Hfalse as [[Efp Ee Epd]]; clear Hfalse.
  clear Epa Epb Epc Epd. subst d r t fp e.
  exists p, p'.
  split; [exact Hstate|]. split; [exact Hrun|]. split; [exact Hbound|].
  split; [rewrite <- Ep'; reflexivity|].
  split; [exact Hdistribute|].
  split; [rewrite <- Ep'; reflexivity|].
  split; [exact Hfalsejump|].
  split; [rewrite <- Ep'; reflexivity|].
  split; [exact Htruejump|].
  split; [exact Hreturn|]. exact Hback.
Defined.

(** * Further properties of the compiler core *)

(** ** The active stack across a lowering *)

(** X1: whatever node is lowered, when [handle] returns the stack of active
    subroutines is the one it started with, the main buffer is not shorter,
    and every subroutine that existed is still at its place with a buffer
    that is not shorter. *)
Theorem handle_keeps_active_stack {enc : Encoding} (node : Node) (p p' : Program.t) :
  Compiler.handle node p = Ok (tt, p') ->
  Program.activeSubroutines p' = Program.activeSubroutines p
  /\ (length (Program.ops p) <= length (Program.ops p'))%nat
  /\ forall (i : nat) (sub : Subroutine.t),
       Program.subroutines p !! i = Some sub ->
       exists sub', Program.subroutines p' !! i = Some sub'
                    /\ (length (Subroutine.ops sub) <= length (Subroutine.ops sub'))%nat.
Proof.
  intros Hrun. destruct (handle_Down node p tt p' Hrun) as ((Hmain & Hsubs) & popped & Hlen & Hstack).
  destruct popped; [|discriminate]. cbn in Hstack.
  split; [congruence|]. split; [exact Hmain|exact Hsubs].
Qed.

Lemma handle_keeps_active_stack_witness :
  exists p p',
    insideGenericAlias = Ok (tt, p)
    /\ @Compiler.handle sampleEncoding distributiveExample p = Ok (tt, p')
    /\ Program.activeSubroutines p' = Program.activeSubroutines p
    /\ (length (Program.ops p) <= length (Program.ops p'))%nat.
Proof.
  assert (Hstate : exists p, insideGenericAlias = Ok (tt, p))
    by (vm_compute; eexists; reflexivity).
  destruct Hstate as [p Hstate]. pose proof Hstate as Hp.
  vm_compute in Hp. inversion Hp as [Ep]; clear Hp.
  assert (Hrun : exists p', @Compiler.handle sampleEncoding distributiveExample p = Ok (tt, p'))
    by (subst p; vm_compute; eexists; reflexivity).
  destruct Hrun as [p' Hrun].
  destruct (@handle_keeps_active_stack sampleEncoding distributiveExample p p' Hrun)
    as (Hstack & Hmain & _).
  exists p, p'. auto.
Defined.

(** ** Computations that touch code only *)

Lemma codeOnly_refl (p : Program.t) : codeOnly p p.
Proof. repeat split. Qed.

Lemma codeOnly_trans (p1 p2 p3 : Program.t) : codeOnly p1 p2 -> codeOnly p2 p3 -> codeOnly p1 p3.
Proof.
  intros (A1 & A2 & A3 & A4) (B1 & B2 & B3 & B4).
  split; [congruence|]. split; [congruence|]. split; congruence.
Qed.

Lemma CodeOnly_ret {A : Type} (a : A) : CodeOnly (ret a).
Proof. intros p b p' H. inv_ok. apply codeOnly_refl. Qed.

Lemma CodeOnly_bind {A B : Type} (m : M Program.t A) (k : A -> M Program.t B) :
  CodeOnly m -> (forall a, CodeOnly (k a)) -> CodeOnly (bind m k).
Proof.
  intros Hm Hk p b p' H. apply bind_Ok in H as (a & q & H1 & H2).
  eapply codeOnly_trans; [exact (Hm _ _ _ H1)|exact (Hk _ _ _ _ H2)].
Qed.

Lemma CodeOnly_when (b : bool) (m : M Program.t unit) : CodeOnly m -> CodeOnly (when b m).
Proof. intros Hm. destruct b; [exact Hm|apply CodeOnly_ret]. Qed.

Lemma CodeOnly_onActive {A : Type} (m : M Subroutine.t A) : CodeOnly (Program.onActive m).
Proof.
  intros p a p' H. apply onActive_Ok in H as (r & rest & sub & sub' & _ & _ & _ & ->).
  repeat split.
Qed.

Lemma CodeOnly_ifActive (m : M Subroutine.t unit) : CodeOnly (Program.ifActive m).
Proof.
  intros p a p' H. unfold Program.ifActive in H.
  destruct (Program.activeSubroutines p).
  - inversion H; subst. apply codeOnly_refl.
  - exact (CodeOnly_onActive m p a p' H).
Qed.

Lemma CodeOnly_pushOp {enc : Encoding} (op : OP.t) : CodeOnly (Program.pushOp op).
Proof.
  intros p a p' H. unfold Program.pushOp in H.
  destruct (Program.activeSubroutines p).
  - inversion H; subst. repeat split.
  - exact (CodeOnly_onActive _ p a p' H).
Qed.

Lemma CodeOnly_pushSourceMap (pos end_ : Z) : CodeOnly (Program.pushSourceMap pos end_).
Proof.
  intros p a p' H. unfold Program.pushSourceMap in H.
  destruct (Program.activeSubroutines p).
  - inversion H; subst. repeat split.
  - exact (CodeOnly_onActive _ p a p' H).
Qed.

Lemma CodeOnly_pushOpAt {enc : Encoding} (op : OP.t) (node : option (Z * Z)) :
  CodeOnly (Program.pushOpAt op node).
Proof.
  unfold Program.pushOpAt. apply CodeOnly_bind; [|intros _; apply CodeOnly_pushOp].
  destruct node as [[pos end_]|]; [apply CodeOnly_pushSourceMap|apply CodeOnly_ret].
Qed.

Lemma CodeOnly_getOPs : CodeOnly Program.getOPs.
Proof. intros p a p' H. apply getOPs_Ok in H as [-> _]. apply codeOnly_refl. Qed.

Lemma CodeOnly_setOPs (v : list Z) : CodeOnly (Program.setOPs v).
Proof.
  intros p a p' H. unfold Program.setOPs in H.
  destruct (Program.activeSubroutines p).
  - inversion H; subst. repeat split.
  - exact (CodeOnly_onActive _ p a p' H).
Qed.

Lemma CodeOnly_write (f : list Z -> option (list Z)) :
  CodeOnly (ops <- Program.getOPs ;; ops' <- defined (f ops) ;; Program.setOPs ops').
Proof.
  apply CodeOnly_bind; [apply CodeOnly_getOPs|intros ops].
  apply CodeOnly_bind; [|intros ops'; apply CodeOnly_setOPs].
  intros p a p' H. inv_ok. apply codeOnly_refl.
Qed.

Lemma CodeOnly_pushAddress (address offset : Z) : CodeOnly (Program.pushAddress address offset).
Proof. exact (CodeOnly_write _). Qed.

Lemma CodeOnly_pushInt32Address (address offset : Z) :
  CodeOnly (Program.pushInt32Address address offset).
Proof. exact (CodeOnly_write _). Qed.

Lemma CodeOnly_pushUint16 (v offset : Z) : CodeOnly (Program.pushUint16 v offset).
Proof. exact (CodeOnly_write _). Qed.

Lemma CodeOnly_pushSymbolAddress (symbol : Symbol.t) :
  CodeOnly (Program.pushSymbolAddress symbol).
Proof.
  unfold Program.pushSymbolAddress.
  apply CodeOnly_bind; [intros p a p' H; inv_ok; apply codeOnly_refl|intros offset].
  apply CodeOnly_bind; [apply CodeOnly_getOPs|intros ops].
  apply CodeOnly_bind; [intros p a p' H; inv_ok; apply codeOnly_refl|intros ops1].
  apply CodeOnly_bind; [intros p a p' H; inv_ok; apply codeOnly_refl|intros ops2].
  apply CodeOnly_setOPs.
Qed.

Lemma CodeOnly_pushError {enc : Encoding} (code : ErrorCode.t) (pos end_ : Z) :
  CodeOnly (Program.pushError code pos end_).
Proof.
  intros p a p' H. unfold Program.pushError in H. inv_ok. repeat split.
Qed.

Lemma CodeOnly_ip : CodeOnly Program.ip.
Proof. intros p a p' H. apply ip_Ok in H as [-> _]. apply codeOnly_refl. Qed.

(** ** The symbol table *)

Lemma find_app {A : Type} (f : A -> bool) (l1 l2 : list A) :
  List.find f (l1 ++ l2)
  = match List.find f l1 with Some x => Some x | None => List.find f l2 end.
Proof.
  induction l1 as [|x l1 IH]; [reflexivity|]. cbn [app List.find].
  destruct (f x); [reflexivity|exact IH].
Qed.

Lemma alter_middle {A : Type} (g : A -> A) (l : list A) (i : nat) (v : A) :
  l !! i = Some v -> alter g i l = take i l ++ g v :: drop (S i) l.
Proof.
  revert i. induction l as [|x l IH]; intros [|i] H; try discriminate.
  - inversion H; subst. reflexivity.
  - cbn. f_equal. apply IH. exact H.
Qed.

Lemma findPos_Some {A : Type} (f : A -> bool) (l : list A) (i : nat) :
  Program.findPos f l = Some i ->
  exists v, l !! i = Some v /\ f v = true
            /\ forall j w, (j < i)%nat -> l !! j = Some w -> f w = false.
Proof.
  revert i. induction l as [|x l IH]; intros i H; [discriminate|].
  cbn [Program.findPos] in H. destruct (f x) eqn:Hx.
  - inversion H; subst. exists x. split; [reflexivity|]. split; [exact Hx|]. intros j w Hj. lia.
  - destruct (Program.findPos f l) as [k|] eqn:Hk; [|discriminate].
    inversion H; subst. destruct (IH k eq_refl) as (v & Hv & Hfv & Hbefore).
    exists v. split; [exact Hv|]. split; [exact Hfv|].
    intros [|j] w Hj Hw.
    + inversion Hw; subst. exact Hx.
    + apply (Hbefore j w); [lia|exact Hw].
Qed.

Lemma findPos_None {A : Type} (f : A -> bool) (l : list A) :
  Program.findPos f l = None <-> forall x, In x l -> f x = false.
Proof.
  induction l as [|x l IH]; cbn [Program.findPos].
  - split; [intros _ y []|reflexivity].
  - destruct (f x) eqn:Hx.
    + split; [discriminate|]. intros H. rewrite (H x) in Hx by (left; reflexivity). discriminate.
    + destruct (Program.findPos f l) as [k|] eqn:Hk.
      * split; [discriminate|]. intros H. exfalso.
        assert (Hc : Some k = None) by (apply IH; intros y Hy; apply H; right; exact Hy).
        discriminate Hc.
      * split; [|reflexivity]. intros _ y [<-|Hy]; [exact Hx|].
        apply (proj1 IH eq_refl). exact Hy.
Qed.

Lemma pushFrame_Ok {enc : Encoding} (implicit : bool) (p p' : Program.t) (u : unit) :
  Program.pushFrame implicit p = Ok (u, p') ->
  Program.frame p'
  = Frame.with_id (u32 (Frame.id (Program.frame p) + 1)) (Frame.new (Program.frame p))
  /\ Program.storage p' = Program.storage p
  /\ Program.storageIndex p' = Program.storageIndex p
  /\ Program.activeSubroutines p' = Program.activeSubroutines p.
Proof.
  unfold Program.pushFrame. intros H. apply bind_Ok in H as ([] & q & Hop & Hmod).
  apply (CodeOnly_when _ _ (CodeOnly_pushOp OP.Frame)) in Hop as (S1 & S2 & S3 & S4).
  inv_ok. cbn. rewrite S1, S2, S3, S4. auto.
Qed.

Lemma findSymbol_pushFrame {enc : Encoding} (implicit : bool) (p p' : Program.t) (u : unit)
    (name : string) :
  Program.pushFrame implicit p = Ok (u, p') ->
  Program.findSymbol name p' = Program.findSymbol name p.
Proof.
  intros H. apply pushFrame_Ok in H as (Hf & _). unfold Program.findSymbol. rewrite Hf.
  reflexivity.
Qed.

(** The two ways [pushSymbol] goes. *)
Lemma pushSymbol_run (name : string) (type : SymbolType.t) (pos end_ : Z) (p : Program.t) :
  let symbols := Frame.symbols (Program.frame p) in
  (exists i v,
      type <> SymbolType.TypeVariable
      /\ symbols !! i = Some v /\ Symbol.name v = name
      /\ (forall j w, (j < i)%nat -> symbols !! j = Some w -> Symbol.name w <> name)
      /\ Program.pushSymbol name type pos end_ p
         = Ok (i, Program.with_frame
                    (Frame.with_symbols
                       (alter (fun v => Symbol.with_declarations
                                          (u32 (Symbol.declarations v + 1)) v) i symbols)
                       (Program.frame p)) p))
  \/ ((type = SymbolType.TypeVariable
       \/ forall v, In v symbols -> Symbol.name v <> name)
      /\ Program.pushSymbol name type pos end_ p
         = Ok (length symbols,
               Program.with_frame
                 (Frame.with_symbols
                    (symbols ++ [Symbol.mk name type (size symbols) (u32 pos) (u32 end_) 1 None
                                   (Frame.id (Program.frame p))])
                    (Program.frame p)) p)).
Proof.
  intros symbols. unfold Program.pushSymbol. cbn [bind gets].
  fold symbols.
  destruct (SymbolType.eqb type SymbolType.TypeVariable) eqn:Htype.
  - right. split; [|reflexivity]. left.
    unfold SymbolType.eqb in Htype. destruct (SymbolType.eq_dec _ _); [assumption|discriminate].
  - destruct (Program.findPos (fun v => String.eqb (Symbol.name v) name) symbols) as [i|] eqn:Hpos.
    + left. apply findPos_Some in Hpos as (v & Hv & Hname & Hbefore).
      exists i, v. apply String.eqb_eq in Hname.
      split.
      { intros ->. unfold SymbolType.eqb in Htype.
        destruct (SymbolType.eq_dec _ _); [discriminate|contradiction]. }
      split; [exact Hv|]. split; [exact Hname|]. split; [|reflexivity].
      intros j w Hj Hw Hnm. specialize (Hbefore j w Hj Hw). apply String.eqb_neq in Hbefore.
      contradiction.
    + right. split; [|reflexivity]. right. intros v Hv Hnm.
      pose proof (proj1 (findPos_None _ _) Hpos v Hv) as Hf. apply String.eqb_neq in Hf.
      contradiction.
Qed.

(** X2: a name that has just been declared resolves, and to a symbol of
    the current frame; when the name was new to the frame, or the symbol is
    a type variable, it resolves to the very symbol [pushSymbol] created,
    which is appended to the frame with the next index, one declaration
    and no routine. *)
Theorem pushSymbol_then_findSymbol (name : string) (type : SymbolType.t) (pos end_ : Z)
    (p : Program.t) :
  exists (i : nat) (p' : Program.t) (s : Symbol.t),
    Program.pushSymbol name type pos end_ p = Ok (i, p')
    /\ Frame.symbols (Program.frame p') !! i = Some s
    /\ Symbol.name s = name
    /\ (exists found,
          Program.findSymbol name p' = Some found
          /\ Symbol.name found = name
          /\ In found (Frame.symbols (Program.frame p')))
    /\ ((type = SymbolType.TypeVariable
         \/ forall v, In v (Frame.symbols (Program.frame p)) -> Symbol.name v <> name) ->
        Program.findSymbol name p' = Some s
        /\ i = length (Frame.symbols (Program.frame p))
        /\ s = Symbol.mk name type (size (Frame.symbols (Program.frame p))) (u32 pos) (u32 end_)
                 1 None (Frame.id (Program.frame p))
        /\ Frame.symbols (Program.frame p')
           = Frame.symbols (Program.frame p) ++ [s]).
Proof.
  assert (Hfound : forall symbols s,
             In s symbols -> Symbol.name s = name ->
             exists found,
               List.find (fun s => String.eqb (Symbol.name s) name) (rev symbols) = Some found
               /\ Symbol.name found = name /\ In found symbols).
  { intros symbols s Hin Hname.
    destruct (List.find (fun s => String.eqb (Symbol.name s) name) (rev symbols)) as [found|] eqn:E.
    - apply find_some in E as [Hin' Hf]. apply String.eqb_eq in Hf.
      exists found. split; [reflexivity|]. split; [exact Hf|]. apply in_rev. exact Hin'.
    - pose proof (find_none _ _ E s) as Hnone. cbv beta in Hnone.
      rewrite Hname, String.eqb_refl in Hnone. apply in_rev in Hin.
      specialize (Hnone Hin). discriminate. }
  pose proof (pushSymbol_run name type pos end_ p) as Hrun. cbv zeta in Hrun.
  unfold Program.findSymbol.
  destruct (Program.frame p) as [c prev id symbols] eqn:Hframe.
  cbn [Frame.symbols Frame.id Frame.with_symbols Frame.conditional Frame.previous] in Hrun |- *.
  destruct Hrun as [(i & v & Htype & Hv & Hname & Hfirst & Hrun) | (Hnew & Hrun)].
  - set (g := fun v => Symbol.with_declarations (u32 (Symbol.declarations v + 1)) v) in *.
    exists i, (Program.with_frame (Frame.mk c prev id (alter g i symbols)) p), (g v).
    cbn [Program.frame Program.with_frame Frame.symbols].
    split; [exact Hrun|].
    assert (Hat : alter g i symbols !! i = Some (g v))
      by (rewrite list_lookup_alter_eq, Hv; reflexivity).
    split; [exact Hat|]. split; [exact Hname|].
    split.
    + cbn [Program.findSymbolFrom].
      destruct (Hfound (alter g i symbols) (g v)) as (found & Hf & Hfn & Hfin).
      * apply list_elem_of_In. eapply list_elem_of_lookup_2. exact Hat.
      * exact Hname.
      * exists found. rewrite Hf. auto.
    + intros [Hvar | Hfresh]; [contradiction|].
      exfalso. apply (Hfresh v); [|exact Hname].
      apply list_elem_of_In. eapply list_elem_of_lookup_2. exact Hv.
  - set (s := Symbol.mk name type (size symbols) (u32 pos) (u32 end_) 1 None id) in *.
    exists (length symbols), (Program.with_frame (Frame.mk c prev id (symbols ++ [s])) p), s.
    cbn [Program.frame Program.with_frame Frame.symbols].
    split; [exact Hrun|].
    assert (Hfind : Program.findSymbolFrom (Frame.mk c prev id (symbols ++ [s])) name = Some s).
    { cbn [Program.findSymbolFrom]. rewrite rev_app_distr. cbn [rev app List.find].
      unfold s at 1. cbn [Symbol.name]. rewrite String.eqb_refl. reflexivity. }
    split; [apply list_lookup_middle; reflexivity|]. split; [reflexivity|].
    split.
    + exists s. split; [exact Hfind|]. split; [reflexivity|].
      apply in_or_app. right. left. reflexivity.
    + intros _. split; [exact Hfind|]. auto.
Qed.

Lemma find_rev_alter {A : Type} (f : A -> bool) (g : A -> A) (l : list A) (i : nat) (v : A) :
  l !! i = Some v -> f v = false -> f (g v) = false ->
  List.find f (rev (alter g i l)) = List.find f (rev l).
Proof.
  intros Hv Hf Hg. rewrite (alter_middle g l i v Hv).
  replace (rev l) with (rev (take i l ++ v :: drop (S i) l))
    by (rewrite (take_drop_middle l i v Hv); reflexivity).
  rewrite !rev_app_distr. cbn [rev]. rewrite <- !app_assoc, !find_app. cbn [List.find].
  rewrite Hf, Hg. reflexivity.
Qed.

(** What [pushSymbol] leaves alone: everything but the symbols of the
    current frame. *)
Lemma symbolsOnly_refl (p : Program.t) : symbolsOnly p p.
Proof. unfold symbolsOnly. destruct p as [? ? ? ? [? ? ? ?] ? ?]. reflexivity. Qed.

Lemma symbolsOnly_trans (p1 p2 p3 : Program.t) :
  symbolsOnly p1 p2 -> symbolsOnly p2 p3 -> symbolsOnly p1 p3.
Proof.
  unfold symbolsOnly. intros H1 H2.
  destruct p1 as [? ? ? ? [? ? ? ?] ? ?]. destruct p2 as [? ? ? ? [? ? ? ?] ? ?].
  destruct p3 as [? ? ? ? [? ? ? ?] ? ?]. cbn in *.
  inversion H1; subst. inversion H2; subst. reflexivity.
Qed.

Lemma pushSymbol_frame (name : string) (type : SymbolType.t) (pos end_ : Z)
    (p p' : Program.t) (i : nat) :
  Program.pushSymbol name type pos end_ p = Ok (i, p') -> symbolsOnly p p'.
Proof.
  intros H. unfold symbolsOnly.
  destruct (pushSymbol_run name type pos end_ p) as
    [(j & v & _ & _ & _ & _ & Hrun) | (_ & Hrun)];
    rewrite Hrun in H; inversion H; subst; destruct p as [? ? ? ? [? ? ? ?] ? ?]; reflexivity.
Qed.

(** X3: declaring a name changes nothing for any other name: every other
    name resolves exactly as before, and of the whole program only the
    symbol list of the current frame differs. *)
Theorem pushSymbol_other_names (name other : string) (type : SymbolType.t) (pos end_ : Z)
    (p p' : Program.t) (i : nat) :
  other <> name ->
  Program.pushSymbol name type pos end_ p = Ok (i, p') ->
  Program.findSymbol other p' = Program.findSymbol other p
  /\ p' = Program.with_frame
            (Frame.with_symbols (Frame.symbols (Program.frame p')) (Program.frame p)) p.
Proof.
  intros Hother H. split; [|exact (pushSymbol_frame _ _ _ _ _ _ _ H)].
  pose proof (pushSymbol_run name type pos end_ p) as Hrun. cbv zeta in Hrun.
  unfold Program.findSymbol.
  destruct (Program.frame p) as [c prev id symbols] eqn:Hframe.
  cbn [Frame.symbols Frame.id Frame.with_symbols Frame.conditional Frame.previous] in Hrun.
  assert (Hneq : forall s, Symbol.name s = name -> String.eqb (Symbol.name s) other = false)
    by (intros s Hs; apply String.eqb_neq; congruence).
  destruct Hrun as [(j & v & _ & Hv & Hname & _ & Hrun) | (_ & Hrun)];
    rewrite Hrun in H; inversion H; subst i p'; clear H;
    cbn [Program.frame Program.with_frame Frame.with_symbols Frame.conditional Frame.previous
         Frame.id Frame.symbols Program.findSymbolFrom].
  - rewrite (find_rev_alter _ _ symbols j v Hv); [reflexivity| |]; apply Hneq; assumption.
  - rewrite rev_app_distr. cbn [rev app List.find Symbol.name].
    rewrite (proj2 (String.eqb_neq name other)) by congruence. reflexivity.
Qed.

Lemma pushSymbol_other_names_witness :
  exists p p' i,
    "B"%string <> "A"%string
    /\ Program.pushSymbol "A" SymbolType.Type_ 0 10 p = Ok (i, p')
    /\ Program.findSymbol "B" p = None
    /\ Program.findSymbol "B" p' = Program.findSymbol "B" p.
Proof.
  exists Program.new. eexists. exists 0%nat.
  assert (Hne : "B"%string <> "A"%string) by discriminate.
  assert (Hrun : Program.pushSymbol "A" SymbolType.Type_ 0 10 Program.new
                 = Ok (0%nat, Program.with_frame
                                (Frame.with_symbols
                                   [Symbol.mk "A" SymbolType.Type_ 0 0 10 1 None 0] Frame.root)
                                Program.new)) by reflexivity.
  split; [exact Hne|]. split; [exact Hrun|]. split; [reflexivity|].
  exact (proj1 (pushSymbol_other_names "A" "B" SymbolType.Type_ 0 10 _ _ _ Hne Hrun)).
Defined.

(** ** Scopes *)

Lemma declare_frame (d : string * SymbolType.t * (Z * Z)) (p p' : Program.t) (u : unit) :
  declare d p = Ok (u, p') -> symbolsOnly p p'.
Proof.
  unfold declare. intros H. apply bind_Ok in H as (i & q & Hpush & Hret).
  apply ret_Ok in Hret as [_ Hq]. subst q. exact (pushSymbol_frame _ _ _ _ _ _ _ Hpush).
Qed.

Lemma declarations_frame (decls : list (string * SymbolType.t * (Z * Z)))
    (p p' : Program.t) (u : unit) :
  forM_ declare decls p = Ok (u, p') -> symbolsOnly p p'.
Proof.
  revert p. induction decls as [|d rest IH]; intros p H; cbn [forM_] in H.
  - apply ret_Ok in H as [_ Hp]. subst p'. apply symbolsOnly_refl.
  - apply bind_Ok in H as ([] & q & Hd & Hrest).
    eapply symbolsOnly_trans; [exact (declare_frame _ _ _ _ Hd)|exact (IH _ Hrest)].
Qed.

(** X4: a scope closes without trace.  Pushing a frame leaves every name
    resolving as before; and after any declarations made in the new frame,
    [popFrameImplicit] puts the frame back exactly as it was when the scope
    was opened, so that every name resolves as before again and none of the
    names declared inside is left. *)
Theorem scope_closes_without_trace {enc : Encoding} (implicit : bool)
    (decls : list (string * SymbolType.t * (Z * Z))) (p p' : Program.t) :
  (Program.pushFrame implicit ;; forM_ declare decls ;; Program.popFrameImplicit) p
  = Ok (tt, p') ->
  Program.frame p' = Program.frame p
  /\ (forall name, Program.findSymbol name p' = Program.findSymbol name p)
  /\ forall q, Program.pushFrame implicit p = Ok (tt, q) ->
               forall name, Program.findSymbol name q = Program.findSymbol name p.
Proof.
  intros H.
  assert (Hframe : Program.frame p' = Program.frame p).
  { apply bind_Ok in H as ([] & q & Hpush & H).
    apply bind_Ok in H as ([] & q' & Hdecls & Hpop).
    apply pushFrame_Ok in Hpush as (Hf & _).
    apply declarations_frame in Hdecls. unfold symbolsOnly in Hdecls.
    unfold Program.popFrameImplicit in Hpop. inv_ok.
    rewrite Hdecls. cbn [Program.frame Program.with_frame Frame.previous Frame.with_symbols].
    rewrite Hf. reflexivity. }
  split; [exact Hframe|]. split.
  - intros name. unfold Program.findSymbol. rewrite Hframe. reflexivity.
  - intros q Hq name. exact (findSymbol_pushFrame _ _ _ _ _ Hq).
Qed.

Lemma scope_closes_without_trace_witness :
  exists p p',
    Program.pushSymbol "A" SymbolType.Type_ 0 10 Program.new = Ok (0%nat, p)
    /\ (@Program.pushFrame sampleEncoding true ;;
        forM_ declare [("A"%string, SymbolType.TypeVariable, (12, 13));
                       ("B"%string, SymbolType.TypeArgument, (14, 15))] ;;
        Program.popFrameImplicit) p = Ok (tt, p')
    /\ Program.frame p' = Program.frame p
    /\ Program.findSymbol "B" p' = None.
Proof.
  assert (Hstate : exists p, Program.pushSymbol "A" SymbolType.Type_ 0 10 Program.new
                             = Ok (0%nat, p)) by (vm_compute; eexists; reflexivity).
  destruct Hstate as [p Hstate]. pose proof Hstate as Hp.
  vm_compute in Hp. inversion Hp as [Ep]; clear Hp.
  assert (Hrun : exists p',
             (@Program.pushFrame sampleEncoding true ;;
              forM_ declare [("A"%string, SymbolType.TypeVariable, (12, 13));
                             ("B"%string, SymbolType.TypeArgument, (14, 15))] ;;
              Program.popFrameImplicit) p = Ok (tt, p'))
    by (subst p; vm_compute; eexists; reflexivity).
  destruct Hrun as [p' Hrun].
  destruct (scope_closes_without_trace _ _ _ _ Hrun) as (Hframe & Hnames & _).
  exists p, p'. split; [exact Hstate|]. split; [exact Hrun|]. split; [exact Hframe|].
  rewrite Hnames. subst p. reflexivity.
Defined.

(** ** The image, byte for byte *)

Lemma entryBytes_length (offset : Z) (entry : SourceMapEntry.t) :
  length (entryBytes offset entry) = 12%nat.
Proof. unfold entryBytes. rewrite !length_app, !le_bytes_length. reflexivity. Qed.

Lemma concat_entryBytes_length (offset : Z) (entries : list SourceMapEntry.t) :
  length (concat (map (entryBytes offset) entries)) = (12 * length entries)%nat.
Proof.
  induction entries as [|entry rest IH]; [reflexivity|].
  cbn [map concat length]. rewrite length_app, entryBytes_length, IH. lia.
Qed.

Lemma writeSourceMapEntry_exact (offset : Z) (entry : SourceMapEntry.t) (bin : list Z) :
  Program.writeSourceMapEntry offset bin entry = Some (bin ++ entryBytes offset entry).
Proof.
  unfold Program.writeSourceMapEntry, entryBytes. rewrite appendUint32_run. cbn [mbind option_bind].
  rewrite appendUint32_run. cbn [mbind option_bind]. rewrite appendUint32_run.
  rewrite <- !app_assoc. reflexivity.
Qed.

Lemma writeSourceMapEntries_exact (offset : Z) (entries : list SourceMapEntry.t) (bin : list Z) :
  Program.foldM (Program.writeSourceMapEntry offset) bin entries
  = Some (bin ++ concat (map (entryBytes offset) entries)).
Proof.
  revert bin. induction entries as [|entry rest IH]; intros bin.
  - cbn. rewrite app_nil_r. reflexivity.
  - cbn [Program.foldM]. rewrite writeSourceMapEntry_exact. cbn [mbind option_bind].
    rewrite IH. cbn [map concat]. rewrite <- app_assoc. reflexivity.
Qed.

Lemma writeRoutineSourceMaps_exact (routines : list Subroutine.t) (bin : list Z) (offset : Z) :
  Program.foldM Program.writeRoutineSourceMap (bin, offset) routines
  = Some (bin ++ routineMapBytes offset routines, addressAfter offset routines).
Proof.
  revert bin offset. induction routines as [|routine rest IH]; intros bin offset.
  - cbn. rewrite app_nil_r. reflexivity.
  - cbn [Program.foldM].
    assert (E : Program.writeRoutineSourceMap (bin, offset) routine
                = Program.foldM (Program.writeSourceMapEntry offset) bin (Subroutine.sourceMap routine)
                  ≫= fun b => Some (b, u32 (offset + Z.of_nat (length (Subroutine.ops routine)))))
      by reflexivity.
    rewrite E; clear E. rewrite writeSourceMapEntries_exact. cbn [mbind option_bind].
    rewrite IH. cbn [routineMapBytes addressAfter fold_left]. rewrite <- app_assoc. reflexivity.
Qed.

Lemma writeRoutineHeaders_exact {enc : Encoding} (routines : list Subroutine.t) (bin : list Z)
    (address : Z) :
  Program.foldM Program.writeRoutineHeader (bin, address) routines
  = Some (bin ++ headerBytes address routines, addressAfter address routines).
Proof.
  revert bin address. induction routines as [|routine rest IH]; intros bin address.
  - cbn. rewrite app_nil_r. reflexivity.
  - cbn [Program.foldM].
    assert (E : Program.writeRoutineHeader (bin, address) routine
                = Some (bin ++ headerOf address routine,
                        u32 (address + Z.of_nat (length (Subroutine.ops routine))))).
    { unfold Program.writeRoutineHeader, headerOf. cbn [fst snd]. rewrite appendUint32_run.
      cbn [mbind option_bind]. rewrite appendUint32_run. cbn [mbind option_bind].
      rewrite <- !app_assoc. reflexivity. }
    rewrite E. cbn [mbind option_bind]. rewrite IH.
    cbn [headerBytes addressAfter fold_left]. rewrite <- app_assoc. reflexivity.
Qed.

(** The image [build] returns, whatever the program. *)
Lemma build_exact {enc : Encoding} (p : Program.t) :
  let address := u32 (Program.storageEnd (Program.storage p) + (1 + 4 + Program.sourceMapSize p)) in
  let code := u32 (u32 (address + (1 + 4))
                   + Z.of_nat (length (Program.subroutines p)) * (1 + 4 + 4 + 1)) in
  let code' := u32 (u32 (address + Z.of_nat (length (Program.subroutines p)) * (1 + 4 + 4 + 1))
                    + (1 + 4)) in
  Program.build p
  = Some (([op_code OP.Jump] ++ le_bytes 4 (Program.storageEnd (Program.storage p))
           ++ storageBlock (Program.storage p))
          ++ ([op_code OP.SourceMap] ++ le_bytes 4 (Program.sourceMapSize p)
              ++ routineMapBytes code' (Program.subroutines p)
              ++ concat (map (entryBytes (addressAfter code' (Program.subroutines p)))
                           (Program.sourceMap p)))
          ++ headerBytes code (Program.subroutines p)
          ++ ([op_code OP.Main] ++ le_bytes 4 (addressAfter code (Program.subroutines p)))
          ++ concat (map Subroutine.ops (Program.subroutines p))
          ++ Program.ops p ++ [op_code OP.Halt]).
Proof.
  intros address code code'. subst address code code'.
  unfold Program.build. rewrite appendUint32_run. cbn [mbind option_bind].
  rewrite patch_leading_jump.
  cbn [mbind option_bind]. rewrite writeStorage_run. cbn [mbind option_bind].
  rewrite appendUint32_run. cbn [mbind option_bind].
  rewrite writeRoutineSourceMaps_exact. cbn [mbind option_bind fst snd].
  rewrite writeSourceMapEntries_exact. cbn [mbind option_bind].
  rewrite writeRoutineHeaders_exact. cbn [mbind option_bind fst snd].
  rewrite appendUint32_run. cbn [mbind option_bind].
  rewrite appendRoutines_run. f_equal. rewrite <- !app_assoc. reflexivity.
Qed.

Lemma addressAfter_exact (address : Z) (routines : list Subroutine.t) :
  0 <= address ->
  address + Z.of_nat (length (concat (map Subroutine.ops routines))) < 2 ^ 32 ->
  addressAfter address routines
  = address + Z.of_nat (length (concat (map Subroutine.ops routines))).
Proof.
  unfold addressAfter. revert address.
  induction routines as [|routine rest IH]; intros address H0 Hfit.
  - cbn. lia.
  - cbn [fold_left map concat] in *. rewrite length_app in Hfit.
    rewrite u32_small by lia. rewrite IH by lia. rewrite length_app. lia.
Qed.

Lemma addressAfter_app (address : Z) (l1 l2 : list Subroutine.t) :
  addressAfter address (l1 ++ l2) = addressAfter (addressAfter address l1) l2.
Proof. unfold addressAfter. apply fold_left_app. Qed.

Lemma sourceMapSize_fold (routines : list Subroutine.t) (n : Z) :
  0 <= n ->
  n + 12 * Z.of_nat (list_sum (map (fun r => length (Subroutine.sourceMap r)) routines)) < 2 ^ 32 ->
  fold_left (fun n routine => u32 (n + Z.of_nat (length (Subroutine.sourceMap routine)) * (4 * 3)))
            routines n
  = n + 12 * Z.of_nat (list_sum (map (fun r => length (Subroutine.sourceMap r)) routines)).
Proof.
  revert n. induction routines as [|routine rest IH]; intros n H0 Hfit.
  - cbn. lia.
  - cbn [fold_left map] in *. unfold list_sum in *. cbn [fold_right] in *.
    rewrite u32_small by lia. rewrite IH by lia. lia.
Qed.

Lemma sourceMapSize_exact (p : Program.t) :
  12 * Z.of_nat (sourceMapEntryCount p) < 2 ^ 32 ->
  Program.sourceMapSize p = 12 * Z.of_nat (sourceMapEntryCount p).
Proof.
  unfold Program.sourceMapSize, sourceMapEntryCount. intros Hfit.
  rewrite sourceMapSize_fold by lia. rewrite u32_small by lia. lia.
Qed.

Lemma routineMapBytes_length (offset : Z) (routines : list Subroutine.t) :
  length (routineMapBytes offset routines)
  = (12 * list_sum (map (fun r => length (Subroutine.sourceMap r)) routines))%nat.
Proof.
  revert offset. induction routines as [|routine rest IH]; intros offset; [reflexivity|].
  cbn [routineMapBytes map]. unfold list_sum in *. cbn [fold_right].
  rewrite length_app, concat_entryBytes_length, IH. lia.
Qed.

Lemma headerOf_length {enc : Encoding} (address : Z) (routine : Subroutine.t) :
  length (headerOf address routine) = 10%nat.
Proof. unfold headerOf. rewrite !length_app, !le_bytes_length. reflexivity. Qed.

Lemma headerBytes_length {enc : Encoding} (address : Z) (routines : list Subroutine.t) :
  length (headerBytes address routines) = (10 * length routines)%nat.
Proof.
  revert address. induction routines as [|routine rest IH]; intros address; [reflexivity|].
  cbn [headerBytes length]. rewrite length_app, headerOf_length, IH. lia.
Qed.

(** The meta-data of the [i]-th subroutine inside the block. *)
Lemma headerBytes_split {enc : Encoding} (address : Z) (routines : list Subroutine.t) (i : nat)
    (routine : Subroutine.t) :
  routines !! i = Some routine ->
  headerBytes address routines
  = headerBytes address (take i routines)
    ++ headerOf (addressAfter address (take i routines)) routine
    ++ headerBytes (addressAfter address (take (S i) routines)) (drop (S i) routines).
Proof.
  revert address i. induction routines as [|r rest IH]; intros address i H; [discriminate|].
  destruct i as [|i].
  - inversion H; subst. reflexivity.
  - cbn [headerBytes take drop]. rewrite (IH _ i H).
    cbn [addressAfter fold_left]. rewrite <- app_assoc. reflexivity.
Qed.

Lemma routineMapBytes_split (offset : Z) (routines : list Subroutine.t) (i : nat)
    (routine : Subroutine.t) :
  routines !! i = Some routine ->
  routineMapBytes offset routines
  = routineMapBytes offset (take i routines)
    ++ concat (map (entryBytes (addressAfter offset (take i routines)))
                 (Subroutine.sourceMap routine))
    ++ routineMapBytes (addressAfter offset (take (S i) routines)) (drop (S i) routines).
Proof.
  revert offset i. induction routines as [|r rest IH]; intros offset i H; [discriminate|].
  destruct i as [|i].
  - inversion H; subst. reflexivity.
  - cbn [routineMapBytes take drop]. rewrite (IH _ i H).
    cbn [addressAfter fold_left]. rewrite <- app_assoc. reflexivity.
Qed.

Lemma code_split (routines : list Subroutine.t) (i : nat) (routine : Subroutine.t) :
  routines !! i = Some routine ->
  concat (map Subroutine.ops routines)
  = concat (map Subroutine.ops (take i routines))
    ++ Subroutine.ops routine
    ++ concat (map Subroutine.ops (drop (S i) routines)).
Proof.
  intros H. rewrite <- (take_drop_middle routines i routine H) at 1.
  rewrite map_app, concat_app. reflexivity.
Qed.

Lemma code_take_le (routines : list Subroutine.t) (i : nat) :
  (length (concat (map Subroutine.ops (take i routines)))
   <= length (concat (map Subroutine.ops routines)))%nat.
Proof.
  rewrite <- (take_drop i routines) at 2. rewrite map_app, concat_app, length_app. lia.
Qed.

(** *** Reading a block out of a list *)

Lemma slice_block (pre mid post : list Z) (off : Z) :
  Z.of_nat (length pre) = off ->
  slice (pre ++ mid ++ post) off (length mid) = mid.
Proof.
  intros <-. unfold slice. rewrite Nat2Z.id, drop_app_length. apply take_app_length.
Qed.

Lemma readUint32_block (pre post : list Z) (v off : Z) :
  Z.of_nat (length pre) = off ->
  readUint32 (pre ++ le_bytes 4 v ++ post) off = u32 v.
Proof.
  intros Hoff. unfold readUint32.
  pose proof (slice_block pre (le_bytes 4 v) post off Hoff) as Hblock.
  rewrite le_bytes_length in Hblock. rewrite Hblock. apply (le_value_le_bytes 4).
Qed.

Lemma at_block {A : Type} (pre post : list A) (x : A) (off : Z) :
  Z.of_nat (length pre) = off -> at_ (pre ++ x :: post) off = Some x.
Proof. intros <-. rewrite at_nat. apply list_lookup_middle. reflexivity. Qed.

(** The image under the assumption that it is shorter than 2^32 bytes, so
    that no address wraps around: its six blocks. *)
Lemma build_blocks {enc : Encoding} (p : Program.t) :
  imageSize p < 2 ^ 32 ->
  exists B1 B2 B3 B5,
    Program.build p
    = Some (B1 ++ B2 ++ B3 ++ ([op_code OP.Main] ++ le_bytes 4 (mainStart p))
            ++ B5 ++ Program.ops p ++ [op_code OP.Halt])
    /\ B1 = [op_code OP.Jump] ++ le_bytes 4 (storageBlockEnd (Program.storage p))
            ++ storageBlock (Program.storage p)
    /\ B2 = [op_code OP.SourceMap] ++ le_bytes 4 (12 * Z.of_nat (sourceMapEntryCount p))
            ++ routineMapBytes (codeStart p) (Program.subroutines p)
            ++ concat (map (entryBytes (mainStart p)) (Program.sourceMap p))
    /\ B3 = headerBytes (codeStart p) (Program.subroutines p)
    /\ B5 = concat (map Subroutine.ops (Program.subroutines p))
    /\ Z.of_nat (length B1) = storageBlockEnd (Program.storage p)
    /\ Z.of_nat (length (B1 ++ B2)) = headersStart p
    /\ Z.of_nat (length (B1 ++ B2 ++ B3)) = codeStart p - 5
    /\ (forall i, addressAfter (codeStart p) (take i (Program.subroutines p)) = routineStart p i).
Proof.
  intros Hsize.
  pose proof (build_exact p) as Hbuild. cbv zeta in Hbuild.
  unfold imageSize, mainStart, routineStart, codeStart, headersStart in Hsize.
  rewrite firstn_all in Hsize.
  assert (He : 5 <= storageBlockEnd (Program.storage p)) by (unfold storageBlockEnd; lia).
  revert Hbuild.
  rewrite storageEnd_exact by lia.
  rewrite sourceMapSize_exact by lia.
  rewrite (u32_small (storageBlockEnd (Program.storage p)
                      + (1 + 4 + 12 * Z.of_nat (sourceMapEntryCount p)))) by lia.
  rewrite (u32_small (storageBlockEnd (Program.storage p)
                      + (1 + 4 + 12 * Z.of_nat (sourceMapEntryCount p)) + (1 + 4))) by lia.
  rewrite (u32_small (storageBlockEnd (Program.storage p)
                      + (1 + 4 + 12 * Z.of_nat (sourceMapEntryCount p))
                      + Z.of_nat (length (Program.subroutines p)) * (1 + 4 + 4 + 1))) by lia.
  rewrite (u32_small (_ + Z.of_nat (length (Program.subroutines p)) * (1 + 4 + 4 + 1))) by lia.
  rewrite (u32_small (_ + (1 + 4))) by lia.
  replace (storageBlockEnd (Program.storage p)
           + (1 + 4 + 12 * Z.of_nat (sourceMapEntryCount p))
           + Z.of_nat (length (Program.subroutines p)) * (1 + 4 + 4 + 1) + (1 + 4))
    with (codeStart p) by (unfold codeStart, headersStart; lia).
  replace (storageBlockEnd (Program.storage p)
           + (1 + 4 + 12 * Z.of_nat (sourceMapEntryCount p)) + (1 + 4)
           + Z.of_nat (length (Program.subroutines p)) * (1 + 4 + 4 + 1))
    with (codeStart p) by (unfold codeStart, headersStart; lia).
  intros Hbuild.
  assert (Hafter : forall i, addressAfter (codeStart p) (take i (Program.subroutines p))
                             = routineStart p i).
  { intros i. pose proof (code_take_le (Program.subroutines p) i) as Hle.
    unfold routineStart. apply addressAfter_exact; unfold codeStart, headersStart; lia. }
  assert (Hmain : addressAfter (codeStart p) (Program.subroutines p) = mainStart p).
  { unfold mainStart. rewrite <- Hafter, firstn_all. reflexivity. }
  rewrite Hmain in Hbuild.
  eexists _, _, _, _. split; [exact Hbuild|].
  do 4 (split; [reflexivity|]).
  assert (L1 : Z.of_nat (length ([op_code OP.Jump]
                                   ++ le_bytes 4 (storageBlockEnd (Program.storage p))
                                   ++ storageBlock (Program.storage p)))
               = storageBlockEnd (Program.storage p)).
  { rewrite !length_app, le_bytes_length. cbn [length].
    pose proof (storageBlock_length (Program.storage p)). lia. }
  assert (L2 : Z.of_nat (length ([op_code OP.SourceMap]
                                   ++ le_bytes 4 (12 * Z.of_nat (sourceMapEntryCount p))
                                   ++ routineMapBytes (codeStart p) (Program.subroutines p)
                                   ++ concat (map (entryBytes (mainStart p))
                                                (Program.sourceMap p))))
               = 5 + 12 * Z.of_nat (sourceMapEntryCount p)).
  { rewrite !length_app, le_bytes_length, routineMapBytes_length, concat_entryBytes_length.
    cbn [length]. unfold sourceMapEntryCount. lia. }
  split; [exact L1|].
  split.
  { match goal with |- Z.of_nat (length (?b1 ++ ?b2)) = _ => rewrite (length_app b1 b2) end.
    unfold headersStart. lia. }
  split; [|exact Hafter].
  match goal with |- Z.of_nat (length (?b1 ++ ?b2 ++ ?b3)) = _ =>
    rewrite (length_app b1 (b2 ++ b3)), (length_app b2 b3) end.
  rewrite headerBytes_length.
  assert (Hc : codeStart p = headersStart p + 10 * Z.of_nat (length (Program.subroutines p)) + 5)
    by (unfold codeStart; lia).
  assert (Hh : headersStart p = storageBlockEnd (Program.storage p) + 5
                                + 12 * Z.of_nat (sourceMapEntryCount p))
    by (unfold headersStart; lia).
  lia.
Qed.

Ltac same_list := rewrite <- ?app_assoc; cbn [app]; reflexivity.

(** X5: an image shorter than 2^32 bytes describes itself.  The meta-data
    of the [i]-th subroutine sits ten bytes per subroutine after the
    source map: the [Subroutine] opcode, the address of its name, the
    offset of its code and its flags; the bytes of the image from that
    offset on are the subroutine's code.  The [Main] opcode follows the
    meta-data with the offset of the code of "main", whose bytes are found
    there, followed by [Halt], the last byte of the image. *)
Theorem image_addresses {enc : Encoding} (p : Program.t) :
  imageSize p < 2 ^ 32 ->
  exists image,
    Program.build p = Some image
    /\ Z.of_nat (length image) = imageSize p
    /\ (forall (i : nat) (sub : Subroutine.t),
          Program.subroutines p !! i = Some sub ->
          let header := headersStart p + 10 * Z.of_nat i in
          at_ image header = Some (op_code OP.Subroutine)
          /\ readUint32 image (header + 1) = u32 (Subroutine.nameAddress sub)
          /\ readUint32 image (header + 5) = routineStart p i
          /\ at_ image (header + 9) = Some (Subroutine.getFlags sub)
          /\ slice image (routineStart p i) (length (Subroutine.ops sub)) = Subroutine.ops sub)
    /\ at_ image (codeStart p - 5) = Some (op_code OP.Main)
    /\ readUint32 image (codeStart p - 4) = mainStart p
    /\ slice image (mainStart p) (length (Program.ops p)) = Program.ops p
    /\ at_ image (mainStart p + Z.of_nat (length (Program.ops p))) = Some (op_code OP.Halt).
Proof.
  intros Hsize.
  destruct (build_blocks p Hsize)
    as (B1 & B2 & B3 & B5 & Hbuild & _ & _ & E3 & E5 & L1 & L12 & L123 & Hafter).
  eexists. split; [exact Hbuild|].
  assert (Hmain : mainStart p = codeStart p + Z.of_nat (length B5))
    by (unfold mainStart, routineStart; rewrite firstn_all, E5; reflexivity).
  assert (Hcode : 0 <= codeStart p - 5) by lia.
  assert (Hsmall : 0 <= mainStart p < 2 ^ 32) by (unfold imageSize in Hsize; lia).
  set (B12 := B1 ++ B2) in *. set (B123 := B1 ++ B2 ++ B3) in *.
  set (main := [op_code OP.Main] ++ le_bytes 4 (mainStart p)).
  assert (Lmain : length main = 5%nat)
    by (unfold main; rewrite length_app, le_bytes_length; reflexivity).
  assert (L4 : Z.of_nat (length (B123 ++ main ++ B5)) = mainStart p)
    by (rewrite !length_app; lia).
  split.
  { replace (B1 ++ B2 ++ B3 ++ main ++ B5 ++ Program.ops p ++ [op_code OP.Halt])
      with ((B123 ++ main ++ B5) ++ Program.ops p ++ [op_code OP.Halt])
      by (unfold B123; same_list).
    rewrite (length_app (B123 ++ main ++ B5)), (length_app (Program.ops p)). cbn [length].
    unfold imageSize. lia. }
  split.
  { intros i sub Hi header.
    assert (Hlt : (i < length (Program.subroutines p))%nat) by (eapply lookup_lt_Some; eauto).
    pose proof (headerBytes_split (codeStart p) _ i sub Hi) as Hsplit.
    rewrite Hafter in Hsplit. rewrite <- E3 in Hsplit.
    pose proof (code_split _ i sub Hi) as Hcsplit. rewrite <- E5 in Hcsplit.
    pose proof (code_take_le (Program.subroutines p) i) as Hle. rewrite <- E5 in Hle.
    set (hpre := headerBytes (codeStart p) (take i (Program.subroutines p))) in *.
    set (hpost := headerBytes _ (drop (S i) (Program.subroutines p))) in *.
    set (cpre := concat (map Subroutine.ops (take i (Program.subroutines p)))) in *.
    set (cpost := concat (map Subroutine.ops (drop (S i) (Program.subroutines p)))) in *.
    assert (Lh : Z.of_nat (length (B12 ++ hpre)) = header).
    { rewrite length_app. unfold hpre. rewrite headerBytes_length, length_take.
      unfold header. lia. }
    assert (Lc : Z.of_nat (length (B123 ++ main ++ cpre)) = routineStart p i).
    { rewrite !length_app. unfold routineStart. fold cpre. lia. }
    assert (Hroutine : 0 <= routineStart p i < 2 ^ 32).
    { unfold routineStart. fold cpre. lia. }
    set (rest := hpost ++ main ++ B5 ++ Program.ops p ++ [op_code OP.Halt]).
    set (name := le_bytes 4 (Subroutine.nameAddress sub)).
    set (code := le_bytes 4 (routineStart p i)).
    assert (Lname : length name = 4%nat) by apply le_bytes_length.
    assert (Lcode : length code = 4%nat) by apply le_bytes_length.
    assert (Himage : B1 ++ B2 ++ B3 ++ main ++ B5 ++ Program.ops p ++ [op_code OP.Halt]
                     = (B12 ++ hpre) ++ op_code OP.Subroutine
                         :: (name ++ code ++ [Subroutine.getFlags sub] ++ rest)).
    { rewrite Hsplit. unfold B12, headerOf, rest, name, code. same_list. }
    split.
    { rewrite Himage. apply at_block. exact Lh. }
    split.
    { rewrite Himage.
      replace ((B12 ++ hpre) ++ op_code OP.Subroutine
                 :: (name ++ code ++ [Subroutine.getFlags sub] ++ rest))
        with (((B12 ++ hpre) ++ [op_code OP.Subroutine])
                ++ name ++ (code ++ [Subroutine.getFlags sub] ++ rest)) by same_list.
      apply readUint32_block. rewrite (length_app (B12 ++ hpre)). cbn [length]. lia. }
    split.
    { rewrite Himage. rewrite <- (u32_small (routineStart p i)) at 1 by exact Hroutine.
      replace ((B12 ++ hpre) ++ op_code OP.Subroutine
                 :: (name ++ code ++ [Subroutine.getFlags sub] ++ rest))
        with (((B12 ++ hpre) ++ [op_code OP.Subroutine] ++ name)
                ++ code ++ ([Subroutine.getFlags sub] ++ rest)) by same_list.
      apply readUint32_block.
      rewrite (length_app (B12 ++ hpre)), (length_app [_]). cbn [length]. lia. }
    split.
    { rewrite Himage.
      replace ((B12 ++ hpre) ++ op_code OP.Subroutine
                 :: (name ++ code ++ [Subroutine.getFlags sub] ++ rest))
        with (((B12 ++ hpre) ++ [op_code OP.Subroutine] ++ name ++ code)
                ++ Subroutine.getFlags sub :: rest) by same_list.
      apply at_block.
      rewrite (length_app (B12 ++ hpre)), (length_app [_]), (length_app name).
      cbn [length]. lia. }
    replace (B1 ++ B2 ++ B3 ++ main ++ B5 ++ Program.ops p ++ [op_code OP.Halt])
      with ((B123 ++ main ++ cpre) ++ Subroutine.ops sub
              ++ (cpost ++ Program.ops p ++ [op_code OP.Halt]))
      by (rewrite Hcsplit; unfold B123; same_list).
    apply slice_block. exact Lc. }
  split.
  { replace (B1 ++ B2 ++ B3 ++ main ++ B5 ++ Program.ops p ++ [op_code OP.Halt])
      with (B123 ++ op_code OP.Main
              :: (le_bytes 4 (mainStart p) ++ B5 ++ Program.ops p ++ [op_code OP.Halt]))
      by (unfold B123, main; same_list).
    apply at_block. exact L123. }
  split.
  { rewrite <- (u32_small (mainStart p)) at 1 by exact Hsmall.
    replace (B1 ++ B2 ++ B3 ++ main ++ B5 ++ Program.ops p ++ [op_code OP.Halt])
      with ((B123 ++ [op_code OP.Main])
              ++ le_bytes 4 (mainStart p) ++ (B5 ++ Program.ops p ++ [op_code OP.Halt]))
      by (unfold B123, main; same_list).
    apply readUint32_block. rewrite length_app. cbn [length]. lia. }
  split.
  { replace (B1 ++ B2 ++ B3 ++ main ++ B5 ++ Program.ops p ++ [op_code OP.Halt])
      with ((B123 ++ main ++ B5) ++ Program.ops p ++ [op_code OP.Halt])
      by (unfold B123; same_list).
    apply slice_block. exact L4. }
  replace (B1 ++ B2 ++ B3 ++ main ++ B5 ++ Program.ops p ++ [op_code OP.Halt])
    with (((B123 ++ main ++ B5) ++ Program.ops p) ++ op_code OP.Halt :: [])
    by (unfold B123; same_list).
  apply at_block. rewrite (length_app (B123 ++ main ++ B5)). lia.
Qed.

Lemma image_addresses_witness :
  exists p image,
    @Compiler.compileSourceFile sampleEncoding objectAlias = Ok p
    /\ imageSize p < 2 ^ 32
    /\ @Program.build sampleEncoding p = Some image
    /\ readUint32 image (codeStart p - 4) = mainStart p
    /\ at_ image (mainStart p + Z.of_nat (length (Program.ops p)))
       = Some (@op_code sampleEncoding OP.Halt)
    /\ Z.of_nat (length image) = imageSize p.
Proof.
  assert (Hp : exists p, @Compiler.compileSourceFile sampleEncoding objectAlias = Ok p)
    by (vm_compute; eexists; reflexivity).
  destruct Hp as [p Hp]. pose proof Hp as Ep. vm_compute in Ep. inversion Ep as [Ep']; clear Ep.
  assert (Hsize : imageSize p < 2 ^ 32) by (rewrite <- Ep'; vm_compute; reflexivity).
  destruct (@image_addresses sampleEncoding p Hsize)
    as (image & Hbuild & Hlen & _ & _ & Hmain & _ & Hhalt).
  exists p, image. auto 10.
Defined.

(** ** Storage addresses *)

Lemma storageBlock_app {enc : Encoding} (l1 l2 : list string) :
  storageBlock (l1 ++ l2) = storageBlock l1 ++ storageBlock l2.
Proof. unfold storageBlock. rewrite map_app, concat_app. reflexivity. Qed.

Lemma storageBlockEnd_snoc (storage : list string) (text : string) :
  storageBlockEnd (storage ++ [text])
  = storageBlockEnd storage + (8 + 2 + Z.of_nat (String.length text)).
Proof.
  unfold storageBlockEnd. rewrite map_app. unfold list_sum.
  rewrite fold_right_app. cbn [map fold_right].
  assert (H : forall (l : list nat) (n : nat),
             fold_right Nat.add n l = (fold_right Nat.add 0 l + n)%nat).
  { induction l as [|x l IH]; intros n; cbn [fold_right]; [reflexivity|]. rewrite IH. lia. }
  rewrite H. lia.
Qed.

(** X6: the address [registerStorage] returns is where the entry will be
    in the image.  In a program whose storage index agrees with its storage
    table, the address returned for a text is the offset of the first byte
    after the entries registered so far; the agreement is kept; and in the
    image of any later state of the program, whatever was registered
    afterwards, the bytes from that address on are the hash, the length and
    the bytes of the text. *)
Theorem registerStorage_address_in_image {enc : Encoding} (text : string)
    (p p1 q : Program.t) (address : Z) (more : list string) (image : list Z) :
  storageConsistent p ->
  storageBlockEnd (Program.storage p ++ [text]) < 2 ^ 32 ->
  Program.registerStorage text p = Ok (address, p1) ->
  Program.storage q = Program.storage p1 ++ more ->
  Program.build q = Some image ->
  address = storageBlockEnd (Program.storage p)
  /\ storageConsistent p1
  /\ slice image address (8 + 2 + String.length text) = storageEntry text.
Proof.
  intros Hconsistent Hfit Hrun Hlater Hbuild.
  rewrite registerStorage_run in Hrun. cbv zeta in Hrun. inversion Hrun; subst address p1; clear Hrun.
  cbn [Program.storage] in Hlater.
  pose proof (storageBlockEnd_snoc (Program.storage p) text) as Hsnoc.
  assert (He : 5 <= storageBlockEnd (Program.storage p)) by (unfold storageBlockEnd; lia).
  assert (Haddress : (if Program.storageIndex p =? 0 then 1 + 4 else Program.storageIndex p)
                     = storageBlockEnd (Program.storage p)).
  { destruct Hconsistent as [[Hempty Hzero] | [Hsome Hindex]].
    - rewrite Hzero, Hempty. reflexivity.
    - rewrite Hindex. destruct (Z.eqb_spec (storageBlockEnd (Program.storage p)) 0); [lia|].
      reflexivity. }
  rewrite Haddress. split; [reflexivity|]. split.
  - right. cbn [Program.storage Program.storageIndex]. split.
    + intros Hnil. apply app_eq_nil in Hnil as [_ Hnil]. discriminate.
    + rewrite u32_small by lia. lia.
  - destruct (build_layout q) as [rest Hlayout].
    assert (Himage : image
                     = [op_code OP.Jump] ++ le_bytes 4 (Program.storageEnd (Program.storage q))
                       ++ storageBlock (Program.storage q)
                       ++ [op_code OP.SourceMap] ++ rest ++ [op_code OP.Halt])
      by congruence.
    rewrite Himage. clear Himage Hbuild Hlayout.
    rewrite Hlater, !storageBlock_app.
    assert (Hentry : storageBlock [text] = storageEntry text)
      by (unfold storageBlock, storageEntry; cbn [map concat]; rewrite app_nil_r; reflexivity).
    rewrite Hentry.
    assert (Hlen : length (storageEntry text) = (8 + 2 + String.length text)%nat)
      by (unfold storageEntry; rewrite !length_app, !le_bytes_length, bytesOf_length; lia).
    rewrite <- Hlen.
    set (jump := le_bytes 4 _).
    assert (Ljump : length jump = 4%nat) by apply le_bytes_length.
    replace ([op_code OP.Jump] ++ jump
               ++ ((storageBlock (Program.storage p) ++ storageEntry text) ++ storageBlock more)
               ++ [op_code OP.SourceMap] ++ rest ++ [op_code OP.Halt])
      with (([op_code OP.Jump] ++ jump ++ storageBlock (Program.storage p))
              ++ storageEntry text
              ++ (storageBlock more ++ [op_code OP.SourceMap] ++ rest ++ [op_code OP.Halt]))
      by same_list.
    apply slice_block. rewrite !length_app. cbn [length].
    pose proof (storageBlock_length (Program.storage p)). lia.
Qed.

Lemma registerStorage_address_in_image_witness :
  exists p1 q image,
    storageConsistent Program.new
    /\ Program.registerStorage "abc" Program.new = Ok (5, p1)
    /\ Program.registerStorage "x" p1 = Ok (18, q)
    /\ @Program.build sampleEncoding q = Some image
    /\ slice image 5 (8 + 2 + 3) = @storageEntry sampleEncoding "abc".
Proof.
  assert (Hconsistent : storageConsistent Program.new) by (left; split; reflexivity).
  assert (H1 : exists p1, Program.registerStorage "abc" Program.new = Ok (5, p1))
    by (vm_compute; eexists; reflexivity).
  destruct H1 as [p1 H1]. pose proof H1 as E1. vm_compute in E1. inversion E1 as [E1']; clear E1.
  assert (H2 : exists q, Program.registerStorage "x" p1 = Ok (18, q))
    by (subst p1; vm_compute; eexists; reflexivity).
  destruct H2 as [q H2]. pose proof H2 as E2. rewrite <- E1' in E2. vm_compute in E2.
  inversion E2 as [E2']; clear E2.
  assert (H3 : exists image, @Program.build sampleEncoding q = Some image)
    by (destruct (@build_layout sampleEncoding q) as [rest ->]; eexists; reflexivity).
  destruct H3 as [image H3].
  destruct (@registerStorage_address_in_image sampleEncoding "abc" Program.new p1 q 5 ["x"%string]
              image Hconsistent) as (_ & _ & Hslice).
  - vm_compute. reflexivity.
  - exact H1.
  - subst p1 q. reflexivity.
  - exact H3.
  - exists p1, q, image. auto 10.
Defined.

(** ** The source map in the image *)

Lemma entries_split (offset : Z) (entries : list SourceMapEntry.t) (k : nat)
    (entry : SourceMapEntry.t) :
  entries !! k = Some entry ->
  concat (map (entryBytes offset) entries)
  = concat (map (entryBytes offset) (take k entries))
    ++ entryBytes offset entry
    ++ concat (map (entryBytes offset) (drop (S k) entries)).
Proof.
  intros H. rewrite <- (take_drop_middle entries k entry H) at 1.
  rewrite map_app, concat_app. reflexivity.
Qed.

Lemma readEntry (pre post : list Z) (offset : Z) (entry : SourceMapEntry.t) (pos : Z) :
  Z.of_nat (length pre) = pos ->
  readUint32 (pre ++ entryBytes offset entry ++ post) pos
  = u32 (offset + SourceMapEntry.bytecodePos entry)
  /\ readUint32 (pre ++ entryBytes offset entry ++ post) (pos + 4)
     = u32 (SourceMapEntry.sourcePos entry)
  /\ readUint32 (pre ++ entryBytes offset entry ++ post) (pos + 8)
     = u32 (SourceMapEntry.sourceEnd entry).
Proof.
  intros Hpos. unfold entryBytes.
  set (a := le_bytes 4 (u32 (offset + SourceMapEntry.bytecodePos entry))).
  set (b := le_bytes 4 (SourceMapEntry.sourcePos entry)).
  set (c := le_bytes 4 (SourceMapEntry.sourceEnd entry)).
  assert (La : length a = 4%nat) by apply le_bytes_length.
  assert (Lb : length b = 4%nat) by apply le_bytes_length.
  split.
  { replace (pre ++ (a ++ b ++ c) ++ post) with (pre ++ a ++ (b ++ c ++ post)) by same_list.
    unfold a. rewrite readUint32_block by exact Hpos. unfold u32. apply Z.mod_mod. lia. }
  split.
  { replace (pre ++ (a ++ b ++ c) ++ post) with ((pre ++ a) ++ b ++ (c ++ post)) by same_list.
    apply readUint32_block. rewrite length_app. lia. }
  replace (pre ++ (a ++ b ++ c) ++ post) with ((pre ++ a ++ b) ++ c ++ post) by same_list.
  apply readUint32_block. rewrite !length_app. lia.
Qed.

(** The entries of the source map of the [i]-th subroutine, and those of
    "main", in an image shorter than 2^32 bytes. *)
Lemma image_routine_entry {enc : Encoding} (p : Program.t) (image : list Z) (i k : nat)
    (sub : Subroutine.t) (entry : SourceMapEntry.t) :
  imageSize p < 2 ^ 32 ->
  Program.build p = Some image ->
  Program.subroutines p !! i = Some sub ->
  Subroutine.sourceMap sub !! k = Some entry ->
  readUint32 image (entryOffset p i k)
  = u32 (routineStart p i + SourceMapEntry.bytecodePos entry)
  /\ readUint32 image (entryOffset p i k + 4) = u32 (SourceMapEntry.sourcePos entry)
  /\ readUint32 image (entryOffset p i k + 8) = u32 (SourceMapEntry.sourceEnd entry).
Proof.
  intros Hsize Himage Hi Hk.
  destruct (build_blocks p Hsize)
    as (B1 & B2 & B3 & B5 & Hbuild & _ & E2 & _ & _ & L1 & _ & _ & Hafter).
  rewrite Himage in Hbuild. inversion Hbuild as [Hlist]. clear Hbuild.
  set (tail := B3 ++ ([op_code OP.Main] ++ le_bytes 4 (mainStart p))
                 ++ B5 ++ Program.ops p ++ [op_code OP.Halt]).
  set (size := le_bytes 4 (12 * Z.of_nat (sourceMapEntryCount p))) in E2.
  assert (Lsize : length size = 4%nat) by apply le_bytes_length.
  rewrite E2, (routineMapBytes_split _ _ i sub Hi), Hafter, (entries_split _ _ k entry Hk).
  set (rpre := routineMapBytes (codeStart p) (take i (Program.subroutines p))).
  set (epre := concat (map (entryBytes (routineStart p i)) (take k (Subroutine.sourceMap sub)))).
  set (epost := concat (map (entryBytes (routineStart p i)) (drop (S k) _))).
  set (rpost := routineMapBytes _ (drop (S i) _)).
  set (mainMap := concat (map (entryBytes (mainStart p)) (Program.sourceMap p))).
  replace (B1 ++ ([op_code OP.SourceMap] ++ size
                    ++ (rpre ++ (epre ++ entryBytes (routineStart p i) entry ++ epost) ++ rpost)
                    ++ mainMap) ++ tail)
    with ((B1 ++ [op_code OP.SourceMap] ++ size ++ rpre ++ epre)
            ++ entryBytes (routineStart p i) entry
            ++ (epost ++ rpost ++ mainMap ++ tail)) by same_list.
  apply readEntry.
  rewrite (length_app B1), (length_app [_]), (length_app size), (length_app rpre).
  unfold rpre, epre. rewrite routineMapBytes_length, concat_entryBytes_length, length_take.
  assert (Hlt : (k < length (Subroutine.sourceMap sub))%nat) by (eapply lookup_lt_Some; eauto).
  cbn [length]. unfold entryOffset. lia.
Qed.

Lemma image_main_entry {enc : Encoding} (p : Program.t) (image : list Z) (k : nat)
    (entry : SourceMapEntry.t) :
  imageSize p < 2 ^ 32 ->
  Program.build p = Some image ->
  Program.sourceMap p !! k = Some entry ->
  let offset := entryOffset p (length (Program.subroutines p)) k in
  readUint32 image offset = u32 (mainStart p + SourceMapEntry.bytecodePos entry)
  /\ readUint32 image (offset + 4) = u32 (SourceMapEntry.sourcePos entry)
  /\ readUint32 image (offset + 8) = u32 (SourceMapEntry.sourceEnd entry).
Proof.
  intros Hsize Himage Hk offset.
  destruct (build_blocks p Hsize)
    as (B1 & B2 & B3 & B5 & Hbuild & _ & E2 & _ & _ & L1 & _ & _ & Hafter).
  rewrite Himage in Hbuild. inversion Hbuild as [Hlist]. clear Hbuild.
  set (tail := B3 ++ ([op_code OP.Main] ++ le_bytes 4 (mainStart p))
                 ++ B5 ++ Program.ops p ++ [op_code OP.Halt]).
  set (size := le_bytes 4 (12 * Z.of_nat (sourceMapEntryCount p))) in E2.
  assert (Lsize : length size = 4%nat) by apply le_bytes_length.
  rewrite E2, (entries_split _ _ k entry Hk).
  set (rall := routineMapBytes (codeStart p) (Program.subroutines p)).
  set (epre := concat (map (entryBytes (mainStart p)) (take k (Program.sourceMap p)))).
  set (epost := concat (map (entryBytes (mainStart p)) (drop (S k) _))).
  replace (B1 ++ ([op_code OP.SourceMap] ++ size
                    ++ rall ++ epre ++ entryBytes (mainStart p) entry ++ epost) ++ tail)
    with ((B1 ++ [op_code OP.SourceMap] ++ size ++ rall ++ epre)
            ++ entryBytes (mainStart p) entry ++ (epost ++ tail)) by same_list.
  apply readEntry.
  rewrite (length_app B1), (length_app [_]), (length_app size), (length_app rall).
  unfold rall, epre. rewrite routineMapBytes_length, concat_entryBytes_length, length_take.
  assert (Hlt : (k < length (Program.sourceMap p))%nat) by (eapply lookup_lt_Some; eauto).
  cbn [length]. unfold offset, entryOffset. rewrite firstn_all. lia.
Qed.

(** X7: the source map of an image shorter than 2^32 bytes.  After the
    storage block come the [SourceMap] opcode and the size of the entries
    in bytes, twelve per entry; every entry of a subroutine is found, in
    order, with its position made absolute by the offset of that
    subroutine's code in the image, and every entry of "main" after them
    with the offset of the code of "main". *)
Theorem image_source_map {enc : Encoding} (p : Program.t) :
  imageSize p < 2 ^ 32 ->
  exists image,
    Program.build p = Some image
    /\ at_ image (storageBlockEnd (Program.storage p)) = Some (op_code OP.SourceMap)
    /\ readUint32 image (storageBlockEnd (Program.storage p) + 1)
       = 12 * Z.of_nat (sourceMapEntryCount p)
    /\ (forall (i k : nat) (sub : Subroutine.t) (entry : SourceMapEntry.t),
          Program.subroutines p !! i = Some sub ->
          Subroutine.sourceMap sub !! k = Some entry ->
          readUint32 image (entryOffset p i k)
          = u32 (routineStart p i + SourceMapEntry.bytecodePos entry)
          /\ readUint32 image (entryOffset p i k + 4) = u32 (SourceMapEntry.sourcePos entry)
          /\ readUint32 image (entryOffset p i k + 8) = u32 (SourceMapEntry.sourceEnd entry))
    /\ (forall (k : nat) (entry : SourceMapEntry.t),
          Program.sourceMap p !! k = Some entry ->
          let offset := entryOffset p (length (Program.subroutines p)) k in
          readUint32 image offset = u32 (mainStart p + SourceMapEntry.bytecodePos entry)
          /\ readUint32 image (offset + 4) = u32 (SourceMapEntry.sourcePos entry)
          /\ readUint32 image (offset + 8) = u32 (SourceMapEntry.sourceEnd entry)).
Proof.
  intros Hsize.
  destruct (build_blocks p Hsize)
    as (B1 & B2 & B3 & B5 & Hbuild & _ & E2 & _ & _ & L1 & _ & _ & Hafter).
  eexists. split; [exact Hbuild|].
  set (tail := B3 ++ ([op_code OP.Main] ++ le_bytes 4 (mainStart p))
                 ++ B5 ++ Program.ops p ++ [op_code OP.Halt]).
  set (size := le_bytes 4 (12 * Z.of_nat (sourceMapEntryCount p))) in E2.
  assert (Lsize : length size = 4%nat) by apply le_bytes_length.
  assert (Hcount : 0 <= 12 * Z.of_nat (sourceMapEntryCount p) < 2 ^ 32).
  { unfold imageSize, mainStart, routineStart, codeStart, headersStart in Hsize. lia. }
  split.
  { rewrite E2. apply at_block. exact L1. }
  split.
  { rewrite E2. rewrite <- (u32_small (12 * Z.of_nat (sourceMapEntryCount p))) at 1 by exact Hcount.
    set (entries := routineMapBytes _ _ ++ _).
    replace (B1 ++ ([op_code OP.SourceMap] ++ size ++ entries) ++ tail)
      with ((B1 ++ [op_code OP.SourceMap]) ++ size ++ (entries ++ tail)) by same_list.
    apply readUint32_block. rewrite length_app. cbn [length]. lia. }
  split.
  { intros i k sub entry Hi Hk. exact (image_routine_entry p _ i k sub entry Hsize Hbuild Hi Hk). }
  intros k entry Hk. exact (image_main_entry p _ k entry Hsize Hbuild Hk).
Qed.

Lemma image_source_map_witness :
  exists p image,
    @Compiler.compileSourceFile sampleEncoding unionAlias = Ok p
    /\ imageSize p < 2 ^ 32
    /\ @Program.build sampleEncoding p = Some image
    /\ at_ image (storageBlockEnd (Program.storage p))
       = Some (@op_code sampleEncoding OP.SourceMap)
    /\ readUint32 image (storageBlockEnd (Program.storage p) + 1)
       = 12 * Z.of_nat (sourceMapEntryCount p).
Proof.
  assert (Hp : exists p, @Compiler.compileSourceFile sampleEncoding unionAlias = Ok p)
    by (vm_compute; eexists; reflexivity).
  destruct Hp as [p Hp]. pose proof Hp as Ep. vm_compute in Ep. inversion Ep as [Ep']; clear Ep.
  assert (Hsize : imageSize p < 2 ^ 32) by (rewrite <- Ep'; vm_compute; reflexivity).
  destruct (@image_source_map sampleEncoding p Hsize) as (image & Hbuild & Hop & Hcount & _).
  exists p, image. auto 10.
Defined.

(** ** Properties kept by every step are kept by the lowering *)

(** A reflexive and transitive relation between program states that every
    method of [Program] used by the compiler respects is respected by
    [handle], whatever the node. *)
Section Lowering.
Context {enc : Encoding}.
Variable R : Program.t -> Program.t -> Prop.
Hypothesis R_refl : forall p, R p p.
Hypothesis R_trans : forall p1 p2 p3, R p1 p2 -> R p2 p3 -> R p1 p3.
Hypothesis R_pushOp : forall op, Steps R (Program.pushOp op).
Hypothesis R_pushSourceMap : forall pos end_, Steps R (Program.pushSourceMap pos end_).
Hypothesis R_pushFrame : forall implicit, Steps R (Program.pushFrame implicit).
Hypothesis R_popFrameImplicit : Steps R Program.popFrameImplicit.
Hypothesis R_conditional : Steps R (Program.alterFrame (Frame.with_conditional true)).
Hypothesis R_pushSymbol :
  forall name type pos end_, Steps R (Program.pushSymbol name type pos end_).
Hypothesis R_pushSymbolForRoutine :
  forall name type pos end_, Steps R (Program.pushSymbolForRoutine name type pos end_).
Hypothesis R_pushSubroutine : forall name, Steps R (Program.pushSubroutine name).
Hypothesis R_pushSubroutineNameLess : Steps R Program.pushSubroutineNameLess.
Hypothesis R_popSubroutine : Steps R Program.popSubroutine.
Hypothesis R_pushSymbolAddress : forall symbol, Steps R (Program.pushSymbolAddress symbol).
Hypothesis R_registerTypeArgumentUsage :
  forall symbol, Steps R (Program.registerTypeArgumentUsage symbol).
Hypothesis R_pushError : forall code pos end_, Steps R (Program.pushError code pos end_).
Hypothesis R_registerStorage : forall s, Steps R (Program.registerStorage s).
Hypothesis R_pushAddress : forall address offset, Steps R (Program.pushAddress address offset).
Hypothesis R_pushInt32Address :
  forall address offset, Steps R (Program.pushInt32Address address offset).
Hypothesis R_pushUint16 : forall v offset, Steps R (Program.pushUint16 v offset).
Hypothesis R_ignoreNextSectionOP : Steps R Program.ignoreNextSectionOP.
Hypothesis R_pushSection : Steps R Program.pushSection.
Hypothesis R_blockTailCall : Steps R Program.blockTailCall.
Hypothesis R_popSection : Steps R Program.popSection.

Lemma Steps_read {A : Type} (m : M Program.t A) :
  (forall p a p', m p = Ok (a, p') -> p' = p) -> Steps R m.
Proof. intros H p a p' Hm. rewrite (H p a p' Hm). apply R_refl. Qed.

Lemma Steps_ret {A : Type} (a : A) : Steps R (ret a).
Proof. apply Steps_read. intros p b p' H. inv_ok. reflexivity. Qed.

Lemma Steps_gets {A : Type} (f : Program.t -> A) : Steps R (gets f).
Proof. apply Steps_read. intros p b p' H. inv_ok. reflexivity. Qed.

Lemma Steps_defined {A : Type} (o : option A) : Steps R (defined o).
Proof. apply Steps_read. intros p b p' H. inv_ok. reflexivity. Qed.

Lemma Steps_throw {A : Type} (msg : string) : Steps R (@throw Program.t A msg).
Proof. intros p a p' H. discriminate H. Qed.

Lemma Steps_undef {A : Type} : Steps R (@undef Program.t A).
Proof. intros p a p' H. discriminate H. Qed.

Lemma Steps_bind {A B : Type} (m : M Program.t A) (k : A -> M Program.t B) :
  Steps R m -> (forall a, Steps R (k a)) -> Steps R (bind m k).
Proof.
  intros Hm Hk p b p' H. apply bind_Ok in H as (a & q & H1 & H2).
  exact (R_trans _ _ _ (Hm _ _ _ H1) (Hk _ _ _ _ H2)).
Qed.

Lemma Steps_when (b : bool) (m : M Program.t unit) : Steps R m -> Steps R (when b m).
Proof. intros Hm. destruct b; [exact Hm|apply Steps_ret]. Qed.

Lemma Steps_forM {A : Type} (f : A -> M Program.t unit) (l : list A) :
  (forall x, In x l -> Steps R (f x)) -> Steps R (forM_ f l).
Proof.
  induction l as [|x rest IH]; intros H; cbn [forM_].
  - apply Steps_ret.
  - apply Steps_bind.
    + apply H. left. reflexivity.
    + intros _. apply IH. intros y Hy. apply H. right. exact Hy.
Qed.

Lemma Steps_ip : Steps R Program.ip.
Proof. apply Steps_read. intros p a p' H. apply ip_Ok in H as [-> _]. reflexivity. Qed.

Lemma Steps_symbolAt (i : nat) : Steps R (Program.symbolAt i).
Proof.
  apply Steps_read. intros p a p' H. unfold Program.symbolAt in H. inv_ok. reflexivity.
Qed.

Lemma Steps_routineIndex (routine : nat) : Steps R (Compiler.routineIndex routine).
Proof.
  apply Steps_read. intros p a p' H. unfold Compiler.routineIndex in H. inv_ok. reflexivity.
Qed.

(** Goal-directed proof that a computation respects [R]; [leaf] closes
    what is neither a combinator nor a method assumed to respect it. *)
Ltac steps_with leaf :=
  lazymatch goal with
  | |- Steps _ (bind _ _) => apply Steps_bind; [steps_with leaf | intros ?; steps_with leaf]
  | |- Steps _ (ret _) => apply Steps_ret
  | |- Steps _ (gets _) => apply Steps_gets
  | |- Steps _ (defined _) => apply Steps_defined
  | |- Steps _ (throw _) => apply Steps_throw
  | |- Steps _ undef => apply Steps_undef
  | |- Steps _ (when _ _) => apply Steps_when; steps_with leaf
  | |- Steps _ (forM_ _ _) => apply Steps_forM; intros ? ?; steps_with leaf
  | |- Steps _ Program.ip => apply Steps_ip
  | |- Steps _ (Program.symbolAt _) => apply Steps_symbolAt
  | |- Steps _ (Compiler.routineIndex _) => apply Steps_routineIndex
  | |- Steps _ (match ?x with _ => _ end) => destruct x; steps_with leaf
  | |- _ => first [solve [auto] | leaf]
  end.

Ltac steps := steps_with fail.

Lemma Steps_pushOpAt (op : OP.t) (node : option (Z * Z)) : Steps R (Program.pushOpAt op node).
Proof. unfold Program.pushOpAt. steps. Qed.

Lemma Steps_popFrame : Steps R Program.popFrame.
Proof. unfold Program.popFrame. steps. Qed.

Lemma Steps_pushStorage (s : string) : Steps R (Program.pushStorage s).
Proof. unfold Program.pushStorage. steps. Qed.

Lemma Steps_pushStringLiteral (s : string) (node : option (Z * Z)) :
  Steps R (Program.pushStringLiteral s node).
Proof.
  unfold Program.pushStringLiteral.
  apply Steps_bind; [apply Steps_pushOpAt|intros _; apply Steps_pushStorage].
Qed.

Lemma Steps_pushCall (symbol : Symbol.t) (node : Z * Z) (typeArguments : Z) :
  Steps R (Compiler.pushCall symbol node typeArguments).
Proof.
  unfold Compiler.pushCall. pose proof Steps_pushOpAt as Hop. steps.
Qed.

Lemma Steps_optionalAndReadonly (questionToken : option Token) (readonly : bool) :
  Steps R (Compiler.optionalAndReadonly questionToken readonly).
Proof. unfold Compiler.optionalAndReadonly. steps. Qed.

Lemma Steps_conditionalType (distributiveOverIdentifier : option Ident)
    (check extends whenTrue whenFalse : M Program.t unit) (node : Z * Z) :
  Steps R check -> Steps R extends -> Steps R whenTrue -> Steps R whenFalse ->
  Steps R (Compiler.conditionalType distributiveOverIdentifier check extends whenTrue
             whenFalse node).
Proof.
  intros H1 H2 H3 H4.
  pose proof Steps_pushOpAt as Hop. pose proof Steps_popFrame as Hpop.
  unfold Compiler.conditionalType, Compiler.distributePrelude, Compiler.conditionTest,
    Compiler.trueBranch, Compiler.falseBranch, Compiler.patchJumps, Compiler.distributeEnd.
  steps.
Qed.

(** The lowering of a strictly smaller tree is covered by the induction
    hypothesis. *)
Ltac smaller_step :=
  lazymatch goal with
  | H : forall child, _ -> Steps R (Compiler.handle child) |- Steps _ (Compiler.handle _) =>
      apply H;
      repeat match goal with Hin : In _ _ |- _ => apply In_nodeSize in Hin end;
      cbn [nodeSize] in *; lia
  end.

Lemma handle_steps_sized (k : nat) (node : Node) :
  (nodeSize node <= k)%nat -> Steps R (Compiler.handle node).
Proof.
  revert node. induction k as [|k IH]; intros node Hsize; [destruct node; cbn in Hsize; lia|].
  assert (Hchild : forall child, (nodeSize child <= k)%nat -> Steps R (Compiler.handle child))
    by exact IH.
  clear IH.
  pose proof Steps_pushOpAt as HpushOpAt. pose proof Steps_popFrame as HpopFrame.
  pose proof Steps_pushStorage as HpushStorage.
  pose proof Steps_pushStringLiteral as HpushStringLiteral.
  pose proof Steps_pushCall as HpushCall.
  pose proof Steps_optionalAndReadonly as Hoptional.
  destruct node; cbn [nodeSize] in Hsize;
    try rewrite handle_TupleType; cbn [Compiler.handle].
  all: steps_with ltac:(idtac; first [ smaller_step
                                     | apply Steps_conditionalType; smaller_step ]).
Qed.

Lemma handle_steps (node : Node) : Steps R (Compiler.handle node).
Proof. exact (handle_steps_sized (nodeSize node) node (le_n _)). Qed.

End Lowering.

(** Outside the section the combinators take the relation and the proofs
    that it is reflexive and transitive. *)
Ltac rel_steps Hrefl Htrans leaf :=
  lazymatch goal with
  | |- Steps _ (bind _ _) =>
      apply (Steps_bind _ Htrans);
      [rel_steps Hrefl Htrans leaf | intros ?; rel_steps Hrefl Htrans leaf]
  | |- Steps _ (ret _) => apply (Steps_ret _ Hrefl)
  | |- Steps _ (gets _) => apply (Steps_gets _ Hrefl)
  | |- Steps _ (defined _) => apply (Steps_defined _ Hrefl)
  | |- Steps _ (throw _) => apply Steps_throw
  | |- Steps _ undef => apply Steps_undef
  | |- Steps _ (when _ _) => apply (Steps_when _ Hrefl); rel_steps Hrefl Htrans leaf
  | |- Steps _ (Program.symbolAt _) => apply (Steps_symbolAt _ Hrefl)
  | |- Steps _ (match ?x with _ => _ end) => destruct x; rel_steps Hrefl Htrans leaf
  | |- _ => first [solve [auto] | leaf]
  end.

Lemma Steps_weaken {A : Type} (R R' : Program.t -> Program.t -> Prop) (m : M Program.t A) :
  (forall p p', R p p' -> R' p p') -> Steps R m -> Steps R' m.
Proof. intros H Hm p a p' Hrun. apply H. exact (Hm p a p' Hrun). Qed.

Lemma Steps_modify (R : Program.t -> Program.t -> Prop) (f : Program.t -> Program.t) :
  (forall p, R p (f p)) -> Steps R (modify f).
Proof. intros H p a p' Hrun. inv_ok. apply H. Qed.

Lemma Steps_onActive {A : Type} (R : Program.t -> Program.t -> Prop) (m : M Subroutine.t A) :
  (forall p subs, R p (Program.with_subroutines subs p)) -> Steps R (Program.onActive m).
Proof.
  intros H p a p' Hrun. apply onActive_Ok in Hrun as (r & rest & sub & sub' & _ & _ & _ & ->).
  apply H.
Qed.

(** ** The storage table during the lowering *)

Lemma sameStorage_refl (p : Program.t) : sameStorage p p.
Proof. split; reflexivity. Qed.

Lemma sameStorage_trans (p1 p2 p3 : Program.t) :
  sameStorage p1 p2 -> sameStorage p2 p3 -> sameStorage p1 p3.
Proof. intros [A1 A2] [B1 B2]. split; congruence. Qed.

Lemma codeOnly_sameStorage (p p' : Program.t) : codeOnly p p' -> sameStorage p p'.
Proof. intros (H1 & H2 & _). split; assumption. Qed.

Lemma sameStorage_code {A : Type} (m : M Program.t A) : CodeOnly m -> Steps sameStorage m.
Proof. intros H p a p' Hrun. apply codeOnly_sameStorage. exact (H p a p' Hrun). Qed.

Lemma sameStorage_pushFrame {enc : Encoding} (implicit : bool) :
  Steps sameStorage (Program.pushFrame implicit).
Proof. intros p [] p' H. apply pushFrame_Ok in H as (_ & H1 & H2 & _). split; assumption. Qed.

Lemma sameStorage_frame (f : Program.t -> Frame.t) :
  Steps sameStorage (modify (fun p => Program.with_frame (f p) p)).
Proof. apply Steps_modify. intros p. split; reflexivity. Qed.

Lemma sameStorage_popFrameImplicit : Steps sameStorage Program.popFrameImplicit.
Proof.
  apply Steps_modify. intros p. destruct (Frame.previous (Program.frame p)); split; reflexivity.
Qed.

Lemma sameStorage_pushSymbol (name : string) (type : SymbolType.t) (pos end_ : Z) :
  Steps sameStorage (Program.pushSymbol name type pos end_).
Proof. intros p i p' H. apply pushSymbol_frame in H. rewrite H. split; reflexivity. Qed.

Ltac same_storage :=
  rel_steps sameStorage_refl sameStorage_trans
    ltac:(idtac;
          first [ apply sameStorage_pushFrame
                | apply sameStorage_popFrameImplicit
                | apply Steps_onActive; intros; split; reflexivity
                | apply Steps_modify; intros; split; reflexivity
                | intros ? ? ? ?; inv_ok; apply sameStorage_refl ]).

Lemma sameStorage_pushSubroutine {enc : Encoding} (name : string) :
  Steps sameStorage (Program.pushSubroutine name).
Proof. unfold Program.pushSubroutine. same_storage. Qed.

Lemma sameStorage_pushSubroutineNameLess {enc : Encoding} :
  Steps sameStorage Program.pushSubroutineNameLess.
Proof. unfold Program.pushSubroutineNameLess. same_storage. Qed.

Lemma sameStorage_popSubroutine {enc : Encoding} : Steps sameStorage Program.popSubroutine.
Proof. unfold Program.popSubroutine. same_storage. Qed.

Lemma storageBlockEnd_app (l1 l2 : list string) :
  storageBlockEnd l1 <= storageBlockEnd (l1 ++ l2).
Proof.
  induction l2 as [|text l2 IH] using rev_ind; [rewrite app_nil_r; lia|].
  rewrite app_assoc, storageBlockEnd_snoc. lia.
Qed.

Lemma storageGrows_refl (p : Program.t) : storageGrows p p.
Proof. split; [exists []; rewrite app_nil_r; reflexivity|auto]. Qed.

Lemma storageGrows_trans (p1 p2 p3 : Program.t) :
  storageGrows p1 p2 -> storageGrows p2 p3 -> storageGrows p1 p3.
Proof.
  intros [[m1 A1] A2] [[m2 B1] B2]. split.
  - exists (m1 ++ m2). rewrite B1, A1, app_assoc. reflexivity.
  - intros Hc Hfit. apply B2; [|exact Hfit]. apply A2; [exact Hc|].
    pose proof (storageBlockEnd_app (Program.storage p2) m2). rewrite <- B1 in H. lia.
Qed.

Lemma sameStorage_grows (p p' : Program.t) : sameStorage p p' -> storageGrows p p'.
Proof.
  intros [H1 H2]. split; [exists []; rewrite app_nil_r; exact H1|].
  unfold storageConsistent. rewrite H1, H2. auto.
Qed.

Lemma storageGrows_same {A : Type} (m : M Program.t A) :
  Steps sameStorage m -> Steps storageGrows m.
Proof. apply Steps_weaken. exact sameStorage_grows. Qed.

Lemma registerStorage_consistent (text : string) (p : Program.t) :
  storageConsistent p ->
  (if Program.storageIndex p =? 0 then 1 + 4 else Program.storageIndex p)
  = storageBlockEnd (Program.storage p).
Proof.
  intros [[Hempty Hzero] | [Hsome Hindex]].
  - rewrite Hzero, Hempty. reflexivity.
  - rewrite Hindex.
    assert (He : 5 <= storageBlockEnd (Program.storage p)) by (unfold storageBlockEnd; lia).
    destruct (Z.eqb_spec (storageBlockEnd (Program.storage p)) 0); [lia|reflexivity].
Qed.

Lemma storageGrows_registerStorage (text : string) :
  Steps storageGrows (Program.registerStorage text).
Proof.
  intros p address p' H. rewrite registerStorage_run in H. cbv zeta in H.
  inversion H; subst address p'; clear H. split; cbn [Program.storage Program.storageIndex].
  - exists [text]. reflexivity.
  - intros Hc Hfit. right. cbn [Program.storage Program.storageIndex]. split.
    + intros Hnil. apply app_eq_nil in Hnil as [_ Hnil]. discriminate.
    + rewrite (registerStorage_consistent text p Hc).
      pose proof (storageBlockEnd_snoc (Program.storage p) text) as Hsnoc.
      assert (He : 5 <= storageBlockEnd (Program.storage p)) by (unfold storageBlockEnd; lia).
      rewrite u32_small by lia. lia.
Qed.

Lemma storageGrows_pushSymbolForRoutine (name : string) (type : SymbolType.t) (pos end_ : Z) :
  Steps storageGrows (Program.pushSymbolForRoutine name type pos end_).
Proof.
  unfold Program.pushSymbolForRoutine, Program.alterFrame.
  pose proof (storageGrows_same _ (sameStorage_pushSymbol name type pos end_)) as Hsymbol.
  pose proof (storageGrows_registerStorage name) as Hregister.
  rel_steps storageGrows_refl storageGrows_trans
    ltac:(idtac; apply storageGrows_same, Steps_modify; intros; split; reflexivity).
Qed.

Lemma handle_storageGrows {enc : Encoding} (node : Node) :
  Steps storageGrows (Compiler.handle node).
Proof.
  apply handle_steps.
  - exact storageGrows_refl.
  - exact storageGrows_trans.
  - intros op. apply storageGrows_same, sameStorage_code, CodeOnly_pushOp.
  - intros pos end_. apply storageGrows_same, sameStorage_code, CodeOnly_pushSourceMap.
  - intros implicit. apply storageGrows_same, sameStorage_pushFrame.
  - apply storageGrows_same, sameStorage_popFrameImplicit.
  - apply storageGrows_same. exact (sameStorage_frame _).
  - intros name type pos end_. apply storageGrows_same, sameStorage_pushSymbol.
  - exact storageGrows_pushSymbolForRoutine.
  - intros name. apply storageGrows_same, sameStorage_pushSubroutine.
  - apply storageGrows_same, sameStorage_pushSubroutineNameLess.
  - apply storageGrows_same, sameStorage_popSubroutine.
  - intros symbol. apply storageGrows_same, sameStorage_code, CodeOnly_pushSymbolAddress.
  - intros symbol. apply storageGrows_same, sameStorage_code, CodeOnly_ifActive.
  - intros code pos end_. apply storageGrows_same, sameStorage_code, CodeOnly_pushError.
  - exact storageGrows_registerStorage.
  - intros address offset. apply storageGrows_same, sameStorage_code, CodeOnly_pushAddress.
  - intros address offset. apply storageGrows_same, sameStorage_code, CodeOnly_pushInt32Address.
  - intros v offset. apply storageGrows_same, sameStorage_code, CodeOnly_pushUint16.
  - apply storageGrows_same, sameStorage_code, CodeOnly_ifActive.
  - apply storageGrows_same, sameStorage_code, CodeOnly_ifActive.
  - apply storageGrows_same, sameStorage_code, CodeOnly_ifActive.
  - apply storageGrows_same, sameStorage_code, CodeOnly_ifActive.
Qed.

(** X8: the lowering only adds to the storage table.  Whatever node is
    lowered, the texts stored before are still there, in order, followed by
    the new ones; and if the storage index agreed with the table before, it
    agrees with it afterwards, as long as the storage block fits 32 bits. *)
Theorem handle_keeps_storage {enc : Encoding} (node : Node) (p p' : Program.t) :
  Compiler.handle node p = Ok (tt, p') ->
  storageConsistent p ->
  storageBlockEnd (Program.storage p') < 2 ^ 32 ->
  (exists more, Program.storage p' = Program.storage p ++ more)
  /\ storageConsistent p'.
Proof.
  intros Hrun Hc Hfit. destruct (handle_storageGrows node p tt p' Hrun) as [Hmore Hkeep].
  split; [exact Hmore|]. exact (Hkeep Hc Hfit).
Qed.

Lemma handle_keeps_storage_witness :
  exists p',
    @Compiler.handle sampleEncoding objectAlias Program.new = Ok (tt, p')
    /\ Program.storage p' = ["A"; "a"; "x"; "b"]%string
    /\ storageConsistent p'.
Proof.
  assert (Hrun : exists p', @Compiler.handle sampleEncoding objectAlias Program.new = Ok (tt, p')
                            /\ Program.storage p' = ["A"; "a"; "x"; "b"]%string)
    by (vm_compute; eexists; split; reflexivity).
  destruct Hrun as (p' & Hrun & Hstorage).
  assert (Hc : storageConsistent Program.new) by (left; split; reflexivity).
  assert (Hfit : storageBlockEnd (Program.storage p') < 2 ^ 32)
    by (rewrite Hstorage; vm_compute; reflexivity).
  destruct (@handle_keeps_storage sampleEncoding objectAlias Program.new p' Hrun Hc Hfit)
    as [_ Hc'].
  exists p'. auto.
Defined.

Lemma Keeps_pushSourceMap (pos end_ : Z) : Keeps (Program.pushSourceMap pos end_).
Proof.
  intros p a p' H. unfold Program.pushSourceMap in H.
  destruct (Program.activeSubroutines p) as [|r rest] eqn:Hstack.
  - inversion H; subst. unfold currentOps. cbn. rewrite Hstack. auto.
  - rewrite <- Hstack.
    apply (Keeps_ifActive _ (SubKeeps_pushSourceMap pos end_) p a p').
    unfold Program.ifActive. rewrite Hstack. exact H.
Qed.

Lemma Appends_pushOpAt {enc : Encoding} (op : OP.t) (node : option (Z * Z)) :
  Appends [op_code op] (Program.pushOpAt op node).
Proof.
  intros p a p' H. unfold Program.pushOpAt in H. apply bind_Ok in H as ([] & p1 & H1 & H2).
  apply Appends_pushOp in H2 as [Hs Ho].
  assert (Hk : Program.activeSubroutines p1 = Program.activeSubroutines p
               /\ currentOps p1 = currentOps p).
  { destruct node as [[pos end_]|]; [exact (Keeps_pushSourceMap _ _ _ _ _ H1)|inv_ok; auto]. }
  destruct Hk as [Hs1 Ho1]. split; congruence.
Qed.

(** X9: the operand of a literal is the address of its text.  Lowering a
    literal in a program whose storage index agrees with its table appends
    the literal's opcode and four bytes to the current buffer; they are the
    offset of the first byte after the storage block as it was, and in the
    image of the program after any further lowering the hash, the length
    and the bytes of the text are found at that offset. *)
Theorem literal_operand_is_text_address {enc : Encoding} (pos end_ : Z) (kind : LiteralKind)
    (text : string) (rest : Node) (p p1 q : Program.t) (image : list Z) :
  storageConsistent p ->
  storageBlockEnd (Program.storage p ++ [text]) < 2 ^ 32 ->
  Compiler.handle (Literal pos end_ kind text) p = Ok (tt, p1) ->
  Compiler.handle rest p1 = Ok (tt, q) ->
  Program.build q = Some image ->
  let address := storageBlockEnd (Program.storage p) in
  currentOps p1 = currentOps p ++ [op_code (literalOp kind)] ++ le_bytes 4 address
  /\ slice image address (8 + 2 + String.length text) = storageEntry text.
Proof.
  intros Hc Hfit Hliteral Hrest Hbuild address.
  cbn [Compiler.handle] in Hliteral. apply bind_Ok in Hliteral as ([] & p0 & Hop & Hstore).
  unfold Program.pushStorage in Hstore. apply bind_Ok in Hstore as (a & p2 & Hregister & Hpush).
  pose proof (Appends_pushOpAt _ _ _ _ _ Hop) as [Hs0 Ho0].
  destruct (sameStorage_code _ (CodeOnly_pushOpAt _ _) _ _ _ Hop) as [Hst0 Hix0].
  assert (Hc0 : storageConsistent p0) by (unfold storageConsistent; rewrite Hst0, Hix0; exact Hc).
  pose proof Hregister as Hrun. rewrite registerStorage_run in Hrun. cbv zeta in Hrun.
  rewrite (registerStorage_consistent text p0 Hc0), Hst0 in Hrun. fold address in Hrun.
  inversion Hrun as [[Ha Hp2]]. clear Hrun.
  pose proof (pushAddress_end _ _ _ _ Hpush) as [Hs1 Ho1].
  destruct (sameStorage_code _ (CodeOnly_pushAddress _ _) _ _ _ Hpush) as [Hst1 _].
  assert (Hkeep : currentOps p2 = currentOps p0)
    by (rewrite <- Hp2; unfold currentOps; reflexivity).
  assert (He : 5 <= address) by (unfold address, storageBlockEnd; lia).
  pose proof (storageBlockEnd_snoc (Program.storage p) text) as Hsnoc. fold address in Hsnoc.
  split.
  - rewrite Ho1, Hkeep, Ho0, <- Ha, u32_small by lia. rewrite <- app_assoc. reflexivity.
  - destruct (handle_storageGrows rest p1 tt q Hrest) as [[more Hmore] _].
    rewrite Hst1, <- Hp2 in Hmore. cbn [Program.storage] in Hmore.
    destruct (build_layout q) as [tail Hlayout].
    assert (Himage : image
                     = [op_code OP.Jump] ++ le_bytes 4 (Program.storageEnd (Program.storage q))
                       ++ storageBlock (Program.storage q)
                       ++ [op_code OP.SourceMap] ++ tail ++ [op_code OP.Halt])
      by congruence.
    rewrite Himage, Hmore, !storageBlock_app.
    assert (Hentry : storageBlock [text] = storageEntry text)
      by (unfold storageBlock, storageEntry; cbn [map concat]; rewrite app_nil_r; reflexivity).
    rewrite Hentry.
    assert (Hlen : length (storageEntry text) = (8 + 2 + String.length text)%nat)
      by (unfold storageEntry; rewrite !length_app, !le_bytes_length, bytesOf_length; lia).
    rewrite <- Hlen.
    set (jump := le_bytes 4 _).
    assert (Ljump : length jump = 4%nat) by apply le_bytes_length.
    replace ([op_code OP.Jump] ++ jump
               ++ ((storageBlock (Program.storage p) ++ storageEntry text) ++ storageBlock more)
               ++ [op_code OP.SourceMap] ++ tail ++ [op_code OP.Halt])
      with (([op_code OP.Jump] ++ jump ++ storageBlock (Program.storage p))
              ++ storageEntry text
              ++ (storageBlock more ++ [op_code OP.SourceMap] ++ tail ++ [op_code OP.Halt]))
      by same_list.
    apply slice_block. rewrite !length_app. cbn [length].
    pose proof (storageBlock_length (Program.storage p)). unfold address. lia.
Qed.

Lemma literal_operand_is_text_address_witness :
  exists p1 q image,
    @Compiler.handle sampleEncoding (Literal 0 5 StringLiteral "abc") Program.new = Ok (tt, p1)
    /\ @Compiler.handle sampleEncoding (Literal 8 11 StringLiteral "x") p1 = Ok (tt, q)
    /\ @Program.build sampleEncoding q = Some image
    /\ currentOps p1 = [@op_code sampleEncoding OP.StringLiteral] ++ le_bytes 4 5
    /\ slice image 5 (8 + 2 + 3) = @storageEntry sampleEncoding "abc".
Proof.
  assert (Hconsistent : storageConsistent Program.new) by (left; split; reflexivity).
  assert (H1 : exists p1,
             @Compiler.handle sampleEncoding (Literal 0 5 StringLiteral "abc") Program.new
             = Ok (tt, p1))
    by (vm_compute; eexists; reflexivity).
  destruct H1 as [p1 H1]. pose proof H1 as E1. vm_compute in E1. inversion E1 as [E1']; clear E1.
  assert (H2 : exists q,
             @Compiler.handle sampleEncoding (Literal 8 11 StringLiteral "x") p1 = Ok (tt, q))
    by (subst p1; vm_compute; eexists; reflexivity).
  destruct H2 as [q H2].
  assert (H3 : exists image, @Program.build sampleEncoding q = Some image)
    by (destruct (@build_layout sampleEncoding q) as [rest ->]; eexists; reflexivity).
  destruct H3 as [image H3].
  destruct (@literal_operand_is_text_address sampleEncoding 0 5 StringLiteral "abc"
              (Literal 8 11 StringLiteral "x") Program.new p1 q image Hconsistent)
    as (Hops & Hslice).
  - vm_compute. reflexivity.
  - exact H1.
  - exact H2.
  - exact H3.
  - exists p1, q, image. auto 10.
Defined.

(** ** Frames during the lowering *)

Lemma framesKept_refl (p : Program.t) : framesKept p p.
Proof. intros H. exact H. Qed.

Lemma framesKept_trans (p1 p2 p3 : Program.t) :
  framesKept p1 p2 -> framesKept p2 p3 -> framesKept p1 p3.
Proof. intros A B H. exact (B (A H)). Qed.

Lemma framesKept_same (p p' : Program.t) :
  Program.frame p' = Program.frame p -> framesKept p p'.
Proof. intros H Hwf. rewrite H. exact Hwf. Qed.

Lemma framesKept_code {A : Type} (m : M Program.t A) : CodeOnly m -> Steps framesKept m.
Proof.
  intros H p a p' Hrun. apply framesKept_same. destruct (H p a p' Hrun) as (_ & _ & Hf & _).
  exact Hf.
Qed.

Lemma frameWf_unfold (f : Frame.t) :
  frameWf f
  <-> symbolsTagged (Frame.id f) (Frame.symbols f)
      /\ match Frame.previous f with
         | Some parent => Frame.id f = u32 (Frame.id parent + 1) /\ frameWf parent
         | None => 0 <= Frame.id f < 2 ^ 32
         end.
Proof. destruct f as [c previous id symbols]. reflexivity. Qed.

Lemma symbolsTagged_nil (id : Z) : symbolsTagged id [].
Proof. intros i s H. rewrite lookup_nil in H. discriminate H. Qed.

Lemma symbolsTagged_alter (id : Z) (symbols : list Symbol.t) (g : Symbol.t -> Symbol.t)
    (i : nat) :
  (forall v, Symbol.frame (g v) = Symbol.frame v /\ Symbol.index (g v) = Symbol.index v) ->
  symbolsTagged id symbols -> symbolsTagged id (alter g i symbols).
Proof.
  intros Hg H j s Hj. destruct (decide (j = i)) as [->|Hne].
  - rewrite list_lookup_alter_eq in Hj.
    destruct (symbols !! i) as [v|] eqn:Hv; [|discriminate Hj].
    cbn in Hj. inversion Hj; subst s. destruct (Hg v) as [-> ->]. exact (H i v Hv).
  - rewrite list_lookup_alter_ne in Hj by congruence. exact (H j s Hj).
Qed.

Lemma symbolsTagged_snoc (id : Z) (symbols : list Symbol.t) (s : Symbol.t) :
  Symbol.frame s = id -> Symbol.index s = size symbols ->
  symbolsTagged id symbols -> symbolsTagged id (symbols ++ [s]).
Proof.
  intros Hf Hi H j v Hj. destruct (decide (j < length symbols)%nat) as [Hlt|Hge].
  - rewrite lookup_app_l in Hj by exact Hlt. exact (H j v Hj).
  - rewrite lookup_app_r in Hj by lia.
    destruct (j - length symbols)%nat as [|n] eqn:Hn; [|destruct n; discriminate Hj].
    cbn in Hj. inversion Hj; subst v. split; [exact Hf|]. rewrite Hi. unfold size.
    replace j with (length symbols) by lia. reflexivity.
Qed.

Lemma frameWf_with_symbols (f : Frame.t) (symbols : list Symbol.t) :
  frameWf f -> symbolsTagged (Frame.id f) symbols -> frameWf (Frame.with_symbols symbols f).
Proof.
  intros Hwf Ht. apply frameWf_unfold in Hwf as [_ Hp]. apply frameWf_unfold.
  destruct f as [c previous id syms]. split; [exact Ht|exact Hp].
Qed.

Lemma framesKept_pushFrame {enc : Encoding} (implicit : bool) :
  Steps framesKept (Program.pushFrame implicit).
Proof.
  intros p [] p' H Hwf. apply pushFrame_Ok in H as (Hf & _). rewrite Hf.
  apply frameWf_unfold. cbn. split; [apply symbolsTagged_nil|]. split; [reflexivity|exact Hwf].
Qed.

Lemma framesKept_popFrameImplicit : Steps framesKept Program.popFrameImplicit.
Proof.
  apply Steps_modify. intros p Hwf.
  destruct (Frame.previous (Program.frame p)) as [parent|] eqn:Hp; [|exact Hwf].
  apply frameWf_unfold in Hwf as [_ Hparent]. rewrite Hp in Hparent. cbn. apply Hparent.
Qed.

Lemma framesKept_conditional (v : bool) :
  Steps framesKept (Program.alterFrame (Frame.with_conditional v)).
Proof.
  apply Steps_modify. intros p Hwf. cbn. apply frameWf_unfold in Hwf. apply frameWf_unfold.
  destruct (Program.frame p) as [c previous id symbols]. exact Hwf.
Qed.

Lemma framesKept_pushSymbol (name : string) (type : SymbolType.t) (pos end_ : Z) :
  Steps framesKept (Program.pushSymbol name type pos end_).
Proof.
  intros p i p' H Hwf. pose proof (proj1 (frameWf_unfold _) Hwf) as [Ht _].
  destruct (pushSymbol_run name type pos end_ p) as [(j & v & _ & _ & _ & _ & Hrun)|[_ Hrun]];
    rewrite Hrun in H; inversion H; subst; cbn [Program.frame Program.with_frame];
    apply frameWf_with_symbols; try exact Hwf.
  - apply symbolsTagged_alter; [|exact Ht]. intros w. split; reflexivity.
  - apply symbolsTagged_snoc; [reflexivity|reflexivity|exact Ht].
Qed.

Lemma framesKept_modify (f : Program.t -> Program.t) :
  (forall p, Program.frame (f p) = Program.frame p) -> Steps framesKept (modify f).
Proof. intros H. apply Steps_modify. intros p. apply framesKept_same, H. Qed.

Lemma framesKept_registerStorage (text : string) :
  Steps framesKept (Program.registerStorage text).
Proof.
  intros p a p' H. rewrite registerStorage_run in H. cbv zeta in H. inversion H; subst.
  apply framesKept_same. reflexivity.
Qed.

Lemma framesKept_routine (i : nat) (routine : option nat) :
  Steps framesKept
    (Program.alterFrame
       (fun f => Frame.with_symbols (alter (Symbol.with_routine routine) i (Frame.symbols f)) f)).
Proof.
  apply Steps_modify. intros p Hwf. cbn [Program.frame Program.with_frame].
  apply frameWf_with_symbols; [exact Hwf|].
  apply symbolsTagged_alter; [intros w; split; reflexivity|].
  apply frameWf_unfold in Hwf. apply Hwf.
Qed.

Ltac frames_kept :=
  rel_steps framesKept_refl framesKept_trans
    ltac:(idtac;
          first [ apply framesKept_pushFrame
                | apply framesKept_popFrameImplicit
                | apply framesKept_pushSymbol
                | apply framesKept_registerStorage
                | apply framesKept_routine
                | apply framesKept_code, CodeOnly_onActive
                | apply framesKept_modify; intros; reflexivity
                | intros ? ? ? ?; inv_ok; apply framesKept_refl ]).

Lemma framesKept_pushSymbolForRoutine (name : string) (type : SymbolType.t) (pos end_ : Z) :
  Steps framesKept (Program.pushSymbolForRoutine name type pos end_).
Proof. unfold Program.pushSymbolForRoutine. frames_kept. Qed.

Lemma framesKept_pushSubroutine {enc : Encoding} (name : string) :
  Steps framesKept (Program.pushSubroutine name).
Proof. unfold Program.pushSubroutine. frames_kept. Qed.

Lemma framesKept_pushSubroutineNameLess {enc : Encoding} :
  Steps framesKept Program.pushSubroutineNameLess.
Proof. unfold Program.pushSubroutineNameLess. frames_kept. Qed.

Lemma framesKept_popSubroutine {enc : Encoding} : Steps framesKept Program.popSubroutine.
Proof. unfold Program.popSubroutine. frames_kept. Qed.

Lemma handle_framesKept {enc : Encoding} (node : Node) :
  Steps framesKept (Compiler.handle node).
Proof.
  apply handle_steps.
  - exact framesKept_refl.
  - exact framesKept_trans.
  - intros op. apply framesKept_code, CodeOnly_pushOp.
  - intros pos end_. apply framesKept_code, CodeOnly_pushSourceMap.
  - exact framesKept_pushFrame.
  - exact framesKept_popFrameImplicit.
  - exact (framesKept_conditional true).
  - exact framesKept_pushSymbol.
  - exact framesKept_pushSymbolForRoutine.
  - exact framesKept_pushSubroutine.
  - exact framesKept_pushSubroutineNameLess.
  - exact framesKept_popSubroutine.
  - intros symbol. apply framesKept_code, CodeOnly_pushSymbolAddress.
  - intros symbol. apply framesKept_code, CodeOnly_ifActive.
  - intros code pos end_. apply framesKept_code, CodeOnly_pushError.
  - exact framesKept_registerStorage.
  - intros address offset. apply framesKept_code, CodeOnly_pushAddress.
  - intros address offset. apply framesKept_code, CodeOnly_pushInt32Address.
  - intros v offset. apply framesKept_code, CodeOnly_pushUint16.
  - apply framesKept_code, CodeOnly_ifActive.
  - apply framesKept_code, CodeOnly_ifActive.
  - apply framesKept_code, CodeOnly_ifActive.
  - apply framesKept_code, CodeOnly_ifActive.
Qed.

(** Induction from the root of a chain of frames to its tip. *)
Lemma frame_chain_ind (P : Frame.t -> Prop) :
  (forall c id symbols, P (Frame.mk c None id symbols)) ->
  (forall c parent id symbols, P parent -> P (Frame.mk c (Some parent) id symbols)) ->
  forall f, P f.
Proof.
  intros Hroot Hchild. fix IH 1. intros [c [parent|] id symbols].
  - apply Hchild, IH.
  - apply Hroot.
Qed.

Lemma frameWf_id_range (f : Frame.t) : frameWf f -> 0 <= Frame.id f < 2 ^ 32.
Proof.
  intros H. apply frameWf_unfold in H as [_ H].
  destruct (Frame.previous f) as [parent|]; [|exact H].
  destruct H as [-> _]. apply u32_range.
Qed.

Lemma frameChain_ids (f : Frame.t) :
  frameWf f ->
  forall (k : nat) (g : Frame.t),
    frameChain f !! k = Some g ->
    frameWf g /\ Frame.id f = u32 (Frame.id g + Z.of_nat k).
Proof.
  induction f as [c id symbols|c parent id symbols IH] using frame_chain_ind;
    intros Hwf k g Hk.
  - destruct k as [|k]; [|discriminate Hk]. cbn in Hk. inversion Hk; subst g.
    split; [exact Hwf|]. rewrite Z.add_0_r, u32_small; [reflexivity|].
    exact (frameWf_id_range _ Hwf).
  - destruct k as [|k].
    + cbn in Hk. inversion Hk; subst g. split; [exact Hwf|].
      rewrite Z.add_0_r, u32_small; [reflexivity|]. exact (frameWf_id_range _ Hwf).
    + cbn [frameChain lookup list_lookup] in Hk.
      pose proof (proj1 (frameWf_unfold _) Hwf) as [_ [Hid Hparent]]. cbn in Hid, Hparent.
      destruct (IH Hparent k g Hk) as [Hg Hpid]. split; [exact Hg|].
      cbn [Frame.id]. rewrite Hid, Hpid. unfold u32.
      rewrite Zplus_mod_idemp_l. f_equal. lia.
Qed.

(** The loop of [pushSymbolAddress] stops at the frame it looks for after
    as many steps as there are frames in between. *)
Lemma frameOffsetFrom_found (f : Frame.t) :
  frameWf f ->
  Z.of_nat (length (frameChain f)) <= 2 ^ 32 ->
  forall (k : nat) (g : Frame.t),
    frameChain f !! k = Some g ->
    Program.frameOffsetFrom f (Frame.id g) = Z.of_nat k.
Proof.
  induction f as [c id symbols|c parent id symbols IH] using frame_chain_ind;
    intros Hwf Hdepth k g Hk.
  - destruct k as [|k]; [|discriminate Hk]. cbn in Hk. inversion Hk; subst g.
    cbn. rewrite Z.eqb_refl. reflexivity.
  - destruct k as [|k].
    + cbn in Hk. inversion Hk; subst g. cbn. rewrite Z.eqb_refl. reflexivity.
    + destruct (frameChain_ids _ Hwf (S k) g Hk) as [Hg Hid].
      cbn [frameChain lookup list_lookup] in Hk.
      pose proof (proj1 (frameWf_unfold _) Hwf) as [_ [_ Hparent]]. cbn in Hparent.
      cbn [frameChain length] in Hdepth.
      pose proof (lookup_lt_Some _ _ _ Hk) as Hlt.
      cbn [Program.frameOffsetFrom]. cbn [Frame.id] in Hid.
      destruct (Z.eqb_spec id (Frame.id g)) as [Heq|Hne].
      * exfalso. pose proof (frameWf_id_range _ Hg) as Hrange.
        rewrite Heq in Hid. unfold u32 in Hid.
        assert (Hsplit : Frame.id g + Z.of_nat (S k) < 2 ^ 32
                         \/ 2 ^ 32 <= Frame.id g + Z.of_nat (S k) < 2 * 2 ^ 32) by lia.
        destruct Hsplit as [Hs|Hs].
        -- rewrite Z.mod_small in Hid by lia. lia.
        -- replace (Frame.id g + Z.of_nat (S k))
             with (Frame.id g + Z.of_nat (S k) - 2 ^ 32 + 1 * 2 ^ 32) in Hid by lia.
           rewrite Z_mod_plus_full, Z.mod_small in Hid by lia. lia.
      * rewrite (IH Hparent ltac:(lia) k g Hk). lia.
Qed.

(** The latest match of a list. *)
Lemma find_rev_Some {A : Type} (f : A -> bool) (l : list A) (x : A) :
  List.find f (rev l) = Some x ->
  exists i, l !! i = Some x /\ f x = true
            /\ forall j y, (i < j)%nat -> l !! j = Some y -> f y = false.
Proof.
  induction l as [|y l IH] using rev_ind; intros H; [discriminate H|].
  rewrite rev_app_distr in H. cbn [rev app List.find] in H.
  destruct (f y) eqn:Hy.
  - inversion H; subst y. exists (length l). split; [apply list_lookup_middle; reflexivity|].
    split; [exact Hy|]. intros j z Hj Hz.
    apply lookup_lt_Some in Hz. rewrite length_app in Hz. cbn in Hz. lia.
  - destruct (IH H) as (i & Hi & Hx & Hlater). exists i.
    split; [apply lookup_app_l_Some; exact Hi|]. split; [exact Hx|].
    intros j z Hj Hz. destruct (decide (j < length l)%nat) as [Hlt|Hge].
    + rewrite lookup_app_l in Hz by exact Hlt. exact (Hlater j z Hj Hz).
    + rewrite lookup_app_r in Hz by lia.
      destruct (j - length l)%nat as [|n]; [|destruct n; discriminate Hz].
      cbn in Hz. inversion Hz; subst z. exact Hy.
Qed.

Lemma find_rev_None {A : Type} (f : A -> bool) (l : list A) :
  List.find f (rev l) = None -> forall x, In x l -> f x = false.
Proof. intros H x Hx. apply (find_none _ _ H). apply in_rev in Hx. exact Hx. Qed.

(** What [findSymbol] returns: the latest symbol of that name in the
    innermost frame that has one. *)
Lemma findSymbolFrom_Some (name : string) (f : Frame.t) (s : Symbol.t) :
  Program.findSymbolFrom f name = Some s ->
  exists (k : nat) (g : Frame.t) (i : nat),
    frameChain f !! k = Some g
    /\ Frame.symbols g !! i = Some s
    /\ Symbol.name s = name
    /\ (forall j v, (i < j)%nat -> Frame.symbols g !! j = Some v -> Symbol.name v <> name)
    /\ (forall j h v, (j < k)%nat -> frameChain f !! j = Some h ->
                      In v (Frame.symbols h) -> Symbol.name v <> name).
Proof.
  induction f as [c id symbols|c parent id symbols IH] using frame_chain_ind; intros H;
    cbn [Program.findSymbolFrom] in H;
    destruct (List.find (fun v => String.eqb (Symbol.name v) name) (rev symbols)) as [v|] eqn:Hfind.
  - inversion H; subst v. apply find_rev_Some in Hfind as (i & Hi & Hname & Hlater).
    exists O, (Frame.mk c None id symbols), i. split; [reflexivity|]. split; [exact Hi|].
    split; [apply String.eqb_eq; exact Hname|]. split.
    + intros j w Hj Hw. apply String.eqb_neq. exact (Hlater j w Hj Hw).
    + intros j h w Hj. lia.
  - discriminate H.
  - inversion H; subst v. apply find_rev_Some in Hfind as (i & Hi & Hname & Hlater).
    exists O, (Frame.mk c (Some parent) id symbols), i. split; [reflexivity|]. split; [exact Hi|].
    split; [apply String.eqb_eq; exact Hname|]. split.
    + intros j w Hj Hw. apply String.eqb_neq. exact (Hlater j w Hj Hw).
    + intros j h w Hj. lia.
  - destruct (IH H) as (k & g & i & Hk & Hi & Hname & Hlater & Hinner).
    exists (S k), g, i. split; [exact Hk|]. split; [exact Hi|]. split; [exact Hname|].
    split; [exact Hlater|]. intros j h w Hj Hh Hw. destruct j as [|j].
    + cbn in Hh. inversion Hh; subst h. cbn in Hw.
      apply String.eqb_neq. exact (find_rev_None _ _ Hfind w Hw).
    + cbn [frameChain lookup list_lookup] in Hh. apply (Hinner j h w); [lia|exact Hh|exact Hw].
Qed.

Lemma le_bytes_2_u32 (x : Z) : le_bytes 2 (u32 x) = le_bytes 2 x.
Proof.
  unfold u32. cbn [le_bytes].
  assert (Hsplit : x mod 2 ^ 32 = x mod 256 + (x / 256) mod 2 ^ 24 * 256).
  { replace (2 ^ 32) with (256 * 2 ^ 24) by reflexivity. rewrite Z.rem_mul_r by lia. ring. }
  assert (Hlow : 0 <= x mod 256 < 256) by (apply Z.mod_pos_bound; lia).
  rewrite Hsplit. f_equal; [|f_equal].
  - rewrite Z_mod_plus_full. apply Z.mod_mod. lia.
  - rewrite Z_div_plus_full by lia. rewrite (Z.div_small (x mod 256) 256) by exact Hlow.
    rewrite Z.add_0_l. apply Z.mod_mod_divide. exists (2 ^ 16). reflexivity.
Qed.

Lemma pushSymbolAddress_Ok (symbol : Symbol.t) (p p' : Program.t) (u : unit) :
  Program.pushSymbolAddress symbol p = Ok (u, p') ->
  Program.activeSubroutines p' = Program.activeSubroutines p
  /\ currentOps p'
     = currentOps p
       ++ le_bytes 2 (u32 (Program.frameOffsetFrom (Program.frame p) (Symbol.frame symbol)))
       ++ le_bytes 2 (Symbol.index symbol).
Proof.
  intros H. unfold Program.pushSymbolAddress in H.
  apply bind_Ok in H as (offset & p0 & Hoffset & H). apply gets_Ok in Hoffset as [-> ->].
  apply bind_Ok in H as (ops & p0 & Hget & H). apply getOPs_Ok in Hget as [-> ->].
  unfold writeUint16 in H. rewrite write_at_end in H.
  apply bind_Ok in H as (ops1 & p0 & H1 & H). apply defined_Ok in H1 as [H1 ->].
  inversion H1; subst ops1; clear H1. rewrite write_at_end in H.
  apply bind_Ok in H as (ops2 & p0 & H2 & H). apply defined_Ok in H2 as [H2 ->].
  inversion H2; subst ops2; clear H2.
  apply setOPs_Ok in H as (Hops & Hstack & _). split; [exact Hstack|].
  rewrite Hops, <- app_assoc. reflexivity.
Qed.

(** X10: the lowering keeps the frames well formed.  If in every open
    frame each symbol records the id of that frame and its own position,
    and the id of each frame is its parent's plus one, then the same holds
    when [handle] returns, whatever node it lowered. *)
Theorem handle_keeps_frames {enc : Encoding} (node : Node) (p p' : Program.t) :
  frameWf (Program.frame p) ->
  Compiler.handle node p = Ok (tt, p') ->
  frameWf (Program.frame p').
Proof. intros Hwf Hrun. exact (handle_framesKept node p tt p' Hrun Hwf). Qed.

Lemma handle_keeps_frames_witness :
  exists p',
    @Compiler.handle sampleEncoding objectAlias Program.new = Ok (tt, p')
    /\ frameWf (Program.frame p').
Proof.
  assert (Hrun : exists p', @Compiler.handle sampleEncoding objectAlias Program.new = Ok (tt, p'))
    by (vm_compute; eexists; reflexivity).
  destruct Hrun as [p' Hrun]. exists p'. split; [exact Hrun|].
  apply (@handle_keeps_frames sampleEncoding objectAlias Program.new p'); [|exact Hrun].
  cbn. split; [apply symbolsTagged_nil|lia].
Defined.

(** X11: the address of a symbol leads to the symbol.  In well-formed
    frames fewer than 2^32 deep, the symbol [findSymbol] returns for a name
    is the latest one of that name in the innermost frame that has one; and
    the four bytes [pushSymbolAddress] appends for it are the number of
    frames between the current frame and that frame, and the position of
    the symbol among the symbols of that frame, two bytes each. *)
Theorem symbol_address_locates_symbol (name : string) (s : Symbol.t) (p p' : Program.t) :
  frameWf (Program.frame p) ->
  Z.of_nat (length (frameChain (Program.frame p))) <= 2 ^ 32 ->
  Program.findSymbol name p = Some s ->
  Program.pushSymbolAddress s p = Ok (tt, p') ->
  exists (k : nat) (g : Frame.t) (i : nat),
    frameChain (Program.frame p) !! k = Some g
    /\ Frame.symbols g !! i = Some s
    /\ Symbol.name s = name
    /\ (forall j v, (i < j)%nat -> Frame.symbols g !! j = Some v -> Symbol.name v <> name)
    /\ (forall j h v, (j < k)%nat -> frameChain (Program.frame p) !! j = Some h ->
                      In v (Frame.symbols h) -> Symbol.name v <> name)
    /\ currentOps p' = currentOps p ++ le_bytes 2 (Z.of_nat k) ++ le_bytes 2 (Z.of_nat i).
Proof.
  intros Hwf Hdepth Hfind Hpush. unfold Program.findSymbol in Hfind.
  apply findSymbolFrom_Some in Hfind as (k & g & i & Hk & Hi & Hname & Hlater & Hinner).
  exists k, g, i. split; [exact Hk|]. split; [exact Hi|]. split; [exact Hname|].
  split; [exact Hlater|]. split; [exact Hinner|].
  apply pushSymbolAddress_Ok in Hpush as [_ Hops]. rewrite Hops.
  destruct (frameChain_ids _ Hwf k g Hk) as [Hg _].
  apply frameWf_unfold in Hg as [Htagged _]. destruct (Htagged i s Hi) as [Hframe Hindex].
  rewrite Hframe, (frameOffsetFrom_found _ Hwf Hdepth k g Hk), Hindex, !le_bytes_2_u32.
  reflexivity.
Qed.

Lemma symbol_address_locates_symbol_witness :
  exists (p p' : Program.t) (s : Symbol.t) (k i : nat),
    nestedFrameState = Ok (tt, p)
    /\ Program.findSymbol "A" p = Some s
    /\ Program.pushSymbolAddress s p = Ok (tt, p')
    /\ currentOps p' = currentOps p ++ le_bytes 2 (Z.of_nat k) ++ le_bytes 2 (Z.of_nat i).
Proof.
  assert (Hstate : exists p, nestedFrameState = Ok (tt, p))
    by (vm_compute; eexists; reflexivity).
  destruct Hstate as [p Hstate].
  assert (Hwf : frameWf (Program.frame p)).
  { refine (Steps_bind framesKept framesKept_trans _ _
              (framesKept_pushSymbolForRoutine "A" SymbolType.Type_ 0 10)
              (fun _ => @framesKept_pushFrame sampleEncoding true) Program.new tt p Hstate _).
    cbn. split; [apply symbolsTagged_nil|lia]. }
  pose proof Hstate as Hp. vm_compute in Hp. inversion Hp as [Ep]; clear Hp.
  assert (Hdepth : Z.of_nat (length (frameChain (Program.frame p))) <= 2 ^ 32)
    by (subst p; vm_compute; discriminate).
  assert (Hfind : exists s, Program.findSymbol "A" p = Some s)
    by (subst p; vm_compute; eexists; reflexivity).
  destruct Hfind as [s Hfind].
  assert (Hpush : exists p', Program.pushSymbolAddress s p = Ok (tt, p')).
  { exists (Program.with_ops
              (Program.ops p
                 ++ le_bytes 2 (u32 (Program.frameOffsetFrom (Program.frame p) (Symbol.frame s)))
                 ++ le_bytes 2 (Symbol.index s)) p).
    apply pushSymbolAddress_main. subst p. reflexivity. }
  destruct Hpush as [p' Hpush].
  destruct (symbol_address_locates_symbol "A" s p p' Hwf Hdepth Hfind Hpush)
    as (k & g & i & _ & _ & _ & _ & _ & Hops).
  exists p, p', s, k, i. auto.
Defined.

(** ** What the methods of a subroutine keep *)

Lemma subKept_refl (s : Subroutine.t) : subKept s s.
Proof. constructor; auto. Qed.

Lemma subKept_trans (s1 s2 s3 : Subroutine.t) : subKept s1 s2 -> subKept s2 s3 -> subKept s1 s3.
Proof.
  intros A B. constructor.
  - rewrite (kept_identifier _ _ B). apply A.
  - rewrite (kept_index _ _ B). apply A.
  - rewrite (kept_nameAddress _ _ B). apply A.
  - rewrite (kept_type _ _ B). apply A.
  - pose proof (kept_ops _ _ A). pose proof (kept_ops _ _ B). lia.
  - pose proof (kept_sections _ _ A). pose proof (kept_sections _ _ B). lia.
  - intros Hfit Hwl. apply (kept_links _ _ B Hfit). apply (kept_links _ _ A); [|exact Hwl].
    pose proof (kept_sections _ _ B). lia.
  - intros Hmap. apply (kept_map _ _ B). apply (kept_map _ _ A). exact Hmap.
Qed.

Lemma SubSteps_bind (Q : Subroutine.t -> Subroutine.t -> Prop) {A B : Type}
    (m : M Subroutine.t A) (k : A -> M Subroutine.t B) :
  (forall s1 s2 s3, Q s1 s2 -> Q s2 s3 -> Q s1 s3) ->
  SubSteps Q m -> (forall a, SubSteps Q (k a)) -> SubSteps Q (bind m k).
Proof.
  intros Htrans Hm Hk s b s' H. apply bind_Ok in H as (a & s1 & H1 & H2).
  exact (Htrans _ _ _ (Hm _ _ _ H1) (Hk _ _ _ _ H2)).
Qed.

Lemma u32_le (x : Z) : 0 <= x -> 0 <= u32 x <= x.
Proof. intros H. unfold u32. split; [apply Z.mod_pos_bound; lia|apply Z.mod_le; lia]. Qed.

Lemma mapInRange_grow (ops ops' : list Z) (map : SourceMap.t) :
  (length ops <= length ops')%nat -> mapInRange ops map -> mapInRange ops' map.
Proof.
  intros Hlen H. unfold mapInRange in *. eapply Forall_impl; [|exact H].
  cbn. intros entry He. lia.
Qed.

Lemma mapInRange_push (ops : list Z) (map : SourceMap.t) (position pos end_ : Z) :
  0 <= position <= Z.of_nat (length ops) ->
  mapInRange ops map -> mapInRange ops (SourceMap.push position pos end_ map).
Proof.
  intros Hp H. unfold mapInRange, SourceMap.push. apply Forall_app. split; [exact H|].
  apply List.Forall_cons; [|apply List.Forall_nil]. cbn.
  pose proof (u32_le position ltac:(lia)). lia.
Qed.

Lemma subKept_with_ops (s : Subroutine.t) (v : list Z) :
  (length (Subroutine.ops s) <= length v)%nat -> subKept s (Subroutine.with_ops v s).
Proof.
  intros Hlen. constructor; cbn; auto. apply mapInRange_grow. exact Hlen.
Qed.

Lemma subKept_pushSourceMap (pos end_ : Z) : SubSteps subKept (Subroutine.pushSourceMap pos end_).
Proof.
  intros s a s' H. unfold Subroutine.pushSourceMap in H. apply modify_Ok in H. subst s'.
  constructor; cbn; auto. apply mapInRange_push. lia.
Qed.

Lemma subKept_with_sections (s : Subroutine.t) (v : list Section.t) :
  (length (Subroutine.sections s) <= length v)%nat ->
  (Z.of_nat (length v) <= 2 ^ 32 -> wellLinked (Subroutine.sections s) -> wellLinked v) ->
  subKept s (Subroutine.with_sections v s).
Proof. intros Hlen Hwl. constructor; cbn; auto. Qed.

Lemma subKept_with_activeSection (s : Subroutine.t) (v : Z) :
  subKept s (Subroutine.with_activeSection v s).
Proof. constructor; cbn; auto. Qed.

Lemma subKept_with_isIgnoreNextSectionOP (s : Subroutine.t) (v : bool) :
  subKept s (Subroutine.with_isIgnoreNextSectionOP v s).
Proof. constructor; cbn; auto. Qed.

(** *** Links in the section table *)

Lemma wellLinked_insert (secs : list Section.t) (i : nat) (old new : Section.t) :
  secs !! i = Some old ->
  (Section.next new < 0 \/ Z.of_nat i < Section.next new < Z.of_nat (length secs)) ->
  (Section.up new < 0 \/ 0 <= Section.up new < Z.of_nat i) ->
  wellLinked secs -> wellLinked (<[i := new]> secs).
Proof.
  intros Hold Hnext Hup Hwl j section Hj. rewrite length_insert.
  destruct (decide (j = i)) as [->|Hne].
  - rewrite list_lookup_insert_eq in Hj by (eapply lookup_lt_Some; exact Hold).
    inversion Hj; subst section. split; assumption.
  - rewrite list_lookup_insert_ne in Hj by congruence. exact (Hwl j section Hj).
Qed.

Lemma wellLinked_update (secs : list Section.t) (i : nat) (old : Section.t)
    (f : Section.t -> Section.t) :
  secs !! i = Some old ->
  Section.next (f old) = Section.next old -> Section.up (f old) = Section.up old ->
  wellLinked secs -> wellLinked (<[i := f old]> secs).
Proof.
  intros Hold Hnext Hup Hwl. destruct (Hwl i old Hold) as [H1 H2].
  apply (wellLinked_insert secs i old); [exact Hold|rewrite Hnext; exact H1|rewrite Hup; exact H2|].
  exact Hwl.
Qed.

Lemma wellLinked_snoc (secs : list Section.t) (new : Section.t) :
  Section.next new < 0 ->
  (Section.up new < 0 \/ 0 <= Section.up new < Z.of_nat (length secs)) ->
  wellLinked secs -> wellLinked (secs ++ [new]).
Proof.
  intros Hnext Hup Hwl j section Hj. rewrite length_app. cbn [length].
  destruct (decide (j < length secs)%nat) as [Hlt|Hge].
  - rewrite lookup_app_l in Hj by exact Hlt. destruct (Hwl j section Hj) as [H1 H2].
    split; [|exact H2]. destruct H1 as [H1|H1]; [left; exact H1|right; lia].
  - rewrite lookup_app_r in Hj by lia.
    destruct (j - length secs)%nat as [|n] eqn:Hn; [|destruct n; discriminate Hj].
    cbn in Hj. inversion Hj; subst section. split; [left; exact Hnext|].
    destruct Hup as [Hup|Hup]; [left; exact Hup|right; lia].
Qed.

Lemma i32_le (x : Z) : 0 <= x -> i32 x <= x.
Proof.
  intros H. unfold i32. pose proof (Z.mod_le (x + 2 ^ 31) (2 ^ 32) ltac:(lia) ltac:(lia)). lia.
Qed.

Lemma i32_below (x : Z) : 0 <= x < 2 ^ 32 -> i32 x < 0 \/ i32 x = x.
Proof.
  intros H. unfold i32. destruct (Z_lt_ge_dec x (2 ^ 31)) as [Hlt|Hge].
  - right. rewrite Z.mod_small by lia. lia.
  - left. replace (x + 2 ^ 31) with (x - 2 ^ 31 + 1 * 2 ^ 32) by lia.
    rewrite Z_mod_plus_full, Z.mod_small by lia. lia.
Qed.

(** [sections[i]] changed in a way that leaves the links alone. *)
Lemma subKept_alterSection (index : Subroutine.t -> Z)
    (f : Subroutine.t -> Section.t -> Section.t) :
  (forall s x, Section.next (f s x) = Section.next x /\ Section.up (f s x) = Section.up x) ->
  SubSteps subKept (fun s => Subroutine.alterSection (index s) (f s) s).
Proof.
  intros Hf s a s' H. unfold Subroutine.alterSection in H.
  destruct (at_ (Subroutine.sections s) (index s)) as [sec|] eqn:Hat; [|discriminate H].
  inversion H; subst s'. apply at_Some in Hat as [_ Hat].
  apply subKept_with_sections; [rewrite length_insert; lia|]. intros _.
  destruct (Hf s sec) as [Hnext Hup]. apply (wellLinked_update _ _ sec); assumption.
Qed.

Lemma subKept_modify (f : Subroutine.t -> Subroutine.t) :
  (forall s, subKept s (f s)) -> SubSteps subKept (modify f).
Proof. intros H s a s' Hrun. apply modify_Ok in Hrun. subst s'. apply H. Qed.

Lemma subKept_read {A : Type} (m : M Subroutine.t A) :
  (forall s a s', m s = Ok (a, s') -> s' = s) -> SubSteps subKept m.
Proof. intros H s a s' Hrun. rewrite (H s a s' Hrun). apply subKept_refl. Qed.

Lemma subKept_pushOp {enc : Encoding} (op : OP.t) : SubSteps subKept (Subroutine.pushOp op).
Proof.
  unfold Subroutine.pushOp.
  apply (SubSteps_bind _ _ _ subKept_trans).
  { apply subKept_modify. intros s. apply subKept_with_ops. rewrite length_app. lia. }
  intros _. apply (SubSteps_bind _ _ _ subKept_trans).
  { apply subKept_read. intros s a s' H. apply gets_Ok in H. tauto. }
  intros ignore. apply (SubSteps_bind _ _ _ subKept_trans).
  - destruct ignore; cbn [negb when].
    + apply subKept_read. intros s a s' H. apply ret_Ok in H. tauto.
    + apply (subKept_alterSection Subroutine.activeSection
               (fun _ sec => Section.with_ops (u32 (Section.ops sec + 1))
                               (Section.with_lastOp op sec))).
      intros s x. split; reflexivity.
  - intros _. apply subKept_modify. intros s. apply subKept_with_isIgnoreNextSectionOP.
Qed.

Lemma subKept_registerTypeArgumentUsage (symbol : Symbol.t) :
  SubSteps subKept (Subroutine.registerTypeArgumentUsage symbol).
Proof.
  apply (subKept_alterSection Subroutine.activeSection
           (fun s => Section.registerTypeArgumentUsage symbol (Subroutine.ip s))).
  intros s x. split; reflexivity.
Qed.

Lemma subKept_ignoreNextSectionOP : SubSteps subKept Subroutine.ignoreNextSectionOP.
Proof. apply subKept_modify. intros s. apply subKept_with_isIgnoreNextSectionOP. Qed.

Lemma subKept_blockTailCall : SubSteps subKept Subroutine.blockTailCall.
Proof.
  apply (subKept_alterSection Subroutine.activeSection
           (fun _ => Section.with_isBlockTailCall true)).
  intros s x. split; reflexivity.
Qed.

Lemma subKept_end : SubSteps subKept Subroutine.end_.
Proof.
  apply (subKept_alterSection Subroutine.activeSection
           (fun s => Section.with_end (Subroutine.ip s))).
  intros s x. split; reflexivity.
Qed.

Lemma subKept_optimise {enc : Encoding} : SubSteps subKept Subroutine.optimise.
Proof.
  intros s [] s' H. unfold Subroutine.optimise in H. inv_ok.
  match goal with H : Subroutine.optimiseSections _ _ _ = Some _ |- _ =>
    apply optimiseSections_length in H; rename H into Hlen end.
  apply subKept_with_ops. lia.
Qed.

Lemma subKept_pushSection : SubSteps subKept Subroutine.pushSection.
Proof.
  intros s [] s' H. unfold Subroutine.pushSection in H.
  apply bind_Ok in H as ([] & s1 & H1 & H).
  apply bind_Ok in H as ([] & s2 & H2 & H3).
  apply modify_Ok in H2. apply modify_Ok in H3.
  unfold Subroutine.alterSection in H1.
  destruct (at_ (Subroutine.sections s) (Subroutine.activeSection s)) as [sec|] eqn:Hat;
    [|discriminate H1].
  inversion H1; subst s1; clear H1. apply at_Some in Hat as [Hrange Hat].
  apply (subKept_trans _ s2); [|subst s'; apply subKept_with_activeSection].
  subst s2. cbn [Subroutine.sections Subroutine.with_sections Subroutine.activeSection].
  set (secs1 := <[Z.to_nat (Subroutine.activeSection s) := Section.with_hasChild true sec]>
                  (Subroutine.sections s)).
  set (s1 := Subroutine.with_sections secs1 s).
  apply (subKept_trans _ s1).
  - apply subKept_with_sections; [unfold secs1; rewrite length_insert; lia|]. intros _.
    apply (wellLinked_update _ _ sec); [exact Hat|reflexivity|reflexivity].
  - replace (Subroutine.with_sections (secs1 ++ [Section.new (Subroutine.ip s1)
                                                   (Subroutine.activeSection s)]) s1)
      with (Subroutine.with_sections (Subroutine.sections s1
                                        ++ [Section.new (Subroutine.ip s1)
                                              (Subroutine.activeSection s)]) s1)
      by reflexivity.
    apply subKept_with_sections; [rewrite length_app; lia|]. intros _.
    apply wellLinked_snoc; [cbn; lia|]. cbn [Section.new Section.up].
    cbn [s1 Subroutine.sections Subroutine.with_sections]. unfold secs1.
    rewrite length_insert.
    pose proof (i32_le (Subroutine.activeSection s) ltac:(lia)).
    destruct (Z_lt_ge_dec (i32 (Subroutine.activeSection s)) 0); [left; lia|right; lia].
Qed.

Lemma alterSection_Ok (i : Z) (f : Section.t -> Section.t) (s s' : Subroutine.t) (u : unit) :
  Subroutine.alterSection i f s = Ok (u, s') ->
  exists sec,
    at_ (Subroutine.sections s) i = Some sec
    /\ s' = Subroutine.with_sections (<[Z.to_nat i := f sec]> (Subroutine.sections s)) s.
Proof.
  unfold Subroutine.alterSection. destruct (at_ (Subroutine.sections s) i) as [sec|]; [|discriminate].
  intros H. inversion H. exists sec. auto.
Qed.

Lemma subKept_popSection : SubSteps subKept Subroutine.popSection.
Proof.
  intros s [] s' H. unfold Subroutine.popSection in H.
  apply bind_Ok in H as (back & s0 & Hback & H). apply defined_Ok in Hback as [Hback ->].
  apply bind_Ok in H as ([] & s1 & H1 & H).
  apply alterSection_Ok in H1 as (back' & Hback' & ->).
  apply bind_Ok in H as ([] & s2 & H2 & H). apply modify_Ok in H2.
  apply bind_Ok in H as (parent & s2' & Hparent & H). apply defined_Ok in Hparent as [Hparent ->].
  set (len := length (Subroutine.sections s)) in *.
  set (secs1 := <[Z.to_nat (Z.of_nat len - 1) := Section.with_end (Subroutine.ip s) back']>
                  (Subroutine.sections s)) in *.
  assert (Hlen1 : length secs1 = len) by (unfold secs1; apply length_insert).
  assert (K1 : subKept s (Subroutine.with_sections secs1 s)).
  { apply subKept_with_sections; [fold len; lia|]. intros _.
    apply at_Some in Hback' as [_ Hback']. unfold secs1.
    apply (wellLinked_update _ _ back'); [exact Hback'|reflexivity|reflexivity]. }
  assert (K2 : subKept s s2).
  { apply (subKept_trans _ _ _ K1). subst s2. apply subKept_with_activeSection. }
  assert (Hsecs2 : Subroutine.sections s2 = secs1) by (subst s2; reflexivity).
  rewrite Hsecs2 in Hparent.
  set (a := Subroutine.activeSection s2) in *.
  apply at_Some in Hparent as [Ha Hparent]. rewrite Hlen1 in Ha.
  destruct (Section.next parent =? -1); cbn [when] in H;
    [|apply ret_Ok in H as [_ ->]; exact K2].
  apply bind_Ok in H as ([] & s3 & H3 & H). apply modify_Ok in H3.
  apply bind_Ok in H as ([] & s4 & H4 & H). apply alterSection_Ok in H4 as (x & Hx & ->).
  apply bind_Ok in H as (parent' & s4' & Hparent' & H).
  apply defined_Ok in Hparent' as [Hparent' ->].
  apply bind_Ok in H as ([] & s5 & H5 & H). apply alterSection_Ok in H5 as (y & Hy & ->).
  apply modify_Ok in H. subst s'.
  set (new := Section.new (Subroutine.ip s2) (u32 (-1))) in *.
  assert (Hsecs3 : Subroutine.sections s3 = secs1 ++ [new])
    by (subst s3; cbn; rewrite Hsecs2; reflexivity).
  assert (Hactive3 : Subroutine.activeSection s3 = a) by (subst s3; reflexivity).
  cbn [Subroutine.sections Subroutine.with_sections Subroutine.activeSection]
    in Hx, Hparent', Hy |- *.
  rewrite ?Hsecs3, ?Hactive3 in Hx, Hparent', Hy |- *.
  assert (Hlen3 : length (secs1 ++ [new]) = S len) by (rewrite length_app, Hlen1; cbn; lia).
  apply at_Some in Hx as [_ Hx].
  set (next := i32 (Z.of_nat (length (secs1 ++ [new])) - 1)) in *.
  set (secs4 := <[Z.to_nat a := Section.with_next next x]> (secs1 ++ [new])) in *.
  assert (Hlen4 : length secs4 = S len) by (unfold secs4; rewrite length_insert; exact Hlen3).
  apply at_Some in Hparent' as [_ Hparent'].
  unfold secs4 in Hparent'. rewrite list_lookup_insert_eq in Hparent' by (rewrite Hlen3; lia).
  inversion Hparent'; subst parent'; clear Hparent'.
  apply at_Some in Hy as [_ Hy]. rewrite Hlen4 in Hy |- *.
  replace (Z.to_nat (Z.of_nat (S len) - 1)) with len in Hy |- * by lia.
  apply (subKept_trans _ _ _ K2).
  apply (subKept_trans _ s3).
  { subst s3. rewrite Hsecs2.
    apply subKept_with_sections; rewrite Hsecs2; [rewrite length_app; lia|]. intros _ Hwl.
    apply wellLinked_snoc; [cbn; lia|left; vm_compute; reflexivity|exact Hwl]. }
  set (s4 := Subroutine.with_sections secs4 s3).
  apply (subKept_trans _ s4).
  { apply subKept_with_sections; [rewrite Hsecs3, Hlen3, Hlen4; lia|].
    rewrite Hsecs3, Hlen4. intros Hfit Hwl. unfold secs4.
    destruct (Hwl (Z.to_nat a) x Hx) as [_ Hup].
    apply (wellLinked_insert _ _ x); [exact Hx| |exact Hup|exact Hwl].
    cbn [Section.next Section.with_next]. unfold next. rewrite Hlen3.
    destruct (i32_below (Z.of_nat (S len) - 1) ltac:(lia)) as [Hneg|Heq]; [left; exact Hneg|].
    right. rewrite Heq. lia. }
  apply (subKept_trans _ (Subroutine.with_sections
                            (<[len := Section.with_up (Section.up (Section.with_next next x)) y]>
                               secs4) s4)); [|apply subKept_with_activeSection].
  apply subKept_with_sections; [cbn; rewrite length_insert; lia|].
  cbn [s4 Subroutine.sections Subroutine.with_sections]. rewrite length_insert, Hlen4.
  intros Hfit Hwl.
  destruct (Hwl len y Hy) as [Hnext _].
  assert (Hpx : secs4 !! Z.to_nat a = Some (Section.with_next next x))
    by (unfold secs4; apply list_lookup_insert_eq; rewrite Hlen3; lia).
  destruct (Hwl (Z.to_nat a) _ Hpx) as [_ Hup].
  apply (wellLinked_insert _ _ y); [exact Hy|exact Hnext| |exact Hwl].
  cbn [Section.up Section.with_up]. destruct Hup as [Hup|Hup]; [left; exact Hup|right; lia].
Qed.

(** ** Steps that emit code *)

Lemma subsAltered_refl (p : Program.t) : subsAltered subKept p p.
Proof. split; [reflexivity|]. intros i sub H. exists sub. split; [exact H|apply subKept_refl]. Qed.

Lemma subsAltered_trans (p1 p2 p3 : Program.t) :
  subsAltered subKept p1 p2 -> subsAltered subKept p2 p3 -> subsAltered subKept p1 p3.
Proof.
  intros [A1 A2] [B1 B2]. split; [congruence|]. intros i sub H.
  destruct (A2 i sub H) as (sub2 & H2 & K2). destruct (B2 i sub2 H2) as (sub3 & H3 & K3).
  exists sub3. split; [exact H3|exact (subKept_trans _ _ _ K2 K3)].
Qed.

Lemma subsAltered_same (p p' : Program.t) :
  Program.subroutines p' = Program.subroutines p -> subsAltered subKept p p'.
Proof.
  intros H. split; [rewrite H; reflexivity|]. intros i sub Hi. exists sub.
  rewrite H. split; [exact Hi|apply subKept_refl].
Qed.

Lemma subsAltered_insert (p : Program.t) (r : nat) (sub sub' : Subroutine.t) :
  Program.subroutines p !! r = Some sub ->
  subKept sub sub' ->
  subsAltered subKept p (Program.with_subroutines (<[r := sub']> (Program.subroutines p)) p).
Proof.
  intros Hr K. split; [cbn; apply length_insert|]. intros i x Hi. cbn.
  destruct (decide (i = r)) as [->|Hne].
  - rewrite list_lookup_insert_eq by (eapply lookup_lt_Some; exact Hr).
    exists sub'. split; [reflexivity|]. congruence.
  - rewrite list_lookup_insert_ne by congruence. exists x. split; [exact Hi|apply subKept_refl].
Qed.

Lemma mainKept_refl (p : Program.t) : mainKept p p.
Proof. split; [lia|auto]. Qed.

Lemma mainKept_trans (p1 p2 p3 : Program.t) : mainKept p1 p2 -> mainKept p2 p3 -> mainKept p1 p3.
Proof. intros [A1 A2] [B1 B2]. split; [lia|auto]. Qed.

Lemma mainKept_same (p p' : Program.t) :
  Program.ops p' = Program.ops p -> Program.sourceMap p' = Program.sourceMap p -> mainKept p p'.
Proof. intros H1 H2. unfold mainKept. rewrite H1, H2. split; [lia|auto]. Qed.

Lemma codeStep_refl (p : Program.t) : codeStep p p.
Proof. split; [apply codeOnly_refl|]. split; [apply mainKept_refl|apply subsAltered_refl]. Qed.

Lemma codeStep_trans (p1 p2 p3 : Program.t) : codeStep p1 p2 -> codeStep p2 p3 -> codeStep p1 p3.
Proof.
  intros (A1 & A2 & A3) (B1 & B2 & B3).
  split; [exact (codeOnly_trans _ _ _ A1 B1)|].
  split; [exact (mainKept_trans _ _ _ A2 B2)|exact (subsAltered_trans _ _ _ A3 B3)].
Qed.

Lemma codeStep_onActive {A : Type} (m : M Subroutine.t A) :
  SubSteps subKept m -> Steps codeStep (Program.onActive m).
Proof.
  intros Hm p a p' H. pose proof (CodeOnly_onActive m p a p' H) as Hcode.
  apply onActive_Ok in H as (r & rest & sub & sub' & _ & Hr & Hrun & ->).
  split; [exact Hcode|]. split; [apply mainKept_same; reflexivity|].
  apply (subsAltered_insert p r sub sub' Hr). exact (Hm _ _ _ Hrun).
Qed.

Lemma codeStep_ifActive (m : M Subroutine.t unit) :
  SubSteps subKept m -> Steps codeStep (Program.ifActive m).
Proof.
  intros Hm p a p' H. unfold Program.ifActive in H.
  destruct (Program.activeSubroutines p).
  - inversion H; subst. apply codeStep_refl.
  - exact (codeStep_onActive m Hm p a p' H).
Qed.

(** A change of "main" only. *)
Lemma codeStep_main (p : Program.t) (ops : list Z) (map : SourceMap.t) :
  (length (Program.ops p) <= length ops)%nat ->
  (mapInRange (Program.ops p) (Program.sourceMap p) -> mapInRange ops map) ->
  codeStep p (Program.with_ops ops (Program.with_sourceMap map p)).
Proof.
  intros Hlen Hmap. split; [repeat split|]. split; [split; [exact Hlen|exact Hmap]|].
  apply subsAltered_same. reflexivity.
Qed.

Lemma codeStep_ops (p : Program.t) (ops : list Z) :
  (length (Program.ops p) <= length ops)%nat -> codeStep p (Program.with_ops ops p).
Proof.
  intros Hlen.
  replace (Program.with_ops ops p)
    with (Program.with_ops ops (Program.with_sourceMap (Program.sourceMap p) p))
    by (destruct p; reflexivity).
  apply codeStep_main; [exact Hlen|]. apply mapInRange_grow. exact Hlen.
Qed.

Lemma codeStep_sourceMap (p : Program.t) (map : SourceMap.t) :
  (mapInRange (Program.ops p) (Program.sourceMap p) -> mapInRange (Program.ops p) map) ->
  codeStep p (Program.with_sourceMap map p).
Proof.
  intros Hmap.
  replace (Program.with_sourceMap map p)
    with (Program.with_ops (Program.ops p) (Program.with_sourceMap map p))
    by (destruct p; reflexivity).
  apply codeStep_main; [lia|exact Hmap].
Qed.

Lemma codeStep_pushOp {enc : Encoding} (op : OP.t) : Steps codeStep (Program.pushOp op).
Proof.
  intros p a p' H. unfold Program.pushOp in H.
  destruct (Program.activeSubroutines p).
  - inversion H; subst. apply codeStep_ops. rewrite length_app. lia.
  - exact (codeStep_onActive _ (subKept_pushOp op) p a p' H).
Qed.

Lemma codeStep_pushSourceMap (pos end_ : Z) : Steps codeStep (Program.pushSourceMap pos end_).
Proof.
  intros p a p' H. unfold Program.pushSourceMap in H.
  destruct (Program.activeSubroutines p).
  - inversion H; subst. apply codeStep_sourceMap. apply mapInRange_push. lia.
  - exact (codeStep_onActive _ (subKept_pushSourceMap pos end_) p a p' H).
Qed.

Lemma codeStep_getOPs : Steps codeStep Program.getOPs.
Proof. intros p a p' H. apply getOPs_Ok in H as [-> _]. apply codeStep_refl. Qed.

Lemma codeStep_setOPs (v : list Z) (p p' : Program.t) (u : unit) :
  (length (currentOps p) <= length v)%nat ->
  Program.setOPs v p = Ok (u, p') -> codeStep p p'.
Proof.
  intros Hlen H. unfold Program.setOPs in H. unfold currentOps in Hlen.
  destruct (Program.activeSubroutines p) as [|r rest] eqn:Hs.
  - inversion H; subst. apply codeStep_ops. exact Hlen.
  - pose proof (CodeOnly_onActive _ p u p' H) as Hcode.
    apply onActive_Ok in H as (r' & rest' & sub & sub' & Hs' & Hr & Hrun & ->).
    rewrite Hs in Hs'. inversion Hs'; subst r' rest'. rewrite Hr in Hlen.
    apply modify_Ok in Hrun. subst sub'.
    split; [exact Hcode|]. split; [apply mainKept_same; reflexivity|].
    apply (subsAltered_insert p r sub _ Hr). apply subKept_with_ops. exact Hlen.
Qed.

Lemma codeStep_write (f : list Z -> option (list Z)) :
  (forall ops ops', f ops = Some ops' -> (length ops <= length ops')%nat) ->
  Steps codeStep (ops <- Program.getOPs ;; ops' <- defined (f ops) ;; Program.setOPs ops').
Proof.
  intros Hf p a p' H.
  apply bind_Ok in H as (ops & p0 & Hget & H). apply getOPs_Ok in Hget as [-> ->].
  apply bind_Ok in H as (ops' & p0 & Hw & H). apply defined_Ok in Hw as [Hw ->].
  exact (codeStep_setOPs ops' p p' a (Hf _ _ Hw) H).
Qed.

Lemma codeStep_pushAddress (address offset : Z) :
  Steps codeStep (Program.pushAddress address offset).
Proof. apply (codeStep_write _). intros ops ops'. apply write_at_length. Qed.

Lemma codeStep_pushInt32Address (address offset : Z) :
  Steps codeStep (Program.pushInt32Address address offset).
Proof. apply (codeStep_write _). intros ops ops'. apply write_at_length. Qed.

Lemma codeStep_pushUint16 (v offset : Z) : Steps codeStep (Program.pushUint16 v offset).
Proof. apply (codeStep_write _). intros ops ops'. apply write_at_length. Qed.

Lemma codeStep_pushSymbolAddress (symbol : Symbol.t) :
  Steps codeStep (Program.pushSymbolAddress symbol).
Proof.
  intros p a p' H. unfold Program.pushSymbolAddress in H.
  apply bind_Ok in H as (offset & p0 & Hoffset & H). apply gets_Ok in Hoffset as [-> ->].
  apply bind_Ok in H as (ops & p0 & Hget & H). apply getOPs_Ok in Hget as [-> ->].
  apply bind_Ok in H as (ops1 & p0 & H1 & H). apply defined_Ok in H1 as [H1 ->].
  apply bind_Ok in H as (ops2 & p0 & H2 & H). apply defined_Ok in H2 as [H2 ->].
  apply write_at_length in H1. apply write_at_length in H2.
  apply (codeStep_setOPs ops2 p p' a); [lia|exact H].
Qed.

Lemma codeStep_pushError {enc : Encoding} (code : ErrorCode.t) (pos end_ : Z) :
  Steps codeStep (Program.pushError code pos end_).
Proof.
  intros p a p' H. rewrite pushError_run in H. inversion H; subst.
  apply codeStep_main; [rewrite length_app; lia|]. intros Hmap.
  apply mapInRange_push; [lia|]. revert Hmap. apply mapInRange_grow. rewrite length_app. lia.
Qed.

Lemma codeStep_registerTypeArgumentUsage (symbol : Symbol.t) :
  Steps codeStep (Program.registerTypeArgumentUsage symbol).
Proof. apply codeStep_ifActive, subKept_registerTypeArgumentUsage. Qed.

Lemma codeStep_ignoreNextSectionOP : Steps codeStep Program.ignoreNextSectionOP.
Proof. apply codeStep_ifActive, subKept_ignoreNextSectionOP. Qed.

Lemma codeStep_pushSection : Steps codeStep Program.pushSection.
Proof. apply codeStep_ifActive, subKept_pushSection. Qed.

Lemma codeStep_blockTailCall : Steps codeStep Program.blockTailCall.
Proof. apply codeStep_ifActive, subKept_blockTailCall. Qed.

Lemma codeStep_popSection : Steps codeStep Program.popSection.
Proof. apply codeStep_ifActive, subKept_popSection. Qed.

(** ** The tables of a program during the lowering *)

Lemma subsExtended_refl (p : Program.t) : subsExtended p p.
Proof. split; [lia|]. intros i sub H. exists sub. split; [exact H|apply subKept_refl]. Qed.

Lemma subsExtended_trans (p1 p2 p3 : Program.t) :
  subsExtended p1 p2 -> subsExtended p2 p3 -> subsExtended p1 p3.
Proof.
  intros [A1 A2] [B1 B2]. split; [lia|]. intros i sub H.
  destruct (A2 i sub H) as (sub2 & H2 & K2). destruct (B2 i sub2 H2) as (sub3 & H3 & K3).
  exists sub3. split; [exact H3|exact (subKept_trans _ _ _ K2 K3)].
Qed.

Lemma subsAltered_extended (p p' : Program.t) : subsAltered subKept p p' -> subsExtended p p'.
Proof. intros [H1 H2]. split; [lia|exact H2]. Qed.

Lemma subsExtended_append (p : Program.t) (routine : Subroutine.t) :
  subsExtended p (Program.with_subroutines (Program.subroutines p ++ [routine]) p).
Proof.
  split; [cbn; rewrite length_app; lia|]. intros i sub H. exists sub. cbn.
  split; [apply lookup_app_l_Some; exact H|apply subKept_refl].
Qed.

Lemma lowered_refl (p : Program.t) : lowered p p.
Proof.
  split; [apply storageGrows_refl|]. split; [apply mainKept_refl|].
  split; [apply subsExtended_refl|]. auto.
Qed.

Lemma lowered_trans (p1 p2 p3 : Program.t) : lowered p1 p2 -> lowered p2 p3 -> lowered p1 p3.
Proof.
  intros (A1 & A2 & A3 & A4 & A5 & A6) (B1 & B2 & B3 & B4 & B5 & B6).
  split; [exact (storageGrows_trans _ _ _ A1 B1)|].
  split; [exact (mainKept_trans _ _ _ A2 B2)|].
  split; [exact (subsExtended_trans _ _ _ A3 B3)|].
  split; [auto|]. split; [auto|].
  intros Hc Hfit Hn. destruct B1 as [[more Hmore] _].
  assert (Hfit2 : storageBlockEnd (Program.storage p2) < 2 ^ 32).
  { pose proof (storageBlockEnd_app (Program.storage p2) more) as Hle.
    rewrite <- Hmore in Hle. lia. }
  apply B6; [exact (proj2 A1 Hc Hfit2)|exact Hfit|]. exact (A6 Hc Hfit2 Hn).
Qed.

Lemma routineWf_kept (i : nat) (sub sub' : Subroutine.t) :
  subKept sub sub' -> routineWf i sub -> routineWf i sub'.
Proof.
  intros K (Hindex & Hlinks & Hmap). split; [rewrite (kept_index _ _ K); exact Hindex|].
  split; [|exact (kept_map _ _ K Hmap)].
  intros Hfit. apply (kept_links _ _ K Hfit). apply Hlinks.
  pose proof (kept_sections _ _ K). lia.
Qed.

Lemma nameStored_kept (storage more : list string) (sub sub' : Subroutine.t) :
  subKept sub sub' -> nameStored storage sub -> nameStored (storage ++ more) sub'.
Proof.
  intros K [[Hid Haddress]|(before & after & Hs & Haddress)];
    rewrite <- (kept_identifier _ _ K), <- (kept_nameAddress _ _ K) in *.
  - left. auto.
  - right. exists before, (after ++ more). split; [|exact Haddress].
    rewrite Hs, <- app_assoc. reflexivity.
Qed.

(** A step that leaves the frames alone and alters subroutines in place. *)
Lemma lowered_altered (p p' : Program.t) :
  sameStorage p p' -> mainKept p p' -> subsAltered subKept p p' ->
  (forall g, In g (frameChain (Program.frame p')) -> In g (frameChain (Program.frame p))) ->
  lowered p p'.
Proof.
  intros Hst Hmain Hsubs Hframes.
  split; [exact (sameStorage_grows _ _ Hst)|]. split; [exact Hmain|].
  split; [exact (subsAltered_extended _ _ Hsubs)|].
  destruct Hsubs as [Hlen Hsubs]. destruct Hst as [Hstorage _].
  assert (Hback : forall i sub',
             Program.subroutines p' !! i = Some sub' ->
             exists sub, Program.subroutines p !! i = Some sub /\ subKept sub sub').
  { intros i sub' Hi. destruct (lookup_lt_is_Some_2 (Program.subroutines p) i) as [sub Hsub].
    { apply lookup_lt_Some in Hi. lia. }
    destruct (Hsubs i sub Hsub) as (sub2 & H2 & K). exists sub. split; [exact Hsub|]. congruence. }
  split; [|split].
  - intros Hwf i sub' Hi. destruct (Hback i sub' Hi) as (sub & Hsub & K).
    exact (routineWf_kept i sub sub' K (Hwf i sub Hsub)).
  - intros Hl g s r Hg Hs Hr. destruct (Hl g s r (Hframes g Hg) Hs Hr) as (sub & Hsub & Hid).
    destruct (Hsubs r sub Hsub) as (sub' & Hsub' & K). exists sub'. split; [exact Hsub'|].
    rewrite (kept_identifier _ _ K). exact Hid.
  - intros _ _ Hn i sub' Hi. destruct (Hback i sub' Hi) as (sub & Hsub & K).
    rewrite Hstorage, <- (app_nil_r (Program.storage p)).
    exact (nameStored_kept _ [] sub sub' K (Hn i sub Hsub)).
Qed.

Lemma lowered_code {A : Type} (m : M Program.t A) : Steps codeStep m -> Steps lowered m.
Proof.
  intros Hm p a p' H. destruct (Hm p a p' H) as (Hcode & Hmain & Hsubs).
  apply lowered_altered; [exact (codeOnly_sameStorage _ _ Hcode)|exact Hmain|exact Hsubs|].
  destruct Hcode as (_ & _ & Hf & _). rewrite Hf. auto.
Qed.

(** A step that changes the current frame only. *)
Lemma lowered_with_frame (p : Program.t) (f : Frame.t) :
  (linked p -> linked (Program.with_frame f p)) -> lowered p (Program.with_frame f p).
Proof.
  intros Hf. split; [apply sameStorage_grows; split; reflexivity|].
  split; [apply mainKept_same; reflexivity|].
  split; [apply subsAltered_extended, subsAltered_same; reflexivity|].
  split; [intros H; exact H|]. split; [exact Hf|intros _ _ H; exact H].
Qed.

Lemma lowered_frame (p : Program.t) (f : Frame.t) :
  (forall g s r, In g (frameChain f) -> In s (Frame.symbols g) -> Symbol.routine s = Some r ->
                 exists g' s', In g' (frameChain (Program.frame p)) /\ In s' (Frame.symbols g')
                               /\ Symbol.routine s' = Some r /\ Symbol.name s' = Symbol.name s) ->
  lowered p (Program.with_frame f p).
Proof.
  intros Hf. apply lowered_with_frame.
  intros Hl g s r Hg Hs Hr. cbn in Hg |- *.
  destruct (Hf g s r Hg Hs Hr) as (g' & s' & Hg' & Hs' & Hr' & Hname).
  rewrite <- Hname. exact (Hl g' s' r Hg' Hs' Hr').
Qed.

Lemma frameChain_unfold (f : Frame.t) :
  frameChain f
  = f :: match Frame.previous f with
         | Some parent => frameChain parent
         | None => []
         end.
Proof. destruct f as [c previous id symbols]. reflexivity. Qed.

Lemma In_alter {A : Type} (g : A -> A) (i : nat) (l : list A) (x : A) :
  In x (alter g i l) -> In x l \/ exists v, l !! i = Some v /\ x = g v.
Proof.
  intros H. apply list_elem_of_In, list_elem_of_lookup in H as [j Hj].
  destruct (decide (j = i)) as [->|Hne].
  - rewrite list_lookup_alter_eq in Hj. destruct (l !! i) as [v|] eqn:Hv; [|discriminate Hj].
    cbn in Hj. inversion Hj. right. exists v. auto.
  - rewrite list_lookup_alter_ne in Hj by congruence. left.
    apply list_elem_of_In, list_elem_of_lookup. exists j. exact Hj.
Qed.

(** A step that changes the symbols of the current frame only, without
    giving any symbol a routine it did not own. *)
Lemma lowered_symbols (p : Program.t) (symbols : list Symbol.t) :
  (forall s r, In s symbols -> Symbol.routine s = Some r ->
               exists s', In s' (Frame.symbols (Program.frame p))
                          /\ Symbol.routine s' = Some r /\ Symbol.name s' = Symbol.name s) ->
  lowered p (Program.with_frame (Frame.with_symbols symbols (Program.frame p)) p).
Proof.
  intros H. apply lowered_frame. intros g s r Hg Hs Hr.
  rewrite frameChain_unfold in Hg. destruct Hg as [<-|Hg].
  - destruct (H s r Hs Hr) as (s' & Hs' & Hr' & Hname).
    exists (Program.frame p), s'. split; [|auto].
    rewrite frameChain_unfold. left. reflexivity.
  - exists g, s. split; [|auto]. rewrite frameChain_unfold. right.
    destruct (Program.frame p) as [c previous id syms]. exact Hg.
Qed.

Lemma lowered_pushFrame {enc : Encoding} (implicit : bool) :
  Steps lowered (Program.pushFrame implicit).
Proof.
  unfold Program.pushFrame.
  apply (Steps_bind _ lowered_trans).
  - apply (Steps_when _ lowered_refl). apply lowered_code, codeStep_pushOp.
  - intros _. apply Steps_modify. intros p. apply lowered_frame. intros g s r Hg Hs Hr.
    cbn in Hg. destruct Hg as [<-|Hg]; [destruct Hs|]. exists g, s. auto.
Qed.

Lemma lowered_popFrameImplicit : Steps lowered Program.popFrameImplicit.
Proof.
  apply Steps_modify. intros p.
  destruct (Frame.previous (Program.frame p)) as [parent|] eqn:Hp; [|apply lowered_refl].
  apply lowered_frame. intros g s r Hg Hs Hr. exists g, s. split; [|auto].
  rewrite frameChain_unfold, Hp. right. exact Hg.
Qed.

Lemma lowered_conditional (v : bool) :
  Steps lowered (Program.alterFrame (Frame.with_conditional v)).
Proof.
  apply Steps_modify. intros p. apply lowered_frame. intros g s r Hg Hs Hr.
  rewrite frameChain_unfold in Hg. destruct Hg as [<-|Hg].
  - exists (Program.frame p), s. split; [|auto]. rewrite frameChain_unfold. left. reflexivity.
  - exists g, s. split; [|auto]. rewrite frameChain_unfold. right.
    destruct (Program.frame p) as [c previous id syms]. exact Hg.
Qed.

Lemma lowered_pushSymbol (name : string) (type : SymbolType.t) (pos end_ : Z) :
  Steps lowered (Program.pushSymbol name type pos end_).
Proof.
  intros p i p' H.
  destruct (pushSymbol_run name type pos end_ p) as [(j & v & _ & _ & _ & _ & Hrun)|[_ Hrun]];
    rewrite Hrun in H; inversion H; subst; apply lowered_symbols; intros s r Hs Hr.
  - apply In_alter in Hs as [Hs|(w & Hw & ->)]; [exists s; auto|].
    exists w. split; [|auto]. apply list_elem_of_In, list_elem_of_lookup. exists i. exact Hw.
  - apply in_app_or in Hs as [Hs|[<-|[]]]; [exists s; auto|discriminate Hr].
Qed.

Lemma pushSymbol_named (name : string) (type : SymbolType.t) (pos end_ : Z)
    (p p' : Program.t) (i : nat) :
  Program.pushSymbol name type pos end_ p = Ok (i, p') ->
  exists symbol, Frame.symbols (Program.frame p') !! i = Some symbol
                 /\ Symbol.name symbol = name.
Proof.
  intros H.
  destruct (pushSymbol_run name type pos end_ p) as [(j & v & _ & Hv & Hname & _ & Hrun)|[_ Hrun]];
    rewrite Hrun in H; inversion H; subst; cbn.
  - exists (Symbol.with_declarations (u32 (Symbol.declarations v + 1)) v).
    split; [|reflexivity]. destruct (Program.frame p) as [c previous id symbols]. cbn in *.
    rewrite list_lookup_alter_eq, Hv. reflexivity.
  - destruct (Program.frame p) as [c previous id symbols]. cbn.
    eexists. split; [apply list_lookup_middle; reflexivity|reflexivity].
Qed.

Lemma lowered_stack (p : Program.t) (stack : list nat) :
  lowered p (Program.with_activeSubroutines stack p).
Proof.
  apply lowered_altered; [split; reflexivity|apply mainKept_same; reflexivity| |auto].
  apply subsAltered_same. reflexivity.
Qed.

Lemma lowered_registerStorage (text : string) : Steps lowered (Program.registerStorage text).
Proof.
  intros p address p' H. pose proof (storageGrows_registerStorage text p address p' H) as Hgrows.
  rewrite registerStorage_run in H. cbv zeta in H. inversion H; subst address p'; clear H.
  split; [exact Hgrows|]. split; [apply mainKept_same; reflexivity|].
  split; [apply subsAltered_extended, subsAltered_same; reflexivity|].
  split; [intros H; exact H|]. split; [intros H; exact H|].
  intros _ _ Hn i sub Hi. cbn in Hi |- *.
  exact (nameStored_kept _ [text] sub sub (subKept_refl sub) (Hn i sub Hi)).
Qed.

Lemma wellLinked_new (start up : Z) : i32 up < 0 -> wellLinked [Section.new start up].
Proof.
  intros Hup i section Hi. destruct i as [|i]; [|discriminate Hi].
  cbn in Hi. inversion Hi; subst section. cbn. split; left; lia.
Qed.

Lemma routineWf_new (i : nat) (routine : Subroutine.t) :
  Subroutine.index routine = u32 (Z.of_nat i) ->
  Subroutine.sections routine = [Section.new 0 (u32 (-1))] ->
  Subroutine.ops routine = [] -> Subroutine.sourceMap routine = [] ->
  routineWf i routine.
Proof.
  intros Hindex Hsections Hops Hmap. split; [exact Hindex|]. split.
  - intros _. rewrite Hsections. apply wellLinked_new. vm_compute. reflexivity.
  - rewrite Hmap. apply List.Forall_nil.
Qed.

Lemma lookup_snoc_cases {A : Type} (l : list A) (x y : A) (i : nat) :
  (l ++ [x]) !! i = Some y -> l !! i = Some y \/ (i = length l /\ y = x).
Proof.
  intros Hi. destruct (decide (i < length l)%nat) as [Hlt|Hge].
  - left. rewrite lookup_app_l in Hi by exact Hlt. exact Hi.
  - right. rewrite lookup_app_r in Hi by lia.
    destruct (i - length l)%nat as [|n] eqn:Hn; [|destruct n; discriminate Hi].
    cbn in Hi. inversion Hi. split; [lia|reflexivity].
Qed.

(** A fresh subroutine appended to the table. *)
Lemma lowered_append (p : Program.t) (routine : Subroutine.t) :
  routineWf (length (Program.subroutines p)) routine ->
  nameStored (Program.storage p) routine ->
  lowered p (Program.with_subroutines (Program.subroutines p ++ [routine]) p).
Proof.
  intros Hwf Hname. split; [apply sameStorage_grows; split; reflexivity|].
  split; [apply mainKept_same; reflexivity|]. split; [apply subsExtended_append|].
  split; [|split].
  - intros H i sub Hi. cbn in Hi. destruct (lookup_snoc_cases _ _ _ _ Hi) as [Hold|[-> ->]];
      [exact (H i sub Hold)|exact Hwf].
  - intros Hl g s r Hg Hs Hr. destruct (Hl g s r Hg Hs Hr) as (sub & Hsub & Hid).
    exists sub. cbn. split; [apply lookup_app_l_Some; exact Hsub|exact Hid].
  - intros _ _ Hn i sub Hi. cbn in Hi |- *.
    destruct (lookup_snoc_cases _ _ _ _ Hi) as [Hold|[-> ->]]; [exact (Hn i sub Hold)|exact Hname].
Qed.

Lemma lowered_pushSubroutine {enc : Encoding} (name : string) :
  Steps lowered (Program.pushSubroutine name).
Proof.
  unfold Program.pushSubroutine.
  rel_steps lowered_refl lowered_trans
    ltac:(idtac;
          first [ apply lowered_pushFrame
                | apply Steps_modify; intros; apply lowered_stack
                | intros ? ? ? ?; inv_ok; apply lowered_refl ]).
Qed.

Lemma lowered_popSubroutine {enc : Encoding} : Steps lowered Program.popSubroutine.
Proof.
  unfold Program.popSubroutine.
  rel_steps lowered_refl lowered_trans
    ltac:(idtac;
          first [ apply lowered_popFrameImplicit
                | apply lowered_code, codeStep_onActive, subKept_end
                | apply lowered_code, codeStep_onActive, subKept_optimise
                | apply lowered_code, codeStep_onActive, subKept_read;
                  intros ? ? ? ?; inv_ok; reflexivity
                | apply lowered_code, codeStep_onActive, subKept_modify; intros;
                  apply subKept_with_ops; rewrite length_app; lia
                | apply Steps_modify; intros; apply lowered_stack ]).
Qed.

Lemma lowered_pushSubroutineNameLess {enc : Encoding} :
  Steps lowered Program.pushSubroutineNameLess.
Proof.
  intros p index p' H. unfold Program.pushSubroutineNameLess in H.
  apply bind_Ok in H as (index' & p0 & Hindex & H). apply gets_Ok in Hindex as [-> ->].
  apply bind_Ok in H as ([] & p1 & Hframe & H).
  apply bind_Ok in H as ([] & p2 & Happend & H). apply modify_Ok in Happend.
  apply bind_Ok in H as ([] & p3 & Hstack & H). apply modify_Ok in Hstack.
  apply ret_Ok in H as [_ ->].
  pose proof (lowered_pushFrame true p tt p1 Hframe) as L1.
  rewrite pushFrame_implicit_run in Hframe. inversion Hframe as [Hp1].
  apply (lowered_trans _ _ _ L1). apply (lowered_trans _ p2); [|subst p3; apply lowered_stack].
  subst p2. apply lowered_append.
  - rewrite <- Hp1. apply routineWf_new; reflexivity.
  - left. split; reflexivity.
Qed.

(** The storage entry and the subroutine of a new routine. *)
Lemma lowered_routine (p : Program.t) (name : string) (type : SymbolType.t) :
  let address := if Program.storageIndex p =? 0 then 1 + 4 else Program.storageIndex p in
  let routine := Subroutine.with_index (size (Program.subroutines p))
                   (Subroutine.with_nameAddress address
                      (Subroutine.with_type type (Subroutine.new name))) in
  lowered p
    (Program.mk (Program.ops p) (Program.sourceMap p) (Program.storage p ++ [name])
       (u32 (address + (8 + 2 + Z.of_nat (String.length name))))
       (Program.frame p) (Program.activeSubroutines p) (Program.subroutines p ++ [routine])).
Proof.
  intros address routine.
  assert (Hrun : Program.registerStorage name p
                 = Ok (address,
                       Program.mk (Program.ops p) (Program.sourceMap p)
                         (Program.storage p ++ [name])
                         (u32 (address + (8 + 2 + Z.of_nat (String.length name))))
                         (Program.frame p) (Program.activeSubroutines p)
                         (Program.subroutines p)))
    by apply registerStorage_run.
  split; [exact (storageGrows_registerStorage name p _ _ Hrun)|].
  split; [apply mainKept_same; reflexivity|].
  split; [exact (subsExtended_append p routine)|].
  split; [|split].
  - intros H i sub Hi. cbn in Hi. destruct (lookup_snoc_cases _ _ _ _ Hi) as [Hold|[-> ->]];
      [exact (H i sub Hold)|apply routineWf_new; reflexivity].
  - intros Hl g s r Hg Hs Hr. destruct (Hl g s r Hg Hs Hr) as (sub & Hsub & Hid).
    exists sub. cbn. split; [apply lookup_app_l_Some; exact Hsub|exact Hid].
  - intros Hc _ Hn i sub Hi. cbn in Hi |- *.
    destruct (lookup_snoc_cases _ _ _ _ Hi) as [Hold|[-> ->]].
    + exact (nameStored_kept _ [name] sub sub (subKept_refl sub) (Hn i sub Hold)).
    + right. exists (Program.storage p), []. split; [reflexivity|].
      exact (registerStorage_consistent name p Hc).
Qed.

(** The symbol at [j] is given the subroutine at [position], which
    carries its name. *)
Lemma lowered_own (p : Program.t) (j position : nat) (v : Symbol.t) (sub : Subroutine.t) :
  Frame.symbols (Program.frame p) !! j = Some v ->
  Program.subroutines p !! position = Some sub ->
  Subroutine.identifier sub = Symbol.name v ->
  lowered p
    (Program.with_frame
       (Frame.with_symbols
          (alter (Symbol.with_routine (Some position)) j (Frame.symbols (Program.frame p)))
          (Program.frame p)) p).
Proof.
  intros Hv Hsub Hid. apply lowered_with_frame. intros Hl g s r Hg Hs Hr.
  cbn [Program.frame Program.with_frame] in Hg. cbn [Program.subroutines Program.with_frame].
  rewrite frameChain_unfold in Hg. destruct Hg as [<-|Hg].
  - cbn in Hs. apply In_alter in Hs as [Hs|(w & Hw & ->)].
    + apply (Hl (Program.frame p) s r); [rewrite frameChain_unfold; left; reflexivity|exact Hs|].
      exact Hr.
    + cbn in Hr. inversion Hr; subst r. exists sub. split; [exact Hsub|].
      cbn. congruence.
  - apply (Hl g s r); [|exact Hs|exact Hr]. rewrite frameChain_unfold. right.
    destruct (Program.frame p) as [c previous id syms]. exact Hg.
Qed.

Lemma lowered_pushSymbolForRoutine (name : string) (type : SymbolType.t) (pos end_ : Z) :
  Steps lowered (Program.pushSymbolForRoutine name type pos end_).
Proof.
  intros p i p' H. unfold Program.pushSymbolForRoutine in H.
  apply bind_Ok in H as (j & p1 & Hsymbol & H).
  pose proof (lowered_pushSymbol name type pos end_ p j p1 Hsymbol) as L1.
  apply (lowered_trans _ _ _ L1).
  apply pushSymbol_named in Hsymbol as (named & Hnamed & Hname).
  apply bind_Ok in H as (symbol & p1' & Hat & H). unfold Program.symbolAt in Hat.
  apply defined_Ok in Hat as [Hat ->]. rewrite Hnamed in Hat. inversion Hat; subst symbol.
  destruct (Symbol.routine named) as [r|] eqn:Hroutine;
    [apply ret_Ok in H as [_ ->]; apply lowered_refl|].
  apply bind_Ok in H as (nameAddress & p2 & Hregister & H).
  apply bind_Ok in H as (index & p2' & Hindex & H). apply gets_Ok in Hindex as [-> ->].
  apply bind_Ok in H as ([] & p3 & Happend & H). apply modify_Ok in Happend.
  apply bind_Ok in H as (position & p3' & Hposition & H). apply gets_Ok in Hposition as [-> ->].
  apply bind_Ok in H as ([] & p4 & Halter & H). apply modify_Ok in Halter.
  apply ret_Ok in H as [_ ->].
  rewrite registerStorage_run in Hregister. cbv zeta in Hregister.
  inversion Hregister as [[Haddress Hp2]]. clear Hregister. subst nameAddress.
  pose proof (lowered_routine p1 name type) as L3. cbv zeta in L3.
  rewrite <- Hp2 in Happend. cbn [Program.subroutines Program.with_subroutines] in Happend.
  unfold Program.with_subroutines in Happend. cbn in Happend.
  apply (lowered_trans _ p3); [rewrite Happend; exact L3|].
  subst p4. unfold Program.alterFrame.
  apply (lowered_own p3 j _ named
           (Subroutine.with_index (size (Program.subroutines p1))
              (Subroutine.with_nameAddress
                 (if Program.storageIndex p1 =? 0 then 1 + 4 else Program.storageIndex p1)
                 (Subroutine.with_type type (Subroutine.new name))))).
  - rewrite Happend. exact Hnamed.
  - rewrite Happend. cbn [Program.subroutines]. rewrite length_app. cbn [length].
    replace (length (Program.subroutines p1) + 1 - 1)%nat with (length (Program.subroutines p1))
      by lia.
    apply list_lookup_middle. reflexivity.
  - rewrite Hname. reflexivity.
Qed.

Lemma handle_lowered {enc : Encoding} (node : Node) : Steps lowered (Compiler.handle node).
Proof.
  apply handle_steps.
  - exact lowered_refl.
  - exact lowered_trans.
  - intros op. apply lowered_code, codeStep_pushOp.
  - intros pos end_. apply lowered_code, codeStep_pushSourceMap.
  - exact lowered_pushFrame.
  - exact lowered_popFrameImplicit.
  - exact (lowered_conditional true).
  - exact lowered_pushSymbol.
  - exact lowered_pushSymbolForRoutine.
  - exact lowered_pushSubroutine.
  - exact lowered_pushSubroutineNameLess.
  - exact lowered_popSubroutine.
  - intros symbol. apply lowered_code, codeStep_pushSymbolAddress.
  - intros symbol. apply lowered_code, codeStep_registerTypeArgumentUsage.
  - intros code pos end_. apply lowered_code, codeStep_pushError.
  - exact lowered_registerStorage.
  - intros address offset. apply lowered_code, codeStep_pushAddress.
  - intros address offset. apply lowered_code, codeStep_pushInt32Address.
  - intros v offset. apply lowered_code, codeStep_pushUint16.
  - apply lowered_code, codeStep_ignoreNextSectionOP.
  - apply lowered_code, codeStep_pushSection.
  - apply lowered_code, codeStep_blockTailCall.
  - apply lowered_code, codeStep_popSection.
Qed.

(** ** Consequences for the code the compiler builds *)

Lemma subsWf_new : subsWf Program.new.
Proof. intros i sub H. destruct i; discriminate H. Qed.

Lemma linked_new : linked Program.new.
Proof. intros g s r Hg Hs. cbn in Hg. destruct Hg as [<-|[]]. destruct Hs. Qed.

Lemma namesStored_new : namesStored Program.new.
Proof. intros i sub H. destruct i; discriminate H. Qed.

(** X12: the lowering keeps the code well formed.  If every subroutine
    has its position as index, a well-linked section table and a source
    map that points into its buffer, and the source map of "main" points
    into the main buffer, then the same holds when [handle] returns,
    whatever node it lowered and whichever subroutines it added. *)
Theorem handle_keeps_code_well_formed {enc : Encoding} (node : Node) (p p' : Program.t) :
  subsWf p ->
  mapInRange (Program.ops p) (Program.sourceMap p) ->
  Compiler.handle node p = Ok (tt, p') ->
  mapInRange (Program.ops p') (Program.sourceMap p')
  /\ forall (i : nat) (sub : Subroutine.t),
       Program.subroutines p' !! i = Some sub ->
       Subroutine.index sub = u32 (Z.of_nat i)
       /\ (Z.of_nat (length (Subroutine.sections sub)) <= 2 ^ 32 ->
           wellLinked (Subroutine.sections sub))
       /\ mapInRange (Subroutine.ops sub) (Subroutine.sourceMap sub).
Proof.
  intros Hwf Hmap Hrun. destruct (handle_lowered node p tt p' Hrun) as (_ & Hmain & _ & Hsubs & _).
  split; [exact (proj2 Hmain Hmap)|]. exact (Hsubs Hwf).
Qed.

Lemma handle_keeps_code_well_formed_witness :
  exists p',
    @Compiler.handle sampleEncoding conditionalAlias Program.new = Ok (tt, p')
    /\ mapInRange (Program.ops p') (Program.sourceMap p')
    /\ forall (i : nat) (sub : Subroutine.t),
         Program.subroutines p' !! i = Some sub ->
         Subroutine.index sub = u32 (Z.of_nat i).
Proof.
  assert (Hrun : exists p', @Compiler.handle sampleEncoding conditionalAlias Program.new
                            = Ok (tt, p'))
    by (vm_compute; eexists; reflexivity).
  destruct Hrun as [p' Hrun].
  destruct (@handle_keeps_code_well_formed sampleEncoding conditionalAlias Program.new p'
              subsWf_new (List.Forall_nil _) Hrun) as [Hmap Hsubs].
  exists p'. split; [exact Hrun|]. split; [exact Hmap|].
  intros i sub Hi. exact (proj1 (Hsubs i sub Hi)).
Defined.

(** X13: the lowering keeps symbols and subroutines linked.  If every
    symbol of an open frame that owns a routine owns a subroutine of the
    table that carries the symbol's name, then the same holds when [handle]
    returns. *)
Theorem handle_keeps_symbols_linked {enc : Encoding} (node : Node) (p p' : Program.t) :
  linked p ->
  Compiler.handle node p = Ok (tt, p') ->
  forall (g : Frame.t) (s : Symbol.t) (r : nat),
    In g (frameChain (Program.frame p')) ->
    In s (Frame.symbols g) ->
    Symbol.routine s = Some r ->
    exists sub, Program.subroutines p' !! r = Some sub
                /\ Subroutine.identifier sub = Symbol.name s.
Proof.
  intros Hl Hrun. destruct (handle_lowered node p tt p' Hrun) as (_ & _ & _ & _ & Hlinked & _).
  exact (Hlinked Hl).
Qed.

Lemma handle_keeps_symbols_linked_witness :
  exists p' s sub,
    @Compiler.handle sampleEncoding conditionalAlias Program.new = Ok (tt, p')
    /\ Program.findSymbol "D" p' = Some s
    /\ Symbol.routine s = Some 1%nat
    /\ Program.subroutines p' !! 1%nat = Some sub
    /\ Subroutine.identifier sub = "D"%string.
Proof.
  assert (Hrun : exists p' s,
             @Compiler.handle sampleEncoding conditionalAlias Program.new = Ok (tt, p')
             /\ Program.findSymbol "D" p' = Some s
             /\ Symbol.routine s = Some 1%nat /\ Symbol.name s = "D"%string
             /\ In (Program.frame p') (frameChain (Program.frame p'))
             /\ In s (Frame.symbols (Program.frame p')))
    by (vm_compute; eexists; eexists; repeat split; auto).
  destruct Hrun as (p' & s & Hrun & Hfind & Hroutine & Hname & Hg & Hs).
  destruct (@handle_keeps_symbols_linked sampleEncoding conditionalAlias Program.new p'
              linked_new Hrun _ s 1%nat Hg Hs Hroutine) as (sub & Hsub & Hid).
  exists p', s, sub. rewrite Hname in Hid. auto 10.
Defined.

Lemma le_bytes_mod (n : nat) (x m : Z) :
  0 < m -> le_bytes n (x mod (2 ^ (8 * Z.of_nat n) * m)) = le_bytes n x.
Proof.
  revert x m. induction n as [|n IH]; intros x m Hm; [reflexivity|].
  cbn [le_bytes].
  replace (2 ^ (8 * Z.of_nat (S n)) * m) with (256 * (2 ^ (8 * Z.of_nat n) * m)).
  2:{ replace (8 * Z.of_nat (S n)) with (8 + 8 * Z.of_nat n) by lia.
      rewrite Z.pow_add_r by lia. change (2 ^ 8) with 256. ring. }
  assert (Hpos : 0 < 2 ^ (8 * Z.of_nat n) * m) by (apply Z.mul_pos_pos; [apply Z.pow_pos_nonneg|]; lia).
  rewrite Z.rem_mul_r by lia.
  assert (Hlow : 0 <= x mod 256 < 256) by (apply Z.mod_pos_bound; lia).
  f_equal.
  - replace (x mod 256 + 256 * ((x / 256) mod (2 ^ (8 * Z.of_nat n) * m)))
      with (x mod 256 + ((x / 256) mod (2 ^ (8 * Z.of_nat n) * m)) * 256) by ring.
    rewrite Z_mod_plus_full. apply Z.mod_mod. lia.
  - replace (x mod 256 + 256 * ((x / 256) mod (2 ^ (8 * Z.of_nat n) * m)))
      with (x mod 256 + ((x / 256) mod (2 ^ (8 * Z.of_nat n) * m)) * 256) by ring.
    rewrite Z_div_plus_full by lia. rewrite (Z.div_small (x mod 256) 256) by exact Hlow.
    rewrite Z.add_0_l. apply IH. exact Hm.
Qed.

Lemma le_bytes_4_u32 (x : Z) : le_bytes 4 (u32 x) = le_bytes 4 x.
Proof. exact (le_bytes_mod 4 x 1 ltac:(lia)). Qed.

Lemma pushUint16_end (v : Z) (p p' : Program.t) (u : unit) :
  Program.pushUint16 v 0 p = Ok (u, p') ->
  Program.activeSubroutines p' = Program.activeSubroutines p
  /\ currentOps p' = currentOps p ++ le_bytes 2 v.
Proof.
  intros H. apply write_Ok in H as [Hs Hw]. split; [exact Hs|].
  cbn [Z.eqb] in Hw. unfold writeUint16 in Hw. rewrite write_at_end, le_bytes_2_u32 in Hw.
  congruence.
Qed.

(** A reference to a symbol that is neither a type argument nor a type
    variable lowers its type arguments and calls the symbol's routine. *)
Lemma handle_reference_call {enc : Encoding} (node : Node) (name : Ident) (symbol : Symbol.t)
    (p : Program.t) :
  referenceName node = Some name ->
  Program.findSymbol (escapedText name) p = Some symbol ->
  Compiler.isTypeArgumentOrVariable symbol = false ->
  Compiler.handle node p
  = (match referenceArguments node with
     | Some l => forM_ Compiler.handle l
     | None => ret tt
     end ;;
     Compiler.pushCall symbol (identSpan name) (lengthOpt (referenceArguments node))) p.
Proof.
  intros Hname Hfind Hkind. destruct node; try discriminate Hname; simpl in Hname.
  - (* TypeReference *)
    match goal with H : toIdentifier ?n = Some _ |- _ => destruct n; try discriminate H end.
    inversion Hname; subst name; clear Hname.
    simpl in *. unfold bind at 1. simpl. unfold bind at 1, gets. rewrite Hfind. simpl.
    rewrite Hkind. reflexivity.
  - (* Identifier *)
    inversion Hname; subst name; clear Hname.
    simpl in *. unfold bind at 1, gets. rewrite Hfind. simpl. rewrite Hkind. reflexivity.
Qed.

Lemma arguments_lowered {enc : Encoding} (arguments : option (list Node)) :
  Steps lowered (match arguments with
                 | Some l => forM_ Compiler.handle l
                 | None => ret tt
                 end).
Proof.
  destruct arguments as [l|]; [|apply (Steps_ret _ lowered_refl)].
  apply (Steps_forM _ lowered_refl lowered_trans). intros x _. apply handle_lowered.
Qed.

(** X14: a reference calls the subroutine that carries its name.  In a
    program whose subroutines have their positions as indices and whose
    symbols are linked to subroutines, lowering a reference to a name that
    resolves to a symbol other than a type argument or variable lowers the
    type arguments, if any, and then appends [Call], the position of a
    subroutine whose identifier is that name, on four bytes, and the number
    of type arguments, on two. *)
Theorem reference_calls_named_subroutine {enc : Encoding} (node : Node) (name : Ident)
    (symbol : Symbol.t) (p p' : Program.t) :
  referenceName node = Some name ->
  Program.findSymbol (escapedText name) p = Some symbol ->
  Compiler.isTypeArgumentOrVariable symbol = false ->
  subsWf p ->
  linked p ->
  Compiler.handle node p = Ok (tt, p') ->
  exists (r : nat) (sub : Subroutine.t) (q : Program.t),
    Program.subroutines p !! r = Some sub
    /\ Subroutine.identifier sub = escapedText name
    /\ match referenceArguments node with
       | Some l => forM_ Compiler.handle l
       | None => ret tt
       end p = Ok (tt, q)
    /\ currentOps p'
       = currentOps q ++ [op_code OP.Call] ++ le_bytes 4 (Z.of_nat r)
           ++ le_bytes 2 (lengthOpt (referenceArguments node)).
Proof.
  intros Hname Hfind Hkind Hwf Hlinked Hrun.
  rewrite (handle_reference_call node name symbol p Hname Hfind Hkind) in Hrun.
  apply bind_Ok in Hrun as ([] & q & Hargs & Hcall).
  pose proof (arguments_lowered _ p tt q Hargs) as (_ & _ & Hext & _).
  unfold Compiler.pushCall in Hcall. apply bind_Ok in Hcall as ([] & p1 & Hop & Hcall).
  destruct (Symbol.routine symbol) as [r|] eqn:Hroutine; [|discriminate Hcall].
  apply bind_Ok in Hcall as (index & p1' & Hindex & Hcall).
  unfold Compiler.routineIndex in Hindex.
  apply bind_Ok in Hindex as (sub1 & p1'' & Hsub1 & Hindex).
  apply defined_Ok in Hsub1 as [Hsub1 ->]. apply ret_Ok in Hindex as [-> ->].
  apply bind_Ok in Hcall as ([] & p2 & Haddress & Hcount).
  unfold Program.findSymbol in Hfind.
  apply findSymbolFrom_Some in Hfind as (k & g & i & Hk & Hi & Hsname & _).
  destruct (Hlinked g symbol r) as (sub & Hsub & Hid).
  { apply list_elem_of_In, list_elem_of_lookup. exists k. exact Hk. }
  { apply list_elem_of_In, list_elem_of_lookup. exists i. exact Hi. }
  { exact Hroutine. }
  exists r, sub, q. split; [exact Hsub|]. split; [congruence|]. split; [exact Hargs|].
  destruct Hext as [_ Hext]. destruct (Hext r sub Hsub) as (subq & Hsubq & Kq).
  pose proof (Appends_pushOpAt _ _ _ _ _ Hop) as [_ Hops1].
  assert (Hstep : codeStep q p1).
  { unfold Program.pushOpAt in Hop. apply bind_Ok in Hop as ([] & q1 & Hmap & Hpush).
    apply (codeStep_trans _ q1); [|exact (codeStep_pushOp _ _ _ _ Hpush)].
    unfold identSpan in Hmap. exact (codeStep_pushSourceMap _ _ _ _ _ Hmap). }
  destruct Hstep as (_ & _ & _ & Halt). destruct (Halt r subq Hsubq) as (sub1' & Hsub1' & K1).
  assert (Hix : Subroutine.index sub1 = u32 (Z.of_nat r)).
  { rewrite Hsub1 in Hsub1'. inversion Hsub1'; subst sub1'.
    rewrite (kept_index _ _ K1), (kept_index _ _ Kq). exact (proj1 (Hwf r sub Hsub)). }
  apply pushAddress_end in Haddress as [_ Hops2].
  apply pushUint16_end in Hcount as [_ Hops3].
  rewrite Hops3, Hops2, Hops1, Hix, !le_bytes_4_u32, <- !app_assoc. reflexivity.
Qed.

Lemma reference_calls_named_subroutine_witness :
  exists (p p' : Program.t) (r : nat) (sub : Subroutine.t),
    @Compiler.handle sampleEncoding fooAlias Program.new = Ok (tt, p)
    /\ @Compiler.handle sampleEncoding (typeRef 52 56 "Foo") p = Ok (tt, p')
    /\ Program.subroutines p !! r = Some sub
    /\ Subroutine.identifier sub = "Foo"%string
    /\ currentOps p'
       = currentOps p ++ [@op_code sampleEncoding OP.Call] ++ le_bytes 4 (Z.of_nat r)
           ++ le_bytes 2 0.
Proof.
  assert (Hstate : exists p, @Compiler.handle sampleEncoding fooAlias Program.new = Ok (tt, p))
    by (vm_compute; eexists; reflexivity).
  destruct Hstate as [p Hstate].
  destruct (@handle_lowered sampleEncoding fooAlias Program.new tt p Hstate)
    as (_ & _ & _ & Hwf & Hlinked & _).
  specialize (Hwf subsWf_new). specialize (Hlinked linked_new).
  pose proof Hstate as Hp. vm_compute in Hp. inversion Hp as [Ep]; clear Hp.
  assert (Hfind : exists symbol,
             Program.findSymbol "Foo" p = Some symbol
             /\ Compiler.isTypeArgumentOrVariable symbol = false)
    by (subst p; vm_compute; eexists; split; reflexivity).
  destruct Hfind as (symbol & Hfind & Hkind).
  assert (Hrun : exists p', @Compiler.handle sampleEncoding (typeRef 52 56 "Foo") p = Ok (tt, p'))
    by (subst p; vm_compute; eexists; reflexivity).
  destruct Hrun as [p' Hrun].
  destruct (@reference_calls_named_subroutine sampleEncoding (typeRef 52 56 "Foo")
              (ident 52 56 "Foo") symbol p p' eq_refl Hfind Hkind Hwf Hlinked Hrun)
    as (r & sub & q & Hsub & Hid & Hargs & Hops).
  cbn in Hargs. inversion Hargs; subst q.
  exists p, p', r, sub. auto 10.
Defined.

Lemma handle_new_lowered {enc : Encoding} (file : Node) (p : Program.t) :
  Compiler.compileSourceFile file = Ok p -> lowered Program.new p.
Proof.
  unfold Compiler.compileSourceFile. intros H.
  destruct (Compiler.handle file Program.new) as [[[] q]| |] eqn:Hrun; try discriminate H.
  inversion H; subst q. exact (handle_lowered file Program.new tt p Hrun).
Qed.

Lemma storageBlockEnd_le_imageSize (p : Program.t) :
  storageBlockEnd (Program.storage p) <= imageSize p.
Proof. unfold imageSize, mainStart, routineStart, codeStart, headersStart. lia. Qed.

(** The name address in the meta-data of the [i]-th subroutine. *)
Lemma image_name_address {enc : Encoding} (p : Program.t) (image : list Z) (i : nat)
    (sub : Subroutine.t) :
  imageSize p < 2 ^ 32 ->
  Program.build p = Some image ->
  Program.subroutines p !! i = Some sub ->
  readUint32 image (headersStart p + 10 * Z.of_nat i + 1) = u32 (Subroutine.nameAddress sub).
Proof.
  intros Hsize Hbuild Hi.
  destruct (build_blocks p Hsize)
    as (B1 & B2 & B3 & B5 & Hblocks & _ & _ & E3 & _ & _ & L12 & _ & Hafter).
  assert (Himage : image = B1 ++ B2 ++ B3 ++ ([op_code OP.Main] ++ le_bytes 4 (mainStart p))
                             ++ B5 ++ Program.ops p ++ [op_code OP.Halt]) by congruence.
  pose proof (headerBytes_split (codeStart p) _ i sub Hi) as Hsplit.
  rewrite Hafter in Hsplit. rewrite <- E3 in Hsplit.
  set (hpre := headerBytes (codeStart p) (take i (Program.subroutines p))) in *.
  set (hpost := headerBytes _ (drop (S i) (Program.subroutines p))) in *.
  assert (Hlt : (i < length (Program.subroutines p))%nat) by (eapply lookup_lt_Some; eauto).
  assert (Lh : Z.of_nat (length ((B1 ++ B2) ++ hpre)) = headersStart p + 10 * Z.of_nat i).
  { rewrite (length_app (B1 ++ B2)). unfold hpre. rewrite headerBytes_length, length_take. lia. }
  rewrite Himage, Hsplit. unfold headerOf.
  set (rest := le_bytes 4 (routineStart p i) ++ [Subroutine.getFlags sub] ++ hpost
               ++ ([op_code OP.Main] ++ le_bytes 4 (mainStart p))
               ++ B5 ++ Program.ops p ++ [op_code OP.Halt]).
  replace (B1 ++ B2 ++ (hpre ++ ([op_code OP.Subroutine]
                                   ++ le_bytes 4 (Subroutine.nameAddress sub)
                                   ++ le_bytes 4 (routineStart p i)
                                   ++ [Subroutine.getFlags sub]) ++ hpost)
             ++ ([op_code OP.Main] ++ le_bytes 4 (mainStart p))
             ++ B5 ++ Program.ops p ++ [op_code OP.Halt])
    with ((((B1 ++ B2) ++ hpre) ++ [op_code OP.Subroutine])
            ++ le_bytes 4 (Subroutine.nameAddress sub) ++ rest)
    by (unfold rest; same_list).
  apply readUint32_block.
  rewrite (length_app ((B1 ++ B2) ++ hpre)). cbn [length]. lia.
Qed.

(** A text of the storage table in the image. *)
Lemma image_storage_entry {enc : Encoding} (p : Program.t) (image : list Z)
    (before after : list string) (text : string) :
  Program.build p = Some image ->
  Program.storage p = before ++ text :: after ->
  slice image (storageBlockEnd before) (8 + 2 + String.length text) = storageEntry text.
Proof.
  intros Hbuild Hstorage. destruct (build_layout p) as [tail Hlayout].
  assert (Himage : image
                   = [op_code OP.Jump] ++ le_bytes 4 (Program.storageEnd (Program.storage p))
                     ++ storageBlock (Program.storage p)
                     ++ [op_code OP.SourceMap] ++ tail ++ [op_code OP.Halt])
    by congruence.
  rewrite Himage, Hstorage.
  replace (before ++ text :: after) with (before ++ [text] ++ after) by reflexivity.
  rewrite !storageBlock_app.
  assert (Hentry : storageBlock [text] = storageEntry text)
    by (unfold storageBlock, storageEntry; cbn [map concat]; rewrite app_nil_r; reflexivity).
  rewrite Hentry.
  assert (Hlen : length (storageEntry text) = (8 + 2 + String.length text)%nat)
    by (unfold storageEntry; rewrite !length_app, !le_bytes_length, bytesOf_length; lia).
  rewrite <- Hlen.
  set (jump := le_bytes 4 _).
  assert (Ljump : length jump = 4%nat) by apply le_bytes_length.
  replace ([op_code OP.Jump] ++ jump
             ++ (storageBlock before ++ storageEntry text ++ storageBlock after)
             ++ [op_code OP.SourceMap] ++ tail ++ [op_code OP.Halt])
    with (([op_code OP.Jump] ++ jump ++ storageBlock before)
            ++ storageEntry text
            ++ (storageBlock after ++ [op_code OP.SourceMap] ++ tail ++ [op_code OP.Halt]))
    by same_list.
  apply slice_block. rewrite !length_app. cbn [length].
  pose proof (storageBlock_length before). lia.
Qed.

(** X15: the image of a compiled source file names its subroutines.  In
    an image shorter than 2^32 bytes, the name address in the meta-data of
    each subroutine is 0 when the subroutine has no name, and otherwise the
    offset in the image of a storage entry made of the hash, the length and
    the bytes of the subroutine's identifier. *)
Theorem compiled_image_names_subroutines {enc : Encoding} (file : Node) (p : Program.t)
    (image : list Z) :
  Compiler.compileSourceFile file = Ok p ->
  imageSize p < 2 ^ 32 ->
  Program.build p = Some image ->
  forall (i : nat) (sub : Subroutine.t),
    Program.subroutines p !! i = Some sub ->
    let address := readUint32 image (headersStart p + 10 * Z.of_nat i + 1) in
    (Subroutine.identifier sub = EmptyString /\ address = 0)
    \/ slice image address (8 + 2 + String.length (Subroutine.identifier sub))
       = storageEntry (Subroutine.identifier sub).
Proof.
  intros Hcompile Hsize Hbuild i sub Hi address.
  pose proof (storageBlockEnd_le_imageSize p) as Hle.
  destruct (handle_new_lowered file p Hcompile) as (_ & _ & _ & _ & _ & Hnames).
  assert (Hstored : namesStored p).
  { apply Hnames; [left; split; reflexivity|lia|exact namesStored_new]. }
  unfold address. rewrite (image_name_address p image i sub Hsize Hbuild Hi).
  destruct (Hstored i sub Hi) as [[Hid Hzero]|(before & after & Hstorage & Haddress)].
  - left. split; [exact Hid|]. rewrite Hzero. reflexivity.
  - right. rewrite Haddress.
    assert (Hrange : 0 <= storageBlockEnd before < 2 ^ 32).
    { pose proof (storageBlockEnd_app before (Subroutine.identifier sub :: after)) as Hb.
      rewrite <- Hstorage in Hb. unfold storageBlockEnd in *. lia. }
    rewrite u32_small by exact Hrange.
    exact (image_storage_entry p image before after _ Hbuild Hstorage).
Qed.

Lemma compiled_image_names_subroutines_witness :
  exists p image sub,
    @Compiler.compileSourceFile sampleEncoding objectAlias = Ok p
    /\ imageSize p < 2 ^ 32
    /\ @Program.build sampleEncoding p = Some image
    /\ Program.subroutines p !! 0%nat = Some sub
    /\ Subroutine.identifier sub = "A"%string
    /\ slice image (readUint32 image (headersStart p + 10 * 0 + 1)) (8 + 2 + 1)
       = @storageEntry sampleEncoding "A".
Proof.
  assert (Hp : exists p sub,
             @Compiler.compileSourceFile sampleEncoding objectAlias = Ok p
             /\ Program.subroutines p !! 0%nat = Some sub
             /\ Subroutine.identifier sub = "A"%string)
    by (vm_compute; eexists; eexists; split; [reflexivity|split; reflexivity]).
  destruct Hp as (p & sub & Hp & Hsub & Hid).
  pose proof Hp as Ep. vm_compute in Ep. inversion Ep as [Ep']; clear Ep.
  assert (Hsize : imageSize p < 2 ^ 32) by (rewrite <- Ep'; vm_compute; reflexivity).
  assert (Hbuild : exists image, @Program.build sampleEncoding p = Some image)
    by (destruct (@build_layout sampleEncoding p) as [rest ->]; eexists; reflexivity).
  destruct Hbuild as [image Hbuild].
  destruct (@compiled_image_names_subroutines sampleEncoding objectAlias p image Hp Hsize Hbuild
              0%nat sub Hsub) as [[Hempty _]|Hslice].
  - rewrite Hid in Hempty. discriminate Hempty.
  - rewrite Hid in Hslice. exists p, image, sub. auto 10.
Defined.

Lemma routineStart_bounds (p : Program.t) (i : nat) (sub : Subroutine.t) :
  Program.subroutines p !! i = Some sub ->
  0 <= routineStart p i
  /\ routineStart p i + Z.of_nat (length (Subroutine.ops sub)) <= mainStart p.
Proof.
  intros Hi. unfold mainStart, routineStart. rewrite firstn_all.
  rewrite (code_split _ i sub Hi), !length_app.
  unfold codeStart, headersStart, storageBlockEnd. lia.
Qed.

(** X16: the source map of a compiled image points into the code.  In the
    image of a compiled source file, shorter than 2^32 bytes, the position
    stored in every source-map entry of a subroutine lies between the
    offset of the first byte of that subroutine's code and the offset
    after its last byte, and the position stored in every entry of "main"
    lies within the code of "main" in the same way. *)
Theorem compiled_source_map_in_code {enc : Encoding} (file : Node) (p : Program.t)
    (image : list Z) :
  Compiler.compileSourceFile file = Ok p ->
  imageSize p < 2 ^ 32 ->
  Program.build p = Some image ->
  (forall (i k : nat) (sub : Subroutine.t) (entry : SourceMapEntry.t),
      Program.subroutines p !! i = Some sub ->
      Subroutine.sourceMap sub !! k = Some entry ->
      routineStart p i <= readUint32 image (entryOffset p i k)
      <= routineStart p i + Z.of_nat (length (Subroutine.ops sub)))
  /\ (forall (k : nat) (entry : SourceMapEntry.t),
        Program.sourceMap p !! k = Some entry ->
        mainStart p <= readUint32 image (entryOffset p (length (Program.subroutines p)) k)
        <= mainStart p + Z.of_nat (length (Program.ops p))).
Proof.
  intros Hcompile Hsize Hbuild.
  destruct (handle_new_lowered file p Hcompile) as (_ & Hmain & _ & Hsubs & _).
  specialize (Hsubs subsWf_new). destruct Hmain as [_ Hmain].
  specialize (Hmain (List.Forall_nil _)).
  assert (Hend : mainStart p + Z.of_nat (length (Program.ops p)) < 2 ^ 32)
    by (unfold imageSize in Hsize; lia).
  split.
  - intros i k sub entry Hi Hk.
    destruct (image_routine_entry p image i k sub entry Hsize Hbuild Hi Hk) as [Hread _].
    destruct (Hsubs i sub Hi) as (_ & _ & Hmap).
    unfold mapInRange in Hmap. rewrite List.Forall_forall in Hmap.
    assert (Hin : In entry (Subroutine.sourceMap sub))
      by (apply list_elem_of_In, list_elem_of_lookup; exists k; exact Hk).
    specialize (Hmap entry Hin). cbn in Hmap.
    destruct (routineStart_bounds p i sub Hi) as [H0 Hle].
    rewrite Hread, u32_small by lia. lia.
  - intros k entry Hk.
    destruct (image_main_entry p image k entry Hsize Hbuild Hk) as [Hread _].
    unfold mapInRange in Hmain. rewrite List.Forall_forall in Hmain.
    assert (Hin : In entry (Program.sourceMap p))
      by (apply list_elem_of_In, list_elem_of_lookup; exists k; exact Hk).
    specialize (Hmain entry Hin). cbn in Hmain.
    assert (H0 : 0 <= mainStart p)
      by (unfold mainStart, routineStart, codeStart, headersStart, storageBlockEnd; lia).
    rewrite Hread, u32_small by lia. lia.
Qed.

Lemma compiled_source_map_in_code_witness :
  exists p image sub entry,
    @Compiler.compileSourceFile sampleEncoding unionAlias = Ok p
    /\ imageSize p < 2 ^ 32
    /\ @Program.build sampleEncoding p = Some image
    /\ Program.subroutines p !! 0%nat = Some sub
    /\ Subroutine.sourceMap sub !! 1%nat = Some entry
    /\ routineStart p 0 <= readUint32 image (entryOffset p 0 1)
       <= routineStart p 0 + Z.of_nat (length (Subroutine.ops sub)).
Proof.
  assert (Hp : exists p sub entry,
             @Compiler.compileSourceFile sampleEncoding unionAlias = Ok p
             /\ Program.subroutines p !! 0%nat = Some sub
             /\ Subroutine.sourceMap sub !! 1%nat = Some entry)
    by (vm_compute; eexists; eexists; eexists; split; [reflexivity|split; reflexivity]).
  destruct Hp as (p & sub & entry & Hp & Hsub & Hentry).
  pose proof Hp as Ep. vm_compute in Ep. inversion Ep as [Ep']; clear Ep.
  assert (Hsize : imageSize p < 2 ^ 32) by (rewrite <- Ep'; vm_compute; reflexivity).
  assert (Hbuild : exists image, @Program.build sampleEncoding p = Some image)
    by (destruct (@build_layout sampleEncoding p) as [rest ->]; eexists; reflexivity).
  destruct Hbuild as [image Hbuild].
  destruct (@compiled_source_map_in_code sampleEncoding unionAlias p image Hp Hsize Hbuild)
    as [Hroutines _].
  exists p, image, sub, entry. split; [exact Hp|]. split; [exact Hsize|].
  split; [exact Hbuild|]. split; [exact Hsub|]. split; [exact Hentry|].
  exact (Hroutines 0%nat 1%nat sub entry Hsub Hentry).
Defined.

(** ** Edges of the tail analysis *)

Lemma reuseRest_length {enc : Encoding} (ops ops' : list Z) (usage : TypeArgumentUsage.t) :
  Subroutine.reuseRest ops usage = Some ops' -> length ops' = length ops.
Proof.
  intros H. apply (reuseRests_length [usage] ops ops').
  cbn [Subroutine.reuseRests]. rewrite H. reflexivity.
Qed.

Lemma reuseRests_out_of_range {enc : Encoding} (usages : list TypeArgumentUsage.t)
    (usage : TypeArgumentUsage.t) (n : nat) :
  In usage usages ->
  ~ (0 <= TypeArgumentUsage.ip usage < Z.of_nat n) ->
  forall ops, length ops = n -> Subroutine.reuseRests ops usages = None.
Proof.
  intros Hin Hout. induction usages as [|first rest IH]; [destruct Hin|].
  intros ops Hlen. cbn [Subroutine.reuseRests].
  destruct (Subroutine.reuseRest ops first) as [ops1|] eqn:Hfirst; [|reflexivity].
  cbn [mbind option_bind]. destruct Hin as [->|Hin].
  - unfold Subroutine.reuseRest in Hfirst.
    destruct (at_ ops (TypeArgumentUsage.ip usage)) as [op|] eqn:Hat; [|discriminate Hfirst].
    apply at_Some in Hat as [Hrange _]. rewrite Hlen in Hrange. contradiction.
  - apply (IH Hin). rewrite (reuseRest_length _ _ _ Hfirst). exact Hlen.
Qed.

Lemma optimiseSection_length {enc : Encoding} (secs : list Section.t) (ops ops' : list Z)
    (section : Section.t) :
  Subroutine.optimiseSection secs ops section = Some ops' -> length ops' = length ops.
Proof.
  intros H. apply (optimiseSections_length secs [section] ops ops').
  cbn [Subroutine.optimiseSections]. rewrite H. reflexivity.
Qed.

Lemma optimiseSections_out_of_range {enc : Encoding} (secs todo : list Section.t)
    (section : Section.t) (usage : TypeArgumentUsage.t) (n : nat) :
  In section todo ->
  Subroutine.isTail secs section = Some true ->
  In usage (Section.typeArgumentUsages section) ->
  ~ (0 <= TypeArgumentUsage.ip usage < Z.of_nat n) ->
  forall ops, length ops = n -> Subroutine.optimiseSections secs ops todo = None.
Proof.
  intros Hin Htail Husage Hout. induction todo as [|first rest IH]; [destruct Hin|].
  intros ops Hlen. cbn [Subroutine.optimiseSections].
  destruct (Subroutine.optimiseSection secs ops first) as [ops1|] eqn:Hfirst; [|reflexivity].
  cbn [mbind option_bind]. destruct Hin as [->|Hin].
  - unfold Subroutine.optimiseSection in Hfirst. rewrite Htail in Hfirst.
    cbn [mbind option_bind] in Hfirst.
    destruct (OP.eqb (Section.lastOp section) OP.Call).
    + destruct (store ops _ _) as [ops2|] eqn:Hstore; [|discriminate Hfirst].
      cbn [mbind option_bind] in Hfirst.
      rewrite (reuseRests_out_of_range _ usage n Husage Hout) in Hfirst; [discriminate Hfirst|].
      rewrite (store_length _ _ _ _ Hstore). exact Hlen.
    + cbn [mbind option_bind] in Hfirst.
      rewrite (reuseRests_out_of_range _ usage n Husage Hout ops Hlen) in Hfirst.
      discriminate Hfirst.
  - apply (IH Hin). rewrite (optimiseSection_length _ _ _ _ Hfirst). exact Hlen.
Qed.

(** X17: [optimise] indexes the buffer without a bounds check.  If a
    section for which the loop of [optimise] reaches [if (tail)] with
    [tail] set holds a type-argument usage whose [ip] is not a position of
    the buffer, [ops[usage.ip]] is read out of range.  This is what happens
    when the body of a type alias ends with a reference to one of its type
    parameters, whose usage is registered at the position after the
    operands of [Loads], where nothing has been written yet when
    [popSubroutine] calls [optimise]. *)
Theorem optimise_reads_out_of_range {enc : Encoding} (sub : Subroutine.t) (section : Section.t)
    (usage : TypeArgumentUsage.t) :
  In section (Subroutine.sections sub) ->
  Subroutine.isTail (Subroutine.sections sub) section = Some true ->
  In usage (Section.typeArgumentUsages section) ->
  ~ (0 <= TypeArgumentUsage.ip usage < Z.of_nat (length (Subroutine.ops sub))) ->
  Subroutine.optimise sub = Undef.
Proof.
  intros Hin Htail Husage Hout. unfold Subroutine.optimise, bind.
  rewrite (optimiseSections_out_of_range _ _ section usage _ Hin Htail Husage Hout
             (Subroutine.ops sub) eq_refl).
  reflexivity.
Qed.

Lemma optimise_reads_out_of_range_witness :
  exists sub section usage,
    identityBeforeOptimise = Some sub
    /\ Subroutine.sections sub = [section]
    /\ Section.typeArgumentUsages section = [usage]
    /\ TypeArgumentUsage.ip usage = Z.of_nat (length (Subroutine.ops sub))
    /\ @Subroutine.optimise sampleEncoding sub = Undef
    /\ @Compiler.compileSourceFile sampleEncoding identityAlias = Undef.
Proof.
  assert (H : exists sub section usage,
             identityBeforeOptimise = Some sub
             /\ Subroutine.sections sub = [section]
             /\ Section.typeArgumentUsages section = [usage]
             /\ TypeArgumentUsage.ip usage = Z.of_nat (length (Subroutine.ops sub))
             /\ Subroutine.isTail (Subroutine.sections sub) section = Some true)
    by (vm_compute; do 3 eexists; split; [reflexivity|]; split; [reflexivity|];
        split; [reflexivity|]; split; reflexivity).
  destruct H as (sub & section & usage & Hsub & Hsections & Husages & Hip & Htail).
  exists sub, section, usage. split; [exact Hsub|]. split; [exact Hsections|].
  split; [exact Husages|]. split; [exact Hip|]. split; [|vm_compute; reflexivity].
  apply (@optimise_reads_out_of_range sampleEncoding sub section usage).
  - rewrite Hsections. left. reflexivity.
  - exact Htail.
  - rewrite Husages. left. reflexivity.
  - rewrite Hip. lia.
Defined.

(** ** Declaring a name again *)

Lemma findPos_first {A : Type} (f : A -> bool) (l : list A) (i : nat) (v : A) :
  l !! i = Some v -> f v = true ->
  (forall j w, (j < i)%nat -> l !! j = Some w -> f w = false) ->
  Program.findPos f l = Some i.
Proof.
  revert i. induction l as [|x l IH]; intros i Hv Hf Hbefore; [discriminate Hv|].
  cbn [Program.findPos]. destruct i as [|i].
  - cbn in Hv. inversion Hv; subst x. rewrite Hf. reflexivity.
  - rewrite (Hbefore O x) by (lia || reflexivity).
    rewrite (IH i Hv Hf); [reflexivity|].
    intros j w Hj Hw. apply (Hbefore (S j) w); [lia|exact Hw].
Qed.

(** [pushSymbolForRoutine] on a name whose symbol owns a routine. *)
Lemma pushSymbolForRoutine_again (name : string) (type : SymbolType.t) (pos end_ : Z)
    (p : Program.t) (i : nat) (v : Symbol.t) (r : nat) :
  type <> SymbolType.TypeVariable ->
  Frame.symbols (Program.frame p) !! i = Some v ->
  Symbol.name v = name ->
  (forall j w, (j < i)%nat -> Frame.symbols (Program.frame p) !! j = Some w ->
               Symbol.name w <> name) ->
  Symbol.routine v = Some r ->
  Program.pushSymbolForRoutine name type pos end_ p
  = Ok (i, Program.with_frame
             (Frame.with_symbols
                (alter (fun v => Symbol.with_declarations (u32 (Symbol.declarations v + 1)) v) i
                   (Frame.symbols (Program.frame p)))
                (Program.frame p)) p).
Proof.
  intros Htype Hv Hname Hbefore Hroutine.
  assert (Hpos : Program.findPos (fun w => String.eqb (Symbol.name w) name)
                   (Frame.symbols (Program.frame p)) = Some i).
  { apply (findPos_first _ _ i v Hv); [apply String.eqb_eq; exact Hname|].
    intros j w Hj Hw. apply String.eqb_neq. exact (Hbefore j w Hj Hw). }
  assert (Hkind : SymbolType.eqb type SymbolType.TypeVariable = false).
  { unfold SymbolType.eqb. destruct (SymbolType.eq_dec _ _); [contradiction|reflexivity]. }
  unfold Program.pushSymbolForRoutine, Program.pushSymbol, Program.symbolAt, Program.alterFrame.
  unfold bind at 1. unfold bind at 1. cbn [gets]. rewrite Hkind, Hpos.
  unfold bind at 1. cbn [modify ret]. unfold bind at 1.
  cbn [Program.frame Program.with_frame].
  destruct (Program.frame p) as [c previous id symbols]. cbn in Hv |- *.
  rewrite list_lookup_alter_eq, Hv. cbn. rewrite Hroutine. reflexivity.
Qed.

(** X18: a name declared again is only counted.  When the first symbol of
    that name in the current frame owns a routine, lowering a type alias,
    a function or a variable declaration of the name adds one to the
    symbol's declaration count and does nothing else: no opcode, no
    subroutine, no storage entry, and the body of the declaration is not
    lowered. *)
Theorem redeclaration_is_only_counted {enc : Encoding} (node : Node) (name : string)
    (p : Program.t) (i : nat) (v : Symbol.t) (r : nat) :
  declaredName node = Some name ->
  Frame.symbols (Program.frame p) !! i = Some v ->
  Symbol.name v = name ->
  (forall j w, (j < i)%nat -> Frame.symbols (Program.frame p) !! j = Some w ->
               Symbol.name w <> name) ->
  Symbol.routine v = Some r ->
  1 <= Symbol.declarations v < 2 ^ 32 - 1 ->
  Compiler.handle node p
  = Ok (tt, Program.with_frame
              (Frame.with_symbols
                 (alter (Symbol.with_declarations (Symbol.declarations v + 1)) i
                    (Frame.symbols (Program.frame p)))
                 (Program.frame p)) p).
Proof.
  intros Hdeclared Hv Hname Hbefore Hroutine Hcount.
  assert (Hagain : forall type pos end_,
             type <> SymbolType.TypeVariable ->
             Program.pushSymbolForRoutine name type pos end_ p
             = Ok (i, Program.with_frame
                        (Frame.with_symbols
                           (alter (Symbol.with_declarations (Symbol.declarations v + 1)) i
                              (Frame.symbols (Program.frame p)))
                           (Program.frame p)) p)).
  { intros type pos end_ Htype.
    rewrite (pushSymbolForRoutine_again name type pos end_ p i v r Htype Hv Hname Hbefore
               Hroutine).
    do 4 f_equal. rewrite (alter_middle _ _ i v Hv), (alter_middle _ _ i v Hv).
    rewrite u32_small by lia. reflexivity. }
  assert (Hat : forall q,
             q = Program.with_frame
                   (Frame.with_symbols
                      (alter (Symbol.with_declarations (Symbol.declarations v + 1)) i
                         (Frame.symbols (Program.frame p)))
                      (Program.frame p)) p ->
             Program.symbolAt i q
             = Ok (Symbol.with_declarations (Symbol.declarations v + 1) v, q)).
  { intros q ->. unfold Program.symbolAt. cbn [Program.frame Program.with_frame].
    destruct (Program.frame p) as [c previous id symbols]. cbn in Hv |- *.
    rewrite list_lookup_alter_eq, Hv. reflexivity. }
  assert (Hmore : (Symbol.declarations (Symbol.with_declarations (Symbol.declarations v + 1) v)
                   >? 1) = true)
    by (cbn; apply Z.gtb_lt; lia).
  destruct node; try discriminate Hdeclared; cbn in Hdeclared.
  - (* TypeAliasDeclaration *)
    inversion Hdeclared as [Hn]. cbn [Compiler.handle]. rewrite Hn.
    unfold bind at 1. rewrite Hagain by discriminate.
    unfold bind at 1. rewrite (Hat _ eq_refl), Hmore. reflexivity.
  - (* FunctionDeclaration *)
    cbn [Compiler.handle].
    match goal with |- context [?n ≫= toIdentifier] => destruct (n ≫= toIdentifier) as [id|] end;
      [|discriminate Hdeclared].
    cbn in Hdeclared. inversion Hdeclared as [Hn]. rewrite Hn.
    unfold bind at 1. rewrite Hagain by discriminate.
    unfold bind at 1. rewrite (Hat _ eq_refl), Hmore. reflexivity.
  - (* VariableDeclaration *)
    cbn [Compiler.handle].
    match goal with |- context [toIdentifier ?n] => destruct (toIdentifier n) as [id|] end;
      [|discriminate Hdeclared].
    cbn in Hdeclared. inversion Hdeclared as [Hn]. rewrite Hn.
    unfold bind at 1. rewrite Hagain by discriminate.
    unfold bind at 1. rewrite (Hat _ eq_refl), Hmore. reflexivity.
Qed.

Lemma redeclaration_is_only_counted_witness :
  exists (p p' : Program.t) (v : Symbol.t),
    @Compiler.handle sampleEncoding
      (TypeAliasDeclaration 0 16 (ident 5 6 "A") None (KeywordNode 9 15 StringKeyword))
      Program.new = Ok (tt, p)
    /\ Frame.symbols (Program.frame p) !! 0%nat = Some v
    /\ @Compiler.handle sampleEncoding
         (TypeAliasDeclaration 17 33 (ident 22 23 "A") None (KeywordNode 26 32 NumberKeyword)) p
       = Ok (tt, p')
    /\ Program.subroutines p' = Program.subroutines p
    /\ Program.storage p' = Program.storage p
    /\ Frame.symbols (Program.frame p')
       = alter (Symbol.with_declarations (Symbol.declarations v + 1)) 0%nat
           (Frame.symbols (Program.frame p)).
Proof.
  assert (Hstate : exists p v,
             @Compiler.handle sampleEncoding
               (TypeAliasDeclaration 0 16 (ident 5 6 "A") None (KeywordNode 9 15 StringKeyword))
               Program.new = Ok (tt, p)
             /\ Frame.symbols (Program.frame p) !! 0%nat = Some v
             /\ Symbol.name v = "A"%string
             /\ Symbol.routine v = Some 0%nat
             /\ Symbol.declarations v = 1)
    by (vm_compute; do 2 eexists; split; [reflexivity|]; split; [reflexivity|];
        split; [reflexivity|]; split; reflexivity).
  destruct Hstate as (p & v & Hstate & Hv & Hname & Hroutine & Hcount).
  pose proof (@redeclaration_is_only_counted sampleEncoding
                (TypeAliasDeclaration 17 33 (ident 22 23 "A") None
                   (KeywordNode 26 32 NumberKeyword))
                "A" p 0%nat v 0%nat eq_refl Hv Hname) as Hrun.
  eexists p, _, v. split; [exact Hstate|]. split; [exact Hv|]. split.
  - apply Hrun; [intros j w Hj; lia|exact Hroutine|rewrite Hcount; lia].
  - cbn. destruct (Program.frame p). auto.
Defined.

(** ** A declaration whose body lowers to nothing *)

(** [pushSymbolForRoutine] on a name that is new to the current frame. *)
Lemma pushSymbolForRoutine_fresh (name : string) (type : SymbolType.t) (pos end_ : Z)
    (p : Program.t) :
  (forall v, In v (Frame.symbols (Program.frame p)) -> Symbol.name v <> name) ->
  let symbols := Frame.symbols (Program.frame p) in
  let address := if Program.storageIndex p =? 0 then 1 + 4 else Program.storageIndex p in
  let routine := Subroutine.with_index (size (Program.subroutines p))
                   (Subroutine.with_nameAddress address
                      (Subroutine.with_type type (Subroutine.new name))) in
  let symbol := Symbol.mk name type (size symbols) (u32 pos) (u32 end_) 1
                  (Some (length (Program.subroutines p))) (Frame.id (Program.frame p)) in
  Program.pushSymbolForRoutine name type pos end_ p
  = Ok (length symbols,
        Program.mk (Program.ops p) (Program.sourceMap p) (Program.storage p ++ [name])
          (u32 (address + (8 + 2 + Z.of_nat (String.length name))))
          (Frame.with_symbols (symbols ++ [symbol]) (Program.frame p))
          (Program.activeSubroutines p) (Program.subroutines p ++ [routine])).
Proof.
  intros Hfresh symbols address routine symbol.
  assert (Hpos : (if SymbolType.eqb type SymbolType.TypeVariable then None
                  else Program.findPos (fun v => String.eqb (Symbol.name v) name) symbols)
                 = None).
  { destruct (SymbolType.eqb type SymbolType.TypeVariable); [reflexivity|].
    apply findPos_None. intros v Hv. apply String.eqb_neq. exact (Hfresh v Hv). }
  subst symbols address routine symbol.
  destruct p as [ops map storage index [c previous id syms] stack subs].
  cbn [Program.frame Program.ops Program.sourceMap Program.storage Program.storageIndex
       Program.activeSubroutines Program.subroutines Frame.symbols Frame.id] in *.
  unfold Program.pushSymbolForRoutine, Program.pushSymbol, Program.symbolAt,
    Program.registerStorage, Program.alterFrame, bind, gets, modify, ret, defined.
  cbn [Program.frame Frame.symbols]. rewrite Hpos.
  cbn [Program.frame Program.with_frame Frame.symbols Frame.with_symbols].
  rewrite list_lookup_middle by reflexivity. cbn [Symbol.routine ret].
  cbn [Program.storageIndex Program.with_frame].
  destruct (index =? 0);
    cbn [Program.frame Program.ops Program.sourceMap Program.storage Program.storageIndex
         Program.activeSubroutines Program.subroutines Frame.symbols Frame.id
         Program.with_frame Program.with_storage Program.with_storageIndex
         Program.with_subroutines Frame.with_symbols Frame.conditional Frame.previous];
    rewrite (alter_middle _ _ (length syms) _ (list_lookup_middle _ _ _ _ eq_refl));
    rewrite take_app_length;
    (replace (drop (S (length syms)) (syms ++ [_])) with (@nil Symbol.t)
       by (symmetry; apply drop_ge; rewrite length_app; cbn; lia));
    rewrite length_app; cbn [length];
    (replace (length subs + 1 - 1)%nat with (length subs) by lia);
    reflexivity.
Qed.

Lemma find_fresh {A : Type} (f : A -> bool) (l : list A) :
  (forall x, In x l -> f x = false) -> List.find f l = None.
Proof.
  induction l as [|x l IH]; intros H; [reflexivity|]. cbn [List.find].
  rewrite (H x) by (left; reflexivity). apply IH. intros y Hy. apply H. right. exact Hy.
Qed.

(** The fields of a program given by its constructor. *)
Ltac state_cbn :=
  cbn [Program.frame Program.ops Program.sourceMap Program.storage Program.storageIndex
       Program.activeSubroutines Program.subroutines
       Program.with_frame Program.with_ops Program.with_sourceMap Program.with_storage
       Program.with_storageIndex Program.with_activeSubroutines Program.with_subroutines
       Frame.symbols Frame.id Frame.conditional Frame.previous
       Frame.with_symbols Frame.with_id Frame.with_conditional Frame.new].

Lemma popSubroutine_empty {enc : Encoding} (q : Program.t) (r : nat) (rest : list nat)
    (sub : Subroutine.t) :
  Program.activeSubroutines q = r :: rest ->
  Program.subroutines q !! r = Some sub ->
  Subroutine.ops sub = [] ->
  Program.popSubroutine q = Throw "Routine is empty".
Proof.
  intros Hs Hr Hops. unfold Program.popSubroutine.
  eapply bind_run; [reflexivity|]. rewrite Hs.
  eapply bind_run; [reflexivity|]. unfold bind at 1.
  erewrite onActive_run; [|destruct (Frame.previous (Program.frame q)); exact Hs
                          |destruct (Frame.previous (Program.frame q)); exact Hr
                          |reflexivity].
  cbn [gets]. rewrite Hops. reflexivity.
Qed.

(** X19: a type alias whose body lowers to nothing is a fatal error.  For
    a name that is new to the current frame and a body of a kind [handle]
    emits nothing for, as the kinds it does not know, the alias gets its
    symbol, its storage entry and its subroutine, and then [popSubroutine]
    throws "Routine is empty". *)
Theorem alias_of_nothing_throws {enc : Encoding} (pos end_ : Z) (name : Ident) (body : Node)
    (p : Program.t) :
  (forall v, In v (Frame.symbols (Program.frame p)) -> Symbol.name v <> escapedText name) ->
  (forall q, Compiler.handle body q = Ok (tt, q)) ->
  Compiler.handle (TypeAliasDeclaration pos end_ name None body) p = Throw "Routine is empty".
Proof.
  intros Hfresh Hbody. cbn [Compiler.handle].
  pose proof (pushSymbolForRoutine_fresh (escapedText name) SymbolType.Type_ pos end_ p Hfresh)
    as Hpush. cbv zeta in Hpush.
  destruct p as [ops map storage index [c previous id syms] stack subs].
  cbn [Program.frame Program.ops Program.sourceMap Program.storage Program.storageIndex
       Program.activeSubroutines Program.subroutines Frame.symbols Frame.id
       Frame.with_symbols Frame.conditional Frame.previous] in *.
  set (address := if index =? 0 then 1 + 4 else index) in *.
  set (routine := Subroutine.with_index (size subs)
                    (Subroutine.with_nameAddress address
                       (Subroutine.with_type SymbolType.Type_
                          (Subroutine.new (escapedText name))))) in *.
  set (symbol := Symbol.mk (escapedText name) SymbolType.Type_ (size syms) (u32 pos) (u32 end_) 1
                   (Some (length subs)) id) in *.
  eapply bind_run; [exact Hpush|]. clear Hpush.
  eapply bind_run.
  { unfold Program.symbolAt. state_cbn.
    rewrite list_lookup_middle by reflexivity. reflexivity. }
  cbn [Symbol.declarations symbol]. change (1 >? 1) with false. cbv iota.
  assert (Hown : Program.findOwn (escapedText name) (syms ++ [symbol]) = Some symbol).
  { unfold Program.findOwn. rewrite find_app, find_fresh.
    - cbn. rewrite String.eqb_refl. reflexivity.
    - intros v Hv. apply String.eqb_neq. exact (Hfresh v Hv). }
  eapply bind_run.
  { unfold Program.pushSubroutine. eapply bind_run; [reflexivity|].
    state_cbn. rewrite Hown.
    eapply bind_run; [apply pushFrame_implicit_run|].
    eapply bind_run; [reflexivity|]. eapply bind_run; [reflexivity|].
    eapply bind_run; [|reflexivity].
    state_cbn. rewrite list_lookup_middle by reflexivity. reflexivity. }
  cbn [lengthOpt Z.eqb when].
  eapply bind_run.
  { unfold Program.blockTailCall.
    erewrite ifActive_active by reflexivity.
    eapply onActive_run;
      [reflexivity|state_cbn; apply list_lookup_middle; reflexivity|reflexivity]. }
  eapply bind_run; [reflexivity|].
  eapply bind_run; [apply Hbody|].
  unfold bind at 1.
  erewrite popSubroutine_empty;
    [reflexivity
    |reflexivity
    |state_cbn; apply list_lookup_insert_eq; rewrite length_app; cbn; lia
    |reflexivity].
Qed.

Lemma alias_of_nothing_throws_witness :
  @Compiler.handle sampleEncoding
    (TypeAliasDeclaration 0 12 (ident 5 6 "A") None (OtherNode 9 11)) Program.new
  = Throw "Routine is empty".
Proof.
  apply (@alias_of_nothing_throws sampleEncoding 0 12 (ident 5 6 "A") (OtherNode 9 11)
           Program.new).
  - intros v Hv. destruct Hv.
  - intros q. reflexivity.
Defined.

(** ** A declaration seen from its own body *)

(** X20: a declaration is in scope in its own body.  For a name that is
    new to the current frame, [pushSymbolForRoutine] followed by
    [pushSubroutine] succeeds, makes the new subroutine the active one and
    returns its index; and in the state the body is lowered in, the name
    resolves to the new symbol, whose routine is that active subroutine,
    so that the body can refer to the declaration it belongs to. *)
Theorem declaration_in_scope_of_its_body {enc : Encoding} (name : string) (type : SymbolType.t)
    (pos end_ : Z) (p : Program.t) :
  (forall v, In v (Frame.symbols (Program.frame p)) -> Symbol.name v <> name) ->
  exists (index : Z) (p' : Program.t) (symbol : Symbol.t) (routine : Subroutine.t),
    (Program.pushSymbolForRoutine name type pos end_ ;; Program.pushSubroutine name) p
    = Ok (index, p')
    /\ Program.findSymbol name p' = Some symbol
    /\ Symbol.routine symbol = Some (length (Program.subroutines p))
    /\ Program.activeSubroutines p'
       = length (Program.subroutines p) :: Program.activeSubroutines p
    /\ Program.subroutines p' = Program.subroutines p ++ [routine]
    /\ Subroutine.identifier routine = name
    /\ Subroutine.ops routine = []
    /\ index = Subroutine.index routine
    /\ Frame.previous (Program.frame p')
       = Some (Frame.with_symbols (Frame.symbols (Program.frame p) ++ [symbol])
                 (Program.frame p)).
Proof.
  intros Hfresh.
  pose proof (pushSymbolForRoutine_fresh name type pos end_ p Hfresh) as Hpush.
  cbv zeta in Hpush.
  destruct p as [ops map storage index [c previous id syms] stack subs].
  state_cbn. revert Hpush. state_cbn. intros Hpush.
  set (address := if index =? 0 then 1 + 4 else index) in *.
  set (routine := Subroutine.with_index (size subs)
                    (Subroutine.with_nameAddress address
                       (Subroutine.with_type type (Subroutine.new name)))) in *.
  set (symbol := Symbol.mk name type (size syms) (u32 pos) (u32 end_) 1
                   (Some (length subs)) id) in *.
  assert (Hown : Program.findOwn name (syms ++ [symbol]) = Some symbol).
  { unfold Program.findOwn. rewrite find_app, find_fresh.
    - cbn. rewrite String.eqb_refl. reflexivity.
    - intros v Hv. apply String.eqb_neq. exact (Hfresh v Hv). }
  eexists (Subroutine.index routine), _, symbol, routine. split.
  { eapply bind_run; [exact Hpush|].
    unfold Program.pushSubroutine. eapply bind_run; [reflexivity|].
    state_cbn. rewrite Hown.
    eapply bind_run; [apply pushFrame_implicit_run|].
    eapply bind_run; [reflexivity|]. eapply bind_run; [reflexivity|].
    eapply bind_run; [|reflexivity].
    state_cbn. rewrite list_lookup_middle by reflexivity. reflexivity. }
  state_cbn. split.
  { unfold Program.findSymbol. state_cbn.
    unfold Frame.with_id, Frame.new, Frame.with_symbols.
    cbn [Program.findSymbolFrom Frame.conditional Frame.previous Frame.id Frame.symbols
         rev app List.find].
    rewrite rev_app_distr. cbn [rev app List.find Symbol.name symbol].
    rewrite String.eqb_refl. reflexivity. }
  auto 10.
Qed.

Lemma declaration_in_scope_of_its_body_witness :
  exists (index : Z) (p' : Program.t) (symbol : Symbol.t),
    (Program.pushSymbolForRoutine "A" SymbolType.Type_ 0 10 ;;
     @Program.pushSubroutine sampleEncoding "A") Program.new = Ok (index, p')
    /\ Program.findSymbol "A" p' = Some symbol
    /\ Symbol.routine symbol = Some 0%nat
    /\ Program.activeSubroutines p' = [0%nat].
Proof.
  destruct (@declaration_in_scope_of_its_body sampleEncoding "A" SymbolType.Type_ 0 10
              Program.new)
    as (index & p' & symbol & routine & Hrun & Hfind & Hroutine & Hstack & _).
  - intros v Hv. destruct Hv.
  - exists index, p', symbol. auto.
Defined.

(** ** Every finished subroutine returns *)

Lemma headOnly_refl (p : Program.t) : headOnly p p.
Proof. split; reflexivity. Qed.

Lemma headOnly_trans (p1 p2 p3 : Program.t) : headOnly p1 p2 -> headOnly p2 p3 -> headOnly p1 p3.
Proof.
  intros [A1 A2] [B1 B2]. split; [congruence|]. intros i Hi.
  rewrite B2 by (rewrite A1; exact Hi). apply A2. exact Hi.
Qed.

Lemma headOnly_same (p p' : Program.t) :
  Program.activeSubroutines p' = Program.activeSubroutines p ->
  Program.subroutines p' = Program.subroutines p -> headOnly p p'.
Proof. intros H1 H2. split; [exact H1|]. intros i _. rewrite H2. reflexivity. Qed.

Lemma headOnly_onActive {A : Type} (m : M Subroutine.t A) : Steps headOnly (Program.onActive m).
Proof.
  intros p a p' H. apply onActive_Ok in H as (r & rest & sub & sub' & Hs & _ & _ & ->).
  split; [reflexivity|]. intros i Hi. cbn. apply list_lookup_insert_ne.
  intros ->. apply Hi. rewrite Hs. reflexivity.
Qed.

Lemma headOnly_ifActive (m : M Subroutine.t unit) : Steps headOnly (Program.ifActive m).
Proof.
  intros p a p' H. unfold Program.ifActive in H.
  destruct (Program.activeSubroutines p) eqn:Hs.
  - inversion H; subst. apply headOnly_refl.
  - exact (headOnly_onActive m p a p' H).
Qed.

Lemma headOnly_pushOp {enc : Encoding} (op : OP.t) : Steps headOnly (Program.pushOp op).
Proof.
  intros p a p' H. unfold Program.pushOp in H.
  destruct (Program.activeSubroutines p) eqn:Hs.
  - inversion H; subst. apply headOnly_same; reflexivity.
  - exact (headOnly_onActive _ p a p' H).
Qed.

Lemma headOnly_pushSourceMap (pos end_ : Z) : Steps headOnly (Program.pushSourceMap pos end_).
Proof.
  intros p a p' H. unfold Program.pushSourceMap in H.
  destruct (Program.activeSubroutines p) eqn:Hs.
  - inversion H; subst. apply headOnly_same; reflexivity.
  - exact (headOnly_onActive _ p a p' H).
Qed.

Lemma headOnly_getOPs : Steps headOnly Program.getOPs.
Proof. intros p a p' H. apply getOPs_Ok in H as [-> _]. apply headOnly_refl. Qed.

Lemma headOnly_setOPs (v : list Z) : Steps headOnly (Program.setOPs v).
Proof.
  intros p a p' H. unfold Program.setOPs in H.
  destruct (Program.activeSubroutines p) eqn:Hs.
  - inversion H; subst. apply headOnly_same; reflexivity.
  - exact (headOnly_onActive _ p a p' H).
Qed.

Ltac head_only :=
  rel_steps headOnly_refl headOnly_trans
    ltac:(idtac;
          first [ apply headOnly_getOPs
                | apply headOnly_setOPs
                | apply Steps_modify; intros; apply headOnly_same; reflexivity ]).

Lemma headOnly_pushAddress (address offset : Z) :
  Steps headOnly (Program.pushAddress address offset).
Proof. unfold Program.pushAddress. head_only. Qed.

Lemma headOnly_pushInt32Address (address offset : Z) :
  Steps headOnly (Program.pushInt32Address address offset).
Proof. unfold Program.pushInt32Address. head_only. Qed.

Lemma headOnly_pushUint16 (v offset : Z) : Steps headOnly (Program.pushUint16 v offset).
Proof. unfold Program.pushUint16. head_only. Qed.

Lemma headOnly_pushSymbolAddress (symbol : Symbol.t) :
  Steps headOnly (Program.pushSymbolAddress symbol).
Proof. unfold Program.pushSymbolAddress. head_only. Qed.

Lemma headOnly_pushError {enc : Encoding} (code : ErrorCode.t) (pos end_ : Z) :
  Steps headOnly (Program.pushError code pos end_).
Proof.
  intros p a p' H. rewrite pushError_run in H. inversion H; subst.
  apply headOnly_same; reflexivity.
Qed.

Lemma finishedKept_refl {enc : Encoding} (p : Program.t) : finishedKept p p.
Proof. intros H. exact H. Qed.

Lemma finishedKept_trans {enc : Encoding} (p1 p2 p3 : Program.t) :
  finishedKept p1 p2 -> finishedKept p2 p3 -> finishedKept p1 p3.
Proof. intros A B H. exact (B (A H)). Qed.

Lemma finishedKept_head {enc : Encoding} {A : Type} (m : M Program.t A) :
  Steps headOnly m -> Steps finishedKept m.
Proof.
  intros Hm p a p' H. destruct (Hm p a p' H) as [Hstack Hsubs].
  intros Hf i sub Hi. rewrite Hstack.
  destruct (decide (head (Program.activeSubroutines p) = Some i)) as [Hhead|Hhead].
  - right. left. destruct (Program.activeSubroutines p) as [|r rest]; [discriminate Hhead|].
    cbn in Hhead. inversion Hhead. left. reflexivity.
  - rewrite (Hsubs i Hhead) in Hi. exact (Hf i sub Hi).
Qed.

(** A step that leaves the subroutines alone and does not shorten the
    active stack. *)
Lemma finishedKept_same {enc : Encoding} (p p' : Program.t) :
  Program.subroutines p' = Program.subroutines p ->
  (forall i, In i (Program.activeSubroutines p) -> In i (Program.activeSubroutines p')) ->
  finishedKept p p'.
Proof.
  intros Hsubs Hstack Hf i sub Hi. rewrite Hsubs in Hi.
  destruct (Hf i sub Hi) as [H|[H|H]]; auto.
Qed.

Lemma finishedKept_modify {enc : Encoding} (f : Program.t -> Program.t) :
  (forall p, Program.subroutines (f p) = Program.subroutines p) ->
  (forall p, Program.activeSubroutines (f p) = Program.activeSubroutines p) ->
  Steps finishedKept (modify f).
Proof.
  intros H1 H2. apply Steps_modify. intros p. apply finishedKept_same; [apply H1|].
  rewrite H2. auto.
Qed.

Lemma finishedKept_append {enc : Encoding} (routine : Subroutine.t) :
  Subroutine.ops routine = [] ->
  Steps finishedKept
    (modify (fun p => Program.with_subroutines (Program.subroutines p ++ [routine]) p)).
Proof.
  intros Hops. apply Steps_modify. intros p Hf i sub Hi. cbn in Hi |- *.
  destruct (lookup_snoc_cases _ _ _ _ Hi) as [Hold|[_ ->]]; [exact (Hf i sub Hold)|].
  left. exact Hops.
Qed.

Lemma finishedKept_pushFrame {enc : Encoding} (implicit : bool) :
  Steps finishedKept (Program.pushFrame implicit).
Proof.
  unfold Program.pushFrame. apply (Steps_bind _ finishedKept_trans).
  - apply (Steps_when _ finishedKept_refl). apply finishedKept_head, headOnly_pushOp.
  - intros _. apply finishedKept_modify; reflexivity.
Qed.

Lemma finishedKept_popFrameImplicit {enc : Encoding} :
  Steps finishedKept Program.popFrameImplicit.
Proof.
  apply Steps_modify. intros p.
  destruct (Frame.previous (Program.frame p)); [|apply finishedKept_refl].
  apply finishedKept_same; [reflexivity|auto].
Qed.

Lemma finishedKept_pushSymbol {enc : Encoding} (name : string) (type : SymbolType.t)
    (pos end_ : Z) :
  Steps finishedKept (Program.pushSymbol name type pos end_).
Proof.
  intros p i p' H. apply pushSymbol_frame in H. rewrite H.
  apply finishedKept_same; [reflexivity|auto].
Qed.

Lemma finishedKept_registerStorage {enc : Encoding} (text : string) :
  Steps finishedKept (Program.registerStorage text).
Proof.
  intros p a p' H. rewrite registerStorage_run in H. cbv zeta in H. inversion H; subst.
  apply finishedKept_same; [reflexivity|auto].
Qed.

Ltac finished_kept :=
  rel_steps (@finishedKept_refl _) (@finishedKept_trans _)
    ltac:(idtac;
          first [ apply finishedKept_pushFrame
                | apply finishedKept_popFrameImplicit
                | apply finishedKept_pushSymbol
                | apply finishedKept_registerStorage
                | apply finishedKept_append; reflexivity
                | apply finishedKept_modify; intros; reflexivity
                | apply finishedKept_head, headOnly_onActive
                | apply Steps_modify; intros; apply finishedKept_same;
                  [reflexivity|cbn; intros; right; assumption]
                | intros ? ? ? ?; inv_ok; apply finishedKept_refl ]).

Lemma finishedKept_pushSymbolForRoutine {enc : Encoding} (name : string) (type : SymbolType.t)
    (pos end_ : Z) :
  Steps finishedKept (Program.pushSymbolForRoutine name type pos end_).
Proof. unfold Program.pushSymbolForRoutine, Program.alterFrame. finished_kept. Qed.

Lemma finishedKept_pushSubroutine {enc : Encoding} (name : string) :
  Steps finishedKept (Program.pushSubroutine name).
Proof. unfold Program.pushSubroutine. finished_kept. Qed.

Lemma finishedKept_pushSubroutineNameLess {enc : Encoding} :
  Steps finishedKept Program.pushSubroutineNameLess.
Proof. unfold Program.pushSubroutineNameLess. finished_kept. Qed.

Lemma finishedKept_popSubroutine {enc : Encoding} : Steps finishedKept Program.popSubroutine.
Proof.
  intros p a p' H Hf. unfold Program.popSubroutine in H.
  apply bind_Ok in H as (active & p0 & Hactive & H). apply gets_Ok in Hactive as [-> ->].
  destruct (Program.activeSubroutines p) as [|r rest] eqn:Hs; [discriminate H|].
  apply bind_Ok in H as ([] & p1 & H1 & H).
  apply bind_Ok in H as (ops & p2 & H2 & H).
  destruct ops as [|op ops]; [discriminate H|].
  apply bind_Ok in H as ([] & p3 & H3 & H).
  apply bind_Ok in H as ([] & p4 & H4 & H).
  apply bind_Ok in H as ([] & p5 & H5 & H).
  apply bind_Ok in H as ([] & p6 & H6 & H). apply ret_Ok in H as [-> ->].
  apply modify_Ok in H6. subst p6.
  assert (K1 : headOnly p p1).
  { unfold Program.popFrameImplicit in H1. apply modify_Ok in H1. subst p1.
    destruct (Frame.previous (Program.frame p)); [|apply headOnly_refl].
    apply headOnly_same; reflexivity. }
  pose proof (headOnly_onActive _ _ _ _ H2) as K2.
  pose proof (headOnly_onActive _ _ _ _ H3) as K3.
  pose proof (headOnly_onActive _ _ _ _ H4) as K4.
  pose proof (headOnly_trans _ _ _ K1 (headOnly_trans _ _ _ K2 (headOnly_trans _ _ _ K3 K4)))
    as [Hstack4 Hsubs4].
  rewrite Hs in Hstack4, Hsubs4.
  apply onActive_Ok in H5 as (r' & rest' & sub & sub' & Hs5 & Hr5 & Hrun & ->).
  rewrite Hstack4 in Hs5. inversion Hs5; subst r' rest'.
  apply modify_Ok in Hrun. subst sub'.
  intros i x Hi. cbn in Hi |- *.
  destruct (decide (i = r)) as [->|Hne].
  - rewrite list_lookup_insert_eq in Hi by (eapply lookup_lt_Some; exact Hr5).
    inversion Hi; subst x. right. right. exists (Subroutine.ops sub). reflexivity.
  - rewrite list_lookup_insert_ne in Hi by congruence.
    rewrite Hsubs4 in Hi by (cbn; congruence).
    destruct (Hf i x Hi) as [H|[H|H]]; [left; exact H| |right; right; exact H].
    rewrite Hs in H. destruct H as [H|H]; [congruence|]. right. left. exact H.
Qed.

Lemma handle_finishedKept {enc : Encoding} (node : Node) :
  Steps finishedKept (Compiler.handle node).
Proof.
  apply handle_steps.
  - exact finishedKept_refl.
  - exact finishedKept_trans.
  - intros op. apply finishedKept_head, headOnly_pushOp.
  - intros pos end_. apply finishedKept_head, headOnly_pushSourceMap.
  - exact finishedKept_pushFrame.
  - exact finishedKept_popFrameImplicit.
  - apply finishedKept_modify; reflexivity.
  - exact finishedKept_pushSymbol.
  - exact finishedKept_pushSymbolForRoutine.
  - exact finishedKept_pushSubroutine.
  - exact finishedKept_pushSubroutineNameLess.
  - exact finishedKept_popSubroutine.
  - intros symbol. apply finishedKept_head, headOnly_pushSymbolAddress.
  - intros symbol. apply finishedKept_head, headOnly_ifActive.
  - intros code pos end_. apply finishedKept_head, headOnly_pushError.
  - exact finishedKept_registerStorage.
  - intros address offset. apply finishedKept_head, headOnly_pushAddress.
  - intros address offset. apply finishedKept_head, headOnly_pushInt32Address.
  - intros v offset. apply finishedKept_head, headOnly_pushUint16.
  - apply finishedKept_head, headOnly_ifActive.
  - apply finishedKept_head, headOnly_ifActive.
  - apply finishedKept_head, headOnly_ifActive.
  - apply finishedKept_head, headOnly_ifActive.
Qed.

(** X21: every subroutine of a compiled program returns.  When a source
    file has been compiled, no subroutine is active any more, and the
    buffer of every subroutine ends with the [Return] opcode, unless it is
    empty: a subroutine stays empty when it was created for a declaration
    whose name was already taken, in the same frame, by a symbol without a
    routine, so that the declaration counted as a second one and its body
    was skipped. *)
Theorem compiled_subroutines_return {enc : Encoding} (file : Node) (p : Program.t) :
  Compiler.compileSourceFile file = Ok p ->
  Program.activeSubroutines p = []
  /\ forall (i : nat) (sub : Subroutine.t),
       Program.subroutines p !! i = Some sub ->
       Subroutine.ops sub = []
       \/ exists before, Subroutine.ops sub = before ++ [op_code OP.Return].
Proof.
  unfold Compiler.compileSourceFile. intros H.
  destruct (Compiler.handle file Program.new) as [[[] q]| |] eqn:Hrun; try discriminate H.
  inversion H; subst q. clear H.
  destruct (handle_Down file Program.new tt p Hrun) as (_ & popped & Hlen & Hstack).
  destruct popped; [|discriminate Hlen]. cbn in Hstack.
  split; [congruence|]. intros i sub Hi.
  assert (Hnew : finished Program.new) by (intros j x Hj; destruct j; discriminate Hj).
  destruct (handle_finishedKept file Program.new tt p Hrun Hnew i sub Hi) as [H|[H|H]];
    [left; exact H| |right; exact H].
  rewrite <- Hstack in H. destruct H.
Qed.

Lemma compiled_subroutines_return_witness :
  exists p sub before,
    @Compiler.compileSourceFile sampleEncoding conditionalAlias = Ok p
    /\ Program.activeSubroutines p = []
    /\ Program.subroutines p !! 1%nat = Some sub
    /\ Subroutine.ops sub = before ++ [@op_code sampleEncoding OP.Return].
Proof.
  assert (Hp : exists p sub,
             @Compiler.compileSourceFile sampleEncoding conditionalAlias = Ok p
             /\ Program.subroutines p !! 1%nat = Some sub
             /\ Subroutine.ops sub <> [])
    by (vm_compute; do 2 eexists; split; [reflexivity|]; split; [reflexivity|discriminate]).
  destruct Hp as (p & sub & Hp & Hsub & Hops).
  destruct (@compiled_subroutines_return sampleEncoding conditionalAlias p Hp) as [Hstack Hall].
  destruct (Hall 1%nat sub Hsub) as [Hempty|[before Hbefore]]; [contradiction|].
  exists p, sub, before. auto.
Defined.
